(** * TerrainMapAtlas: a shallow embedding of the tile-atlas engine

    The embedded program is the class [TerrainMapAtlas]: the per-frame
    [update] (trapezoid and viewport/bands strategies), [_ensureZoomState],
    [clear] and the completion handlers of the tile fetches.

    Conventions of the embedding.
    - Tile coordinates, zoom levels, cell sizes and grid sizes are [Z];
      [x | 0] is written out as [toInt32].
    - Lengths in meters, camera coordinates and times are exact rationals
      [Q]; a distance that may be [Infinity] is a [Dist], a number that
      may be missing or not finite an [option].
    - [Map] and [Set] objects are stdpp's [gmap] and [gset].
    - Calls into the external tile source and the GPU are recorded, in
      order, in the [trace] of the [World]. *)

From Stdlib Require Import ZArith QArith Qround Lia List Bool.
From stdpp Require Import base decidable option list gmap fin_maps fin_sets.
From stdpp Require Import strings sorting.
From Stdlib Require Ascii DecimalString DecimalZ DecimalPos.
From Stdlib Require Import Sorted Lqa.

#[local] Open Scope Z_scope.

(** ** JavaScript integer helpers *)

Module Js.

(** [x | 0]: the ToInt32 wrap-around of an integral number. *)
Definition toInt32 (x : Z) : Z :=
  (x + 2147483648) mod 4294967296 - 2147483648.

(** [1 << z] for the zoom levels of the atlas ([0 <= z < 31]). *)
Definition shl1 (z : Z) : Z := toInt32 (Z.shiftl 1 (z mod 32)).

(** [Math.max(a, Math.min(b, v))], the [clamp] helper of [update]. *)
Definition clamp (v a b : Z) : Z := Z.max a (Z.min b v).

End Js.

(** Modelled from the spec: [nextPow2] is imported from [../math/math.js],
    which is not part of the sources at hand.  The spec describes it as the
    "next power-of-two" of its argument, the smallest power of two that
    covers it (for [max(4,3)] it is [4]). *)
Definition nextPow2 (v : Z) : Z :=
  if v <=? 1 then 1 else 2 ^ Z.log2_up v.

(** ** Data model *)

(** [_tileKey(z, x, y)] is the string [t:<scheme>:<z>-<x>-<y>]; for the one
    scheme of a session the key is the triple [(z, x, y)]. *)
Definition TileKey : Type := Z * Z * Z.

Definition _tileKey (z x y : Z) : TileKey := (z, x, y).
Definition keyZoom (k : TileKey) : Z := k.1.1.
(** [String(key).split('-')], parts 1 and 2. *)
Definition keyTileX (k : TileKey) : Z := k.1.2.
Definition keyTileY (k : TileKey) : Z := k.2.

(** A tile texture: an object identity and the pixel size of its image
    ([None] where [tex.image.width] is not a finite number). *)
Record Texture := mkTexture {
  tex_id : nat;
  tex_width : option Z;
  tex_height : option Z
}.

#[global] Instance Texture_eq_dec : EqDecision Texture.
Proof. solve_decision. Defined.

(** The [MeshBasicMaterial] of one atlas cell. *)
Record Material := mkMaterial {
  mat_map : option Texture;
  mat_opacity : Z;
  mat_transparent : bool;
  mat_needsUpdate : bool
}.

Definition blankMaterial : Material :=
  {| mat_map := None; mat_opacity := 0; mat_transparent := true;
     mat_needsUpdate := false |}.

Record Grid := mkGrid {
  originX : Z;
  originY : Z;
  gridSize : Z
}.

#[global] Instance Grid_eq_dec : EqDecision Grid.
Proof. solve_decision. Defined.

(** One [ZoomLevelState].  [rt] is the identity of its render target;
    [loads] maps a key to the identity of its in-flight promise. *)
Record ZoomState := mkZoomState {
  zs_z : Z;
  grid : Grid;
  cellSize : Z;
  rt : nat;
  useMipmaps : bool;
  meshes : list Material;
  loads : gmap TileKey nat;
  activeKeys : gset TileKey;
  dirty : bool;
  textures : gmap TileKey Texture
}.

(** The camera pose remembered by the debounce gate. *)
Record View := mkView {
  vx : Q; vy : Q; vz : Q;
  qx : Q; qy : Q; qz : Q; qw : Q
}.

(** [this._opts], as far as [update] reads it. *)
Record Opts := mkOpts {
  mapDrapeAtlasMipmaps : bool;
  mapDrapeAtlasMaxNewLoadsPerTick : Z;
  mapDrapeAtlasOuterRingTiles : Z
}.

(** Calls that leave the atlas: the tile source and the GPU. *)
Inductive Event :=
| EvPin (z : Z) (k : TileKey)
| EvUnpin (z : Z) (k : TileKey)
| EvFetch (z : Z) (k : TileKey) (promise : nat)
| EvAllocRT (z : Z) (id : nat) (sizePx : Z)
| EvDisposeRT (z : Z) (id : nat)
| EvRender (z : Z).

#[global] Instance Event_eq_dec : EqDecision Event.
Proof. solve_decision. Defined.

(** A fetch that has been issued and has not settled yet.  Its handlers
    close over the [_state] object of the frame that issued it: [p_gen] is
    the identity of that object. *)
Record Pending := mkPending {
  p_id : nat;
  p_gen : nat;
  p_z : Z;
  p_key : TileKey;
  p_tileX : Z;
  p_tileY : Z
}.

#[global] Instance Pending_eq_dec : EqDecision Pending.
Proof. solve_decision. Defined.

(** [this._state]. *)
Record Atlas := mkAtlas {
  byZoom : gmap Z ZoomState;
  lastUpdate : Q;
  pendingCellSizeByZoom : gmap Z Z;
  lastView : option View;
  lastMoveAt : option Q
}.

(** What [clear] and the constructor assign to [this._state]. *)
Definition freshAtlas : Atlas :=
  {| byZoom := ∅; lastUpdate := 0%Q; pendingCellSizeByZoom := ∅;
     lastView := None; lastMoveAt := None |}.

(** The object [this] and its surroundings: the current [_state] object and
    its identity [generation], [_opts], [terrain.tileConfig.tileSize ?? 256],
    the promises in flight and the trace of outgoing calls. *)
Record World := mkWorld {
  atlas : Atlas;
  generation : nat;
  opts : Opts;
  tileSize : Z;
  nextId : nat;
  inflight : list Pending;
  trace : list Event
}.

Definition defaultOpts : Opts :=
  {| mapDrapeAtlasMipmaps := true;
     mapDrapeAtlasMaxNewLoadsPerTick := 32;
     mapDrapeAtlasOuterRingTiles := 1 |}.

(** The atlas right after the constructor. *)
Definition newWorld : World :=
  {| atlas := freshAtlas; generation := 0%nat; opts := defaultOpts;
     tileSize := 256; nextId := 0%nat; inflight := []; trace := [] |}.

Definition setAtlas (a : Atlas) (w : World) : World :=
  {| atlas := a; generation := generation w; opts := opts w;
     tileSize := tileSize w; nextId := nextId w; inflight := inflight w;
     trace := trace w |}.

Definition setByZoom (m : gmap Z ZoomState) (w : World) : World :=
  setAtlas {| byZoom := m; lastUpdate := lastUpdate (atlas w);
              pendingCellSizeByZoom := pendingCellSizeByZoom (atlas w);
              lastView := lastView (atlas w);
              lastMoveAt := lastMoveAt (atlas w) |} w.

Definition setPending (m : gmap Z Z) (w : World) : World :=
  setAtlas {| byZoom := byZoom (atlas w); lastUpdate := lastUpdate (atlas w);
              pendingCellSizeByZoom := m;
              lastView := lastView (atlas w);
              lastMoveAt := lastMoveAt (atlas w) |} w.

Definition setOpts (o : Opts) (w : World) : World :=
  {| atlas := atlas w; generation := generation w; opts := o;
     tileSize := tileSize w; nextId := nextId w; inflight := inflight w;
     trace := trace w |}.

Definition setInflight (l : list Pending) (w : World) : World :=
  {| atlas := atlas w; generation := generation w; opts := opts w;
     tileSize := tileSize w; nextId := nextId w; inflight := l;
     trace := trace w |}.

Definition emit (e : Event) (w : World) : World :=
  {| atlas := atlas w; generation := generation w; opts := opts w;
     tileSize := tileSize w; nextId := nextId w; inflight := inflight w;
     trace := trace w ++ [e] |}.

Definition emitAll (es : list Event) (w : World) : World :=
  {| atlas := atlas w; generation := generation w; opts := opts w;
     tileSize := tileSize w; nextId := nextId w; inflight := inflight w;
     trace := trace w ++ es |}.

Definition freshId (w : World) : nat * World :=
  (nextId w,
   {| atlas := atlas w; generation := generation w; opts := opts w;
      tileSize := tileSize w; nextId := S (nextId w); inflight := inflight w;
      trace := trace w |}).

(** The state object registered for zoom [z], [atlas.byZoom.get(z)]. *)
Definition stateAt (z : Z) (w : World) : option ZoomState :=
  byZoom (atlas w) !! z.

(** Writing a field of a state object that is registered under [z]. *)
Definition putState (z : Z) (st : ZoomState) (w : World) : World :=
  setByZoom (<[z := st]> (byZoom (atlas w))) w.

Definition withActiveKeys (ks : gset TileKey) (s : ZoomState) : ZoomState :=
  {| zs_z := zs_z s; grid := grid s; cellSize := cellSize s; rt := rt s;
     useMipmaps := useMipmaps s; meshes := meshes s; loads := loads s;
     activeKeys := ks; dirty := dirty s; textures := textures s |}.

Definition withLoads (l : gmap TileKey nat) (s : ZoomState) : ZoomState :=
  {| zs_z := zs_z s; grid := grid s; cellSize := cellSize s; rt := rt s;
     useMipmaps := useMipmaps s; meshes := meshes s; loads := l;
     activeKeys := activeKeys s; dirty := dirty s; textures := textures s |}.

Definition withTextures (t : gmap TileKey Texture) (s : ZoomState)
    : ZoomState :=
  {| zs_z := zs_z s; grid := grid s; cellSize := cellSize s; rt := rt s;
     useMipmaps := useMipmaps s; meshes := meshes s; loads := loads s;
     activeKeys := activeKeys s; dirty := dirty s; textures := t |}.

Definition withDirty (d : bool) (s : ZoomState) : ZoomState :=
  {| zs_z := zs_z s; grid := grid s; cellSize := cellSize s; rt := rt s;
     useMipmaps := useMipmaps s; meshes := meshes s; loads := loads s;
     activeKeys := activeKeys s; dirty := d; textures := textures s |}.

(** [mat.map = ...; mat.opacity = ...; ...; st.dirty = true] on cell [idx]. *)
Definition withCell (idx : nat) (m : Material) (s : ZoomState) : ZoomState :=
  {| zs_z := zs_z s; grid := grid s; cellSize := cellSize s; rt := rt s;
     useMipmaps := useMipmaps s; meshes := <[idx := m]> (meshes s);
     loads := loads s; activeKeys := activeKeys s; dirty := true;
     textures := textures s |}.

(** ** [_ensureZoomState] *)

(** The cells of a fresh render target, row by row: [gridSize] squared blank
    materials (none when [gridSize <= 0]). *)
Definition blankMeshes (g : Z) : list Material :=
  replicate (Z.to_nat g * Z.to_nat g) blankMaterial.

Definition gridChanged (st : option ZoomState) (g : Grid) : bool :=
  match st with
  | None => true
  | Some s =>
      negb (originX (grid s) =? originX g)
      || negb (originY (grid s) =? originY g)
      || negb (gridSize (grid s) =? gridSize g)
  end.

(** [!st?.cellSize || st.cellSize !== cellSize]: a cell size of [0] is
    falsy. *)
Definition cellChanged (st : option ZoomState) (cell : Z) : bool :=
  match st with
  | None => true
  | Some s => (cellSize s =? 0) || negb (cellSize s =? cell)
  end.

(** [cellSizePx] is [None] when it is not a finite number. *)
Definition normCellSize (w : World) (cellSizePx : option Z) : Z :=
  match cellSizePx with
  | Some c => Z.max 1 (Js.toInt32 c)
  | None => Js.toInt32 (tileSize w)
  end.

(** The state that [_ensureZoomState] builds when it recreates: new render
    target [id] and blank cells, the bookkeeping of [old] carried over. *)
Definition recreatedState (z : Z) (g : Grid) (cell : Z) (id : nat)
    (mip : bool) (old : option ZoomState) : ZoomState :=
  {| zs_z := z; grid := g; cellSize := cell; rt := id; useMipmaps := mip;
     meshes := blankMeshes (gridSize g);
     loads := from_option loads ∅ old;
     activeKeys := from_option activeKeys ∅ old;
     dirty := true;
     textures := from_option textures ∅ old |}.

Definition _ensureZoomState (z : Z) (g : Grid) (cellSizePx : option Z)
    (w : World) : ZoomState * World :=
  let cell := normCellSize w cellSizePx in
  let st := stateAt z w in
  match st with
  | Some s =>
      if gridChanged st g || cellChanged st cell then
        let w1 := emit (EvDisposeRT z (rt s)) w in
        let '(id, w2) := freshId w1 in
        let w3 := emit (EvAllocRT z id (Z.max 1 (gridSize g) * cell)) w2 in
        let st' := recreatedState z g cell id
                     (mapDrapeAtlasMipmaps (opts w)) st in
        (st', putState z st' w3)
      else (s, w)
  | None =>
      let '(id, w2) := freshId w in
      let w3 := emit (EvAllocRT z id (Z.max 1 (gridSize g) * cell)) w2 in
      let st' := recreatedState z g cell id
                   (mapDrapeAtlasMipmaps (opts w)) None in
      (st', putState z st' w3)
  end.

(** ** Disposal of zoom states and [clear] *)

(** The block repeated throughout [update]:
[[
    const stOld = atlas.byZoom.get(z);
    if (stOld) {
        if (tiles) for (const key of stOld.activeKeys) tiles.unpin?.(key);
        atlas.byZoom.delete(z);
        try { stOld.rt?.dispose?.(); } catch {}
    }
]]
    [tiles] tells whether [this._tiles()] returned a tile source. *)
Definition disposeZoom (tiles : bool) (z : Z) (w : World) : World :=
  match stateAt z w with
  | Some stOld =>
      let w1 := if tiles
                then emitAll (EvUnpin z <$> elements (activeKeys stOld)) w
                else w in
      let w2 := setByZoom (delete z (byZoom (atlas w1))) w1 in
      emit (EvDisposeRT z (rt stOld)) w2
  | None => w
  end.

(** The loop of [clear] over one entry of [byZoom]: unpin, release the
    render target; the entry itself stays in the map that is being
    abandoned. *)
Definition clearEntry (tiles : bool) (w : World) (e : Z * ZoomState) : World :=
  let w1 := if tiles
            then emitAll (EvUnpin e.1 <$> elements (activeKeys e.2)) w
            else w in
  emit (EvDisposeRT e.1 (rt e.2)) w1.

(** [clear()]: every state is released and [this._state] becomes a new
    object, so handlers of earlier fetches keep pointing at the old one. *)
Definition clear (tiles : bool) (w : World) : World :=
  let w1 := fold_left (clearEntry tiles) (map_to_list (byZoom (atlas w))) w in
  {| atlas := freshAtlas; generation := S (generation w1); opts := opts w1;
     tileSize := tileSize w1; nextId := nextId w1; inflight := inflight w1;
     trace := trace w1 |}.

(** ** Candidates and the atlas grid *)

(** A candidate tile of one frame: [{ key, tileX, tileY, rectDist }]. *)
Record Candidate := mkCandidate {
  c_key : TileKey;
  c_tileX : Z;
  c_tileY : Z;
  c_rectDist : Q
}.

(** [arr.sort((a, b) => a.rectDist - b.rectDist)]: a stable sort by
    ascending distance. *)
Fixpoint insertBy {A : Type} (dist : A -> Q) (c : A) (l : list A) : list A :=
  match l with
  | [] => [c]
  | d :: l' =>
      if Qle_bool (dist d) (dist c)
      then d :: insertBy dist c l'
      else c :: l
  end.

Definition sortBy {A : Type} (dist : A -> Q) (l : list A) : list A :=
  fold_left (fun acc c => insertBy dist c acc) l [].

Definition sortByDist (l : list Candidate) : list Candidate :=
  sortBy c_rectDist l.

(** The bounding tile extent of a non-empty candidate list, as the
    [minTX/minTY/maxTX/maxTY] loop computes it. *)
Record Extent := mkExtent { minTX : Z; minTY : Z; maxTX : Z; maxTY : Z }.

Definition extentStep (e : Extent) (c : Candidate) : Extent :=
  {| minTX := if c_tileX c <? minTX e then c_tileX c else minTX e;
     minTY := if c_tileY c <? minTY e then c_tileY c else minTY e;
     maxTX := if maxTX e <? c_tileX c then c_tileX c else maxTX e;
     maxTY := if maxTY e <? c_tileY c then c_tileY c else maxTY e |}.

(** Starting from [Infinity]/[-Infinity] the first candidate sets all four
    bounds; the list is never empty where the loop runs. *)
Definition extentOf (c0 : Candidate) (rest : list Candidate) : Extent :=
  fold_left extentStep rest
    {| minTX := c_tileX c0; minTY := c_tileY c0;
       maxTX := c_tileX c0; maxTY := c_tileY c0 |}.

Definition extentW (e : Extent) : Z := maxTX e - minTX e + 1.
Definition extentH (e : Extent) : Z := maxTY e - minTY e + 1.

(** [wantsMipmaps ? nextPow2(Math.max(w, h)) : Math.max(w, h)]. *)
Definition baseGridSize (wantsMipmaps : bool) (e : Extent) : Z :=
  if wantsMipmaps then nextPow2 (Z.max (extentW e) (extentH e))
  else Z.max (extentW e) (extentH e).

(** [clampOrigin = (o) => Math.max(0, Math.min(n - gridSize, o))]. *)
Definition clampOrigin (n gs o : Z) : Z := Z.max 0 (Z.min (n - gs) o).

(** One axis of the origin choice: centred on the camera tile, then pulled
    over the candidate bounds [lo..hi]. *)
Definition pickOrigin (n gs center lo hi : Z) : Z :=
  let o0 := clampOrigin n gs (center - gs / 2) in
  let o1 := if lo <? o0 then clampOrigin n gs lo else o0 in
  if o1 + gs - 1 <? hi then clampOrigin n gs (hi - gs + 1) else o1.

Definition pickGrid (n gs : Z) (center : Z * Z) (e : Extent) : Grid :=
  {| originX := pickOrigin n gs center.1 (minTX e) (maxTX e);
     originY := pickOrigin n gs center.2 (minTY e) (maxTY e);
     gridSize := gs |}.

(** The grid of the trapezoid strategy ([lines 873-883]). *)
Definition trapezoidGrid (wantsMipmaps : bool) (z : Z) (center : Z * Z)
    (e : Extent) : Grid :=
  pickGrid (Js.shl1 z) (baseGridSize wantsMipmaps e) center e.

(** [maxRTSize]: the smaller of the renderer's render-target and texture
    limits where they are finite and positive, [4096] otherwise. *)
Definition maxRTSize (maxRenderTargetSize maxTextureSize : option Z) : Z :=
  let pos (o : option Z) :=
    match o with Some v => if 0 <? v then Some v else None | None => None end in
  match pos maxRenderTargetSize, pos maxTextureSize with
  | Some a, Some b => Z.min a b
  | Some a, None => a
  | None, Some b => b
  | None, None => 4096
  end.

(** [while ((p << 1) <= raw) p <<= 1], at most 31 doublings. *)
Fixpoint pow2Below (fuel : nat) (p raw : Z) : Z :=
  match fuel with
  | O => p
  | S f => if 2 * p <=? raw then pow2Below f (2 * p) raw else p
  end.

Definition maxGridForCell (wantsMipmaps : bool) (maxRT cellSizePx : Z) : Z :=
  let cell := Z.max 1 (Js.toInt32 cellSizePx) in
  let raw := Z.max 1 (maxRT / cell) in
  if wantsMipmaps then Z.max 1 (pow2Below 31 1 raw) else raw.

(** The grid of the viewport/bands strategy ([lines 1750-1761]): the same
    choice, capped by [maxGridSize]. *)
Definition viewportGridSize (wantsMipmaps : bool) (maxGridSize : Z)
    (e : Extent) : Z :=
  let gs := baseGridSize wantsMipmaps e in
  if maxGridSize <? gs then maxGridSize else gs.

Definition viewportGrid (wantsMipmaps : bool) (maxGridSize z : Z)
    (center : Z * Z) (e : Extent) : Grid :=
  pickGrid (Js.shl1 z) (viewportGridSize wantsMipmaps maxGridSize e) center e.

(** [ix], [iy] and the bounds test, then [idx = iy * gridSize + ix]. *)
Definition cellIndex (g : Grid) (tx ty : Z) : option nat :=
  let ix := tx - originX g in
  let iy := ty - originY g in
  if (ix <? 0) || (iy <? 0) || (gridSize g <=? ix) || (gridSize g <=? iy)
  then None
  else Some (Z.to_nat (iy * gridSize g + ix)).

(** ** Configuration and per-frame inputs *)

Inductive LodMode := Trapezoid | Viewport | Bands.

(** [terrain.config] and [terrain.tileConfig] as [update] reads them; a
    field is [None] where [Number.isFinite] fails (or, for
    [cfgAtlasMipmaps], where the option is [undefined]). *)
Record Config := mkConfig {
  mapDrapeShaderPatchEnabled : bool;
  cfgAtlasMipmaps : option bool;
  mapDrapeEnableBelowOrEqualHeightMeters : option Q;
  mapDrapeNearMeters : option Q;
  lod_updateMs : option Q;
  mapDrapePatchUpdateMs : option Q;
  lod_debounce_ms : option Q;
  lod_debounce_moveMeters : option Q;
  lod_debounce_heightMeters : option Q;
  lod_debounce_angleDeg : option Q;
  mapDrapeDebounceMs : option Q;
  mapDrapeDebounceMoveMeters : option Q;
  mapDrapeDebounceHeightMeters : option Q;
  mapDrapeDebounceAngleDeg : option Q;
  mapDrapeSkipTileLoad : bool;
  mapDrapeAtlasCellSizeByZoom : Z -> option Z;
  mapDrapeAtlasCellSize : option Z;
  lodMode : LodMode;
  tc_maxMapZoom : option Z;
  lod_maxZoom : option Z;
  lod_minZoom : option Z;
  mapDrapeAtlasMinZoom : option Z;
  mapDrapePatchBands : option (list (option Z));
  mapDrapeBaseZoom : option Z;
  tc_mapDrapeBaseZoom : option Z;
  lod_viewportPadTiles : option Z;
  mapDrapeViewportPadTiles : option Z;
  tc_mapDrapeViewportPadTiles : option Z;
  mapDrapeLodMaxTiles : option Z;
  mapDrapeLodMaxWork : option Z;
  mapDrapeLodErrorScale : option Q
}.

(** A distance in meters that may be [Infinity]. *)
Inductive Dist := Finite (d : Q) | Infinite.

(** The camera's projection, as [desiredZoomForDistance] looks at it.
    [Math.tan(fovRad / 2)] is supplied as [tanHalfFov]; [fovInRange] is the
    test [fovRad > 1e-6 && fovRad < Math.PI - 1e-6]. *)
Inductive Projection :=
| Orthographic (frustumHMeters : Q)
| Perspective (fovInRange : bool) (tanHalfFov : Q).

(** What the viewport/bands strategy derives from the camera before it
    reconciles the zoom states: the zoom range, which zooms have lost their
    coverage, and for every zoom the candidates its scan (with the outer
    ring) produced. *)
Record ViewportPlan := mkViewportPlan {
  minTileZoom : Z;
  maxTileZoom : Z;
  vp_noCoverage : Z -> bool;
  vp_rangePositive : Z -> bool;
  vp_candidates : Z -> list Candidate;
  maxRenderTargetSize : option Z;
  maxTextureSize : option Z
}.

(** One call of [update(camera)]: the clock, the camera and what the
    terrain host, the projection utility and three.js answer in this
    frame. *)
Record Frame := mkFrame {
  now : Q;
  tiles : bool;
  camera : View;
  unitsToMeters : Q -> Q;
  rotationDeg : Q -> Q;
  camMerc : option (Q * Q);
  cameraHeight : Q;
  projection : Projection;
  viewportH : Q;
  topZoomByViewRaw : option Z;
  maxRangeMeters : Q;
  hasCenterMercator : bool;
  cornerHits : list (option (Q * Q));
  mercatorToTileXY : Q -> Q -> Z -> option (Z * Z);
  tileRectDist : Z -> Z -> Z -> Q;
  tileVisible : Z -> Z -> Z -> bool;
  tileDist3D : Z -> Z -> Z -> Dist;
  plan : ViewportPlan
}.

(** ** Cell sizes *)

Definition getCellSizeOverride (cfg : Config) (z : Z) : option Z :=
  match mapDrapeAtlasCellSizeByZoom cfg z with
  | Some v => Some v
  | None => mapDrapeAtlasCellSize cfg
  end.

Definition hasCellSizeOverride (cfg : Config) (z : Z) : bool :=
  bool_decide (is_Some (getCellSizeOverride cfg z)).

Definition clampCell (v : Z) : Z := Z.max 32 (Z.min 2048 (Js.toInt32 v)).

Definition resolveCellSize (cfg : Config) (z fallback : Z) : Z :=
  match getCellSizeOverride cfg z with
  | Some ov => clampCell ov
  | None => clampCell fallback
  end.

(** [a || b] on numbers: [0] and [undefined] are falsy. *)
Definition orElse (a : option Z) (b : Z) : Z :=
  match a with
  | Some v => if v =? 0 then b else v
  | None => b
  end.

(** [atlas.pendingCellSizeByZoom.get(z) || atlas.byZoom.get(z)?.cellSize
     || (this.terrain?.tileConfig?.tileSize ?? 256)]. *)
Definition cellSizeFallback (z : Z) (w : World) : Z :=
  orElse (pendingCellSizeByZoom (atlas w) !! z)
         (orElse (cellSize <$> stateAt z w) (tileSize w)).

Definition desiredCellSizeAt (cfg : Config) (z : Z) (w : World) : Z :=
  resolveCellSize cfg z (cellSizeFallback z w).

(** [_getCellSizeFromTexture]. *)
Definition _getCellSizeFromTexture (tex : Texture) : option Z :=
  let pos (o : option Z) :=
    match o with Some v => if 0 <? v then Some v else None | None => None end in
  match pos (tex_width tex), pos (tex_height tex) with
  | Some s, _ => Some (Z.max 64 (Z.min 2048 (Js.toInt32 s)))
  | None, Some s => Some (Z.max 64 (Z.min 2048 (Js.toInt32 s)))
  | None, None => None
  end.

(** ** Reconciling one zoom state with its candidates *)

(** The two loops over [st.activeKeys] and [desiredKeys] and the assignment
    [st.activeKeys = desiredKeys]. *)
Definition droppedKeys (st : ZoomState) (desiredKeys : gset TileKey)
    : list TileKey :=
  filter (fun k => k ∉ desiredKeys) (elements (activeKeys st)).

Definition addedKeys (st : ZoomState) (desiredKeys : gset TileKey)
    : list TileKey :=
  filter (fun k => k ∉ activeKeys st) (elements desiredKeys).

Definition reconcilePins (tiles : bool) (z : Z) (desiredKeys : gset TileKey)
    (st : ZoomState) (w : World) : ZoomState * World :=
  let w1 := if tiles
            then emitAll ((EvUnpin z <$> droppedKeys st desiredKeys)
                            ++ (EvPin z <$> addedKeys st desiredKeys)) w
            else w in
  (withActiveKeys desiredKeys st, w1).

(** A cell is cleared to transparent when its tile is no longer desired. *)
Definition isBlank (m : Material) : bool :=
  bool_decide (mat_map m = None) && (mat_opacity m =? 0)
  && mat_transparent m.

Definition clearedMaterial : Material :=
  {| mat_map := None; mat_opacity := 0; mat_transparent := true;
     mat_needsUpdate := true |}.

Definition boundMaterial (tex : Texture) : Material :=
  {| mat_map := Some tex; mat_opacity := 1; mat_transparent := false;
     mat_needsUpdate := true |}.

Definition isBoundTo (tex : Texture) (m : Material) : bool :=
  bool_decide (mat_map m = Some tex) && (mat_opacity m =? 1)
  && negb (mat_transparent m).

(** The body of the loop over [st.textures.keys()] for one key that is not
    desired any more (the deletion itself is done by [dropTextures]). *)
Definition clearCell (st : ZoomState) (key : TileKey) : ZoomState :=
  match cellIndex (grid st) (keyTileX key) (keyTileY key) with
  | None => st
  | Some idx =>
      match meshes st !! idx with
      | None => st
      | Some mat => if isBlank mat then st else withCell idx clearedMaterial st
      end
  end.

Definition staleTextureKeys (st : ZoomState) (desiredKeys : gset TileKey)
    : list TileKey :=
  filter (fun k => k ∉ desiredKeys) (elements (dom (textures st))).

Definition dropTextures (desiredKeys : gset TileKey) (st : ZoomState)
    : ZoomState :=
  let stale := staleTextureKeys st desiredKeys in
  let st1 := withTextures
               (filter (fun kv => kv.1 ∈ desiredKeys) (textures st)) st in
  fold_left clearCell stale st1.

(** [this._renderZoom(st); st.dirty = false] when [st.dirty]. *)
Definition renderIfDirty (z : Z) (st : ZoomState) (w : World)
    : ZoomState * World :=
  if dirty st then (withDirty false st, emit (EvRender z) w) else (st, w).

(** The fetch itself: [tiles?.getTileTexture(...)] and, when it gave a
    promise, [st.loads.set(c.key, p)]. *)
Definition issueFetch (tiles : bool) (z : Z) (c : Candidate)
    (st : ZoomState) (w : World) : ZoomState * World :=
  if tiles then
    let '(id, w1) := freshId w in
    let p := {| p_id := id; p_gen := generation w; p_z := z;
                p_key := c_key c; p_tileX := c_tileX c;
                p_tileY := c_tileY c |} in
    let w2 := emit (EvFetch z (c_key c) id)
                (setInflight (inflight w1 ++ [p]) w1) in
    (withLoads (<[c_key c := id]> (loads st)) st, w2)
  else (st, w).

Definition bindExisting (idx : nat) (mat : Material) (existing : Texture)
    (st : ZoomState) : ZoomState :=
  if isBoundTo existing mat then st
  else withCell idx (boundMaterial existing) st.

(** The accumulator of the issue loops: the counter [issued], the state
    object and the world. *)
Definition IssueAcc : Type := Z * ZoomState * World.

(** One round of the issue loop of the trapezoid strategy
    ([lines 927-985]). *)
Definition issueStepTrapezoid (tiles : bool) (maxNewLoadsPerTick z : Z)
    (desiredKeys : gset TileKey) (acc : IssueAcc) (c : Candidate)
    : IssueAcc :=
  let '(issued, st, w) := acc in
  if negb (bool_decide (c_key c ∈ desiredKeys)) then acc
  else if bool_decide (is_Some (loads st !! c_key c)) then acc
  else
    match cellIndex (grid st) (c_tileX c) (c_tileY c) with
    | None => acc
    | Some idx =>
        match meshes st !! idx with
        | None => acc
        | Some mat =>
            match textures st !! c_key c with
            | Some existing => (issued, bindExisting idx mat existing st, w)
            | None =>
                if maxNewLoadsPerTick <=? issued then acc
                else
                  let '(st', w') := issueFetch tiles z c st w in
                  (issued + 1, st', w')
            end
        end
    end.

(** A cell of the viewport strategy: [{ idx, key, tileX, tileY, rectDist }]. *)
Definition cellInfosOf (g : Grid) (cands : list Candidate)
    : list (nat * Candidate) :=
  omap (fun c => match cellIndex g (c_tileX c) (c_tileY c) with
                 | Some idx => Some (idx, c)
                 | None => None
                 end) cands.

(** One round of the issue loop of the viewport strategy
    ([lines 1816-1868]). *)
Definition issueStepViewport (tiles : bool) (maxNewLoadsPerTick z : Z)
    (acc : IssueAcc) (ci : nat * Candidate) : IssueAcc :=
  let '(issued, st, w) := acc in
  let '(idx, c) := ci in
  match meshes st !! idx with
  | None => acc
  | Some mat =>
      match textures st !! c_key c with
      | Some existing => (issued, bindExisting idx mat existing st, w)
      | None =>
          if bool_decide (is_Some (loads st !! c_key c)) then acc
          else if maxNewLoadsPerTick <=? issued then acc
          else
            let '(st', w') := issueFetch tiles z c st w in
            (issued + 1, st', w')
      end
  end.

(** ** Rational helpers *)

Definition qlt (a b : Q) : bool := negb (Qle_bool b a).
Definition qmin (a b : Q) : Q := if qlt b a then b else a.
Definition qmax (a b : Q) : Q := if qlt a b then b else a.

(** [2 * Math.PI * 6378137], the value of the double. *)
Definition WORLD : Q := 40075016685578488 # 1000000000.

(** [Math.ceil(Math.log2(x))] for a positive [x]: the least [z] with
    [x <= 2^z]. *)
Definition ceilLog2 (x : Q) : Z :=
  if Qle_bool 1 x then Z.log2_up (Qceiling x) else - Z.log2 (Qfloor (/ x)).

(** ** The zoom range of the trapezoid strategy *)

Definition MAX_ATLAS_ZOOM : Z := 18.

Definition int32Or (o : option Z) (d : Z) : Z :=
  match o with Some v => Js.toInt32 v | None => d end.

Definition atlasMinZoom (cfg : Config) : Z :=
  let minZoomCfg :=
    int32Or (lod_minZoom cfg) (int32Or (mapDrapeAtlasMinZoom cfg) 5) in
  Z.max 2 (Z.min MAX_ATLAS_ZOOM minZoomCfg).

Definition atlasMaxZoom (cfg : Config) : Z :=
  let maxMapZoomCfg := int32Or (tc_maxMapZoom cfg) MAX_ATLAS_ZOOM in
  let maxZoomCfg := int32Or (lod_maxZoom cfg) maxMapZoomCfg in
  Z.max (atlasMinZoom cfg) (Z.min MAX_ATLAS_ZOOM maxZoomCfg).

Definition topZoomCfg (cfg : Config) : Z :=
  let raw :=
    match mapDrapePatchBands cfg with
    | Some bands =>
        fold_left (fun top b => match b with
                                | Some z => Z.max top (Js.toInt32 z)
                                | None => top
                                end) bands (atlasMinZoom cfg)
    | None => atlasMaxZoom cfg
    end in
  Js.clamp (Js.toInt32 raw) (atlasMinZoom cfg) (atlasMaxZoom cfg).

Definition topZoomByView (cfg : Config) (f : Frame) : option Z :=
  match topZoomByViewRaw f with
  | Some z => Some (Js.clamp (Js.toInt32 z) (atlasMinZoom cfg)
                      (atlasMaxZoom cfg))
  | None => None
  end.

Definition topZoomOf (cfg : Config) (f : Frame) : Z :=
  match topZoomByView cfg f with
  | Some v => Z.min (topZoomCfg cfg) v
  | None => topZoomCfg cfg
  end.

Definition minZoomOf (cfg : Config) (f : Frame) : Z :=
  let baseZoomCfg :=
    int32Or (mapDrapeBaseZoom cfg)
      (int32Or (tc_mapDrapeBaseZoom cfg) (atlasMinZoom cfg)) in
  let minZoom := Js.clamp baseZoomCfg (atlasMinZoom cfg) (topZoomOf cfg f) in
  let minZoomSlots := Z.max (atlasMinZoom cfg) (topZoomOf cfg f - 3) in
  if minZoom <? minZoomSlots then minZoomSlots else minZoom.

(** ** [desiredZoomForDistance] *)

Definition zoomErrorScale (cfg : Config) : Q :=
  match mapDrapeLodErrorScale cfg with
  | Some s => qmax (1 # 4) s
  | None => 1%Q
  end.

(** [Math.max(1, Number(distMeters) || 1)]. *)
Definition effectiveDist (d : Dist) : Dist :=
  match d with
  | Finite q => Finite (qmax 1 (if Qeq_bool q 0 then 1%Q else q))
  | Infinite => Infinite
  end.

(** [metersPerPixel] before the error scale; [None] where the source keeps
    [null] or computes a non-finite number.  [viewportH] is never [0]. *)
Definition metersPerPixel (f : Frame) (d : Dist) : option Q :=
  match projection f with
  | Orthographic frustumH =>
      if qlt 0 frustumH then Some (frustumH / viewportH f)%Q else None
  | Perspective fovInRange tanHalfFov =>
      if fovInRange then
        match d with
        | Finite q => Some ((2 * q * tanHalfFov) / viewportH f)%Q
        | Infinite => None
        end
      else None
  end.

(** [WORLD / (256 * metersPerPixel)] after [metersPerPixel *=
    zoomErrorScale]. *)
Definition zoomQuotient (scale mpp : Q) : Q :=
  (WORLD / (256 * (mpp * scale)))%Q.

Definition desiredZoomFrom (minZoom topZoom : Z) (scale : Q) (f : Frame)
    (distMeters : Dist) : Z :=
  match metersPerPixel f (effectiveDist distMeters) with
  | None => minZoom
  | Some mpp =>
      if Qle_bool mpp 0 then minZoom
      else
        let z := ceilLog2 (zoomQuotient scale mpp) in
        Js.clamp (Js.toInt32 z) minZoom topZoom
  end.

Definition desiredZoomForDistance (cfg : Config) (f : Frame)
    (distMeters : Dist) : Z :=
  desiredZoomFrom (minZoomOf cfg f) (topZoomOf cfg f) (zoomErrorScale cfg) f
    distMeters.

(** ** The trapezoid strategy: viewport bounds and the refinement loop *)

Record MercBounds := mkMercBounds {
  mbMinX : Q; mbMinY : Q; mbMaxX : Q; mbMaxY : Q
}.

Definition rangeSquare (cm : Q * Q) (r : Q) : MercBounds :=
  {| mbMinX := (cm.1 - r)%Q; mbMinY := (cm.2 - r)%Q;
     mbMaxX := (cm.1 + r)%Q; mbMaxY := (cm.2 + r)%Q |}.

Definition growBounds (b : MercBounds) (p : Q * Q) : MercBounds :=
  {| mbMinX := if qlt p.1 (mbMinX b) then p.1 else mbMinX b;
     mbMinY := if qlt p.2 (mbMinY b) then p.2 else mbMinY b;
     mbMaxX := if qlt (mbMaxX b) p.1 then p.1 else mbMaxX b;
     mbMaxY := if qlt (mbMaxY b) p.2 then p.2 else mbMaxY b |}.

(** [viewportMercBounds] of the trapezoid strategy.  [cornerHits] are the
    ground hits of the four viewport corners in mercator meters, [None]
    where the ray hits nothing or the point is not finite. *)
Definition viewportMercBounds (f : Frame) (cm : Q * Q) : option MercBounds :=
  if negb (hasCenterMercator f) then None
  else
    let mercPts := omap id (cornerHits f) in
    let r := maxRangeMeters f in
    match mercPts with
    | [] | [_] => Some (rangeSquare cm r)
    | p0 :: rest =>
        let b := fold_left growBounds rest
                   {| mbMinX := p0.1; mbMinY := p0.2;
                      mbMaxX := p0.1; mbMaxY := p0.2 |} in
        let sq := rangeSquare cm r in
        let c := {| mbMinX := qmax (mbMinX b) (mbMinX sq);
                    mbMinY := qmax (mbMinY b) (mbMinY sq);
                    mbMaxX := qmin (mbMaxX b) (mbMaxX sq);
                    mbMaxY := qmin (mbMaxY b) (mbMaxY sq) |} in
        if qlt (mbMaxX c) (mbMinX c) || qlt (mbMaxY c) (mbMinY c)
        then Some sq else Some c
    end.

Definition viewportPadTiles (cfg : Config) : Z :=
  match lod_viewportPadTiles cfg with
  | Some v => Z.max 0 (Js.toInt32 v)
  | None =>
      match mapDrapeViewportPadTiles cfg with
      | Some v => Z.max 0 (Js.toInt32 v)
      | None =>
          match tc_mapDrapeViewportPadTiles cfg with
          | Some v => Z.max 0 (Js.toInt32 v)
          | None => 1
          end
      end
  end.

Record TileBounds := mkTileBounds { xMin : Z; yMin : Z; xMax : Z; yMax : Z }.

(** [viewportTileBounds]: the tiles of the four corners at zoom [z], padded
    and clamped into [0 .. n - 1]. *)
Definition viewportTileBounds (cfg : Config) (f : Frame) (z : Z)
    (mb : option MercBounds) : option TileBounds :=
  match mb with
  | None => None
  | Some b =>
      match mercatorToTileXY f (mbMinX b) (mbMinY b) z,
            mercatorToTileXY f (mbMinX b) (mbMaxY b) z,
            mercatorToTileXY f (mbMaxX b) (mbMinY b) z,
            mercatorToTileXY f (mbMaxX b) (mbMaxY b) z with
      | Some t1, Some t2, Some t3, Some t4 =>
          let x0 := Z.min (Z.min t1.1 t2.1) (Z.min t3.1 t4.1) in
          let y0 := Z.min (Z.min t1.2 t2.2) (Z.min t3.2 t4.2) in
          let x1 := Z.max (Z.max t1.1 t2.1) (Z.max t3.1 t4.1) in
          let y1 := Z.max (Z.max t1.2 t2.2) (Z.max t3.2 t4.2) in
          let n := Js.shl1 z in
          let pad := viewportPadTiles cfg in
          let cl v := Z.max 0 (Z.min (n - 1) (Js.toInt32 v)) in
          let tb := {| xMin := cl (x0 - pad); yMin := cl (y0 - pad);
                       xMax := cl (x1 + pad); yMax := cl (y1 + pad) |} in
          if (xMax tb <? xMin tb) || (yMax tb <? yMin tb) then None
          else Some tb
      | _, _, _, _ => None
      end
  end.

(** An entry of the refinement stack, [{ tileX, tileY, z }]. *)
Record StackEntry := mkEntry { tileX : Z; tileY : Z; ez : Z }.

#[global] Instance StackEntry_eq_dec : EqDecision StackEntry.
Proof. solve_decision. Defined.

(** [lo, lo + 1, ..., hi]. *)
Definition zrange (lo hi : Z) : list Z := seqZ lo (hi - lo + 1).

(** The tiles pushed by the two nested [for] loops, in the order of the
    pushes. *)
Definition rectEntries (tb : TileBounds) (z : Z) : list StackEntry :=
  ty ← zrange (yMin tb) (yMax tb);
  tx ← zrange (xMin tb) (xMax tb);
  [ {| tileX := tx; tileY := ty; ez := z |} ].

Definition radiusMeters (cfg : Config) : Q :=
  match mapDrapeNearMeters cfg with Some r => r | None => 1100%Q end.

(** The stack is a list whose head is the top: pushing [es] in order puts
    the last of them on top. *)
Definition pushAll (es : list StackEntry) (stack : list StackEntry)
    : list StackEntry :=
  rev es ++ stack.

Definition initialStack (cfg : Config) (f : Frame) (cm : Q * Q)
    (minZoom : Z) : list StackEntry :=
  match viewportTileBounds cfg f minZoom (viewportMercBounds f cm) with
  | Some tb => pushAll (rectEntries tb minZoom) []
  | None =>
      let n := Js.shl1 minZoom in
      match mercatorToTileXY f cm.1 cm.2 minZoom with
      | Some center =>
          let tileSizeMeters := (WORLD / inject_Z n)%Q in
          let span :=
            Z.max 1 (Qceiling (radiusMeters cfg / tileSizeMeters) + 1) in
          let tb := {| xMin := Z.max 0 (center.1 - span);
                       yMin := Z.max 0 (center.2 - span);
                       xMax := Z.min (n - 1) (center.1 + span);
                       yMax := Z.min (n - 1) (center.2 + span) |} in
          pushAll (rectEntries tb minZoom) []
      | None => []
      end
  end.

Definition maxLeafTiles (cfg : Config) : Z :=
  match mapDrapeLodMaxTiles cfg with
  | Some v => Z.max 16 (Js.toInt32 v)
  | None => 4096
  end.

Definition maxWork (cfg : Config) : Z :=
  match mapDrapeLodMaxWork cfg with
  | Some v => Z.max 64 (Js.toInt32 v)
  | None => 200000
  end.

(** The variables of the refinement loop. *)
Record Refine := mkRefine {
  stack : list StackEntry;
  work : Z;
  leaves : Z;
  tilesByZoom : gmap Z (list Candidate)
}.

Definition candidateOf (f : Frame) (t : StackEntry) : Candidate :=
  {| c_key := _tileKey (ez t) (tileX t) (tileY t);
     c_tileX := tileX t; c_tileY := tileY t;
     c_rectDist := tileRectDist f (tileX t) (tileY t) (ez t) |}.

(** [arr.push(...)] on [tilesByZoom.get(z)], creating the array when the
    zoom has none yet; then [leaves++]. *)
Definition accept (f : Frame) (t : StackEntry) (r : Refine) : Refine :=
  {| stack := stack r; work := work r; leaves := leaves r + 1;
     tilesByZoom :=
       <[ez t := default [] (tilesByZoom r !! ez t) ++ [candidateOf f t]]>
         (tilesByZoom r) |}.

Definition children (t : StackEntry) : list StackEntry :=
  let z1 := ez t + 1 in
  let x2 := tileX t * 2 in
  let y2 := tileY t * 2 in
  [ {| tileX := x2; tileY := y2; ez := z1 |};
    {| tileX := x2 + 1; tileY := y2; ez := z1 |};
    {| tileX := x2; tileY := y2 + 1; ez := z1 |};
    {| tileX := x2 + 1; tileY := y2 + 1; ez := z1 |} ].

(** The body of the [while] loop after [work++] and [stack.pop()]: [r] has
    the popped entry [t] removed already. *)
Definition refineBody (cfg : Config) (f : Frame) (t : StackEntry)
    (r : Refine) : Refine :=
  let z := ez t in
  let minZoom := minZoomOf cfg f in
  let topZoom := topZoomOf cfg f in
  let visible := tileVisible f (tileX t) (tileY t) z in
  if negb visible && (minZoom <? z) then r
  else if qlt (maxRangeMeters f) (tileRectDist f (tileX t) (tileY t) z) then r
  else
    let desiredZ :=
      if visible
      then desiredZoomForDistance cfg f (tileDist3D f (tileX t) (tileY t) z)
      else z in
    let canRefine :=
      (z <? topZoom) && (z <? desiredZ) && (leaves r <? maxLeafTiles cfg) in
    if canRefine then
      {| stack := pushAll (children t) (stack r); work := work r;
         leaves := leaves r; tilesByZoom := tilesByZoom r |}
    else accept f t r.

(** [while (stack.length && work < maxWork)]: [budget] is [maxWork - work],
    the number of rounds the counter still allows. *)
Fixpoint refineLoop (cfg : Config) (f : Frame) (budget : nat) (r : Refine)
    : Refine :=
  match budget with
  | O => r
  | S budget' =>
      match stack r with
      | [] => r
      | t :: rest =>
          refineLoop cfg f budget'
            (refineBody cfg f t
               {| stack := rest; work := work r + 1; leaves := leaves r;
                  tilesByZoom := tilesByZoom r |})
      end
  end.

(** [if (stack.length) { for (const t of stack) ... }]: what the work cap
    left on the stack is kept, bottom first, without refinement. *)
Definition flushStack (f : Frame) (r : Refine) : Refine :=
  fold_left (fun acc t => accept f t acc) (rev (stack r))
    {| stack := stack r; work := work r; leaves := leaves r;
       tilesByZoom := tilesByZoom r |}.

(** The whole selection: the per-zoom candidate lists of this frame. *)
Definition refineStart (cfg : Config) (f : Frame) (cm : Q * Q) : Refine :=
  {| stack := initialStack cfg f cm (minZoomOf cfg f); work := 0;
     leaves := 0; tilesByZoom := ∅ |}.

Definition selectTrapezoid (cfg : Config) (f : Frame) (cm : Q * Q) : Refine :=
  flushStack f
    (refineLoop cfg f (Z.to_nat (maxWork cfg)) (refineStart cfg f cm)).

(** ** Per-zoom reconciliation *)

Definition wantsMipmaps (w : World) : bool := mapDrapeAtlasMipmaps (opts w).

Definition maxNewLoadsPerTick (w : World) : Z :=
  Z.max 0 (Js.toInt32 (mapDrapeAtlasMaxNewLoadsPerTick (opts w))).

(** [if (atlas.pendingCellSizeByZoom.has(z) && st?.cellSize ===
    desiredCellSize) atlas.pendingCellSizeByZoom.delete(z)]. *)
Definition settlePendingCell (z desiredCellSize : Z) (st : ZoomState)
    (w : World) : World :=
  if bool_decide (is_Some (pendingCellSizeByZoom (atlas w) !! z))
     && (cellSize st =? desiredCellSize)
  then setPending (delete z (pendingCellSizeByZoom (atlas w))) w
  else w.

Definition keySet (cands : list Candidate) : gset TileKey :=
  list_to_set (c_key <$> cands).

(** One zoom of the trapezoid strategy with a non-empty, sorted candidate
    list and a camera tile ([lines 862-990]). *)
Definition reconcileTrapezoid (cfg : Config) (f : Frame) (z : Z)
    (center : Z * Z) (c0 : Candidate) (rest : list Candidate) (w : World)
    : World :=
  let candidates := c0 :: rest in
  let g := trapezoidGrid (wantsMipmaps w) z center (extentOf c0 rest) in
  let desiredCellSize := desiredCellSizeAt cfg z w in
  let '(st, w1) := _ensureZoomState z g (Some desiredCellSize) w in
  let w2 := settlePendingCell z desiredCellSize st w1 in
  let desiredKeys := keySet candidates in
  let '(st1, w3) := reconcilePins (tiles f) z desiredKeys st w2 in
  if mapDrapeSkipTileLoad cfg then putState z st1 w3
  else
    let st2 := dropTextures desiredKeys st1 in
    let '(_, st3, w4) :=
      fold_left
        (issueStepTrapezoid (tiles f) (maxNewLoadsPerTick w) z desiredKeys)
        candidates (0, st2, w3) in
    let '(st4, w5) := renderIfDirty z st3 w4 in
    putState z st4 w5.

(** The body of [for (const z of zoomLevels)] ([lines 841-991]). *)
Definition processZoomTrapezoid (cfg : Config) (f : Frame) (cm : Q * Q)
    (byZ : gmap Z (list Candidate)) (w : World) (z : Z) : World :=
  match default [] (byZ !! z) with
  | [] => disposeZoom (tiles f) z w
  | c :: cs =>
      match sortByDist (c :: cs), mercatorToTileXY f cm.1 cm.2 z with
      | c0 :: rest, Some center => reconcileTrapezoid cfg f z center c0 rest w
      | _, _ => w
      end
  end.

(** [for (let z = topZoom; z >= minZoom; z--) zoomLevels.push(z)]. *)
Definition zoomLevels (minZoom topZoom : Z) : list Z :=
  rev (zrange minZoom topZoom).

(** "Clear any stale zoom levels that are no longer active." *)
Definition dropStaleTrapezoid (f : Frame) (levels : list Z) (w : World)
    : World :=
  fold_left
    (fun acc z => if bool_decide (z ∈ levels) then acc
                  else disposeZoom (tiles f) z acc)
    (fst <$> map_to_list (byZoom (atlas w))) w.

Definition updateTrapezoid (cfg : Config) (f : Frame) (cm : Q * Q)
    (w : World) : World :=
  let sel := selectTrapezoid cfg f cm in
  let levels := zoomLevels (minZoomOf cfg f) (topZoomOf cfg f) in
  let w1 := dropStaleTrapezoid f levels w in
  fold_left (processZoomTrapezoid cfg f cm (tilesByZoom sel)) levels w1.

(** One zoom of the viewport/bands strategy with a non-empty, sorted
    candidate list and a camera tile ([lines 1739-1873]). *)
Definition reconcileViewport (cfg : Config) (f : Frame) (z : Z)
    (center : Z * Z) (c0 : Candidate) (rest : list Candidate) (w : World)
    : World :=
  let candidates := c0 :: rest in
  let cellSizeGuess := desiredCellSizeAt cfg z w in
  let maxGridSize :=
    maxGridForCell (wantsMipmaps w)
      (maxRTSize (maxRenderTargetSize (plan f)) (maxTextureSize (plan f)))
      cellSizeGuess in
  let g := viewportGrid (wantsMipmaps w) maxGridSize z center
             (extentOf c0 rest) in
  let desiredCellSize := desiredCellSizeAt cfg z w in
  let '(st, w1) := _ensureZoomState z g (Some desiredCellSize) w in
  let w2 := settlePendingCell z desiredCellSize st w1 in
  let cellInfos := cellInfosOf g candidates in
  let desiredKeys := keySet (snd <$> cellInfos) in
  let '(st1, w3) := reconcilePins (tiles f) z desiredKeys st w2 in
  if mapDrapeSkipTileLoad cfg then putState z st1 w3
  else
    let st2 := dropTextures desiredKeys st1 in
    let '(_, st3, w4) :=
      fold_left (issueStepViewport (tiles f) (maxNewLoadsPerTick w) z)
        (sortBy (fun ci => c_rectDist ci.2) cellInfos) (0, st2, w3) in
    let '(st4, w5) := renderIfDirty z st3 w4 in
    putState z st4 w5.

(** The body of [for (let z = maxTileZoom; z >= minTileZoom; z--)]
    ([lines 1597-1874]); the range test and the candidate scan are taken
    from the plan. *)
Definition processZoomViewport (cfg : Config) (f : Frame) (cm : Q * Q)
    (w : World) (z : Z) : World :=
  if negb (vp_rangePositive (plan f) z) then disposeZoom (tiles f) z w
  else
    match mercatorToTileXY f cm.1 cm.2 z with
    | None => w
    | Some center =>
        match vp_candidates (plan f) z with
        | [] => disposeZoom (tiles f) z w
        | c :: cs =>
            match sortByDist (c :: cs) with
            | c0 :: rest => reconcileViewport cfg f z center c0 rest w
            | [] => w
            end
        end
    end.

(** "Drop stale zoom levels so shader slots always match the current
    active set." *)
Definition dropStaleViewport (f : Frame) (w : World) : World :=
  fold_left
    (fun acc z =>
       if (z <? minTileZoom (plan f)) || (maxTileZoom (plan f) <? z)
          || vp_noCoverage (plan f) z
       then disposeZoom (tiles f) z acc
       else acc)
    (fst <$> map_to_list (byZoom (atlas w))) w.

Definition updateViewport (cfg : Config) (f : Frame) (cm : Q * Q)
    (w : World) : World :=
  let w1 := dropStaleViewport f w in
  fold_left (processZoomViewport cfg f cm)
    (zoomLevels (minTileZoom (plan f)) (maxTileZoom (plan f))) w1.

(** ** The gates of [update] *)

Definition syncOpts (cfg : Config) (w : World) : World :=
  match cfgAtlasMipmaps cfg with
  | Some b =>
      setOpts {| mapDrapeAtlasMipmaps := b;
                 mapDrapeAtlasMaxNewLoadsPerTick :=
                   mapDrapeAtlasMaxNewLoadsPerTick (opts w);
                 mapDrapeAtlasOuterRingTiles :=
                   mapDrapeAtlasOuterRingTiles (opts w) |} w
  | None => w
  end.

(** [Number.isFinite(a) ? Math.max(0, a) : (Number.isFinite(b) ?
    Math.max(0, b) : d)]. *)
Definition nonNegOr (a b : option Q) (d : Q) : Q :=
  match a with
  | Some v => qmax 0 v
  | None => match b with Some v => qmax 0 v | None => d end
  end.

Definition debounceMs (cfg : Config) : Q :=
  nonNegOr (lod_debounce_ms cfg) (mapDrapeDebounceMs cfg) 150.
Definition moveMeters (cfg : Config) : Q :=
  nonNegOr (lod_debounce_moveMeters cfg) (mapDrapeDebounceMoveMeters cfg) 15.
Definition heightMeters (cfg : Config) : Q :=
  nonNegOr (lod_debounce_heightMeters cfg) (mapDrapeDebounceHeightMeters cfg)
    20.
Definition angleDeg (cfg : Config) : Q :=
  nonNegOr (lod_debounce_angleDeg cfg) (mapDrapeDebounceAngleDeg cfg)
    (3 # 2).

Definition updateMs (cfg : Config) : Q :=
  match lod_updateMs cfg with
  | Some v => v
  | None => match mapDrapePatchUpdateMs cfg with
            | Some v => v
            | None => 250%Q
            end
  end.

(** [Math.hypot(dx, dz) > m] for a threshold [m >= 0]: both sides are
    compared by their squares. *)
Definition hypotExceeds (dx dz m : Q) : bool :=
  qlt (m * m) (dx * dx + dz * dz).

Definition qabs (a : Q) : Q := if qlt a 0 then (- a)%Q else a.

(** The test [planar > moveMeters || h > heightMeters || ang > angleDeg]
    between the remembered and the current camera pose.  [rotationDeg c] is
    [2 * Math.acos(c) * (180 / Math.PI)]. *)
Definition cameraMoved (cfg : Config) (f : Frame) (last cur : View) : bool :=
  let dx := unitsToMeters f (vx cur - vx last) in
  let dz := unitsToMeters f (vz cur - vz last) in
  let dy := unitsToMeters f (vy cur - vy last) in
  let h := qabs dy in
  let dot := (qx cur * qx last + qy cur * qy last + qz cur * qz last
              + qw cur * qw last)%Q in
  let clampedDot := qmax (-1) (qmin 1 (qabs dot)) in
  let ang := rotationDeg f clampedDot in
  hypotExceeds dx dz (moveMeters cfg)
  || qlt (heightMeters cfg) h
  || qlt (angleDeg cfg) ang.

(** The squared planar distance, in meters, between two camera poses. *)
Definition planarSq (f : Frame) (last cur : View) : Q :=
  let dx := unitsToMeters f (vx cur - vx last) in
  let dz := unitsToMeters f (vz cur - vz last) in
  (dx * dx + dz * dz)%Q.

Definition sameOrientation (a b : View) : Prop :=
  qx a = qx b /\ qy a = qy b /\ qz a = qz b /\ qw a = qw b.

Definition unitQuaternion (a : View) : Prop :=
  (qx a * qx a + qy a * qy a + qz a * qz a + qw a * qw a == 1)%Q.

(** [enableBelowOrEqualHeight !== null && cameraHeight >
    enableBelowOrEqualHeight]. *)
Definition aboveEnableHeight (cfg : Config) (f : Frame) : bool :=
  match mapDrapeEnableBelowOrEqualHeightMeters cfg with
  | Some limit => qlt limit (cameraHeight f)
  | None => false
  end.

Definition setGate (lv : option View) (lm : option Q) (lu : Q) (w : World)
    : World :=
  setAtlas {| byZoom := byZoom (atlas w); lastUpdate := lu;
              pendingCellSizeByZoom := pendingCellSizeByZoom (atlas w);
              lastView := lv; lastMoveAt := lm |} w.

(** The debounce block ([lines 389-427]): the bookkeeping it writes and
    whether it ends the frame. *)
Definition debounceGate (cfg : Config) (f : Frame) (w : World)
    : World * bool :=
  if qlt 0 (debounceMs cfg) then
    let moved :=
      match lastView (atlas w) with
      | Some lv => cameraMoved cfg f lv (camera f)
      | None => false
      end in
    let lm := if moved then Some (now f) else lastMoveAt (atlas w) in
    let w1 := setGate (Some (camera f)) lm (lastUpdate (atlas w)) w in
    let suppressed :=
      match lm with
      | Some t => qlt (now f - t) (debounceMs cfg)
      | None => false
      end in
    (w1, suppressed)
  else (w, false).

(** How far a frame got. *)
Inductive Outcome :=
| Disabled
| AboveHeight
| Debounced
| Throttled
| NoCamMerc
| Recomputed.

(** [update(camera)].  The shader side ([disableOnAllMaterials],
    [_setUniforms]) and the debug log are left out. *)
Definition updateWith (cfg : Config) (f : Frame) (w : World)
    : World * Outcome :=
  let w0 := syncOpts cfg w in
  let hasStates := negb (bool_decide (byZoom (atlas w0) = ∅)) in
  if negb (mapDrapeShaderPatchEnabled cfg) then
    (if hasStates then clear (tiles f) w0 else w0, Disabled)
  else if aboveEnableHeight cfg f then
    (if hasStates then clear (tiles f) w0 else w0, AboveHeight)
  else
    let '(w1, suppressed) := debounceGate cfg f w0 in
    if suppressed then (w1, Debounced)
    else if qlt (now f - lastUpdate (atlas w1)) (updateMs cfg)
    then (w1, Throttled)
    else
      let w2 := setGate (lastView (atlas w1)) (lastMoveAt (atlas w1))
                  (now f) w1 in
      match camMerc f with
      | None => (w2, NoCamMerc)
      | Some cm =>
          match lodMode cfg with
          | Trapezoid => (updateTrapezoid cfg f cm w2, Recomputed)
          | Viewport | Bands => (updateViewport cfg f cm w2, Recomputed)
          end
      end.

Definition update (cfg : Config) (f : Frame) (w : World) : World :=
  fst (updateWith cfg f w).

(** How a call of [update] ends: at one of its [return]s, or with the
    TypeError of a property read on [undefined]. *)
Inductive Completion := Returns (o : Outcome) | Throws.

(** [update(camera)] where the argument may be missing: [hasCamera] tells
    whether [camera] is an object (with its [position] and [quaternion]).
    Without one, [camera?.updateMatrixWorld?.(true)] is skipped, and once
    the drape is found enabled the first read of [camera.position]
    ([lines 368-372]) throws; [_opts] has been written by then.  What the
    host answers is in the frame, so its calls are taken to return. *)
Definition updateCall (cfg : Config) (hasCamera : bool) (f : Frame)
    (w : World) : World * Completion :=
  if hasCamera || negb (mapDrapeShaderPatchEnabled cfg) then
    let r := updateWith cfg f w in (r.1, Returns r.2)
  else (syncOpts cfg w, Throws).

(** ** Completion handlers *)

(** The [.then] handler of a fetch issued for zoom [p_z p] and key
    [p_key p], run against the atlas it closed over. *)
Definition recordCellSize (cfg : Config) (z : Z) (tex : Texture) (w : World)
    : World :=
  match _getCellSizeFromTexture tex with
  | Some actual =>
      if negb (hasCellSizeOverride cfg z)
         && negb (actual =? 0)
         && negb (bool_decide
                    (pendingCellSizeByZoom (atlas w) !! z = Some actual))
      then
        let currentCell := orElse (cellSize <$> stateAt z w) (tileSize w) in
        if actual =? currentCell then w
        else setPending (<[z := actual]> (pendingCellSizeByZoom (atlas w))) w
      else w
  | None => w
  end.

Definition bindFetched (p : Pending) (tex : Texture) (w : World) : World :=
  match stateAt (p_z p) w with
  | Some stNow =>
      if bool_decide (p_key p ∈ activeKeys stNow) then
        let st1 := withTextures (<[p_key p := tex]> (textures stNow)) stNow in
        match cellIndex (grid stNow) (p_tileX p) (p_tileY p) with
        | None => putState (p_z p) st1 w
        | Some idx =>
            match meshes stNow !! idx with
            | None => putState (p_z p) st1 w
            | Some _ =>
                putState (p_z p) (withCell idx (boundMaterial tex) st1) w
            end
        end
      else w
  | None => w
  end.

Definition onFulfilled (cfg : Config) (p : Pending) (tex : Texture)
    (w : World) : World :=
  bindFetched p tex (recordCellSize cfg (p_z p) tex w).

(** The [.finally] handler: [atlas.byZoom.get(z)?.loads?.delete?.(c.key)]. *)
Definition onFinally (p : Pending) (w : World) : World :=
  match stateAt (p_z p) w with
  | Some st => putState (p_z p) (withLoads (delete (p_key p) (loads st)) st) w
  | None => w
  end.

(** A completion is stale when the zoom of its fetch has no state any more
    or that state no longer has the key in its active set. *)
Definition staleFor (p : Pending) (w : World) : bool :=
  match stateAt (p_z p) w with
  | Some st => negb (bool_decide (p_key p ∈ activeKeys st))
  | None => true
  end.

Inductive Settlement := Fulfilled (tex : Texture) | Rejected.

(** A fetch settles.  The handlers work on the [_state] object of the
    frame that issued the fetch; after a [clear] that object is no longer
    the atlas, and nothing of [this] changes. *)
Definition settle (cfg : Config) (p : Pending) (s : Settlement) (w : World)
    : World :=
  let w0 := setInflight (filter (fun q => q ≠ p) (inflight w)) w in
  if bool_decide (p_gen p = generation w0) then
    match s with
    | Fulfilled tex => onFinally p (onFulfilled cfg p tex w0)
    | Rejected => onFinally p w0
    end
  else w0.

(** How a promise settles. *)
Inductive Resolution := Resolves | Rejects.

(** The chain
[[
    tiles?.getTileTexture(...).then((tex) => {...})
        .catch(() => {})
        .finally(() => { try {...} catch {} })
]]
    stage by stage.  [.then(handler)] passes a rejection of the fetch on
    and runs the handler on a fulfilled one; the handler returns. *)
Definition thenResult (s : Settlement) : Resolution :=
  match s with
  | Fulfilled _ => Resolves
  | Rejected => Rejects
  end.

(** [.catch(() => {})]: the callback returns, so a rejection ends here. *)
Definition catchResult (r : Resolution) : Resolution :=
  match r with
  | Resolves => Resolves
  | Rejects => Resolves
  end.

(** [.finally(callback)] passes on what it gets unless the callback
    throws, and the body of this callback is inside [try {...} catch {}]. *)
Definition finallyResult (r : Resolution) : Resolution := r.

(** The promise [p] of the chain, the one stored in [st.loads]. *)
Definition chainResult (s : Settlement) : Resolution :=
  finallyResult (catchResult (thenResult s)).

(** ** Histories: frames interleaved with settled fetches *)

Inductive Action :=
| Update (cfg : Config) (f : Frame)
| Settle (cfg : Config) (id : nat) (s : Settlement)
| Clear (tiles : bool).

Definition findPending (id : nat) (w : World) : option Pending :=
  List.find (fun p => Nat.eqb (p_id p) id) (inflight w).

Definition step (w : World) (a : Action) : World :=
  match a with
  | Update cfg f => update cfg f w
  | Settle cfg id s =>
      match findPending id w with
      | Some p => settle cfg p s w
      | None => w
      end
  | Clear t => clear t w
  end.

(** ** Pins as seen by the tile source *)

(** The pin of key [k] on behalf of the state of zoom [z], followed through
    a trace from the pin state [h]: [Some true] when the key ends up
    pinned, [Some false] when it ends up unpinned, and [None] as soon as
    the trace pins it while it is pinned or unpins it while it is not. *)
Fixpoint pinState (z : Z) (k : TileKey) (h : bool) (tr : list Event)
    : option bool :=
  match tr with
  | [] => Some h
  | EvPin z' k' :: tr' =>
      if bool_decide (z' = z /\ k' = k)
      then (if h then None else pinState z k true tr')
      else pinState z k h tr'
  | EvUnpin z' k' :: tr' =>
      if bool_decide (z' = z /\ k' = k)
      then (if h then pinState z k false tr' else None)
      else pinState z k h tr'
  | _ :: tr' => pinState z k h tr'
  end.

(** The state of zoom [z] holds key [k] in its active set. *)
Definition holds (z : Z) (k : TileKey) (w : World) : bool :=
  match stateAt z w with
  | Some st => bool_decide (k ∈ activeKeys st)
  | None => false
  end.

(** The action runs with a tile source at hand. *)
Definition tilesPresent (a : Action) : bool :=
  match a with
  | Update _ f => tiles f
  | Settle _ _ _ => true
  | Clear t => t
  end.

(** The fetches a trace has issued, and those of them for one key. *)
Definition isFetch (e : Event) : bool :=
  match e with EvFetch _ _ _ => true | _ => false end.

Definition fetchesIn (tr : list Event) : list Event := List.filter isFetch tr.

(** The promises in flight for the key [k] of zoom [z]. *)
Definition inflightFor (z : Z) (k : TileKey) (w : World) : list Pending :=
  List.filter (fun p => bool_decide (p_z p = z /\ p_key p = k)) (inflight w).

Definition run (acts : list Action) (w : World) : World :=
  fold_left step acts w.

(** ** Tile keys as the strings they are *)

(** [`${n}`] for an integer [n] of magnitude below [1e21]: its decimal
    numeral, with a leading [-] when negative. *)
Definition numberToString (n : Z) : string :=
  DecimalString.NilZero.string_of_int (Z.to_int n).

(** [_tileKey(z, x, y)] with [scheme] the value of [this._tileScheme()]:
    [`t:${scheme}:${z}-${x}-${y}`]. *)
Definition tileKeyString (scheme : string) (z x y : Z) : string :=
  "t:" +:+ scheme +:+ ":" +:+ numberToString z +:+ "-" +:+ numberToString x
  +:+ "-" +:+ numberToString y.

(** The character [-] (code 45). *)
Definition dash : Ascii.ascii :=
  Ascii.Ascii true false true true false true false false.

(** [s.split(sep)] for a separator of one character. *)
Fixpoint splitOn (sep : Ascii.ascii) (s : string) : list string :=
  match s with
  | EmptyString => [EmptyString]
  | String c s' =>
      if Ascii.eqb c sep then EmptyString :: splitOn sep s'
      else match splitOn sep s' with
           | p :: ps => String c p :: ps
           | [] => [String c EmptyString]
           end
  end.

(** [Number(s)] where [s] is empty ([0]) or a run of decimal digits with an
    optional leading [-]; [None] stands for [NaN] and for the literal forms
    (white space, a leading [+], fractions, exponents, other radices) that
    no tile key contains. *)
Definition numberOfString (s : string) : option Z :=
  match s with
  | EmptyString => Some 0
  | _ => Z.of_int <$> DecimalString.NilZero.int_of_string s
  end.

(** The tile coordinates that the loop over [st.textures.keys()] reads back
    from a key: [parts = String(key).split('-')], [Number(parts[1])],
    [Number(parts[2])]; [None] where the loop [continue]s because one of
    them is not finite. *)
Definition parseTileXY (key : string) : option (Z * Z) :=
  let parts := splitOn dash key in
  match parts !! 1%nat, parts !! 2%nat with
  | Some a, Some b =>
      match numberOfString a, numberOfString b with
      | Some x, Some y => Some (x, y)
      | _, _ => None
      end
  | _, _ => None
  end.

(** No [-] in the string. *)
Fixpoint dashFree (s : string) : bool :=
  match s with
  | EmptyString => true
  | String c s' => negb (Ascii.eqb c dash) && dashFree s'
  end.

(** ** Shader slots *)

(** [keys.filter(Number.isFinite).sort((a, b) => b - a).slice(0,
    Math.max(1, maxSlots | 0))] for the array [keys] of the zooms that
    have a state; every zoom of the model is a finite number. *)
Definition zoomSlotsOf (maxSlots : Z) (keys : list Z) : list Z :=
  take (Z.to_nat (Z.max 1 (Js.toInt32 maxSlots)))
    (sortBy (fun z => inject_Z (- z)) keys).

(** [_getAtlasZoomSlots(maxSlots)].  [byZoom.keys()] lists the zooms in the
    order of their insertion, which the map of the model does not keep;
    the slots are the same for every order of the keys. *)
Definition _getAtlasZoomSlots (maxSlots : Z) (w : World) : list Z :=
  zoomSlotsOf maxSlots (elements (dom (byZoom (atlas w)))).

(** ** The bands of the viewport and bands strategies *)

(** A band, [{ maxDist, zoom }]. *)
Record Band := mkBand { maxDist : Q; bandZoom : Z }.

(** The bisection
[[
    for (let i = 0; i < 24; i++) {
        const mid = (lo + hi) * 0.5;
        if (zoomAt(mid) >= z) lo = mid; else hi = mid;
    }
]]
    with [rounds] rounds left.  [zoomAt] is the closure of that name, the
    clamped zoom that [getZoomLevelByDistance] wants at a distance;
    distances are rationals, as everywhere. *)
Fixpoint bisectBand (rounds : nat) (zoomAt : Q -> Z) (z : Z) (lo hi : Q)
    : Q * Q :=
  match rounds with
  | O => (lo, hi)
  | S n =>
      let mid := ((lo + hi) * (1 # 2))%Q in
      if z <=? zoomAt mid then bisectBand n zoomAt z mid hi
      else bisectBand n zoomAt z lo mid
  end.

(** The body of [for (let z = minZ; z <= maxZ; z++)]: the band that is
    pushed for [z], if any. *)
Definition bandOfZoom (zoomAt : Q -> Z) (maxRange : Q) (z : Z)
    : option Band :=
  if zoomAt 0%Q <? z then None
  else if Qle_bool maxRange 0 then None
  else if z <=? zoomAt maxRange then Some (mkBand maxRange z)
  else
    let lo := (bisectBand 24 zoomAt z 0%Q maxRange).1 in
    if qlt 0 lo then Some (mkBand lo z) else None.

(** The array [out] after the loop. *)
Definition bandsLoop (zoomAt : Q -> Z) (maxRange : Q) (minZ maxZ : Z)
    : list Band :=
  omap (bandOfZoom zoomAt maxRange) (zrange minZ maxZ).

(** [bands] in viewport mode: [out], or one band for [maxZ] over the whole
    range when the loop pushed nothing. *)
Definition viewportBands (zoomAt : Q -> Z) (maxRange : Q) (minZ maxZ : Z)
    : list Band :=
  match bandsLoop zoomAt maxRange minZ maxZ with
  | [] => [mkBand maxRange maxZ]
  | out => out
  end.

(** [bands] with automatic bands: [out], or the four fixed bands below
    [atlasMaxZoom] when the loop pushed nothing. *)
Definition autoBands (zoomAt : Q -> Z) (maxRange radius : Q)
    (atlasMin atlasMax : Z) : list Band :=
  match bandsLoop zoomAt maxRange atlasMin atlasMax with
  | [] =>
      [ mkBand 80 atlasMax;
        mkBand 250 (Z.max atlasMin (atlasMax - 1));
        mkBand 600 (Z.max atlasMin (atlasMax - 2));
        mkBand radius (Z.max atlasMin (atlasMax - 3)) ]
  | out => out
  end.

(** [Math.max(activeMinZoom, Math.min(topZoom, z0 | 0))], the zoom under
    which the range of a band is recorded. *)
Definition bandSlot (activeMin top : Z) (b : Band) : Z :=
  Z.max activeMin (Z.min top (Js.toInt32 (bandZoom b))).

(** [rangeByZoom.get(z) || 0]. *)
Definition rangeAt (m : gmap Z Q) (z : Z) : Q := default 0%Q (m !! z).

(** The body of [for (const b of bands)]:
    [rangeByZoom.set(z, Math.max(rangeByZoom.get(z) || 0, d))] with
    [d = Math.max(0, d0)]. *)
Definition rangeStep (activeMin top : Z) (m : gmap Z Q) (b : Band)
    : gmap Z Q :=
  let z := bandSlot activeMin top b in
  <[z := qmax (rangeAt m z) (qmax 0 (maxDist b))]> m.

(** [rangeByZoom]: zero for every zoom of the atlas, then the bands, then
    zero again outside the active zooms. *)
Definition rangeByZoomOf (atlasMin atlasMax activeMin top : Z)
    (bands : list Band) : gmap Z Q :=
  let m0 := fold_left (fun m z => <[z := 0%Q]> m)
              (zrange atlasMin atlasMax) ∅ in
  let m1 := fold_left (rangeStep activeMin top) bands m0 in
  fold_left (fun m z => if (z <? activeMin) || (top <? z)
                        then <[z := 0%Q]> m else m)
    (zrange atlasMin atlasMax) m1.

(** ** Capping the tiles of a zoom in viewport mode *)

(** [(b.xMax - b.xMin + 1) * (b.yMax - b.yMin + 1)]. *)
Definition tileCount (b : TileBounds) : Z :=
  (xMax b - xMin b + 1) * (yMax b - yMin b + 1).

(** One axis of the window around the camera tile [c]:
[[
    let xMin = clamp(center.x - half);
    let xMax = clamp(center.x + half);
    if ((xMax - xMin + 1) < size) {
        const need = size - (xMax - xMin + 1);
        xMin = clamp(xMin - Math.ceil(need / 2));
        xMax = clamp(xMin + size - 1);
    }
]]
    with [clamp = (v) => Math.max(0, Math.min(n - 1, v | 0))]. *)
Definition recentreAxis (n size half c : Z) : Z * Z :=
  let cl v := Z.max 0 (Z.min (n - 1) (Js.toInt32 v)) in
  let lo := cl (c - half) in
  let hi := cl (c + half) in
  if (hi - lo + 1) <? size then
    let need := size - (hi - lo + 1) in
    let lo' := cl (lo - Qceiling (inject_Z need / 2)) in
    (lo', cl (lo' + size - 1))
  else (lo, hi).

(** The body of the loops over [viewportTileBoundsByZoom] that cap the
    tiles of zoom [z] at [maxTiles] ([maxTilesPerZoom] and
    [maxViewportTiles]): the bounds that the map holds for [z] afterwards.
    [center] is the camera tile, [None] where [_mercatorToTileXY] gives
    nothing. *)
Definition capTiles (maxTiles z : Z) (center : option (Z * Z))
    (b0 : TileBounds) : TileBounds :=
  if tileCount b0 <=? maxTiles then b0
  else
    match center with
    | None => b0
    | Some c =>
        let size := Z.max 1 (Z.sqrt maxTiles) in
        let half := size / 2 in
        let n := Js.shl1 z in
        let x := recentreAxis n size half c.1 in
        let y := recentreAxis n size half c.2 in
        {| xMin := x.1; yMin := y.1; xMax := x.2; yMax := y.2 |}
    end.

(** ** The zooms of the viewport and bands strategies *)

(** [maxViewportLevels]: [lodCfg.maxLevels], at least one, or four. *)
Definition maxViewportLevels (maxLevels : option Z) : Z :=
  match maxLevels with
  | Some v => Z.max 1 (Js.toInt32 v)
  | None => 4
  end.

(** [topZoom]: the highest zoom of a band, clamped between the zooms of
    the atlas and then capped by [topZoomByHeight]; [heightZoom] is the
    zoom [z] that the closure of that name computes from the height of
    the camera, [None] where it returns [null]. *)
Definition bandsTopZoom (atlasMin atlasMax : Z) (bands : list Band)
    (heightZoom : option Z) : Z :=
  let t0 := fold_left (fun t b => Z.max t (Js.toInt32 (bandZoom b)))
              bands atlasMin in
  let t1 := Z.max atlasMin (Z.min atlasMax (Js.toInt32 t0)) in
  match heightZoom with
  | Some z => Z.min t1 (Z.max atlasMin (Z.min atlasMax (Js.toInt32 z)))
  | None => t1
  end.

(** [activeMinZoom]. *)
Definition activeMinZoom (viewportMode : bool) (atlasMin top levels : Z)
    : Z :=
  if viewportMode then Z.max atlasMin (top - levels + 1) else atlasMin.

(** [minTileZoom] and [maxTileZoom]. *)
Definition tileZoomRange (viewportMode : bool) (atlasMin atlasMax top
    levels : Z) : Z * Z :=
  if viewportMode then (activeMinZoom true atlasMin top levels, top)
  else (atlasMin, atlasMax).

(** ** [_setUniforms] *)

(** What [_setUniforms] writes for one of the four atlas slots into every
    terrain material that has the uniforms: the texture of the render
    target ([uMapAtlasTex]), the grid vector ([uMapAtlasGrid]), the
    inverse cell size ([uMapAtlasInvCell]) and the zoom
    ([uMapAtlasZoom]).  The local origin, which comes from the projection,
    is left out. *)
Record SlotUniforms := mkSlotUniforms {
  uTex : option nat;
  uGrid : Z * Z * Z * Q;
  uInvCell : Q;
  uZoom : Z
}.

(** [gridVec(zState)]. *)
Definition gridVec (st : option ZoomState) : Z * Z * Z * Q :=
  match st with
  | Some s =>
      if gridSize (grid s) <=? 0 then (0, 0, 0, 0%Q)
      else (originX (grid s), originY (grid s), gridSize (grid s),
            (1 / inject_Z (gridSize (grid s)))%Q)
  | None => (0, 0, 0, 0%Q)
  end.

(** [invCell(zState)]. *)
Definition invCell (st : option ZoomState) : Q :=
  match st with
  | Some s =>
      if cellSize s <=? 0 then 0%Q else (1 / inject_Z (cellSize s))%Q
  | None => 0%Q
  end.

(** The values for slot [i] of [_setUniforms(enabled)]. *)
Definition slotUniforms (enabled : bool) (w : World) (i : nat)
    : SlotUniforms :=
  let zoomSlots := if enabled then _getAtlasZoomSlots 4 w else [] in
  let z := zoomSlots !! i in
  let st := z ≫= (fun z => stateAt z w) in
  {| uTex := if enabled then rt <$> st else None;
     uGrid := gridVec st;
     uInvCell := if enabled then invCell st else 0%Q;
     uZoom := if enabled then default 0 z else 0 |}.

(** ** Patching and unpatching the terrain materials *)

(** A value of [material.onBeforeCompile] or
    [material.customProgramCacheKey]: [undefined], [null], a function of
    somebody else, or the closure that [installOnMaterial] builds over the
    prior value for a shader version. *)
Inductive Hook :=
| HUndefined
| HNull
| HFunction (id : nat)
| HPatched (prior : Hook) (version : Z).

#[global] Instance Hook_eq_dec : EqDecision Hook.
Proof. solve_decision. Defined.

(** A terrain material, as far as the atlas reads and writes it; the
    fields [ud_...] are those of [material.userData], with [HUndefined]
    and [None] for a property that is not there. *)
Record ShaderMaterial := mkShaderMaterial {
  sm_isMaterial : bool;
  sm_hasMap : bool;
  sm_onBeforeCompile : Hook;
  sm_customProgramCacheKey : Hook;
  sm_needsUpdate : bool;
  ud_mapAtlasInstalled : bool;
  ud_mapAtlasVersion : option Z;
  ud_mapAtlasPrevOnBeforeCompile : Hook;
  ud_mapAtlasPrevCustomProgramCacheKey : Hook;
  ud_mapAtlasUniforms : bool
}.

(** [a ?? b]. *)
Definition nullish (a b : Hook) : Hook :=
  match a with
  | HUndefined | HNull => b
  | _ => a
  end.

(** [installOnMaterial(material)]; [enabled] is
    [config.mapDrapeShaderPatchEnabled === true] and [shaderVersion] is
    [this._shaderVersion]. *)
Definition installOnMaterial (enabled : bool) (shaderVersion : Z)
    (m : ShaderMaterial) : ShaderMaterial :=
  if negb (sm_isMaterial m) then m
  else if negb (sm_hasMap m) then m
  else if negb enabled then m
  else
    let version := Js.toInt32 shaderVersion in
    if ud_mapAtlasInstalled m
       && bool_decide (ud_mapAtlasVersion m = Some version)
    then m
    else
      let priorOnBeforeCompile :=
        nullish (ud_mapAtlasPrevOnBeforeCompile m) (sm_onBeforeCompile m) in
      let priorKey :=
        nullish (ud_mapAtlasPrevCustomProgramCacheKey m)
          (sm_customProgramCacheKey m) in
      {| sm_isMaterial := sm_isMaterial m;
         sm_hasMap := sm_hasMap m;
         sm_onBeforeCompile := HPatched priorOnBeforeCompile version;
         sm_customProgramCacheKey := HPatched priorKey version;
         sm_needsUpdate := true;
         ud_mapAtlasInstalled := true;
         ud_mapAtlasVersion := Some version;
         ud_mapAtlasPrevOnBeforeCompile := priorOnBeforeCompile;
         ud_mapAtlasPrevCustomProgramCacheKey := priorKey;
         ud_mapAtlasUniforms := ud_mapAtlasUniforms m |}.

(** [if (ud.prev !== undefined) mat.hook = ud.prev]. *)
Definition restoreHook (prev cur : Hook) : Hook :=
  match prev with
  | HUndefined => cur
  | _ => prev
  end.

(** The body of the loop of [disableOnAllMaterials] over the materials of
    a tile. *)
Definition disableOnMaterial (m : ShaderMaterial) : ShaderMaterial :=
  if negb (sm_isMaterial m) then m
  else if negb (ud_mapAtlasInstalled m) then m
  else
    {| sm_isMaterial := sm_isMaterial m;
       sm_hasMap := sm_hasMap m;
       sm_onBeforeCompile :=
         restoreHook (ud_mapAtlasPrevOnBeforeCompile m) (sm_onBeforeCompile m);
       sm_customProgramCacheKey :=
         restoreHook (ud_mapAtlasPrevCustomProgramCacheKey m)
           (sm_customProgramCacheKey m);
       sm_needsUpdate := true;
       ud_mapAtlasInstalled := false;
       ud_mapAtlasVersion := ud_mapAtlasVersion m;
       ud_mapAtlasPrevOnBeforeCompile := HUndefined;
       ud_mapAtlasPrevCustomProgramCacheKey := HUndefined;
       ud_mapAtlasUniforms := false |}.

(** [disableOnAllMaterials()] on the materials of the tiles of the tile
    map, tile by tile. *)
Definition disableOnAllMaterials (tileMap : list (list ShaderMaterial))
    : list (list ShaderMaterial) :=
  (fun mats : list ShaderMaterial => disableOnMaterial <$> mats) <$> tileMap.

(** ** Notions used in the statements *)

(** The tiles accepted so far for zoom [z], [tilesByZoom.get(z) || []]. *)
Definition accepted (r : Refine) (z : Z) : list Candidate :=
  default [] (tilesByZoom r !! z).

(** The grid has a cell for every candidate. *)
Definition coversAll (g : Grid) (cands : list Candidate) : Prop :=
  forall c, c ∈ cands -> is_Some (cellIndex g (c_tileX c) (c_tileY c)).

(** All candidates are tiles of zoom [z]: indices in [0 .. n - 1]. *)
Definition tilesInRange (n : Z) (cands : list Candidate) : Prop :=
  forall c, c ∈ cands -> 0 <= c_tileX c < n /\ 0 <= c_tileY c < n.

(** A positive number of the magnitude of a finite double. *)
Definition doubleMagnitude (x : Q) : Prop :=
  (/ inject_Z (2 ^ 1074) <= x /\ x <= inject_Z (2 ^ 1024))%Q.

(** The order of distances, [Infinity] on top. *)
Definition distLe (d1 d2 : Dist) : Prop :=
  match d1, d2 with
  | Finite a, Finite b => (a <= b)%Q
  | _, Infinite => True
  | Infinite, Finite _ => False
  end.

(** The loads map apart, state [b] is state [a]. *)
Definition sameButLoads (a b : ZoomState) : Prop :=
  withLoads (loads a) b = a.

(** A call that neither pins nor unpins. *)
Definition neutral (e : Event) : Prop :=
  match e with
  | EvPin _ _ | EvUnpin _ _ => False
  | _ => True
  end.

(** [w'] continues [w]: its trace extends the trace of [w], and along the
    extension every key goes from held-and-pinned or neither to
    held-and-pinned or neither. *)
Definition continues (w w' : World) : Prop :=
  exists es, trace w' = trace w ++ es
             /\ forall z k, pinState z k (holds z k w) es = Some (holds z k w').

(** The calls of [clear] for one entry of [byZoom]. *)
Definition clearEvents (e : Z * ZoomState) : list Event :=
  (EvUnpin e.1 <$> elements (activeKeys e.2)) ++ [EvDisposeRT e.1 (rt e.2)].

(** [st'] and [w'] come from [st] and [w] by writes that touch neither an
    active set nor the registry of states, and by neutral calls. *)
Definition quiet (st : ZoomState) (w : World) (st' : ZoomState) (w' : World)
    : Prop :=
  activeKeys st' = activeKeys st
  /\ byZoom (atlas w') = byZoom (atlas w)
  /\ exists es, trace w' = trace w ++ es /\ Forall neutral es.

(** The fetches for zoom [z] among the calls [tr]. *)
Definition isFetchFor (z : Z) (e : Event) : bool :=
  match e with EvFetch z' _ _ => z' =? z | _ => false end.

Definition fetchCount (z : Z) (tr : list Event) : Z :=
  Z.of_nat (length (List.filter (isFetchFor z) tr)).

(** [w'] comes from [w] by calls of which at most [q z] are fetches for
    zoom [z], whatever [z] is; [_opts] is the same. *)
Definition issuesAtMost (q : Z -> Z) (w w' : World) : Prop :=
  exists es, trace w' = trace w ++ es
             /\ (forall z, fetchCount z es <= q z)
             /\ opts w' = opts w.

(** The quotas used with [issuesAtMost]: no fetch at all; [q] fetches for
    zoom [z] and none for another zoom; the quota of the options for every
    zoom. *)
Definition noFetches : Z -> Z := fun _ => 0.

Definition onlyZoom (z q : Z) : Z -> Z :=
  fun z' => if z' =? z then q else 0.

Definition quotaEach (w : World) : Z -> Z := fun _ => maxNewLoadsPerTick w.

(** The issue loops: what one round and what the whole loop add to the
    trace are fetches for the zoom, no more of them than the counter
    [issued] grows, and the counter does not pass the quota. *)
Definition issueBound (z q : Z) (acc acc' : IssueAcc) : Prop :=
  exists es, trace acc'.2 = trace acc.2 ++ es
             /\ (forall z', fetchCount z' es
                            <= if z' =? z then acc'.1.1 - acc.1.1 else 0)
             /\ acc.1.1 <= acc'.1.1 <= Z.max acc.1.1 q
             /\ opts acc'.2 = opts acc.2.

(** The tile [(x, y)] of zoom [z] exists, and [z] lies between [lo] and
    [hi]. *)
Definition tileWithin (lo hi z x y : Z) : Prop :=
  lo <= z <= hi /\ 0 <= x < 2 ^ z /\ 0 <= y < 2 ^ z.

(** What the refinement loop keeps true of its variables between the
    zooms [lo] and [hi]: the stack holds existing tiles, and the tiles
    accepted for a zoom are existing tiles of that zoom under their own
    key and distance. *)
Definition selectionValid (f : Frame) (lo hi : Z) (r : Refine) : Prop :=
  (forall t, t ∈ stack r -> tileWithin lo hi (ez t) (tileX t) (tileY t))
  /\ (forall z c, c ∈ accepted r z ->
        c_key c = _tileKey z (c_tileX c) (c_tileY c)
        /\ tileWithin lo hi z (c_tileX c) (c_tileY c)
        /\ c_rectDist c = tileRectDist f (c_tileX c) (c_tileY c) z).

(** What no part of [update] after the gates touches: the bookkeeping of
    the gates, the options, the identity of [_state], the tile size; ids
    are only ever handed out. *)
Definition steady (w w' : World) : Prop :=
  lastUpdate (atlas w') = lastUpdate (atlas w)
  /\ lastView (atlas w') = lastView (atlas w)
  /\ lastMoveAt (atlas w') = lastMoveAt (atlas w)
  /\ opts w' = opts w
  /\ generation w' = generation w
  /\ tileSize w' = tileSize w
  /\ (nextId w <= nextId w')%nat.

(** [w'] differs from [w] in the state of zoom [z] at most. *)
Definition onlyTouches (z : Z) (w w' : World) : Prop :=
  forall z', z' <> z -> stateAt z' w' = stateAt z' w.

(** The states that an issue loop, a texture sweep or a render pass can
    turn one into: the zoom, the grid, the cell size, the render target,
    the mipmap flag and the number of cells stay. *)
Definition sameShape (a b : ZoomState) : Prop :=
  zs_z b = zs_z a /\ grid b = grid a /\ cellSize b = cellSize a
  /\ rt b = rt a /\ useMipmaps b = useMipmaps a
  /\ length (meshes b) = length (meshes a).

(** A call that neither pins, unpins, allocates nor releases. *)
Definition harmless (e : Event) : Prop :=
  match e with
  | EvFetch _ _ _ | EvRender _ => True
  | _ => False
  end.

(** [st'] and [w'] come from [st] and [w] by writes to cells, textures,
    loads and the dirty flag, and by fetches and render passes. *)
Definition calm (st : ZoomState) (w : World) (st' : ZoomState) (w' : World)
    : Prop :=
  sameShape st st'
  /\ activeKeys st' = activeKeys st
  /\ byZoom (atlas w') = byZoom (atlas w)
  /\ (nextId w <= nextId w')%nat
  /\ exists es, trace w' = trace w ++ es /\ Forall harmless es.

(** A call that neither allocates nor releases a render target. *)
Definition rtFree (e : Event) : Prop :=
  match e with
  | EvAllocRT _ _ _ | EvDisposeRT _ _ => False
  | _ => True
  end.

(** The zoom and key of every fetch among the calls [es], in order. *)
Definition fetchPairs (es : list Event) : list (Z * TileKey) :=
  omap (fun e => match e with
                 | EvFetch z k _ => Some (z, k)
                 | _ => None
                 end) es.

(** The state [st] has neither a texture nor a fetch in flight for [k]. *)
Definition missingIn (st : ZoomState) (k : TileKey) : Prop :=
  loads st !! k = None /\ textures st !! k = None.

(** The invariant of an issue loop for zoom [z] over candidates with keys
    in [K] that started from [acc0]: the calls so far are fetches for [z],
    one per key, for keys of [K] that the state had neither a texture nor a
    fetch for when the loop started and that are now in its loads map;
    textures are as they were and the loads map has only grown. *)
Definition issueInv (z : Z) (K : TileKey -> Prop) (acc0 acc : IssueAcc)
    : Prop :=
  exists es,
    trace acc.2 = trace acc0.2 ++ es
    /\ Forall (fun e => exists k id, e = EvFetch z k id /\ K k) es
    /\ NoDup (fetchPairs es)
    /\ (forall k, (z, k) ∈ fetchPairs es ->
          missingIn acc0.1.2 k /\ is_Some (loads acc.1.2 !! k))
    /\ textures acc.1.2 = textures acc0.1.2
    /\ (forall k, is_Some (loads acc0.1.2 !! k) ->
                  is_Some (loads acc.1.2 !! k)).

(** From [w] to [w'] every fetch is for zoom [z] and for a key that the
    state of [z] in [w], if there is one, has neither a texture nor a fetch
    for; no key is fetched twice. *)
Definition fetchesMissing (z : Z) (w w' : World) : Prop :=
  exists es,
    trace w' = trace w ++ es
    /\ NoDup (fetchPairs es)
    /\ forall p, p ∈ fetchPairs es ->
         p.1 = z /\ forall st, stateAt z w = Some st -> missingIn st p.2.

(** ** Render targets as seen by the GPU *)

(** The life of render target [id] through the calls [tr], starting from
    [h] ([true]: allocated and not yet released): [Some true] when it ends
    up allocated, [Some false] when it ends up released or was never there,
    and [None] as soon as the trace allocates it while it is allocated or
    releases it while it is not. *)
Fixpoint rtLife (id : nat) (h : bool) (tr : list Event) : option bool :=
  match tr with
  | [] => Some h
  | EvAllocRT _ id' _ :: tr' =>
      if bool_decide (id' = id)
      then (if h then None else rtLife id true tr')
      else rtLife id h tr'
  | EvDisposeRT _ id' :: tr' =>
      if bool_decide (id' = id)
      then (if h then rtLife id false tr' else None)
      else rtLife id h tr'
  | _ :: tr' => rtLife id h tr'
  end.

(** Render target [id] is the one of a registered state. *)
Definition rtOwned (id : nat) (w : World) : Prop :=
  exists z st, stateAt z w = Some st /\ rt st = id.

(** The render targets of the registered states were handed out by
    [freshId], and no two states share one. *)
Definition rtsSound (w : World) : Prop :=
  (forall z st, stateAt z w = Some st -> (rt st < nextId w)%nat)
  /\ (forall z z' st st', stateAt z w = Some st -> stateAt z' w = Some st' ->
        rt st = rt st' -> z = z').

(** From a sound [w], [w'] is sound again and its trace extends the trace
    of [w] by calls along which every render target goes from owned and
    allocated, or neither, to owned and allocated, or neither. *)
Definition rtStep (w w' : World) : Prop :=
  rtsSound w ->
  rtsSound w'
  /\ (nextId w <= nextId w')%nat
  /\ exists es,
       trace w' = trace w ++ es
       /\ forall id h, (h = true <-> rtOwned id w) ->
            exists h', rtLife id h es = Some h'
                       /\ (h' = true <-> rtOwned id w').

(** ** Who gets the quota *)

(** Candidate [a] is no farther from the camera than [b]. *)
Definition nearerEq (a b : Candidate) : Prop :=
  (c_rectDist a <= c_rectDist b)%Q.

(** The tile of candidate [c] has a cell with a material in [st]. *)
Definition hasCell (st : ZoomState) (c : Candidate) : Prop :=
  exists idx, cellIndex (grid st) (c_tileX c) (c_tileY c) = Some idx
              /\ is_Some (meshes st !! idx).

(** Candidate [c] is left waiting in [st]: it has a cell, and [st] has
    neither a texture nor a fetch in flight for its key. *)
Definition waiting (st : ZoomState) (c : Candidate) : Prop :=
  hasCell st c /\ missingIn st (c_key c).

(** One round of an issue loop for zoom [z] with quota [q] on a candidate
    [c], where [cell st] tells whether the round finds a cell for it in
    [st]: either it fetches [c], which had no load in flight, and counts
    it, below the quota; or it fetches nothing, and then the quota is used
    up, or [c] has a load in flight or a texture, or it has no cell. *)
Definition roundSpec (z q : Z) (cell : ZoomState -> Prop) (c : Candidate)
    (acc acc' : IssueAcc) : Prop :=
  sameShape acc.1.2 acc'.1.2
  /\ textures acc'.1.2 = textures acc.1.2
  /\ ((acc'.1.1 = acc.1.1 /\ trace acc'.2 = trace acc.2
       /\ loads acc'.1.2 = loads acc.1.2
       /\ (q <= acc.1.1 \/ is_Some (loads acc.1.2 !! c_key c)
           \/ is_Some (textures acc.1.2 !! c_key c) \/ ~ cell acc.1.2))
      \/ (acc'.1.1 = acc.1.1 + 1 /\ acc.1.1 < q
          /\ exists id,
               trace acc'.2 = trace acc.2 ++ [EvFetch z (c_key c) id]
               /\ loads acc'.1.2 = <[c_key c := id]> (loads acc.1.2))).

(** What an issue loop over the candidates [cs], in ascending order of
    distance, has done between [acc0] and [acc]: its calls are the fetches
    of the candidates [fetched], in that order, counted by [issued] and
    held below the quota; and a candidate of [cs] that still has a cell
    but neither texture nor load was passed over with the quota used up,
    after every fetch had gone to a candidate at least as near. *)
Definition loopPost (z q : Z) (cell : ZoomState -> Candidate -> Prop)
    (cs : list Candidate) (acc0 acc : IssueAcc) (fetched : list Candidate)
    : Prop :=
  sameShape acc0.1.2 acc.1.2
  /\ textures acc.1.2 = textures acc0.1.2
  /\ (forall k, is_Some (loads acc0.1.2 !! k) -> is_Some (loads acc.1.2 !! k))
  /\ acc.1.1 = acc0.1.1 + Z.of_nat (length fetched)
  /\ acc.1.1 <= Z.max acc0.1.1 q
  /\ (exists es, trace acc.2 = trace acc0.2 ++ es
                 /\ Forall harmless es
                 /\ fetchPairs es = (fun c => (z, c_key c)) <$> fetched)
  /\ fetched ⊆ cs
  /\ StronglySorted nearerEq fetched
  /\ forall c, c ∈ cs ->
       (q <= acc.1.1 /\ Forall (fun a => nearerEq a c) fetched)
       \/ is_Some (loads acc.1.2 !! c_key c)
       \/ is_Some (textures acc.1.2 !! c_key c)
       \/ ~ cell acc.1.2 c.

(** ** Loads and the fetches behind them *)

(** The fetch [p] is in flight for the key [k] of zoom [z], was issued
    under the current [_state] object, and its promise is [id]. *)
Definition backs (w : World) (z : Z) (k : TileKey) (id : nat) (p : Pending)
    : Prop :=
  p ∈ inflight w /\ p_id p = id /\ p_z p = z /\ p_key p = k
  /\ p_gen p = generation w.

(** Every entry of the loads map of [st], taken as the state of zoom [z],
    has its fetch in flight. *)
Definition loadsBackedIn (w : World) (z : Z) (st : ZoomState) : Prop :=
  forall k id, loads st !! k = Some id -> exists p, backs w z k id p.

(** The promises in flight are pairwise distinct and were handed out by
    [freshId]. *)
Definition idsSound (w : World) : Prop :=
  NoDup (p_id <$> inflight w)
  /\ forall p, p ∈ inflight w -> (p_id p < nextId w)%nat.

Definition fetchInv (w : World) : Prop :=
  idsSound w
  /\ forall z st, stateAt z w = Some st -> loadsBackedIn w z st.

(** ** Boxes in mercator meters *)

(** The box [b] is not empty and lies within the box [sq]. *)
Definition boxWithin (b sq : MercBounds) : Prop :=
  (mbMinX sq <= mbMinX b)%Q /\ (mbMinX b <= mbMaxX b)%Q
  /\ (mbMaxX b <= mbMaxX sq)%Q
  /\ (mbMinY sq <= mbMinY b)%Q /\ (mbMinY b <= mbMaxY b)%Q
  /\ (mbMaxY b <= mbMaxY sq)%Q.

(** ** Well-formed states *)

(** The state [st] registered under [z] knows its zoom, has a cell size
    between 32 and 2048 pixels, and has exactly one cell per tile of its
    grid. *)
Definition stateOk (z : Z) (st : ZoomState) : Prop :=
  zs_z st = z
  /\ 32 <= cellSize st <= 2048
  /\ length (meshes st)
     = (Z.to_nat (gridSize (grid st)) * Z.to_nat (gridSize (grid st)))%nat.

Definition statesOk (w : World) : Prop :=
  forall z st, stateAt z w = Some st -> stateOk z st.

(** ** Bands *)

(** The band [b] ends where the zoom that is wanted is still at least its
    own: at the full range, or at a distance within [maxRange / 2^24] of
    one where the wanted zoom is lower. *)
Definition bandTight (zoomAt : Q -> Z) (maxRange : Q) (b : Band) : Prop :=
  bandZoom b <= zoomAt (maxDist b)
  /\ (maxDist b = maxRange
      \/ exists hi,
           (maxDist b < hi)%Q /\ (hi <= maxRange)%Q
           /\ zoomAt hi < bandZoom b
           /\ (hi - maxDist b == maxRange / inject_Z (2 ^ 24))%Q).

(** ** Materials *)

(** A material with a map that the atlas has not patched, or has
    unpatched again. *)
Definition unpatched (m : ShaderMaterial) : Prop :=
  sm_isMaterial m = true /\ sm_hasMap m = true
  /\ ud_mapAtlasInstalled m = false
  /\ ud_mapAtlasPrevOnBeforeCompile m = HUndefined
  /\ ud_mapAtlasPrevCustomProgramCacheKey m = HUndefined.

(** What unpatching leaves of a hook that was [h] before the patch of
    version [v]: [h] itself, unless it was [undefined], in which case the
    patch stays. *)
Definition afterRoundTrip (v : Z) (h : Hook) : Hook :=
  match h with
  | HUndefined => HPatched HUndefined (Js.toInt32 v)
  | _ => h
  end.

(** * Example inputs

    Concrete configurations, frames and candidate lists on which the
    embedding is evaluated below. *)

Definition cand (z x y : Z) (d : Q) : Candidate :=
  {| c_key := _tileKey z x y; c_tileX := x; c_tileY := y; c_rectDist := d |}.

(** The web-mercator tile of a point, the composition of the projection
    utility's [mercatorToLonLat] and [lonLatToTile]. *)
Definition stdMercatorToTileXY (mx my : Q) (z : Z) : option (Z * Z) :=
  let n := 2 ^ z in
  let ts := (WORLD / inject_Z n)%Q in
  let cl v := Z.max 0 (Z.min (n - 1) v) in
  Some (cl (Qfloor ((mx + WORLD / 2) / ts)),
        cl (Qfloor ((WORLD / 2 - my) / ts))).

(** The spec's example: candidates spanning [tileX] 100..103 and [tileY]
    50..52. *)
Definition exampleCandidates : list Candidate :=
  ty ← zrange 50 52; tx ← zrange 100 103; [cand 8 tx ty 0].

(** Two tiles of zoom 5 that are 17 columns apart. *)
Definition wideCandidates : list Candidate := [cand 5 0 0 0; cand 5 16 0 0].

(** An atlas with one state, for zoom 5. *)
Definition stateZoom5 : ZoomState :=
  (_ensureZoomState 5 (mkGrid 3 4 2) (Some 256) newWorld).1.

Definition worldZoom5 : World :=
  (_ensureZoomState 5 (mkGrid 3 4 2) (Some 256) newWorld).2.

(** The configuration of the repository's [index.js], with the LOD mode
    left open. *)
Definition repoConfig (mode : LodMode) : Config :=
  {| mapDrapeShaderPatchEnabled := true;
     cfgAtlasMipmaps := Some false;
     mapDrapeEnableBelowOrEqualHeightMeters := Some 1000000%Q;
     mapDrapeNearMeters := Some 200000%Q;
     lod_updateMs := Some 250%Q;
     mapDrapePatchUpdateMs := None;
     lod_debounce_ms := Some 150%Q;
     lod_debounce_moveMeters := Some 15%Q;
     lod_debounce_heightMeters := Some 20%Q;
     lod_debounce_angleDeg := Some (3 # 2)%Q;
     mapDrapeDebounceMs := None;
     mapDrapeDebounceMoveMeters := None;
     mapDrapeDebounceHeightMeters := None;
     mapDrapeDebounceAngleDeg := None;
     mapDrapeSkipTileLoad := false;
     mapDrapeAtlasCellSizeByZoom :=
       fun z => if (13 <=? z) && (z <=? 18) then Some 256 else None;
     mapDrapeAtlasCellSize := None;
     lodMode := mode;
     tc_maxMapZoom := Some 18;
     lod_maxZoom := Some 18;
     lod_minZoom := Some 5;
     mapDrapeAtlasMinZoom := Some 5;
     mapDrapePatchBands := None;
     mapDrapeBaseZoom := Some 6;
     tc_mapDrapeBaseZoom := None;
     lod_viewportPadTiles := Some 2;
     mapDrapeViewportPadTiles := None;
     tc_mapDrapeViewportPadTiles := None;
     mapDrapeLodMaxTiles := None;
     mapDrapeLodMaxWork := None;
     mapDrapeLodErrorScale := None |}.

(** A plan of the viewport strategy for the zooms [lo .. hi] with the given
    candidates and a GPU limit of 4096 pixels. *)
Definition planOf (lo hi : Z) (cands : Z -> list Candidate) : ViewportPlan :=
  {| minTileZoom := lo; maxTileZoom := hi;
     vp_noCoverage := fun _ => false;
     vp_rangePositive := fun _ => true;
     vp_candidates := cands;
     maxRenderTargetSize := Some 4096;
     maxTextureSize := Some 4096 |}.

(** The same configuration for the trapezoid strategy, narrowed to the
    single zoom 5, without viewport padding and with a range of 5 km. *)
Definition trapezoidConfig : Config :=
  {| mapDrapeShaderPatchEnabled := true;
     cfgAtlasMipmaps := Some false;
     mapDrapeEnableBelowOrEqualHeightMeters := Some 1000000%Q;
     mapDrapeNearMeters := Some 5000%Q;
     lod_updateMs := Some 250%Q;
     mapDrapePatchUpdateMs := None;
     lod_debounce_ms := Some 150%Q;
     lod_debounce_moveMeters := Some 15%Q;
     lod_debounce_heightMeters := Some 20%Q;
     lod_debounce_angleDeg := Some (3 # 2)%Q;
     mapDrapeDebounceMs := None;
     mapDrapeDebounceMoveMeters := None;
     mapDrapeDebounceHeightMeters := None;
     mapDrapeDebounceAngleDeg := None;
     mapDrapeSkipTileLoad := false;
     mapDrapeAtlasCellSizeByZoom :=
       fun z => if (13 <=? z) && (z <=? 18) then Some 256 else None;
     mapDrapeAtlasCellSize := None;
     lodMode := Trapezoid;
     tc_maxMapZoom := Some 18;
     lod_maxZoom := Some 5;
     lod_minZoom := Some 5;
     mapDrapeAtlasMinZoom := Some 5;
     mapDrapePatchBands := None;
     mapDrapeBaseZoom := Some 6;
     tc_mapDrapeBaseZoom := None;
     lod_viewportPadTiles := Some 0;
     mapDrapeViewportPadTiles := None;
     tc_mapDrapeViewportPadTiles := None;
     mapDrapeLodMaxTiles := None;
     mapDrapeLodMaxWork := None;
     mapDrapeLodErrorScale := None |}.

(** The level orientation, and the camera pitched up by about 74 degrees
    (a rotation about the x axis with a rational unit quaternion). *)
Definition level : Q * Q * Q * Q := (0%Q, 0%Q, 0%Q, 1%Q).
Definition pitchedUp : Q * Q * Q * Q := ((3 # 5)%Q, 0%Q, 0%Q, (4 # 5)%Q).

(** A camera 5000 m above the ground at scene position [(x, z)]. *)
Definition viewAt (x z : Q) (q : Q * Q * Q * Q) : View :=
  {| vx := x; vy := 5000; vz := z;
     qx := q.1.1.1; qy := q.1.1.2; qz := q.1.2; qw := q.2 |}.

(** The distance from the mercator point (100, 100) to the four tiles of
    zoom 5 that meet near it; every other tile of that zoom is more than
    a thousand kilometres away. *)
Definition nearOriginRectDist (x y z : Z) : Q :=
  if bool_decide ((x, y) = (16, 15)) then 0%Q
  else if bool_decide ((x, y) = (15, 15)) then 100%Q
  else if bool_decide ((x, y) = (16, 16)) then 100%Q
  else if bool_decide ((x, y) = (15, 16)) then (14142 # 100)%Q
  else 1000000%Q.

(** A frame at time [t]: the scene origin lies at the mercator point
    (100, 100), one scene unit is one meter, the vertical field of view is
    60 degrees ([tan 30° = 0.57735]) and the viewport is 720 pixels high.
    [rotationDeg] stands for [2 * acos(c) * 180 / pi]: it agrees with it at
    [c = 1] and, like it, exceeds 1.5 degrees at [c = 4/5], the only
    arguments it gets in the runs below. *)
Definition frameAt (t : Q) (x z : Q) (q : Q * Q * Q * Q)
    (hits : list (option (Q * Q))) (p : ViewportPlan) : Frame :=
  {| now := t; tiles := true; camera := viewAt x z q;
     unitsToMeters := fun v => v;
     rotationDeg := fun c => (120 * (1 - c))%Q;
     camMerc := Some ((100 + x)%Q, (100 - z)%Q);
     cameraHeight := 5000%Q;
     projection := Perspective true (57735 # 100000);
     viewportH := 720%Q;
     topZoomByViewRaw := Some 15;
     maxRangeMeters := 5000%Q;
     hasCenterMercator := true;
     cornerHits := hits;
     mercatorToTileXY := stdMercatorToTileXY;
     tileRectDist := nearOriginRectDist;
     tileVisible := fun _ _ _ => true;
     tileDist3D := fun _ _ _ => Finite 5000%Q;
     plan := p |}.

Definition noHits : list (option (Q * Q)) := [None; None; None; None].

Definition noPlan : ViewportPlan := planOf 5 5 (fun _ => []).

Definition exampleFrame : Frame := frameAt 1000 0 0 level noHits noPlan.

(** Where the rays through the two lower viewport corners meet the ground
    for the level camera at [(x, z)]; the rays through the upper corners
    miss it. *)
Definition levelHits (x z : Q) : list (option (Q * Q)) :=
  [ Some ((100 + x - 8886)%Q, (100 - z + 8660)%Q);
    Some ((100 + x + 8886)%Q, (100 - z + 8660)%Q);
    None; None ].

Definition levelFrame (t x z : Q) : Frame :=
  frameAt t x z level (levelHits x z) noPlan.

(** The atlas after a first frame at time 1000 with the level camera at
    the scene origin. *)
Definition afterFirstFrame : World :=
  update trapezoidConfig (levelFrame 1000 0 0) newWorld.

(** The camera pitched up: no ray through the viewport meets the ground. *)
Definition skyFrame (t : Q) : Frame := frameAt t 0 0 pitchedUp noHits noPlan.

(** A frame in which the projection utility is missing, so [camMerc] is
    [null], with the camera [h] meters above the ground. *)
Definition blindFrame (t h : Q) : Frame :=
  {| now := t; tiles := true;
     camera := {| vx := 0; vy := h; vz := 0;
                  qx := 0; qy := 0; qz := 0; qw := 1 |};
     unitsToMeters := fun v => v;
     rotationDeg := fun c => (120 * (1 - c))%Q;
     camMerc := None;
     cameraHeight := h;
     projection := Perspective true (57735 # 100000);
     viewportH := 720%Q;
     topZoomByViewRaw := None;
     maxRangeMeters := 5000%Q;
     hasCenterMercator := false;
     cornerHits := noHits;
     mercatorToTileXY := fun _ _ _ => None;
     tileRectDist := fun _ _ _ => 0%Q;
     tileVisible := fun _ _ _ => true;
     tileDist3D := fun _ _ _ => Infinite;
     plan := noPlan |}.

(** The tiles of zoom [z] within [r] rings around the tile [(cx, cy)], row
    by row; the distance grows by one tile size [ts] per ring. *)
Definition ringCandidates (z cx cy r : Z) (ts : Q) : list Candidate :=
  j ← zrange (- r) r;
  i ← zrange (- r) r;
  [cand z (cx + i) (cy + j) (inject_Z (Z.max (Z.abs i) (Z.abs j)) * ts)%Q].

(** The viewport strategy with [mapDrapeLod.maxLevels = 1] and
    [mapDrapeLod.zoomBias = -3] works on the one zoom that fits the height
    of the camera: from 5000 m a pixel is [2 * 5000 * tan 30° / 720 = 8.02]
    meters, [log2 (WORLD / (256 * 8.02)) = 14.25], so the zoom is
    [15 - 3 = 12]; from 10000 m it is [14 - 3 = 11].  The nine tiles around
    the camera tile are the candidates. *)
Definition zoom12Plan : ViewportPlan :=
  planOf 12 12
    (fun z => if z =? 12 then ringCandidates 12 2048 2047 1 9784 else []).

Definition zoom11Plan : ViewportPlan :=
  planOf 11 11
    (fun z => if z =? 11 then ringCandidates 11 1024 1023 1 19568 else []).

(** The level camera 5000 m above the scene origin. *)
Definition zoom12Frame (t : Q) : Frame :=
  frameAt t 0 0 level (levelHits 0 0) zoom12Plan.

(** The same camera 10000 m above the scene origin. *)
Definition zoom11Frame (t : Q) : Frame :=
  {| now := t; tiles := true;
     camera := {| vx := 0; vy := 10000; vz := 0;
                  qx := 0; qy := 0; qz := 0; qw := 1 |};
     unitsToMeters := fun v => v;
     rotationDeg := fun c => (120 * (1 - c))%Q;
     camMerc := Some (100%Q, 100%Q);
     cameraHeight := 10000%Q;
     projection := Perspective true (57735 # 100000);
     viewportH := 720%Q;
     topZoomByViewRaw := Some 14;
     maxRangeMeters := 5000%Q;
     hasCenterMercator := true;
     cornerHits := [ Some ((100 - 17772)%Q, (100 + 17320)%Q);
                     Some ((100 + 17772)%Q, (100 + 17320)%Q);
                     None; None ];
     mercatorToTileXY := stdMercatorToTileXY;
     tileRectDist := nearOriginRectDist;
     tileVisible := fun _ _ _ => true;
     tileDist3D := fun _ _ _ => Finite 10000%Q;
     plan := zoom11Plan |}.

(** The frame [f] in a moment in which [this._tiles()] gives [null]. *)
Definition withoutTiles (f : Frame) : Frame :=
  {| now := now f; tiles := false; camera := camera f;
     unitsToMeters := unitsToMeters f; rotationDeg := rotationDeg f;
     camMerc := camMerc f; cameraHeight := cameraHeight f;
     projection := projection f; viewportH := viewportH f;
     topZoomByViewRaw := topZoomByViewRaw f;
     maxRangeMeters := maxRangeMeters f;
     hasCenterMercator := hasCenterMercator f;
     cornerHits := cornerHits f; mercatorToTileXY := mercatorToTileXY f;
     tileRectDist := tileRectDist f; tileVisible := tileVisible f;
     tileDist3D := tileDist3D f; plan := plan f |}.

(** A tile image of 512 by 512 pixels. *)
Definition tex512 (id : nat) : Texture :=
  {| tex_id := id; tex_width := Some 512; tex_height := Some 512 |}.

(** The camera works on zoom 12, climbs to 10000 m and stays there: the
    frame of the climb is debounced, the next one works on zoom 11 and
    drops the state of zoom 12, which is out of the zoom range now. *)
Definition climb : list Action :=
  [ Update (repoConfig Viewport) (zoom12Frame 1000);
    Update (repoConfig Viewport) (zoom11Frame 1300);
    Update (repoConfig Viewport) (zoom11Frame 1600) ].

(** The first fetch of [climb], for the camera tile of zoom 12; it is still
    in flight when zoom 12 is dropped. *)
Definition firstFetch : Pending :=
  {| p_id := 1; p_gen := 0; p_z := 12; p_key := (12, 2048, 2047);
     p_tileX := 2048; p_tileY := 2047 |}.

(** The camera comes down again, the early fetch of the camera tile is
    rejected, and one more frame passes. *)
Definition climbAndReturn : list Action :=
  climb
    ++ [ Update (repoConfig Viewport) (zoom12Frame 1900);
         Update (repoConfig Viewport) (zoom12Frame 2200);
         Settle (repoConfig Viewport) 1 Rejected;
         Update (repoConfig Viewport) (zoom12Frame 2500) ].

(** A frame on zoom 12 with a tile source, then [clear()] in a moment
    without one. *)
Definition clearWithoutTiles : list Action :=
  [ Update (repoConfig Viewport) (zoom12Frame 1000); Clear false ].

(** A first frame on zoom 12 without a tile source, then the climb with
    one. *)
Definition climbAfterBlindStart : list Action :=
  [ Update (repoConfig Viewport) (withoutTiles (zoom12Frame 1000));
    Update (repoConfig Viewport) (zoom11Frame 1300);
    Update (repoConfig Viewport) (zoom11Frame 1600) ].

(** The viewport strategy looking at the zooms 14 and 15, each with the 25
    tiles within two rings of the camera tile. *)
Definition twoZoomFrame : Frame :=
  frameAt 1000 0 0 level (levelHits 0 0)
    (planOf 14 15
       (fun z => if z =? 15 then ringCandidates 15 16384 16383 2 1223
                 else if z =? 14 then ringCandidates 14 8192 8191 2 2446
                 else [])).

(** * Properties *)

(** ** Integer helpers *)

Lemma toInt32_small (x : Z) :
  -2147483648 <= x < 2147483648 -> Js.toInt32 x = x.
Proof.
  intros H. unfold Js.toInt32.
  rewrite Z.mod_small by lia. lia.
Qed.

Lemma toInt32_range (x : Z) : -2147483648 <= Js.toInt32 x < 2147483648.
Proof.
  unfold Js.toInt32.
  pose proof (Z.mod_pos_bound (x + 2147483648) 4294967296 ltac:(lia)).
  lia.
Qed.

Lemma shl1_pow2 (z : Z) : 0 <= z < 31 -> Js.shl1 z = 2 ^ z.
Proof.
  intros H. unfold Js.shl1.
  rewrite Z.mod_small by lia.
  rewrite Z.shiftl_1_l.
  apply toInt32_small.
  assert (0 < 2 ^ z) by (apply Z.pow_pos_nonneg; lia).
  assert (2 ^ z <= 2 ^ 30) by (apply Z.pow_le_mono_r; lia).
  change (2 ^ 30) with 1073741824 in *. lia.
Qed.

Lemma clamp_range (v a b : Z) : a <= b -> a <= Js.clamp v a b <= b.
Proof. unfold Js.clamp. lia. Qed.

Lemma clamp_mono (v v' a b : Z) :
  v <= v' -> Js.clamp v a b <= Js.clamp v' a b.
Proof. unfold Js.clamp. lia. Qed.

(** [nextPow2] is a power of two, covers its argument, and is the least
    such power. *)
Lemma nextPow2_is_pow2 (v : Z) : exists e, 0 <= e /\ nextPow2 v = 2 ^ e.
Proof.
  unfold nextPow2. destruct (Z.leb_spec v 1).
  - exists 0. split; [lia | reflexivity].
  - exists (Z.log2_up v). split; [apply Z.log2_up_nonneg | reflexivity].
Qed.

Lemma nextPow2_covers (v : Z) : v <= nextPow2 v.
Proof.
  unfold nextPow2. destruct (Z.leb_spec v 1); [lia |].
  apply Z.log2_up_spec. lia.
Qed.

Lemma nextPow2_least (v e : Z) : 0 <= e -> v <= 2 ^ e -> nextPow2 v <= 2 ^ e.
Proof.
  intros He Hv. unfold nextPow2. destruct (Z.leb_spec v 1).
  - assert (0 < 2 ^ e) by (apply Z.pow_pos_nonneg; lia). lia.
  - apply Z.pow_le_mono_r; [lia |].
    apply Z.log2_up_le_pow2; lia.
Qed.

Lemma nextPow2_pos (v : Z) : 1 <= nextPow2 v.
Proof.
  unfold nextPow2. destruct (Z.leb_spec v 1); [lia |].
  assert (0 < 2 ^ Z.log2_up v)
    by (apply Z.pow_pos_nonneg; [lia | apply Z.log2_up_nonneg]).
  lia.
Qed.

(** ** [_ensureZoomState] *)

Lemma gridChanged_false (st : ZoomState) (g : Grid) :
  gridChanged (Some st) g = false <-> grid st = g.
Proof.
  unfold gridChanged. destruct (grid st) as [ox oy gs], g as [ox' oy' gs'].
  cbn. split.
  - intros H.
    destruct (Z.eqb_spec ox ox'), (Z.eqb_spec oy oy'), (Z.eqb_spec gs gs');
      cbn in H; try discriminate. congruence.
  - intros [= -> -> ->]. rewrite !Z.eqb_refl. reflexivity.
Qed.

Lemma cellChanged_false (st : ZoomState) (cell : Z) :
  cellChanged (Some st) cell = false <-> cellSize st <> 0 /\ cellSize st = cell.
Proof.
  unfold cellChanged.
  destruct (Z.eqb_spec (cellSize st) 0), (Z.eqb_spec (cellSize st) cell);
    cbn; intuition congruence.
Qed.

Lemma normCellSize_valid (w : World) (c : Z) :
  1 <= c < 2147483648 -> normCellSize w (Some c) = c.
Proof.
  intros H. cbn. rewrite toInt32_small by lia. lia.
Qed.

(** C8: with the grid and the cell size of the state that is registered
    for the zoom, [_ensureZoomState] returns that state and changes nothing
    (no render target is released or allocated); with a different grid or
    cell size the state it registers has a new render target and the
    textures, the loads map and the active keys of the previous state. *)
Theorem ensureZoomState_noop_or_carry
    (z : Z) (g : Grid) (c : Z) (w : World) (st : ZoomState) :
  stateAt z w = Some st ->
  1 <= c < 2147483648 ->
  (grid st = g /\ cellSize st = c ->
     _ensureZoomState z g (Some c) w = (st, w))
  /\ (grid st <> g \/ cellSize st <> c ->
      let r := _ensureZoomState z g (Some c) w in
      stateAt z r.2 = Some r.1
      /\ grid r.1 = g /\ cellSize r.1 = c
      /\ rt r.1 = nextId w
      /\ textures r.1 = textures st
      /\ loads r.1 = loads st
      /\ activeKeys r.1 = activeKeys st
      /\ trace r.2 = trace w ++ [EvDisposeRT z (rt st);
                                 EvAllocRT z (nextId w)
                                   (Z.max 1 (gridSize g) * c)]).
Proof.
  intros Hst Hc. unfold _ensureZoomState.
  rewrite Hst, (normCellSize_valid w c Hc). split.
  - intros [Hg Hcell].
    assert (gridChanged (Some st) g = false) as -> by (apply gridChanged_false; exact Hg).
    assert (cellChanged (Some st) c = false) as ->
      by (apply cellChanged_false; split; lia).
    reflexivity.
  - intros Hdiff.
    assert (gridChanged (Some st) g || cellChanged (Some st) c = true) as ->.
    { destruct (gridChanged (Some st) g) eqn:Eg; [reflexivity |].
      destruct (cellChanged (Some st) c) eqn:Ec; [reflexivity |].
      apply gridChanged_false in Eg. apply cellChanged_false in Ec.
      destruct Hdiff as [Hd | Hd]; [congruence | tauto]. }
    cbn. unfold stateAt. cbn. rewrite lookup_insert_eq.
    rewrite <- app_assoc. repeat split; reflexivity.
Qed.

Lemma ensureZoomState_noop_or_carry_witness :
  _ensureZoomState 5 (mkGrid 3 4 2) (Some 256) worldZoom5
    = (stateZoom5, worldZoom5)
  /\ trace (_ensureZoomState 5 (mkGrid 3 4 4) (Some 256) worldZoom5).2
     = trace worldZoom5 ++ [EvDisposeRT 5 0; EvAllocRT 5 1 1024].
Proof.
  destruct (ensureZoomState_noop_or_carry 5 (mkGrid 3 4 2) 256 worldZoom5
              stateZoom5 ltac:(vm_compute; reflexivity) ltac:(lia))
    as [Hsame _].
  destruct (ensureZoomState_noop_or_carry 5 (mkGrid 3 4 4) 256 worldZoom5
              stateZoom5 ltac:(vm_compute; reflexivity) ltac:(lia))
    as [_ Hdiff].
  split.
  - apply Hsame. split; reflexivity.
  - apply Hdiff. left. discriminate.
Defined.

(** ** The refinement loop *)

Lemma refineBody_work (cfg : Config) (f : Frame) (t : StackEntry)
    (r : Refine) : work (refineBody cfg f t r) = work r.
Proof.
  unfold refineBody.
  repeat match goal with |- context [if ?b then _ else _] => destruct b end;
    reflexivity.
Qed.

(** The loop runs at most [budget] rounds, and when it stops the stack is
    empty or the budget is used up. *)
Lemma refineLoop_work (cfg : Config) (f : Frame) (budget : nat) (r : Refine) :
  let r' := refineLoop cfg f budget r in
  work r <= work r' <= work r + Z.of_nat budget
  /\ (stack r' = [] \/ work r' = work r + Z.of_nat budget).
Proof.
  revert r. induction budget as [| b IH]; intros r; cbn -[Z.of_nat].
  - split; [lia | right; lia].
  - destruct (stack r) as [| t rest] eqn:Es.
    + split; [lia | left; exact Es].
    + specialize (IH (refineBody cfg f t
                        {| stack := rest; work := work r + 1;
                           leaves := leaves r;
                           tilesByZoom := tilesByZoom r |})).
      cbn -[Z.of_nat] in IH. rewrite refineBody_work in IH. cbn -[Z.of_nat] in IH.
      destruct IH as [Hw Hs]. split; [lia |].
      destruct Hs as [Hs | Hs]; [left; exact Hs | right; lia].
Qed.

Lemma accept_accepted (f : Frame) (t : StackEntry) (r : Refine) (z : Z) :
  accepted (accept f t r) z =
    if bool_decide (ez t = z) then accepted r z ++ [candidateOf f t]
    else accepted r z.
Proof.
  unfold accepted, accept. cbn.
  case_bool_decide as Hz.
  - subst z. rewrite lookup_insert_eq. reflexivity.
  - rewrite lookup_insert_ne by exact Hz. reflexivity.
Qed.

Lemma accept_stack (f : Frame) (t : StackEntry) (r : Refine) :
  stack (accept f t r) = stack r.
Proof. reflexivity. Qed.

Lemma flush_fold_keeps (f : Frame) (ts : list StackEntry) (r : Refine)
    (z : Z) (c : Candidate) :
  c ∈ accepted r z ->
  c ∈ accepted (fold_left (fun acc t => accept f t acc) ts r) z.
Proof.
  revert r. induction ts as [| t ts IH]; intros r Hc; cbn; [exact Hc |].
  apply IH. rewrite accept_accepted.
  case_bool_decide; [apply elem_of_app; left; exact Hc | exact Hc].
Qed.

Lemma flush_fold_adds (f : Frame) (ts : list StackEntry) (r : Refine)
    (t : StackEntry) :
  t ∈ ts ->
  candidateOf f t
    ∈ accepted (fold_left (fun acc t => accept f t acc) ts r) (ez t).
Proof.
  revert r. induction ts as [| t' ts IH]; intros r Ht; cbn.
  - inversion Ht.
  - apply elem_of_cons in Ht as [-> | Ht].
    + apply flush_fold_keeps. rewrite accept_accepted.
      rewrite bool_decide_eq_true_2 by reflexivity.
      apply elem_of_app; right. apply list_elem_of_singleton. reflexivity.
    + apply IH. exact Ht.
Qed.

Lemma flush_fold_leaves (f : Frame) (ts : list StackEntry) (r : Refine) :
  leaves (fold_left (fun acc t => accept f t acc) ts r)
  = leaves r + Z.of_nat (length ts).
Proof.
  revert r. induction ts as [| t ts IH]; intros r; cbn -[Z.of_nat].
  - lia.
  - rewrite IH. cbn -[Z.of_nat]. lia.
Qed.

(** C7: the refinement loop of the trapezoid strategy ends after at most
    [maxWork] rounds, one popped stack entry each; when it has ended the
    stack is empty or the work cap is reached, and every entry still on the
    stack is then added to the tile set of its own zoom, unrefined, next to
    everything accepted before. *)
Theorem refinement_terminates_and_keeps_stack
    (cfg : Config) (f : Frame) (cm : Q * Q) :
  let r := refineLoop cfg f (Z.to_nat (maxWork cfg)) (refineStart cfg f cm) in
  let out := flushStack f r in
  (0 <= work r <= maxWork cfg)
  /\ (stack r = [] \/ work r = maxWork cfg)
  /\ (forall t, t ∈ stack r -> candidateOf f t ∈ accepted out (ez t))
  /\ (forall z c, c ∈ accepted r z -> c ∈ accepted out z)
  /\ leaves out = leaves r + Z.of_nat (length (stack r)).
Proof.
  intros r out.
  pose proof (refineLoop_work cfg f (Z.to_nat (maxWork cfg))
                (refineStart cfg f cm)) as [Hw Hs].
  fold r in Hw, Hs. cbn [refineStart work] in Hw, Hs.
  assert (0 <= maxWork cfg) as Hpos.
  { unfold maxWork. destruct (mapDrapeLodMaxWork cfg); lia. }
  rewrite Z2Nat.id in Hw, Hs by exact Hpos.
  split; [lia |]. split; [destruct Hs; [left | right]; [assumption | lia] |].
  subst out. unfold flushStack. split; [| split].
  - intros t Ht. apply flush_fold_adds.
    apply list_elem_of_In, in_rev. rewrite rev_involutive.
    apply list_elem_of_In. exact Ht.
  - intros z c Hc. apply flush_fold_keeps. exact Hc.
  - rewrite flush_fold_leaves. cbn [leaves]. rewrite length_rev. reflexivity.
Qed.

(** ** The atlas grid *)

Lemma extent_fold_bounds (rest : list Candidate) (e : Extent) :
  let e' := fold_left extentStep rest e in
  (minTX e' <= minTX e /\ maxTX e <= maxTX e'
   /\ minTY e' <= minTY e /\ maxTY e <= maxTY e')
  /\ (forall c, c ∈ rest ->
        minTX e' <= c_tileX c <= maxTX e'
        /\ minTY e' <= c_tileY c <= maxTY e').
Proof.
  revert e. induction rest as [| d rest IH]; intros e; cbn [fold_left].
  - split; [lia | intros c Hc; inversion Hc].
  - specialize (IH (extentStep e d)). cbn zeta in IH.
    destruct IH as [Hm Hin].
    assert (minTX (extentStep e d) <= minTX e
            /\ maxTX e <= maxTX (extentStep e d)
            /\ minTY (extentStep e d) <= minTY e
            /\ maxTY e <= maxTY (extentStep e d)
            /\ minTX (extentStep e d) <= c_tileX d <= maxTX (extentStep e d)
            /\ minTY (extentStep e d) <= c_tileY d <= maxTY (extentStep e d))
      as Hstep.
    { unfold extentStep; cbn.
      destruct (Z.ltb_spec (c_tileX d) (minTX e)),
               (Z.ltb_spec (c_tileY d) (minTY e)),
               (Z.ltb_spec (maxTX e) (c_tileX d)),
               (Z.ltb_spec (maxTY e) (c_tileY d)); lia. }
    split; [lia |].
    intros c Hc. apply elem_of_cons in Hc as [-> | Hc]; [lia | auto].
Qed.

Lemma extentOf_bounds (c0 : Candidate) (rest : list Candidate) :
  forall c, c ∈ c0 :: rest ->
    minTX (extentOf c0 rest) <= c_tileX c <= maxTX (extentOf c0 rest)
    /\ minTY (extentOf c0 rest) <= c_tileY c <= maxTY (extentOf c0 rest).
Proof.
  intros c Hc. unfold extentOf.
  pose proof (extent_fold_bounds rest
                {| minTX := c_tileX c0; minTY := c_tileY c0;
                   maxTX := c_tileX c0; maxTY := c_tileY c0 |}) as [Hm Hin].
  cbn in Hm, Hin.
  apply elem_of_cons in Hc as [-> | Hc]; [lia | auto].
Qed.

(** The bounds are attained, so they lie in the range of the tiles. *)
Lemma extent_fold_attained (rest : list Candidate) (e : Extent) (n : Z) :
  (0 <= minTX e /\ maxTX e < n /\ 0 <= minTY e /\ maxTY e < n) ->
  tilesInRange n rest ->
  let e' := fold_left extentStep rest e in
  0 <= minTX e' /\ maxTX e' < n /\ 0 <= minTY e' /\ maxTY e' < n.
Proof.
  revert e. induction rest as [| d rest IH]; intros e He Hr; cbn [fold_left];
    [exact He |].
  apply IH.
  - pose proof (Hr d ltac:(apply elem_of_cons; left; reflexivity)).
    unfold extentStep; cbn.
    destruct (Z.ltb_spec (c_tileX d) (minTX e)),
             (Z.ltb_spec (c_tileY d) (minTY e)),
             (Z.ltb_spec (maxTX e) (c_tileX d)),
             (Z.ltb_spec (maxTY e) (c_tileY d)); lia.
  - intros c Hc. apply Hr. apply elem_of_cons; right; exact Hc.
Qed.

Lemma extentOf_in_range (c0 : Candidate) (rest : list Candidate) (n : Z) :
  tilesInRange n (c0 :: rest) ->
  let e := extentOf c0 rest in
  0 <= minTX e /\ maxTX e < n /\ 0 <= minTY e /\ maxTY e < n
  /\ minTX e <= maxTX e /\ minTY e <= maxTY e.
Proof.
  intros Hr e.
  pose proof (Hr c0 ltac:(apply elem_of_cons; left; reflexivity)) as H0.
  pose proof (extent_fold_attained rest
                {| minTX := c_tileX c0; minTY := c_tileY c0;
                   maxTX := c_tileX c0; maxTY := c_tileY c0 |} n) as Ha.
  cbn in Ha. specialize (Ha ltac:(lia)
    ltac:(intros c Hc; apply Hr; apply elem_of_cons; right; exact Hc)).
  pose proof (extentOf_bounds c0 rest c0
                ltac:(apply elem_of_cons; left; reflexivity)) as Hb.
  fold e in Hb. unfold extentOf in e. subst e. lia.
Qed.

(** One axis of the origin: when the grid is wide enough for [lo .. hi] and
    fits into the tile range, the chosen origin puts [lo .. hi] inside. *)
Lemma pickOrigin_contains (n gs center lo hi : Z) :
  0 <= lo -> lo <= hi -> hi < n -> hi - lo + 1 <= gs -> gs <= n ->
  let o := pickOrigin n gs center lo hi in
  0 <= o /\ o <= lo /\ hi <= o + gs - 1 /\ o + gs <= n.
Proof.
  intros Hlo Hle Hhi Hw Hn. unfold pickOrigin, clampOrigin.
  generalize (center - gs / 2). intros o0.
  destruct (Z.ltb_spec lo (Z.max 0 (Z.min (n - gs) o0)));
    match goal with |- context [?a <? ?b] => destruct (Z.ltb_spec a b) end;
    lia.
Qed.

Lemma pickGrid_covers (n gs : Z) (center : Z * Z) (c0 : Candidate)
    (rest : list Candidate) :
  tilesInRange n (c0 :: rest) ->
  Z.max (extentW (extentOf c0 rest)) (extentH (extentOf c0 rest)) <= gs ->
  gs <= n ->
  coversAll (pickGrid n gs center (extentOf c0 rest)) (c0 :: rest).
Proof.
  intros Hr Hgs Hn c Hc.
  pose proof (extentOf_in_range c0 rest n Hr) as He. cbn zeta in He.
  pose proof (extentOf_bounds c0 rest c Hc) as Hb.
  unfold extentW, extentH in Hgs.
  pose proof (pickOrigin_contains n gs center.1
                (minTX (extentOf c0 rest)) (maxTX (extentOf c0 rest))
                ltac:(lia) ltac:(lia) ltac:(lia) ltac:(lia) Hn) as Hx.
  pose proof (pickOrigin_contains n gs center.2
                (minTY (extentOf c0 rest)) (maxTY (extentOf c0 rest))
                ltac:(lia) ltac:(lia) ltac:(lia) ltac:(lia) Hn) as Hy.
  cbn zeta in Hx, Hy.
  unfold cellIndex, pickGrid; cbn.
  destruct (Z.ltb_spec (c_tileX c - pickOrigin n gs center.1
                          (minTX (extentOf c0 rest))
                          (maxTX (extentOf c0 rest))) 0); [lia |].
  destruct (Z.ltb_spec (c_tileY c - pickOrigin n gs center.2
                          (minTY (extentOf c0 rest))
                          (maxTY (extentOf c0 rest))) 0); [lia |].
  destruct (Z.leb_spec gs (c_tileX c - pickOrigin n gs center.1
                          (minTX (extentOf c0 rest))
                          (maxTX (extentOf c0 rest)))); [lia |].
  destruct (Z.leb_spec gs (c_tileY c - pickOrigin n gs center.2
                          (minTY (extentOf c0 rest))
                          (maxTY (extentOf c0 rest)))); [lia |].
  cbn. eauto.
Qed.

Lemma baseGridSize_fits (mip : bool) (z : Z) (e : Extent) :
  0 <= z ->
  0 <= minTX e -> maxTX e < 2 ^ z -> 0 <= minTY e -> maxTY e < 2 ^ z ->
  Z.max (extentW e) (extentH e) <= baseGridSize mip e <= 2 ^ z.
Proof.
  intros Hz ? ? ? ?. unfold baseGridSize, extentW, extentH in *.
  destruct mip.
  - split; [apply nextPow2_covers |].
    apply nextPow2_least; [exact Hz | lia].
  - lia.
Qed.

Lemma pow2Below_spec (fuel : nat) (p raw : Z) :
  1 <= p <= raw -> (exists e, 0 <= e /\ p = 2 ^ e) ->
  let q := pow2Below fuel p raw in
  p <= q <= raw /\ exists e, 0 <= e /\ q = 2 ^ e.
Proof.
  revert p. induction fuel as [| fuel IH]; intros p Hp Hpow; cbn.
  - split; [lia | exact Hpow].
  - destruct (Z.leb_spec (2 * p) raw).
    + destruct (IH (2 * p) ltac:(lia)) as [Hq Hq'].
      { destruct Hpow as [e [He ->]]. exists (e + 1). split; [lia |].
        rewrite Z.pow_add_r by lia. lia. }
      split; [lia | exact Hq'].
    + split; [lia | exact Hpow].
Qed.

(** The cap of the viewport strategy keeps the render target within the
    GPU limit whenever one cell fits at all. *)
Lemma maxGridForCell_within (mip : bool) (maxRT cell : Z) :
  1 <= cell < 2147483648 -> cell <= maxRT ->
  1 <= maxGridForCell mip maxRT cell
  /\ maxGridForCell mip maxRT cell * cell <= maxRT.
Proof.
  intros Hc Hm. unfold maxGridForCell.
  rewrite toInt32_small by lia.
  replace (Z.max 1 cell) with cell by lia.
  assert (1 <= maxRT / cell) as Hq by (apply Z.div_le_lower_bound; lia).
  assert (maxRT / cell * cell <= maxRT) as Hd.
  { rewrite Z.mul_comm. apply Z.mul_div_le. lia. }
  replace (Z.max 1 (maxRT / cell)) with (maxRT / cell) by lia.
  destruct mip; [| split; [lia | exact Hd]].
  pose proof (pow2Below_spec 31 1 (maxRT / cell) ltac:(lia)
                ltac:(exists 0; split; [lia | reflexivity])) as [Hp _].
  cbn zeta in Hp. split; [lia |]. nia.
Qed.

Lemma tilesInRange_Forall (n : Z) (cands : list Candidate) :
  Forall (fun c => 0 <= c_tileX c < n /\ 0 <= c_tileY c < n) cands ->
  tilesInRange n cands.
Proof. intros H c Hc. rewrite Forall_forall in H. apply H, Hc. Qed.

(** The bounds of the extent are the tightest: a box around every
    candidate is a box around the extent. *)
Lemma extent_fold_tight (rest : list Candidate) (e : Extent)
    (a b a' b' : Z) :
  (a <= minTX e /\ maxTX e <= b /\ a' <= minTY e /\ maxTY e <= b') ->
  (forall c, c ∈ rest -> a <= c_tileX c <= b /\ a' <= c_tileY c <= b') ->
  let e' := fold_left extentStep rest e in
  a <= minTX e' /\ maxTX e' <= b /\ a' <= minTY e' /\ maxTY e' <= b'.
Proof.
  revert e. induction rest as [| d rest IH]; intros e He Hr; cbn [fold_left];
    [exact He |].
  apply IH.
  - pose proof (Hr d ltac:(apply elem_of_cons; left; reflexivity)).
    unfold extentStep; cbn.
    destruct (Z.ltb_spec (c_tileX d) (minTX e)),
             (Z.ltb_spec (c_tileY d) (minTY e)),
             (Z.ltb_spec (maxTX e) (c_tileX d)),
             (Z.ltb_spec (maxTY e) (c_tileY d)); lia.
  - intros c Hc. apply Hr. apply elem_of_cons; right; exact Hc.
Qed.

Lemma cellIndex_inside (g : Grid) (tx ty : Z) :
  is_Some (cellIndex g tx ty)
  <-> originX g <= tx < originX g + gridSize g
      /\ originY g <= ty < originY g + gridSize g.
Proof.
  unfold cellIndex.
  destruct (Z.ltb_spec (tx - originX g) 0), (Z.ltb_spec (ty - originY g) 0),
           (Z.leb_spec (gridSize g) (tx - originX g)),
           (Z.leb_spec (gridSize g) (ty - originY g)); cbn;
    (split; [intros [i Hi]; first [discriminate Hi | lia]
            | intros Hin; first [lia | eauto]]).
Qed.

(** A grid that has a cell for every candidate is at least as wide and as
    high as their extent. *)
Lemma coversAll_extent (g : Grid) (c0 : Candidate) (rest : list Candidate) :
  coversAll g (c0 :: rest) ->
  Z.max (extentW (extentOf c0 rest)) (extentH (extentOf c0 rest))
  <= gridSize g.
Proof.
  intros Hcov.
  assert (forall c, c ∈ c0 :: rest ->
            originX g <= c_tileX c <= originX g + gridSize g - 1
            /\ originY g <= c_tileY c <= originY g + gridSize g - 1) as Hin.
  { intros c Hc. apply Hcov, cellIndex_inside in Hc. lia. }
  pose proof (Hin c0 ltac:(apply elem_of_cons; left; reflexivity)) as H0.
  pose proof (extent_fold_tight rest
                {| minTX := c_tileX c0; minTY := c_tileY c0;
                   maxTX := c_tileX c0; maxTY := c_tileY c0 |}
                (originX g) (originX g + gridSize g - 1)
                (originY g) (originY g + gridSize g - 1)) as Ht.
  cbn in Ht. specialize (Ht ltac:(lia)
    ltac:(intros c Hc; apply Hin; apply elem_of_cons; right; exact Hc)).
  unfold extentW, extentH, extentOf. lia.
Qed.

(** The cap of the viewport strategy is positive, and a power of two when
    mipmaps are on. *)
Lemma maxGridForCell_shape (mip : bool) (maxRT cell : Z) :
  1 <= maxGridForCell mip maxRT cell
  /\ (mip = true -> exists k, 0 <= k /\ maxGridForCell mip maxRT cell = 2 ^ k).
Proof.
  unfold maxGridForCell.
  set (raw := Z.max 1 (maxRT / Z.max 1 (Js.toInt32 cell))).
  assert (1 <= raw) as Hraw by (unfold raw; lia). clearbody raw.
  destruct mip; [| split; [lia | discriminate]].
  pose proof (pow2Below_spec 31 1 raw ltac:(lia)
                ltac:(exists 0; split; [lia | reflexivity])) as [Hp Hk].
  cbn zeta in Hp, Hk. split; [lia |]. intros _.
  destruct Hk as (k & Hk & Hq). exists k. split; [exact Hk |]. lia.
Qed.

(** C1 (amended): for a non-empty candidate list of tiles of zoom [z] and a
    cell size of 1 to 2^31 - 1 pixels ([update] passes 32 to 2048), with
    [m] the larger side of their bounding extent, the size [B] that both
    strategies start from is the least power of two that is at least [m]
    (mipmaps on) or [m] itself (mipmaps off).  When [B] does not exceed the
    GPU cap [maxGridForCell], both strategies choose [B] and the grid has
    a cell for every candidate.  When [B] exceeds the cap, the
    viewport/bands strategy chooses the cap: a candidate has a cell exactly
    when its tile lies inside the capped grid, and at least one candidate
    lies outside and has none.  Whenever one cell fits into the GPU size
    limit at all, the render target of the viewport/bands strategy is
    within the limit, and so is that of the trapezoid strategy as long as
    [B] does not exceed the cap. *)
Theorem grid_size_minimal_and_capped
    (mip : bool) (z : Z) (center : Z * Z) (c0 : Candidate)
    (rest : list Candidate) (maxRT cell : Z) :
  0 <= z < 31 ->
  Forall (fun c => 0 <= c_tileX c < 2 ^ z /\ 0 <= c_tileY c < 2 ^ z)
    (c0 :: rest) ->
  1 <= cell < 2147483648 ->
  let e := extentOf c0 rest in
  let m := Z.max (extentW e) (extentH e) in
  let B := baseGridSize mip e in
  let cap := maxGridForCell mip maxRT cell in
  let tg := trapezoidGrid mip z center e in
  let vg := viewportGrid mip cap z center e in
  (if mip
   then (exists k, 0 <= k /\ B = 2 ^ k) /\ m <= B
        /\ (forall k, 0 <= k -> m <= 2 ^ k -> B <= 2 ^ k)
   else B = m)
  /\ (B <= cap ->
      gridSize tg = B /\ coversAll tg (c0 :: rest)
      /\ gridSize vg = B /\ coversAll vg (c0 :: rest))
  /\ (cap < B ->
      gridSize vg = cap
      /\ (forall c, c ∈ c0 :: rest ->
            is_Some (cellIndex vg (c_tileX c) (c_tileY c))
            <-> originX vg <= c_tileX c < originX vg + cap
                /\ originY vg <= c_tileY c < originY vg + cap)
      /\ exists c, c ∈ c0 :: rest
                   /\ cellIndex vg (c_tileX c) (c_tileY c) = None)
  /\ (cell <= maxRT ->
      gridSize vg * cell <= maxRT
      /\ (B <= cap -> gridSize tg * cell <= maxRT)).
Proof.
  intros Hz Hr Hcell e m B cap tg vg.
  apply tilesInRange_Forall in Hr.
  pose proof (extentOf_in_range c0 rest (2 ^ z) Hr) as He. cbn zeta in He.
  fold e in He.
  pose proof (baseGridSize_fits mip z e ltac:(lia) ltac:(lia) ltac:(lia)
                ltac:(lia) ltac:(lia)) as HB.
  fold m B in HB.
  pose proof (maxGridForCell_shape mip maxRT cell) as [Hcap1 Hcap2].
  fold cap in Hcap1, Hcap2.
  assert (gridSize vg = Z.min B cap) as Hvg.
  { unfold vg, viewportGrid, pickGrid, viewportGridSize; cbn. fold e B.
    destruct (Z.ltb_spec cap B); lia. }
  assert (gridSize tg = B) as Htg by reflexivity.
  split; [| split; [| split]].
  - subst B m. unfold baseGridSize. destruct mip; [| reflexivity].
    split; [apply nextPow2_is_pow2 |].
    split; [apply nextPow2_covers |].
    intros k Hk Hm. apply nextPow2_least; assumption.
  - intros Hle. split; [exact Htg |]. split; [| split].
    + unfold tg, trapezoidGrid. rewrite shl1_pow2 by exact Hz.
      apply pickGrid_covers; [exact Hr | fold e m B; lia | fold e B; lia].
    + rewrite Hvg. lia.
    + unfold vg, viewportGrid. rewrite shl1_pow2 by exact Hz.
      unfold viewportGridSize. fold e B.
      destruct (Z.ltb_spec cap B); [lia |].
      apply pickGrid_covers; [exact Hr | fold e m B; lia | fold e B; lia].
  - intros Hlt.
    assert (gridSize vg = cap) as Hgs by (rewrite Hvg; lia).
    split; [exact Hgs |]. split.
    + intros c _. rewrite cellIndex_inside, Hgs. reflexivity.
    + assert (cap < m) as Hm.
      { destruct mip eqn:Emip.
        - destruct (Hcap2 eq_refl) as (k & Hk & Hcapk).
          destruct (Z.lt_ge_cases cap m) as [| Hge]; [assumption |].
          exfalso. subst B. unfold baseGridSize in Hlt. fold m in Hlt.
          pose proof (nextPow2_least m k Hk ltac:(lia)). lia.
        - subst B. unfold baseGridSize in Hlt. fold m in Hlt. exact Hlt. }
      assert (~ coversAll vg (c0 :: rest)) as Hnot.
      { intros Hcov. apply coversAll_extent in Hcov. fold e m in Hcov. lia. }
      assert (~ Forall (fun c => is_Some (cellIndex vg (c_tileX c)
                                             (c_tileY c))) (c0 :: rest))
        as Hnf.
      { intros Hall. apply Hnot. intros c Hc.
        rewrite Forall_forall in Hall. apply Hall, Hc. }
      apply not_Forall_Exists in Hnf; [| intros c; apply _].
      apply Exists_exists in Hnf as (c & Hc & Hno).
      exists c. split; [exact Hc |].
      destruct (cellIndex vg (c_tileX c) (c_tileY c)) as [i |] eqn:Eci;
        [exfalso; apply Hno; rewrite Eci; eauto | reflexivity].
  - intros Hmax.
    pose proof (maxGridForCell_within mip maxRT cell Hcell Hmax) as [_ Hw].
    fold cap in Hw.
    assert (0 <= B) as HB0 by (unfold extentW, extentH in *; lia).
    split; [rewrite Hvg; nia | intros Hle; rewrite Htg; nia].
Qed.

Lemma grid_size_minimal_and_capped_witness :
  let e := extentOf (cand 8 100 50 0) (tail exampleCandidates) in
  gridSize (trapezoidGrid true 8 (101, 51) e) = 4
  /\ coversAll (trapezoidGrid true 8 (101, 51) e) exampleCandidates
  /\ gridSize (viewportGrid true 16 8 (101, 51) e) = 4.
Proof.
  pose proof (grid_size_minimal_and_capped true 8 (101, 51)
                (cand 8 100 50 0) (tail exampleCandidates) 4096 256
                ltac:(lia)
                ltac:(apply (bool_decide_unpack _); vm_compute; reflexivity)
                ltac:(lia)) as [_ [H _]].
  specialize (H ltac:(vm_compute; discriminate)).
  destruct H as [H1 [H2 [H3 _]]].
  split; [exact H1 |]. split; [exact H2 | exact H3].
Defined.

(** C1, as stated, fails on both strategies.  With a GPU limit of 4096
    pixels and cells of 256 pixels, two candidates 17 columns apart get a
    viewport grid of 16 cells that leaves one of them out, and a trapezoid
    grid of 17 cells whose render target exceeds the limit. *)
Lemma grid_claim_counterexample :
  let e := extentOf (cand 5 0 0 0) [cand 5 16 0 0] in
  let limit := maxRTSize (Some 4096) (Some 4096) in
  let cap := maxGridForCell false limit 256 in
  ~ coversAll (viewportGrid false cap 5 (8, 0) e) wideCandidates
  /\ ~ gridSize (trapezoidGrid false 5 (8, 0) e) * 256 <= limit.
Proof.
  split.
  - intros H.
    destruct (H (cand 5 0 0 0)) as [i Hi].
    + apply elem_of_cons; left. reflexivity.
    + vm_compute in Hi. discriminate Hi.
  - vm_compute. intros H. apply H. reflexivity.
Qed.

(** ** [desiredZoomForDistance] *)

Lemma qlt_true (a b : Q) : qlt a b = true <-> (a < b)%Q.
Proof.
  unfold qlt. rewrite negb_true_iff. split.
  - intros H. apply Qnot_le_lt. intros Hle.
    apply Qle_bool_iff in Hle. congruence.
  - intros H. destruct (Qle_bool b a) eqn:E; [| reflexivity].
    apply Qle_bool_iff in E. exfalso. exact (Qlt_not_le _ _ H E).
Qed.

Lemma qlt_false (a b : Q) : qlt a b = false <-> (b <= a)%Q.
Proof.
  unfold qlt. rewrite negb_false_iff. apply Qle_bool_iff.
Qed.

Lemma Qinv_antitone (u v : Q) : (0 < u -> u <= v -> / v <= / u)%Q.
Proof.
  intros Hu Huv.
  apply Qle_shift_inv_l; [exact Hu |].
  rewrite Qmult_comm. change (u * / v)%Q with (u / v)%Q.
  apply Qle_shift_div_r.
  - apply Qlt_le_trans with u; assumption.
  - rewrite Qmult_1_l. exact Huv.
Qed.

Lemma Qdiv_antitone (c u v : Q) : (0 <= c -> 0 < u -> u <= v -> c / v <= c / u)%Q.
Proof.
  intros Hc Hu Huv. unfold Qdiv.
  rewrite (Qmult_comm c (/ v)), (Qmult_comm c (/ u)).
  apply Qmult_le_compat_r; [| exact Hc].
  apply Qinv_antitone; assumption.
Qed.

(** [ceilLog2] is monotone on the positive rationals. *)
Lemma ceilLog2_mono (x y : Q) :
  (0 < x)%Q -> (x <= y)%Q -> ceilLog2 x <= ceilLog2 y.
Proof.
  intros Hx Hxy. unfold ceilLog2.
  destruct (Qle_bool 1 x) eqn:Ex, (Qle_bool 1 y) eqn:Ey.
  - apply Z.log2_up_le_mono, Qceiling_resp_le, Hxy.
  - apply Qle_bool_iff in Ex.
    assert (Qle_bool 1 y = true) as E'
      by (apply Qle_bool_iff; eapply Qle_trans; eassumption).
    congruence.
  - pose proof (Z.log2_nonneg (Qfloor (/ x))).
    pose proof (Z.log2_up_nonneg (Qceiling y)). lia.
  - assert (Qfloor (/ y) <= Qfloor (/ x))
      by (apply Qfloor_resp_le, Qinv_antitone; assumption).
    pose proof (Z.log2_le_mono _ _ H). lia.
Qed.

Lemma ceilLog2_double (x : Q) :
  doubleMagnitude x -> -1074 <= ceilLog2 x <= 1024.
Proof.
  intros [Hlo Hhi]. unfold ceilLog2.
  assert (0 < / inject_Z (2 ^ 1074))%Q as Hpos
    by (apply Qinv_lt_0_compat; reflexivity).
  assert (0 < x)%Q as Hx by (eapply Qlt_le_trans; eassumption).
  destruct (Qle_bool 1 x) eqn:Ex.
  - apply Qle_bool_iff in Ex.
    pose proof (Qceiling_resp_le _ _ Ex) as H1.
    pose proof (Qceiling_resp_le _ _ Hhi) as H2.
    rewrite Qceiling_Z in H2. change (Qceiling 1) with 1 in H1.
    pose proof (Z.log2_up_nonneg (Qceiling x)).
    assert (Z.log2_up (Qceiling x) <= 1024)
      by (apply Z.log2_up_le_pow2; [lia | exact H2]).
    lia.
  - pose proof (Qinv_antitone _ _ Hpos Hlo) as Hinv.
    rewrite Qinv_involutive in Hinv.
    pose proof (Qfloor_resp_le _ _ Hinv) as H2. rewrite Qfloor_Z in H2.
    pose proof (Z.log2_nonneg (Qfloor (/ x))).
    pose proof (Z.log2_le_mono _ _ H2) as H3.
    rewrite Z.log2_pow2 in H3 by lia. lia.
Qed.

(** The zoom range of the trapezoid strategy is never empty. *)
Lemma zoom_range_ordered (cfg : Config) (f : Frame) :
  atlasMinZoom cfg <= minZoomOf cfg f <= topZoomOf cfg f
  /\ topZoomOf cfg f <= atlasMaxZoom cfg.
Proof.
  assert (atlasMinZoom cfg <= atlasMaxZoom cfg) as Hmm
    by (unfold atlasMaxZoom; lia).
  assert (atlasMinZoom cfg <= topZoomCfg cfg <= atlasMaxZoom cfg) as Htc
    by (unfold topZoomCfg; apply clamp_range; exact Hmm).
  assert (atlasMinZoom cfg <= topZoomOf cfg f <= atlasMaxZoom cfg) as Htop.
  { unfold topZoomOf, topZoomByView.
    destruct (topZoomByViewRaw f) as [z |]; [| exact Htc].
    pose proof (clamp_range (Js.toInt32 z) _ _ Hmm). lia. }
  split; [| lia].
  unfold minZoomOf.
  match goal with |- context [Js.clamp ?b _ _] =>
    pose proof (clamp_range b _ _ (proj1 Htop)) end.
  match goal with |- context [?a <? ?b] => destruct (Z.ltb_spec a b) end; lia.
Qed.

Lemma qmax_le_compat (c a b : Q) : (a <= b)%Q -> (qmax c a <= qmax c b)%Q.
Proof.
  intros Hab. unfold qmax.
  destruct (qlt c a) eqn:Ea, (qlt c b) eqn:Eb.
  - exact Hab.
  - apply qlt_true in Ea. apply qlt_false in Eb.
    exfalso. apply (Qlt_not_le _ _ Ea). eapply Qle_trans; eassumption.
  - apply qlt_true in Eb. apply Qlt_le_weak, Eb.
  - apply Qle_refl.
Qed.

Lemma qmax_lower (c a : Q) : (c <= qmax c a)%Q.
Proof.
  unfold qmax. destruct (qlt c a) eqn:E.
  - apply qlt_true in E. apply Qlt_le_weak, E.
  - apply Qle_refl.
Qed.

Lemma effectiveDist_finite (a b : Q) :
  (a <= b)%Q ->
  exists a' b', effectiveDist (Finite a) = Finite a'
                /\ effectiveDist (Finite b) = Finite b'
                /\ (1 <= a')%Q /\ (a' <= b')%Q.
Proof.
  intros Hab. cbn. eexists _, _. split; [reflexivity |].
  split; [reflexivity |]. split; [apply qmax_lower |].
  destruct (Qeq_bool a 0) eqn:Ea, (Qeq_bool b 0) eqn:Eb.
  - apply Qle_refl.
  - apply Qeq_bool_iff in Ea. unfold qmax at 1.
    assert (qlt 1 1 = false) as -> by reflexivity. apply qmax_lower.
  - apply Qeq_bool_iff in Eb.
    assert (a <= 0)%Q as Ha by (rewrite <- Eb; exact Hab).
    unfold qmax at 1.
    assert (qlt 1 a = false) as ->.
    { apply qlt_false. eapply Qle_trans; [exact Ha | discriminate]. }
    apply qmax_lower.
  - apply qmax_le_compat, Hab.
Qed.

Lemma zoomQuotient_antitone (scale t vh a b : Q) :
  (0 < scale)%Q -> (0 < t)%Q -> (0 < vh)%Q -> (0 < a)%Q -> (a <= b)%Q ->
  (0 < (2 * a * t) / vh)%Q
  /\ (0 < zoomQuotient scale ((2 * b * t) / vh))%Q
  /\ (zoomQuotient scale ((2 * b * t) / vh)
      <= zoomQuotient scale ((2 * a * t) / vh))%Q.
Proof.
  intros Hs Ht Hv Ha Hab.
  assert (0 < b)%Q as Hb by (eapply Qlt_le_trans; eassumption).
  assert (forall d, 0 < d -> 0 < (2 * d * t) / vh)%Q as Hmpp.
  { intros d Hd. apply Qlt_shift_div_l; [exact Hv |].
    rewrite Qmult_0_l.
    apply Qmult_lt_0_compat; [| exact Ht].
    apply Qmult_lt_0_compat; [reflexivity | exact Hd]. }
  assert (forall d, 0 < d -> 0 < 256 * ((2 * d * t) / vh * scale))%Q as Hden.
  { intros d Hd. apply Qmult_lt_0_compat; [reflexivity |].
    apply Qmult_lt_0_compat; [apply Hmpp, Hd | exact Hs]. }
  split; [apply Hmpp, Ha |]. unfold zoomQuotient. split.
  - apply Qlt_shift_div_l; [apply Hden, Hb |].
    rewrite Qmult_0_l. reflexivity.
  - apply Qdiv_antitone; [discriminate | apply Hden, Ha |].
    apply Qmult_le_l; [reflexivity |].
    apply Qmult_le_compat_r; [| apply Qlt_le_weak, Hs].
    unfold Qdiv. apply Qmult_le_compat_r;
      [| apply Qlt_le_weak, Qinv_lt_0_compat, Hv].
    apply Qmult_le_compat_r; [| apply Qlt_le_weak, Ht].
    apply Qmult_le_l; [reflexivity | exact Hab].
Qed.

Lemma zoomErrorScale_pos (cfg : Config) : (0 < zoomErrorScale cfg)%Q.
Proof.
  unfold zoomErrorScale. destruct (mapDrapeLodErrorScale cfg) as [s |].
  - apply Qlt_le_trans with (1 # 4)%Q; [reflexivity | apply qmax_lower].
  - reflexivity.
Qed.

Lemma desiredZoom_clamped (cfg : Config) (f : Frame) (d : Dist) :
  minZoomOf cfg f <= desiredZoomForDistance cfg f d <= topZoomOf cfg f.
Proof.
  pose proof (zoom_range_ordered cfg f) as [Hr _].
  unfold desiredZoomForDistance, desiredZoomFrom.
  destruct (metersPerPixel f (effectiveDist d)) as [mpp |]; [| lia].
  destruct (Qle_bool mpp 0); [lia |].
  apply clamp_range. lia.
Qed.

Lemma positive_not_le0 (x : Q) : (0 < x)%Q -> Qle_bool x 0 = false.
Proof.
  intros H. destruct (Qle_bool x 0) eqn:E; [| reflexivity].
  apply Qle_bool_iff in E. exfalso. exact (Qlt_not_le _ _ H E).
Qed.

(** C5: for a perspective camera with a field of view in range and a
    positive viewport height, [desiredZoomForDistance] does not increase
    when the distance grows, and its result always lies between [minZoom]
    and [topZoom].  Numbers are exact rationals; the quotient
    [WORLD / (256 * metersPerPixel)] is assumed to have the magnitude of a
    finite double, so that [z | 0] does not wrap. *)
Theorem desiredZoom_monotone_and_clamped
    (cfg : Config) (f : Frame) (t : Q) (d1 d2 : Dist) :
  projection f = Perspective true t ->
  (0 < t)%Q ->
  (0 < viewportH f)%Q ->
  distLe d1 d2 ->
  (forall d mpp, d = d1 \/ d = d2 ->
     metersPerPixel f (effectiveDist d) = Some mpp ->
     doubleMagnitude (zoomQuotient (zoomErrorScale cfg) mpp)) ->
  desiredZoomForDistance cfg f d2 <= desiredZoomForDistance cfg f d1
  /\ minZoomOf cfg f <= desiredZoomForDistance cfg f d1 <= topZoomOf cfg f
  /\ minZoomOf cfg f <= desiredZoomForDistance cfg f d2 <= topZoomOf cfg f.
Proof.
  intros Hp Ht Hv Hle Hdbl.
  split; [| split; apply desiredZoom_clamped].
  destruct d2 as [b |].
  - destruct d1 as [a |]; [| contradiction].
    cbn in Hle.
    destruct (effectiveDist_finite a b Hle) as (a' & b' & Ea & Eb & Ha1 & Hab).
    assert (0 < a')%Q as Ha by (eapply Qlt_le_trans; [| exact Ha1]; reflexivity).
    pose proof (zoomQuotient_antitone (zoomErrorScale cfg) t (viewportH f)
                  a' b' (zoomErrorScale_pos cfg) Ht Hv Ha Hab)
      as (Hma & Hqb & Hq).
    assert (0 < b')%Q as Hb by (apply Qlt_le_trans with a'; assumption).
    pose proof (zoomQuotient_antitone (zoomErrorScale cfg) t (viewportH f)
                  b' b' (zoomErrorScale_pos cfg) Ht Hv Hb (Qle_refl b'))
      as (Hmb & _).
    assert (metersPerPixel f (effectiveDist (Finite a))
            = Some ((2 * a' * t) / viewportH f)%Q) as Hmpa
      by (unfold metersPerPixel; rewrite Hp, Ea; reflexivity).
    assert (metersPerPixel f (effectiveDist (Finite b))
            = Some ((2 * b' * t) / viewportH f)%Q) as Hmpb
      by (unfold metersPerPixel; rewrite Hp, Eb; reflexivity).
    pose proof (ceilLog2_double _ (Hdbl _ _ (or_introl eq_refl) Hmpa)) as Hra.
    pose proof (ceilLog2_double _ (Hdbl _ _ (or_intror eq_refl) Hmpb)) as Hrb.
    unfold desiredZoomForDistance, desiredZoomFrom.
    rewrite Hmpa, Hmpb.
    rewrite (positive_not_le0 _ Hma), (positive_not_le0 _ Hmb).
    apply clamp_mono.
    rewrite !toInt32_small by lia.
    apply ceilLog2_mono; assumption.
  - assert (desiredZoomForDistance cfg f Infinite = minZoomOf cfg f) as ->.
    { unfold desiredZoomForDistance, desiredZoomFrom, metersPerPixel.
      rewrite Hp. reflexivity. }
    apply desiredZoom_clamped.
Qed.

Lemma desiredZoom_monotone_and_clamped_witness :
  desiredZoomForDistance (repoConfig Trapezoid) exampleFrame (Finite 10000)
  <= desiredZoomForDistance (repoConfig Trapezoid) exampleFrame (Finite 5000).
Proof.
  refine (proj1 (desiredZoom_monotone_and_clamped (repoConfig Trapezoid)
                   exampleFrame (57735 # 100000) (Finite 5000)
                   (Finite 10000) eq_refl eq_refl eq_refl _ _)).
  - vm_compute. discriminate.
  - intros d mpp [-> | ->] H; vm_compute in H; injection H as <-;
      split; vm_compute; discriminate.
Defined.

(** ** The debounce gate *)

Lemma qabs_zero (a : Q) : (a == 0)%Q -> (qabs a == 0)%Q.
Proof.
  intros H. unfold qabs. destruct (qlt a 0); [| exact H].
  rewrite H. reflexivity.
Qed.

Lemma clampedDot_one (d : Q) :
  (d == 1)%Q -> qmax (-1) (qmin 1 (qabs d)) = 1%Q.
Proof.
  intros H.
  assert (qabs d = d) as ->.
  { unfold qabs. assert (qlt d 0 = false) as ->; [| reflexivity].
    apply qlt_false. rewrite H. discriminate. }
  assert (qmin 1 d = 1%Q) as ->.
  { unfold qmin. assert (qlt d 1 = false) as ->; [| reflexivity].
    apply qlt_false. rewrite H. apply Qle_refl. }
  reflexivity.
Qed.

Lemma sameOrientation_dot (last cur : View) :
  sameOrientation last cur -> unitQuaternion last ->
  (qx cur * qx last + qy cur * qy last + qz cur * qz last + qw cur * qw last
   == 1)%Q.
Proof.
  intros (Hx & Hy & Hz & Hw) Hu. rewrite <- Hx, <- Hy, <- Hz, <- Hw.
  exact Hu.
Qed.

(** Without rotation and height change only the planar distance decides
    whether the camera counts as moved. *)
Lemma cameraMoved_translation (cfg : Config) (f : Frame) (last : View) :
  (heightMeters cfg == 20)%Q -> (angleDeg cfg == 3 # 2)%Q ->
  sameOrientation last (camera f) -> unitQuaternion last ->
  (rotationDeg f 1 == 0)%Q ->
  (unitsToMeters f (vy (camera f) - vy last) == 0)%Q ->
  cameraMoved cfg f last (camera f)
  = qlt (moveMeters cfg * moveMeters cfg) (planarSq f last (camera f)).
Proof.
  intros Hh Ha Hso Hu Hrot Hdy. unfold cameraMoved, hypotExceeds, planarSq.
  rewrite (clampedDot_one _ (sameOrientation_dot _ _ Hso Hu)).
  assert (qlt (heightMeters cfg)
            (qabs (unitsToMeters f (vy (camera f) - vy last))) = false) as ->.
  { apply qlt_false. rewrite (qabs_zero _ Hdy), Hh. discriminate. }
  assert (qlt (angleDeg cfg) (rotationDeg f 1) = false) as ->.
  { apply qlt_false. rewrite Hrot, Ha. discriminate. }
  rewrite !orb_false_r. reflexivity.
Qed.

Lemma syncOpts_atlas (cfg : Config) (w : World) :
  atlas (syncOpts cfg w) = atlas w
  /\ trace (syncOpts cfg w) = trace w
  /\ inflight (syncOpts cfg w) = inflight w
  /\ generation (syncOpts cfg w) = generation w.
Proof.
  unfold syncOpts. destruct (cfgAtlasMipmaps cfg); repeat split; reflexivity.
Qed.

(** After a frame that ended at the debounce gate because the camera had
    moved, a frame in which the camera has not moved again is held back at
    the debounce gate while the movement is less than the debounce
    interval old, after that at the throttle while the last recomputation
    is less than [updateMs] old, and otherwise goes on to the test of
    [camMerc] and the recomputation. *)
Lemma resumes_after_debounce (cfg : Config) (f f2 : Frame) (w : World) :
  mapDrapeShaderPatchEnabled cfg = true ->
  aboveEnableHeight cfg f2 = false ->
  (0 < debounceMs cfg)%Q ->
  cameraMoved cfg f2 (camera f) (camera f2) = false ->
  let w1 := setGate (Some (camera f)) (Some (now f)) (lastUpdate (atlas w))
              (syncOpts cfg w) in
  (updateWith cfg f2 w1).2
  = if qlt (now f2 - now f) (debounceMs cfg) then Debounced
    else if qlt (now f2 - lastUpdate (atlas w)) (updateMs cfg) then Throttled
    else match camMerc f2 with
         | None => NoCamMerc
         | Some _ => Recomputed
         end.
Proof.
  intros Hen Hh Hms Hstill w1.
  assert (qlt 0 (debounceMs cfg) = true) as Hms' by (apply qlt_true, Hms).
  assert (atlas (syncOpts cfg w1) = atlas w1) as Ha
    by apply (syncOpts_atlas cfg w1).
  unfold updateWith. rewrite Hen, Hh. cbn [negb].
  unfold debounceGate. rewrite Hms', Ha.
  cbn [w1 setGate setAtlas atlas lastView lastMoveAt lastUpdate].
  rewrite Hstill.
  destruct (qlt (now f2 - now f) (debounceMs cfg)); [reflexivity |].
  cbn [setGate setAtlas atlas lastView lastMoveAt lastUpdate].
  destruct (qlt (now f2 - lastUpdate (atlas w)) (updateMs cfg));
    [reflexivity |].
  destruct (camMerc f2); [| reflexivity].
  destruct (lodMode cfg); reflexivity.
Qed.

(** C6 (amended): with the thresholds moveMeters = 15, heightMeters = 20
    and angleDeg = 1.5, a translation of 10 m without rotation or height
    change does not count as camera movement: [lastMoveAt] stays as it was
    and the frame is held back only if an earlier movement is less than the
    debounce interval old.  A translation of 20 m counts as movement: it
    sets [lastMoveAt] to the current time and the frame ends at the
    debounce gate, without recomputation.  The next frame [f2], if the
    camera has not moved again, ends at the debounce gate as well while the
    movement is less than the debounce interval old; after that it ends at
    the throttle while the last recomputation is less than [updateMs] old;
    otherwise it recomputes (given mercator coordinates of the camera). *)
Theorem debounce_translation_example
    (cfg : Config) (f f2 : Frame) (w : World) (last : View) :
  mapDrapeShaderPatchEnabled cfg = true ->
  aboveEnableHeight cfg f = false ->
  (moveMeters cfg == 15)%Q ->
  (heightMeters cfg == 20)%Q ->
  (angleDeg cfg == 3 # 2)%Q ->
  (0 < debounceMs cfg)%Q ->
  lastView (atlas w) = Some last ->
  sameOrientation last (camera f) ->
  unitQuaternion last ->
  (rotationDeg f 1 == 0)%Q ->
  (unitsToMeters f (vy (camera f) - vy last) == 0)%Q ->
  ((planarSq f last (camera f) == 10 * 10)%Q ->
     cameraMoved cfg f last (camera f) = false
     /\ lastMoveAt (atlas (debounceGate cfg f w).1) = lastMoveAt (atlas w)
     /\ (debounceGate cfg f w).2
        = match lastMoveAt (atlas w) with
          | Some t0 => qlt (now f - t0) (debounceMs cfg)
          | None => false
          end)
  /\ ((planarSq f last (camera f) == 20 * 20)%Q ->
      cameraMoved cfg f last (camera f) = true
      /\ updateWith cfg f w
         = (setGate (Some (camera f)) (Some (now f)) (lastUpdate (atlas w))
              (syncOpts cfg w), Debounced)
      /\ (aboveEnableHeight cfg f2 = false ->
          cameraMoved cfg f2 (camera f) (camera f2) = false ->
          (updateWith cfg f2 (updateWith cfg f w).1).2
          = if qlt (now f2 - now f) (debounceMs cfg) then Debounced
            else if qlt (now f2 - lastUpdate (atlas w)) (updateMs cfg)
            then Throttled
            else match camMerc f2 with
                 | None => NoCamMerc
                 | Some _ => Recomputed
                 end)).
Proof.
  intros Hen Hheight Hm Hh Ha Hms Hlv Hso Hu Hrot Hdy.
  pose proof (cameraMoved_translation cfg f last Hh Ha Hso Hu Hrot Hdy) as Hcm.
  assert (qlt 0 (debounceMs cfg) = true) as Hms' by (apply qlt_true, Hms).
  split.
  - intros Hp.
    assert (cameraMoved cfg f last (camera f) = false) as Hno.
    { rewrite Hcm. apply qlt_false. rewrite Hp, Hm. discriminate. }
    split; [exact Hno |].
    unfold debounceGate. rewrite Hms', Hlv, Hno. cbn. split; reflexivity.
  - intros Hp.
    assert (cameraMoved cfg f last (camera f) = true) as Hyes.
    { rewrite Hcm. apply qlt_true. rewrite Hp, Hm. reflexivity. }
    split; [exact Hyes |].
    assert (lastView (atlas (syncOpts cfg w)) = Some last) as Hlv'.
    { unfold syncOpts. destruct (cfgAtlasMipmaps cfg); exact Hlv. }
    assert (lastUpdate (atlas (syncOpts cfg w)) = lastUpdate (atlas w)) as Hlu.
    { unfold syncOpts. destruct (cfgAtlasMipmaps cfg); reflexivity. }
    assert (updateWith cfg f w
            = (setGate (Some (camera f)) (Some (now f)) (lastUpdate (atlas w))
                 (syncOpts cfg w), Debounced)) as Hframe.
    { unfold updateWith. rewrite Hen, Hheight. cbn [negb].
      unfold debounceGate. rewrite Hms', Hlv', Hyes, Hlu.
      assert (qlt (now f - now f) (debounceMs cfg) = true) as ->.
      { apply qlt_true.
        assert (now f - now f == 0)%Q as -> by ring. exact Hms. }
      reflexivity. }
    split; [exact Hframe |].
    intros Hh2 Hstill. rewrite Hframe. cbn [fst].
    apply resumes_after_debounce; assumption.
Qed.

Lemma debounce_translation_example_witness :
  cameraMoved trapezoidConfig (levelFrame 1300 10 0) (viewAt 0 0 level)
    (camera (levelFrame 1300 10 0)) = false
  /\ cameraMoved trapezoidConfig (levelFrame 1300 20 0) (viewAt 0 0 level)
       (camera (levelFrame 1300 20 0)) = true
  /\ (updateWith trapezoidConfig (levelFrame 1500 20 0)
        (updateWith trapezoidConfig (levelFrame 1300 20 0)
           afterFirstFrame).1).2 = Recomputed.
Proof.
  split; [| split].
  - refine (proj1 (proj1 (debounce_translation_example trapezoidConfig
                            (levelFrame 1300 10 0) (levelFrame 1500 10 0)
                            afterFirstFrame
                            (viewAt 0 0 level) eq_refl _ _ _ _ _ _ _ _ _ _)
                     _));
      try (vm_compute; reflexivity).
    repeat split; reflexivity.
  - refine (proj1 (proj2 (debounce_translation_example trapezoidConfig
                            (levelFrame 1300 20 0) (levelFrame 1500 20 0)
                            afterFirstFrame
                            (viewAt 0 0 level) eq_refl _ _ _ _ _ _ _ _ _ _)
                     _));
      try (vm_compute; reflexivity).
    repeat split; reflexivity.
  - refine (proj2 (proj2 (proj2 (debounce_translation_example
                                   trapezoidConfig
                                   (levelFrame 1300 20 0)
                                   (levelFrame 1500 20 0) afterFirstFrame
                                   (viewAt 0 0 level)
                                   eq_refl _ _ _ _ _ _ _ _ _ _)
                            _)) _ _);
      try (vm_compute; reflexivity).
    repeat split; reflexivity.
Defined.

(** C6, as stated, fails.  After a first frame at time 1000, a frame at
    time 1300 in which the camera has moved by 10 m recomputes the LOD at
    once, and a frame at time 1300 in which it has moved by 20 m ends at
    the debounce gate without recomputation; with the camera at rest after
    that, a frame at time 1400 is still debounced and the frame at time
    1500 recomputes. *)
Lemma debounce_claim_counterexample :
  (updateWith trapezoidConfig (levelFrame 1300 10 0) afterFirstFrame).2
    = Recomputed
  /\ (updateWith trapezoidConfig (levelFrame 1300 20 0) afterFirstFrame).2
     = Debounced
  /\ (updateWith trapezoidConfig (levelFrame 1400 20 0)
        (updateWith trapezoidConfig (levelFrame 1300 20 0)
           afterFirstFrame).1).2 = Debounced
  /\ (updateWith trapezoidConfig (levelFrame 1500 20 0)
        (updateWith trapezoidConfig (levelFrame 1300 20 0)
           afterFirstFrame).1).2 = Recomputed.
Proof. repeat split; vm_compute; reflexivity. Qed.

(** ** Frames without a camera position in mercator coordinates *)

Lemma debounceGate_keeps (cfg : Config) (f : Frame) (w : World) :
  let w' := (debounceGate cfg f w).1 in
  byZoom (atlas w') = byZoom (atlas w)
  /\ pendingCellSizeByZoom (atlas w') = pendingCellSizeByZoom (atlas w)
  /\ lastUpdate (atlas w') = lastUpdate (atlas w)
  /\ trace w' = trace w /\ inflight w' = inflight w
  /\ generation w' = generation w /\ opts w' = opts w
  /\ nextId w' = nextId w /\ tileSize w' = tileSize w.
Proof.
  unfold debounceGate. destruct (qlt 0 (debounceMs cfg)); cbn;
    repeat split; reflexivity.
Qed.

(** C9 (amended): when the drape is enabled, the camera is not above the
    enable height and the camera position has no finite mercator
    coordinates (as when the projection utility is missing), the call
    raises no exception: it returns at the debounce gate, at the throttle
    or at the test of [camMerc].  No zoom state and no pending cell size is
    changed, no tile is pinned or unpinned, no fetch is issued and no
    render target is touched.  What the frame does write is [_opts], which
    takes the mipmap option of the configuration where that is defined,
    and the bookkeeping of the gates: [lastView] and [lastMoveAt] at the
    debounce gate, [lastUpdate] once the throttle is passed. *)
Theorem no_camMerc_frame_is_noop (cfg : Config) (f : Frame) (w : World) :
  mapDrapeShaderPatchEnabled cfg = true ->
  aboveEnableHeight cfg f = false ->
  camMerc f = None ->
  let r := updateWith cfg f w in
  (updateCall cfg true f w).2 = Returns r.2
  /\ (r.2 = Debounced \/ r.2 = Throttled \/ r.2 = NoCamMerc)
  /\ byZoom (atlas r.1) = byZoom (atlas w)
  /\ pendingCellSizeByZoom (atlas r.1) = pendingCellSizeByZoom (atlas w)
  /\ trace r.1 = trace w
  /\ inflight r.1 = inflight w
  /\ generation r.1 = generation w
  /\ nextId r.1 = nextId w
  /\ tileSize r.1 = tileSize w
  /\ opts r.1
     = {| mapDrapeAtlasMipmaps :=
            default (mapDrapeAtlasMipmaps (opts w)) (cfgAtlasMipmaps cfg);
          mapDrapeAtlasMaxNewLoadsPerTick :=
            mapDrapeAtlasMaxNewLoadsPerTick (opts w);
          mapDrapeAtlasOuterRingTiles :=
            mapDrapeAtlasOuterRingTiles (opts w) |}
  /\ lastUpdate (atlas r.1)
     = match r.2 with
       | NoCamMerc => now f
       | _ => lastUpdate (atlas w)
       end
  /\ (0 < debounceMs cfg -> lastView (atlas r.1) = Some (camera f))%Q.
Proof.
  intros Hen Hh Hcm. cbn zeta.
  split; [reflexivity |].
  unfold updateWith.
  rewrite Hen, Hh, Hcm. cbn [negb].
  pose proof (syncOpts_atlas cfg w) as (Ha & Ht & Hi & Hg).
  assert (nextId (syncOpts cfg w) = nextId w
          /\ tileSize (syncOpts cfg w) = tileSize w
          /\ opts (syncOpts cfg w)
             = {| mapDrapeAtlasMipmaps :=
                    default (mapDrapeAtlasMipmaps (opts w))
                      (cfgAtlasMipmaps cfg);
                  mapDrapeAtlasMaxNewLoadsPerTick :=
                    mapDrapeAtlasMaxNewLoadsPerTick (opts w);
                  mapDrapeAtlasOuterRingTiles :=
                    mapDrapeAtlasOuterRingTiles (opts w) |})
    as (Hn & Hts & Ho).
  { unfold syncOpts. destruct (cfgAtlasMipmaps cfg); cbn;
      [repeat split | destruct w as [a g o]; destruct o; repeat split]. }
  pose proof (debounceGate_keeps cfg f (syncOpts cfg w)) as Hd.
  cbn zeta in Hd.
  assert (0 < debounceMs cfg ->
          lastView (atlas (debounceGate cfg f (syncOpts cfg w)).1)
          = Some (camera f))%Q as Hlv.
  { intros Hms. apply qlt_true in Hms. unfold debounceGate.
    rewrite Hms. reflexivity. }
  destruct (debounceGate cfg f (syncOpts cfg w)) as [w1 suppressed].
  cbn [fst] in Hd, Hlv.
  destruct Hd as (Hb & Hp & Hlu & Htr & Hin & Hge & Hop & Hnx & Hsz).
  rewrite Ha in Hb, Hp, Hlu. rewrite Ht in Htr. rewrite Hi in Hin.
  rewrite Hg in Hge. rewrite Ho in Hop. rewrite Hn in Hnx.
  rewrite Hts in Hsz.
  destruct suppressed; [cbn; repeat split; auto |].
  destruct (qlt (now f - lastUpdate (atlas w1)) (updateMs cfg));
    cbn; repeat split; auto.
Qed.

Lemma no_camMerc_frame_is_noop_witness :
  trace (update trapezoidConfig (blindFrame 1300 5000) afterFirstFrame)
    = trace afterFirstFrame
  /\ byZoom (atlas (update trapezoidConfig (blindFrame 1300 5000)
                      afterFirstFrame))
     = byZoom (atlas afterFirstFrame).
Proof.
  pose proof (no_camMerc_frame_is_noop trapezoidConfig (blindFrame 1300 5000)
                afterFirstFrame eq_refl eq_refl eq_refl)
    as (_ & _ & Hb & _ & Ht & _).
  split; [exact Ht | exact Hb].
Defined.

(** C9, as stated, fails.  Without any ground intersection (the camera
    looks at the sky) the trapezoid strategy falls back to a square around
    the camera and goes on: the frame creates the state of zoom 5, pins
    four tiles and issues their fetches.  And with [camMerc] missing but the
    camera above the enable height, the frame clears the atlas: the four
    tiles are unpinned and the render target is released. *)
Lemma invalid_input_claim_counterexample :
  (cornerHits (skyFrame 1000) = [None; None; None; None]
   /\ trace (update trapezoidConfig (skyFrame 1000) newWorld)
      = [EvAllocRT 5 0 512;
         EvPin 5 (5, 15, 15); EvPin 5 (5, 16, 15);
         EvPin 5 (5, 15, 16); EvPin 5 (5, 16, 16);
         EvFetch 5 (5, 16, 15) 1; EvFetch 5 (5, 16, 16) 2;
         EvFetch 5 (5, 15, 15) 3; EvFetch 5 (5, 15, 16) 4;
         EvRender 5])
  /\ (camMerc (blindFrame 1300 2000000) = None
      /\ trace (update trapezoidConfig (blindFrame 1300 2000000)
                  afterFirstFrame)
         = trace afterFirstFrame
             ++ [EvUnpin 5 (5, 15, 15); EvUnpin 5 (5, 16, 15);
                 EvUnpin 5 (5, 15, 16); EvUnpin 5 (5, 16, 16);
                 EvDisposeRT 5 0]
      /\ byZoom (atlas (update trapezoidConfig (blindFrame 1300 2000000)
                          afterFirstFrame)) = ∅).
Proof.
  split; [split; [reflexivity | vm_compute; reflexivity] |].
  split; [reflexivity |]. split; vm_compute; reflexivity.
Qed.

(** ** Completion handlers *)

Lemma recordCellSize_keeps (cfg : Config) (z : Z) (tex : Texture) (w : World) :
  let w' := recordCellSize cfg z tex w in
  byZoom (atlas w') = byZoom (atlas w)
  /\ trace w' = trace w /\ inflight w' = inflight w
  /\ generation w' = generation w
  /\ lastUpdate (atlas w') = lastUpdate (atlas w)
  /\ lastView (atlas w') = lastView (atlas w)
  /\ lastMoveAt (atlas w') = lastMoveAt (atlas w)
  /\ (pendingCellSizeByZoom (atlas w') = pendingCellSizeByZoom (atlas w)
      \/ exists actual,
           _getCellSizeFromTexture tex = Some actual
           /\ hasCellSizeOverride cfg z = false
           /\ pendingCellSizeByZoom (atlas w')
              = <[z := actual]> (pendingCellSizeByZoom (atlas w))).
Proof.
  unfold recordCellSize.
  destruct (_getCellSizeFromTexture tex) as [actual |];
    [| cbn; repeat split; try reflexivity; left; reflexivity].
  destruct (hasCellSizeOverride cfg z) eqn:Eo;
    [cbn; repeat split; try reflexivity; left; reflexivity |].
  cbn [negb andb].
  match goal with |- context [if ?b then _ else _] => destruct b end;
    [| cbn; repeat split; try reflexivity; left; reflexivity].
  match goal with |- context [if ?b then _ else _] => destruct b end;
    cbn; repeat split; try reflexivity; [left; reflexivity |].
  right. exists actual. repeat split; reflexivity.
Qed.

Lemma bindFetched_stale (p : Pending) (tex : Texture) (w : World) :
  staleFor p w = true -> bindFetched p tex w = w.
Proof.
  unfold staleFor, bindFetched. destruct (stateAt (p_z p) w) as [st |];
    [| reflexivity].
  intros H. apply negb_true_iff in H. rewrite H. reflexivity.
Qed.

Lemma stateAt_putState (z z' : Z) (st : ZoomState) (w : World) :
  stateAt z' (putState z st w)
  = if bool_decide (z = z') then Some st else stateAt z' w.
Proof.
  unfold stateAt, putState. cbn. case_bool_decide as Hz.
  - subst. apply lookup_insert_eq.
  - apply lookup_insert_ne. exact Hz.
Qed.

Lemma sameButLoads_refl (a : ZoomState) : sameButLoads a a.
Proof. destruct a. reflexivity. Qed.

Lemma sameButLoads_withLoads (a : ZoomState) (l : gmap TileKey nat) :
  sameButLoads a (withLoads l a).
Proof. destruct a. reflexivity. Qed.

(** C3 (amended): a completion whose zoom has no state any more, or whose
    key is no longer in the active set of that state, binds nothing: every
    zoom state keeps its textures, cells, dirty flag, active keys, grid and
    render target, nothing is pinned, unpinned, fetched or rendered.  No
    error is raised: whether the fetch was fulfilled or rejected, the
    promise of the chain is fulfilled.  Two things are still written to
    the atlas object the handlers closed over, which is the current one
    unless [clear] has replaced it since the fetch was issued.  The key is
    removed from the loads map of the state now registered for the zoom.
    And a fulfilled fetch whose zoom has no cell-size override may first
    record the pixel size of its image in [pendingCellSizeByZoom], before
    the stale test. *)
Theorem stale_completion_binds_nothing
    (cfg : Config) (p : Pending) (s : Settlement) (w : World) :
  staleFor p w = true ->
  let w' := settle cfg p s w in
  trace w' = trace w
  /\ generation w' = generation w
  /\ lastUpdate (atlas w') = lastUpdate (atlas w)
  /\ lastView (atlas w') = lastView (atlas w)
  /\ lastMoveAt (atlas w') = lastMoveAt (atlas w)
  /\ (forall z,
        match stateAt z w, stateAt z w' with
        | Some st, Some st' =>
            sameButLoads st st'
            /\ loads st'
               = if bool_decide (z = p_z p /\ p_gen p = generation w)
                 then delete (p_key p) (loads st)
                 else loads st
        | None, None => True
        | _, _ => False
        end)
  /\ (pendingCellSizeByZoom (atlas w') = pendingCellSizeByZoom (atlas w)
      \/ exists tex actual,
           s = Fulfilled tex
           /\ p_gen p = generation w
           /\ _getCellSizeFromTexture tex = Some actual
           /\ hasCellSizeOverride cfg (p_z p) = false
           /\ pendingCellSizeByZoom (atlas w')
              = <[p_z p := actual]> (pendingCellSizeByZoom (atlas w)))
  /\ chainResult s = Resolves.
Proof.
  intros Hstale. unfold settle.
  set (w0 := setInflight (filter (fun q => q <> p) (inflight w)) w).
  assert (staleFor p w0 = true) as Hstale0 by exact Hstale.
  assert (chainResult s = Resolves) as Hchain by (destruct s; reflexivity).
  change (generation w0) with (generation w).
  case_bool_decide as Hgen; cbn zeta.
  2:{ repeat split; try reflexivity; try exact Hchain.
      - intros z. change (stateAt z w0) with (stateAt z w).
        destruct (stateAt z w) as [st |]; [| exact I].
        split; [apply sameButLoads_refl |].
        rewrite bool_decide_eq_false_2 by tauto. reflexivity.
      - left. reflexivity. }
  set (w1 := match s with
             | Fulfilled tex => recordCellSize cfg (p_z p) tex w0
             | Rejected => w0
             end).
  assert (match s with
          | Fulfilled tex => onFinally p (onFulfilled cfg p tex w0)
          | Rejected => onFinally p w0
          end = onFinally p w1) as ->.
  { subst w1. destruct s as [tex |]; [| reflexivity].
    unfold onFulfilled. rewrite bindFetched_stale; [reflexivity |].
    unfold staleFor, stateAt in *.
    destruct (recordCellSize_keeps cfg (p_z p) tex w0) as (-> & _).
    exact Hstale0. }
  assert (byZoom (atlas w1) = byZoom (atlas w)
          /\ trace w1 = trace w /\ generation w1 = generation w
          /\ lastUpdate (atlas w1) = lastUpdate (atlas w)
          /\ lastView (atlas w1) = lastView (atlas w)
          /\ lastMoveAt (atlas w1) = lastMoveAt (atlas w)
          /\ (pendingCellSizeByZoom (atlas w1)
              = pendingCellSizeByZoom (atlas w)
              \/ exists tex actual,
                   s = Fulfilled tex
                   /\ p_gen p = generation w
                   /\ _getCellSizeFromTexture tex = Some actual
                   /\ hasCellSizeOverride cfg (p_z p) = false
                   /\ pendingCellSizeByZoom (atlas w1)
                      = <[p_z p := actual]> (pendingCellSizeByZoom (atlas w))))
    as (Hb & Ht & Hg & Hlu & Hlv & Hlm & Hp).
  { subst w1. destruct s as [tex |].
    - destruct (recordCellSize_keeps cfg (p_z p) tex w0)
        as (Hb & Ht & _ & Hg & Hlu & Hlv & Hlm & Hp).
      repeat split; try assumption.
      destruct Hp as [Hp | (actual & Ha & Ho & Hp)]; [left; exact Hp |].
      right. exists tex, actual. repeat split; assumption.
    - repeat split; try reflexivity. left. reflexivity. }
  assert (forall z, stateAt z w1 = stateAt z w) as Hst
    by (intros z; unfold stateAt; rewrite Hb; reflexivity).
  unfold onFinally. rewrite Hst.
  destruct (stateAt (p_z p) w) as [st |] eqn:Est.
  - cbn. repeat split; try assumption.
    intros z. rewrite stateAt_putState, Hst.
    case_bool_decide as Hz.
    + subst z. rewrite Est.
      split; [apply sameButLoads_withLoads |].
      rewrite bool_decide_eq_true_2 by (split; [reflexivity | exact Hgen]).
      reflexivity.
    + destruct (stateAt z w) as [st' |]; [| exact I].
      split; [apply sameButLoads_refl |].
      rewrite bool_decide_eq_false_2; [reflexivity |].
      intros [Hz' _]. apply Hz. symmetry. exact Hz'.
  - repeat split; try assumption.
    intros z. rewrite Hst. destruct (stateAt z w) as [st' |] eqn:Ez;
      [| exact I].
    split; [apply sameButLoads_refl |].
    rewrite bool_decide_eq_false_2; [reflexivity |].
    intros [Hz' _]. subst z. rewrite Est in Ez. discriminate Ez.
Qed.

Lemma stale_completion_binds_nothing_witness :
  trace (settle (repoConfig Viewport) firstFetch (Fulfilled (tex512 7))
           (run climb newWorld))
  = trace (run climb newWorld).
Proof.
  exact (proj1 (stale_completion_binds_nothing (repoConfig Viewport)
                  firstFetch (Fulfilled (tex512 7)) (run climb newWorld)
                  ltac:(vm_compute; reflexivity))).
Defined.

(** C3, as stated, fails.  After the camera has climbed and the zoom range
    has moved to zoom 11, zoom 12 has no state any more while its first
    fetch is still in flight.  When that fetch is fulfilled with an image
    of 512 pixels, the stale handler writes 512 into
    [pendingCellSizeByZoom] for zoom 12: shared state changes before the
    stale test is made. *)
Lemma stale_completion_claim_counterexample :
  let w := run climb newWorld in
  let w' := step w (Settle (repoConfig Viewport) 1 (Fulfilled (tex512 7))) in
  minTileZoom (plan (zoom11Frame 1600)) = 11
  /\ maxTileZoom (plan (zoom11Frame 1600)) = 11
  /\ stateAt 12 w = None
  /\ findPending 1 w = Some firstFetch
  /\ staleFor firstFetch w = true
  /\ pendingCellSizeByZoom (atlas w) !! 12 = None
  /\ pendingCellSizeByZoom (atlas w') !! 12 = Some 512.
Proof. repeat split; vm_compute; reflexivity. Qed.

(** ** The quota of new fetches *)

Lemma fetchCount_app (z : Z) (a b : list Event) :
  fetchCount z (a ++ b) = fetchCount z a + fetchCount z b.
Proof.
  unfold fetchCount. rewrite List.filter_app, length_app. lia.
Qed.

Lemma fetchCount_nil (z : Z) : fetchCount z [] = 0.
Proof. reflexivity. Qed.

Lemma fetchCount_nonneg (z : Z) (a : list Event) : 0 <= fetchCount z a.
Proof. unfold fetchCount. lia. Qed.

Lemma fetchCount_neutral_like (z : Z) (es : list Event) :
  Forall (fun e => isFetchFor z e = false) es -> fetchCount z es = 0.
Proof.
  intros H. unfold fetchCount.
  induction H as [| e es He _ IH]; [reflexivity |].
  cbn. rewrite He. exact IH.
Qed.

Lemma issuesAtMost_refl (q : Z -> Z) (w : World) :
  (forall z, 0 <= q z) -> issuesAtMost q w w.
Proof.
  intros Hq. exists []. split; [symmetry; apply app_nil_r |].
  split; [intros z; rewrite fetchCount_nil; apply Hq | reflexivity].
Qed.

Lemma issuesAtMost_trans (q1 q2 q : Z -> Z) (w1 w2 w3 : World) :
  issuesAtMost q1 w1 w2 -> issuesAtMost q2 w2 w3 ->
  (forall z, q1 z + q2 z <= q z) ->
  issuesAtMost q w1 w3.
Proof.
  intros (e1 & Ht1 & Hc1 & Ho1) (e2 & Ht2 & Hc2 & Ho2) Hq.
  exists (e1 ++ e2). split; [rewrite Ht2, Ht1, app_assoc; reflexivity |].
  split; [| congruence].
  intros z. rewrite fetchCount_app.
  specialize (Hc1 z). specialize (Hc2 z). specialize (Hq z). lia.
Qed.

Lemma issuesAtMost_same (q : Z -> Z) (w w' : World) :
  (forall z, 0 <= q z) -> trace w' = trace w -> opts w' = opts w ->
  issuesAtMost q w w'.
Proof.
  intros Hq Ht Ho. exists []. split; [rewrite Ht; symmetry; apply app_nil_r |].
  split; [intros z; rewrite fetchCount_nil; apply Hq | exact Ho].
Qed.

Lemma disposeZoom_noFetches (t : bool) (z0 : Z) (w : World) :
  issuesAtMost noFetches w (disposeZoom t z0 w).
Proof.
  unfold disposeZoom. destruct (stateAt z0 w) as [st |];
    [| apply issuesAtMost_refl; intros; unfold noFetches; lia].
  destruct t; cbn.
  - eexists. split; [cbn; rewrite <- app_assoc; reflexivity |].
    split; [| reflexivity].
    intros z. apply Z.eq_le_incl, fetchCount_neutral_like.
    apply Forall_app. split; [| repeat constructor].
    apply Forall_fmap, Forall_forall. intros k _. reflexivity.
  - eexists. split; [reflexivity |]. split; [| reflexivity].
    intros z. apply Z.eq_le_incl. reflexivity.
Qed.

Lemma clear_noFetches (t : bool) (w : World) :
  issuesAtMost noFetches w (clear t w).
Proof.
  unfold clear.
  assert (forall l w0,
            exists es, trace (fold_left (clearEntry t) l w0) = trace w0 ++ es
                       /\ (forall z, fetchCount z es = 0)
                       /\ opts (fold_left (clearEntry t) l w0) = opts w0)
    as Hfold.
  { induction l as [| e l IH]; intros w0; cbn.
    - exists []. split; [symmetry; apply app_nil_r |].
      split; [reflexivity | reflexivity].
    - destruct (IH (clearEntry t w0 e)) as (es & Ht & Hc & Ho).
      assert (exists e0, trace (clearEntry t w0 e) = trace w0 ++ e0
                         /\ (forall z, fetchCount z e0 = 0)
                         /\ opts (clearEntry t w0 e) = opts w0)
        as (e0 & Ht0 & Hc0 & Ho0).
      { unfold clearEntry. destruct t; cbn.
        - eexists. split; [rewrite <- app_assoc; reflexivity |].
          split; [| reflexivity].
          intros z. apply fetchCount_neutral_like.
          apply Forall_app. split; [| repeat constructor].
          apply Forall_fmap, Forall_forall. intros k _. reflexivity.
        - eexists. split; [reflexivity |]. split; reflexivity. }
      exists (e0 ++ es). split; [rewrite Ht, Ht0, app_assoc; reflexivity |].
      split; [| congruence].
      intros z. rewrite fetchCount_app, Hc0, Hc. reflexivity. }
  destruct (Hfold (map_to_list (byZoom (atlas w))) w) as (es & Ht & Hc & Ho).
  exists es. split; [exact Ht |]. split; [| exact Ho].
  intros z. rewrite Hc. unfold noFetches. lia.
Qed.

Lemma issueBound_refl (z q : Z) (acc : IssueAcc) : issueBound z q acc acc.
Proof.
  exists []. split; [symmetry; apply app_nil_r |].
  split; [| split; [lia | reflexivity]].
  intros z'. rewrite fetchCount_nil. destruct (z' =? z); lia.
Qed.

Lemma issueBound_trans (z q : Z) (a b c : IssueAcc) :
  issueBound z q a b -> issueBound z q b c -> issueBound z q a c.
Proof.
  intros (e1 & Ht1 & Hc1 & Hi1 & Ho1) (e2 & Ht2 & Hc2 & Hi2 & Ho2).
  exists (e1 ++ e2). split; [rewrite Ht2, Ht1, app_assoc; reflexivity |].
  split; [| split; [lia | congruence]].
  intros z'. rewrite fetchCount_app.
  specialize (Hc1 z'). specialize (Hc2 z').
  destruct (z' =? z); lia.
Qed.

Lemma issueFetch_bound (t : bool) (z q : Z) (c : Candidate) (issued : Z)
    (st : ZoomState) (w : World) :
  issued < q ->
  issueBound z q (issued, st, w)
    (issued + 1, (issueFetch t z c st w).1, (issueFetch t z c st w).2).
Proof.
  intros Hq. unfold issueFetch, issueBound. destruct t; cbn [fst snd].
  - eexists. split; [cbn; reflexivity |].
    split; [| split; [lia | reflexivity]].
    intros z'. unfold fetchCount. cbn.
    rewrite (Z.eqb_sym z z'). destruct (z' =? z); cbn; lia.
  - exists []. split; [symmetry; apply app_nil_r |].
    split; [| split; [lia | reflexivity]].
    intros z'. rewrite fetchCount_nil. destruct (z' =? z); lia.
Qed.

Lemma issueStepTrapezoid_bound (t : bool) (q z : Z) (D : gset TileKey)
    (acc : IssueAcc) (c : Candidate) :
  issueBound z q acc (issueStepTrapezoid t q z D acc c).
Proof.
  destruct acc as [[issued st] w]. unfold issueStepTrapezoid.
  destruct (bool_decide (c_key c ∈ D)); cbn [negb];
    [| apply issueBound_refl].
  destruct (bool_decide (is_Some (loads st !! c_key c)));
    [apply issueBound_refl |].
  destruct (cellIndex (grid st) (c_tileX c) (c_tileY c)) as [idx |];
    [| apply issueBound_refl].
  destruct (meshes st !! idx) as [mat |]; [| apply issueBound_refl].
  destruct (textures st !! c_key c) as [existing |].
  - exists []. cbn [fst snd]. split; [symmetry; apply app_nil_r |].
    split; [| split; [lia | reflexivity]].
    intros z'. rewrite fetchCount_nil. destruct (z' =? z); lia.
  - destruct (Z.leb_spec q issued) as [Hge | Hlt]; [apply issueBound_refl |].
    pose proof (issueFetch_bound t z q c issued st w Hlt) as Hf.
    destruct (issueFetch t z c st w) as [st' w']. exact Hf.
Qed.

Lemma issueStepViewport_bound (t : bool) (q z : Z) (acc : IssueAcc)
    (ci : nat * Candidate) :
  issueBound z q acc (issueStepViewport t q z acc ci).
Proof.
  destruct acc as [[issued st] w], ci as [idx c]. unfold issueStepViewport.
  destruct (meshes st !! idx) as [mat |]; [| apply issueBound_refl].
  destruct (textures st !! c_key c) as [existing |].
  - exists []. cbn [fst snd]. split; [symmetry; apply app_nil_r |].
    split; [| split; [lia | reflexivity]].
    intros z'. rewrite fetchCount_nil. destruct (z' =? z); lia.
  - destruct (bool_decide (is_Some (loads st !! c_key c)));
      [apply issueBound_refl |].
    destruct (Z.leb_spec q issued) as [Hge | Hlt]; [apply issueBound_refl |].
    pose proof (issueFetch_bound t z q c issued st w Hlt) as Hf.
    destruct (issueFetch t z c st w) as [st' w']. exact Hf.
Qed.

Lemma issueBound_fold {A : Type} (z q : Z)
    (g : IssueAcc -> A -> IssueAcc) (l : list A) (acc : IssueAcc) :
  (forall acc a, issueBound z q acc (g acc a)) ->
  issueBound z q acc (fold_left g l acc).
Proof.
  intros Hg. revert acc. induction l as [| a l IH]; intros acc; cbn.
  - apply issueBound_refl.
  - eapply issueBound_trans; [apply Hg | apply IH].
Qed.

Lemma issuesAtMost_weaken (q q' : Z -> Z) (w w' : World) :
  issuesAtMost q w w' -> (forall z, q z <= q' z) -> issuesAtMost q' w w'.
Proof.
  intros (es & Ht & Hc & Ho) Hq. exists es.
  split; [exact Ht |]. split; [| exact Ho].
  intros z. specialize (Hc z). specialize (Hq z). lia.
Qed.

Lemma noFetches_nonneg (z : Z) : 0 <= noFetches z.
Proof. unfold noFetches. lia. Qed.

Lemma ensureZoomState_noFetches (z : Z) (g : Grid) (c : option Z)
    (w : World) :
  issuesAtMost noFetches w (_ensureZoomState z g c w).2.
Proof.
  unfold _ensureZoomState.
  destruct (stateAt z w) as [s |].
  - match goal with |- context [if ?b then _ else _] => destruct b end;
      [| apply issuesAtMost_refl, noFetches_nonneg].
    unfold freshId. cbn [fst snd].
    exists [EvDisposeRT z (rt s);
            EvAllocRT z (nextId w)
              (Z.max 1 (gridSize g) * normCellSize w c)].
    split; [cbn; rewrite <- app_assoc; reflexivity |].
    split; [| reflexivity]. intros z'. apply Z.eq_le_incl. reflexivity.
  - unfold freshId. cbn [fst snd].
    exists [EvAllocRT z (nextId w)
              (Z.max 1 (gridSize g) * normCellSize w c)].
    split; [reflexivity |].
    split; [| reflexivity]. intros z'. apply Z.eq_le_incl. reflexivity.
Qed.

Lemma settlePendingCell_noFetches (z c : Z) (st : ZoomState) (w : World) :
  issuesAtMost noFetches w (settlePendingCell z c st w).
Proof.
  apply issuesAtMost_same; [apply noFetches_nonneg | |];
    unfold settlePendingCell;
    match goal with |- context [if ?b then _ else _] => destruct b end;
    reflexivity.
Qed.

Lemma reconcilePins_noFetches (t : bool) (z : Z) (D : gset TileKey)
    (st : ZoomState) (w : World) :
  issuesAtMost noFetches w (reconcilePins t z D st w).2.
Proof.
  unfold reconcilePins. cbn [snd].
  destruct t; [| apply issuesAtMost_refl, noFetches_nonneg].
  eexists. split; [reflexivity |]. split; [| reflexivity].
  intros z'. apply Z.eq_le_incl, fetchCount_neutral_like.
  apply Forall_app. split; apply Forall_fmap, Forall_forall;
    intros k _; reflexivity.
Qed.

Lemma renderIfDirty_noFetches (z : Z) (st : ZoomState) (w : World) :
  issuesAtMost noFetches w (renderIfDirty z st w).2.
Proof.
  unfold renderIfDirty.
  destruct (dirty st); [| apply issuesAtMost_refl, noFetches_nonneg].
  cbn. eexists. split; [reflexivity |]. split; [| reflexivity].
  intros z'. apply Z.eq_le_incl. reflexivity.
Qed.

Lemma putState_noFetches (z : Z) (st : ZoomState) (w : World) :
  issuesAtMost noFetches w (putState z st w).
Proof. apply issuesAtMost_same; [apply noFetches_nonneg | |]; reflexivity. Qed.

Lemma maxNewLoadsPerTick_nonneg (w : World) : 0 <= maxNewLoadsPerTick w.
Proof. unfold maxNewLoadsPerTick. lia. Qed.

Lemma onlyZoom_nonneg (z q : Z) : 0 <= q -> forall z', 0 <= onlyZoom z q z'.
Proof. intros Hq z'. unfold onlyZoom. destruct (z' =? z); lia. Qed.

(** The issue loop, started with the counter at [0]. *)
Lemma issueLoop_onlyZoom {A : Type} (z q : Z)
    (g : IssueAcc -> A -> IssueAcc) (l : list A) (st : ZoomState)
    (w : World) :
  0 <= q ->
  (forall acc a, issueBound z q acc (g acc a)) ->
  issuesAtMost (onlyZoom z q) w (fold_left g l (0, st, w)).2.
Proof.
  intros Hq Hg.
  destruct (issueBound_fold z q g l (0, st, w) Hg)
    as (es & Ht & Hc & Hi & Ho).
  cbn [fst snd] in *. exists es. split; [exact Ht |]. split; [| exact Ho].
  intros z'. specialize (Hc z'). unfold onlyZoom.
  destruct (z' =? z); lia.
Qed.

(** The common shape of a reconciliation. *)
Lemma reconcile_onlyZoom (z q : Z) (w w1 w2 w3 w4 w5 : World)
    (st4 : ZoomState) :
  0 <= q ->
  issuesAtMost noFetches w w1 -> issuesAtMost noFetches w1 w2 ->
  issuesAtMost noFetches w2 w3 -> issuesAtMost (onlyZoom z q) w3 w4 ->
  issuesAtMost noFetches w4 w5 ->
  issuesAtMost (onlyZoom z q) w (putState z st4 w5).
Proof.
  intros Hq H1 H2 H3 H4 H5.
  pose proof (onlyZoom_nonneg z q Hq) as Hn.
  assert (forall z', noFetches z' + onlyZoom z q z' <= onlyZoom z q z') as Ha
    by (intros z'; unfold noFetches; lia).
  assert (forall z', onlyZoom z q z' + noFetches z' <= onlyZoom z q z') as Hb
    by (intros z'; unfold noFetches; lia).
  assert (forall z', noFetches z' + noFetches z' <= noFetches z') as Hc
    by (intros z'; unfold noFetches; lia).
  eapply issuesAtMost_trans; [| apply putState_noFetches | exact Hb].
  eapply issuesAtMost_trans; [| exact H5 | exact Hb].
  eapply issuesAtMost_trans; [| exact H4 | exact Ha].
  eapply issuesAtMost_trans; [| exact H3 | exact Hc].
  eapply issuesAtMost_trans; [exact H1 | exact H2 | exact Hc].
Qed.

Lemma reconcileTrapezoid_onlyZoom (cfg : Config) (f : Frame) (z : Z)
    (center : Z * Z) (c0 : Candidate) (rest : list Candidate) (w : World) :
  issuesAtMost (onlyZoom z (maxNewLoadsPerTick w)) w
    (reconcileTrapezoid cfg f z center c0 rest w).
Proof.
  unfold reconcileTrapezoid.
  set (g := trapezoidGrid (wantsMipmaps w) z center (extentOf c0 rest)).
  set (c := desiredCellSizeAt cfg z w).
  set (q := maxNewLoadsPerTick w).
  assert (0 <= q) as Hq by apply maxNewLoadsPerTick_nonneg.
  pose proof (ensureZoomState_noFetches z g (Some c) w) as H1.
  destruct (_ensureZoomState z g (Some c) w) as [st w1]. cbn [snd] in H1.
  pose proof (settlePendingCell_noFetches z c st w1) as H2.
  set (D := keySet (c0 :: rest)).
  pose proof (reconcilePins_noFetches (tiles f) z D st
                (settlePendingCell z c st w1)) as H3.
  destruct (reconcilePins (tiles f) z D st (settlePendingCell z c st w1))
    as [st1 w3]. cbn [snd] in H3.
  destruct (mapDrapeSkipTileLoad cfg).
  { apply (reconcile_onlyZoom z q w w1 _ w3 w3 w3 st1 Hq H1 H2 H3).
    - apply issuesAtMost_refl, onlyZoom_nonneg, Hq.
    - apply issuesAtMost_refl, noFetches_nonneg. }
  pose proof (issueLoop_onlyZoom z q
                (issueStepTrapezoid (tiles f) q z D) (c0 :: rest)
                (dropTextures D st1) w3 Hq
                (issueStepTrapezoid_bound (tiles f) q z D)) as H4.
  destruct (fold_left (issueStepTrapezoid (tiles f) q z D) (c0 :: rest)
              (0, dropTextures D st1, w3)) as [[issued st3] w4].
  cbn [snd] in H4.
  pose proof (renderIfDirty_noFetches z st3 w4) as H5.
  destruct (renderIfDirty z st3 w4) as [st4 w5]. cbn [snd] in H5.
  exact (reconcile_onlyZoom z q w w1 _ w3 w4 w5 st4 Hq H1 H2 H3 H4 H5).
Qed.

Lemma reconcileViewport_onlyZoom (cfg : Config) (f : Frame) (z : Z)
    (center : Z * Z) (c0 : Candidate) (rest : list Candidate) (w : World) :
  issuesAtMost (onlyZoom z (maxNewLoadsPerTick w)) w
    (reconcileViewport cfg f z center c0 rest w).
Proof.
  unfold reconcileViewport.
  match goal with |- context [_ensureZoomState z ?g0 _ w] => set (g := g0) end.
  set (c := desiredCellSizeAt cfg z w).
  set (q := maxNewLoadsPerTick w).
  assert (0 <= q) as Hq by apply maxNewLoadsPerTick_nonneg.
  pose proof (ensureZoomState_noFetches z g (Some c) w) as H1.
  destruct (_ensureZoomState z g (Some c) w) as [st w1]. cbn [snd] in H1.
  pose proof (settlePendingCell_noFetches z c st w1) as H2.
  set (D := keySet (cellInfosOf g (c0 :: rest)).*2).
  pose proof (reconcilePins_noFetches (tiles f) z D st
                (settlePendingCell z c st w1)) as H3.
  destruct (reconcilePins (tiles f) z D st (settlePendingCell z c st w1))
    as [st1 w3]. cbn [snd] in H3.
  destruct (mapDrapeSkipTileLoad cfg).
  { apply (reconcile_onlyZoom z q w w1 _ w3 w3 w3 st1 Hq H1 H2 H3).
    - apply issuesAtMost_refl, onlyZoom_nonneg, Hq.
    - apply issuesAtMost_refl, noFetches_nonneg. }
  match goal with |- context [fold_left ?step ?l (0, dropTextures D st1, w3)] =>
    pose proof (issueLoop_onlyZoom z q step l (dropTextures D st1) w3 Hq
                  (issueStepViewport_bound (tiles f) q z)) as H4;
    destruct (fold_left step l (0, dropTextures D st1, w3))
      as [[issued st3] w4]
  end.
  cbn [snd] in H4.
  pose proof (renderIfDirty_noFetches z st3 w4) as H5.
  destruct (renderIfDirty z st3 w4) as [st4 w5]. cbn [snd] in H5.
  exact (reconcile_onlyZoom z q w w1 _ w3 w4 w5 st4 Hq H1 H2 H3 H4 H5).
Qed.

Lemma noFetches_onlyZoom (z : Z) (w w' : World) :
  issuesAtMost noFetches w w' ->
  issuesAtMost (onlyZoom z (maxNewLoadsPerTick w)) w w'.
Proof.
  intros H. apply (issuesAtMost_weaken _ _ _ _ H).
  intros z'. apply onlyZoom_nonneg, maxNewLoadsPerTick_nonneg.
Qed.

Lemma processZoomTrapezoid_onlyZoom (cfg : Config) (f : Frame) (cm : Q * Q)
    (byZ : gmap Z (list Candidate)) (w : World) (z : Z) :
  issuesAtMost (onlyZoom z (maxNewLoadsPerTick w)) w
    (processZoomTrapezoid cfg f cm byZ w z).
Proof.
  unfold processZoomTrapezoid.
  destruct (default [] (byZ !! z)) as [| c cs].
  - apply noFetches_onlyZoom, disposeZoom_noFetches.
  - destruct (sortByDist (c :: cs)) as [| c0 rest];
      [apply noFetches_onlyZoom, issuesAtMost_refl, noFetches_nonneg |].
    destruct (mercatorToTileXY f cm.1 cm.2 z) as [center |];
      [| apply noFetches_onlyZoom, issuesAtMost_refl, noFetches_nonneg].
    apply reconcileTrapezoid_onlyZoom.
Qed.

Lemma processZoomViewport_onlyZoom (cfg : Config) (f : Frame) (cm : Q * Q)
    (w : World) (z : Z) :
  issuesAtMost (onlyZoom z (maxNewLoadsPerTick w)) w
    (processZoomViewport cfg f cm w z).
Proof.
  unfold processZoomViewport.
  destruct (vp_rangePositive (plan f) z); cbn [negb];
    [| apply noFetches_onlyZoom, disposeZoom_noFetches].
  destruct (mercatorToTileXY f cm.1 cm.2 z) as [center |];
    [| apply noFetches_onlyZoom, issuesAtMost_refl, noFetches_nonneg].
  destruct (vp_candidates (plan f) z) as [| c cs];
    [apply noFetches_onlyZoom, disposeZoom_noFetches |].
  destruct (sortByDist (c :: cs)) as [| c0 rest];
    [apply noFetches_onlyZoom, issuesAtMost_refl, noFetches_nonneg |].
  apply reconcileViewport_onlyZoom.
Qed.

Lemma issuesAtMost_quota (q : Z -> Z) (w w' : World) :
  issuesAtMost q w w' -> maxNewLoadsPerTick w' = maxNewLoadsPerTick w.
Proof.
  intros (es & _ & _ & Ho). unfold maxNewLoadsPerTick. rewrite Ho.
  reflexivity.
Qed.

(** A loop over zoom levels that are all different: every zoom level gets
    its own quota, once. *)
Lemma issuesAtMost_levels (step : World -> Z -> World) (l : list Z)
    (w : World) :
  (forall w z, issuesAtMost (onlyZoom z (maxNewLoadsPerTick w)) w (step w z)) ->
  NoDup l ->
  issuesAtMost
    (fun z => if bool_decide (z ∈ l) then maxNewLoadsPerTick w else 0)
    w (fold_left step l w).
Proof.
  intros Hstep Hnd. revert w.
  induction Hnd as [| z l Hz Hnd IH]; intros w; cbn [fold_left].
  - apply issuesAtMost_refl. intros z.
    rewrite bool_decide_eq_false_2 by apply not_elem_of_nil. lia.
  - pose proof (Hstep w z) as H1. pose proof (IH (step w z)) as H2.
    rewrite (issuesAtMost_quota _ _ _ H1) in H2.
    apply (issuesAtMost_trans _ _ _ _ _ _ H1 H2).
    intros z'. unfold onlyZoom.
    pose proof (maxNewLoadsPerTick_nonneg w) as Hq.
    destruct (Z.eqb_spec z' z) as [-> | Hne].
    + rewrite (bool_decide_eq_false_2 (z ∈ l)) by exact Hz.
      rewrite (bool_decide_eq_true_2 (z ∈ z :: l)) by apply list_elem_of_here.
      lia.
    + destruct (bool_decide_reflect (z' ∈ l)) as [Hin | Hnin].
      * rewrite (bool_decide_eq_true_2 (z' ∈ z :: l))
          by (apply list_elem_of_further; exact Hin).
        lia.
      * rewrite (bool_decide_eq_false_2 (z' ∈ z :: l)).
        -- lia.
        -- intros Hin. apply elem_of_cons in Hin as [? | ?]; tauto.
Qed.

Lemma issuesAtMost_fold_noFetches {A : Type} (step : World -> A -> World)
    (l : list A) (w : World) :
  (forall w a, issuesAtMost noFetches w (step w a)) ->
  issuesAtMost noFetches w (fold_left step l w).
Proof.
  intros Hstep. revert w. induction l as [| a l IH]; intros w; cbn.
  - apply issuesAtMost_refl, noFetches_nonneg.
  - eapply issuesAtMost_trans; [apply Hstep | apply IH |].
    intros z. unfold noFetches. lia.
Qed.

Lemma zoomLevels_NoDup (lo hi : Z) : NoDup (zoomLevels lo hi).
Proof.
  unfold zoomLevels, zrange.
  apply NoDup_ListNoDup, List.NoDup_rev, NoDup_ListNoDup, NoDup_seqZ.
Qed.

Lemma updateTrapezoid_quota (cfg : Config) (f : Frame) (cm : Q * Q)
    (w : World) :
  issuesAtMost (quotaEach w) w (updateTrapezoid cfg f cm w).
Proof.
  unfold updateTrapezoid.
  set (levels := zoomLevels (minZoomOf cfg f) (topZoomOf cfg f)).
  assert (issuesAtMost noFetches w (dropStaleTrapezoid f levels w)) as H1.
  { unfold dropStaleTrapezoid. apply issuesAtMost_fold_noFetches.
    intros w' z. destruct (bool_decide _);
      [apply issuesAtMost_refl, noFetches_nonneg | apply disposeZoom_noFetches]. }
  pose proof (issuesAtMost_levels
                (processZoomTrapezoid cfg f cm
                   (tilesByZoom (selectTrapezoid cfg f cm)))
                levels (dropStaleTrapezoid f levels w)
                (processZoomTrapezoid_onlyZoom cfg f cm _)
                (zoomLevels_NoDup _ _)) as H2.
  rewrite (issuesAtMost_quota _ _ _ H1) in H2.
  apply (issuesAtMost_trans _ _ _ _ _ _ H1 H2).
  intros z. unfold noFetches, quotaEach.
  pose proof (maxNewLoadsPerTick_nonneg w). destruct (bool_decide _); lia.
Qed.

Lemma updateViewport_quota (cfg : Config) (f : Frame) (cm : Q * Q)
    (w : World) :
  issuesAtMost (quotaEach w) w (updateViewport cfg f cm w).
Proof.
  unfold updateViewport.
  assert (issuesAtMost noFetches w (dropStaleViewport f w)) as H1.
  { unfold dropStaleViewport. apply issuesAtMost_fold_noFetches.
    intros w' z.
    match goal with |- context [if ?b then _ else _] => destruct b end;
      [apply disposeZoom_noFetches | apply issuesAtMost_refl, noFetches_nonneg]. }
  pose proof (issuesAtMost_levels
                (processZoomViewport cfg f cm)
                (zoomLevels (minTileZoom (plan f)) (maxTileZoom (plan f)))
                (dropStaleViewport f w)
                (processZoomViewport_onlyZoom cfg f cm)
                (zoomLevels_NoDup _ _)) as H2.
  rewrite (issuesAtMost_quota _ _ _ H1) in H2.
  apply (issuesAtMost_trans _ _ _ _ _ _ H1 H2).
  intros z. unfold noFetches, quotaEach.
  pose proof (maxNewLoadsPerTick_nonneg w). destruct (bool_decide _); lia.
Qed.

Lemma syncOpts_quota (cfg : Config) (w : World) :
  maxNewLoadsPerTick (syncOpts cfg w) = maxNewLoadsPerTick w
  /\ trace (syncOpts cfg w) = trace w.
Proof.
  unfold syncOpts. destruct (cfgAtlasMipmaps cfg); split; reflexivity.
Qed.

(** C4 (amended): in one call of [update], whatever the configuration, the
    frame and the atlas, the calls made are appended to the trace, and for
    every zoom level the fetches issued for that zoom level are at most
    [max(0, mapDrapeAtlasMaxNewLoadsPerTick | 0)], however many tiles are
    missing. *)
Theorem new_loads_bounded_per_zoom (cfg : Config) (f : Frame) (w : World)
    (z : Z) :
  exists es, trace (update cfg f w) = trace w ++ es
             /\ fetchCount z es <= maxNewLoadsPerTick w.
Proof.
  destruct (syncOpts_quota cfg w) as (Hq0 & Ht0).
  assert (forall w', issuesAtMost (quotaEach (syncOpts cfg w))
                       (syncOpts cfg w) w' ->
                     exists es, trace w' = trace w ++ es
                                /\ fetchCount z es <= maxNewLoadsPerTick w)
    as Hfin.
  { intros w' (es & Ht & Hc & _). exists es.
    split; [rewrite Ht, Ht0; reflexivity |].
    specialize (Hc z). unfold quotaEach in Hc. rewrite Hq0 in Hc. exact Hc. }
  assert (forall z', 0 <= quotaEach (syncOpts cfg w) z') as Hn
    by (intros z'; apply maxNewLoadsPerTick_nonneg).
  assert (forall w0, issuesAtMost (quotaEach (syncOpts cfg w)) w0
                       (if negb (bool_decide (byZoom (atlas w0) = ∅))
                        then clear (tiles f) w0 else w0)) as Hclear.
  { intros w0. destruct (negb _); [| apply issuesAtMost_refl, Hn].
    apply (issuesAtMost_weaken noFetches); [apply clear_noFetches |].
    intros z'. unfold noFetches. apply Hn. }
  unfold update, updateWith.
  destruct (negb (mapDrapeShaderPatchEnabled cfg)).
  { cbn [fst]. apply Hfin, Hclear. }
  destruct (aboveEnableHeight cfg f).
  { cbn [fst]. apply Hfin, Hclear. }
  pose proof (debounceGate_keeps cfg f (syncOpts cfg w)) as Hd.
  cbn zeta in Hd.
  destruct (debounceGate cfg f (syncOpts cfg w)) as [w1 suppressed].
  cbn [fst] in Hd. destruct Hd as (_ & _ & _ & Htr & _ & _ & Ho & _).
  assert (issuesAtMost noFetches (syncOpts cfg w) w1) as H1
    by (apply issuesAtMost_same; [apply noFetches_nonneg | assumption ..]).
  assert (issuesAtMost (quotaEach (syncOpts cfg w)) (syncOpts cfg w) w1)
    as H1' by (apply (issuesAtMost_weaken noFetches); [exact H1 | exact Hn]).
  destruct suppressed; [cbn [fst]; apply Hfin, H1' |].
  destruct (qlt (now f - lastUpdate (atlas w1)) (updateMs cfg));
    [cbn [fst]; apply Hfin, H1' |].
  set (w2 := setGate (lastView (atlas w1)) (lastMoveAt (atlas w1)) (now f) w1).
  assert (issuesAtMost noFetches (syncOpts cfg w) w2) as H2.
  { eapply issuesAtMost_trans; [exact H1 | |].
    - apply (issuesAtMost_same noFetches w1 w2);
        [apply noFetches_nonneg | reflexivity | reflexivity].
    - intros z'. unfold noFetches. lia. }
  destruct (camMerc f) as [cm |].
  2:{ cbn [fst]. apply Hfin.
      apply (issuesAtMost_weaken noFetches); [exact H2 | exact Hn]. }
  assert (forall w3, issuesAtMost (quotaEach w2) w2 w3 ->
                     issuesAtMost (quotaEach (syncOpts cfg w))
                       (syncOpts cfg w) w3) as Hstep.
  { intros w3 H3. unfold quotaEach in H3.
    rewrite (issuesAtMost_quota _ _ _ H2) in H3.
    apply (issuesAtMost_trans _ _ _ _ _ _ H2 H3).
    intros z'. unfold noFetches, quotaEach. lia. }
  destruct (lodMode cfg); cbn [fst]; apply Hfin, Hstep;
    [apply updateTrapezoid_quota | apply updateViewport_quota
     | apply updateViewport_quota].
Qed.

(** C4, as stated, fails: with the quota of 32 new loads per tick, one
    frame of the viewport strategy over the zooms 15 and 14, 25 candidate
    tiles each and nothing loaded yet, issues 50 fetches, 25 for each zoom:
    the counter [issued] starts at 0 again for every zoom. *)
Lemma new_loads_exceed_quota_across_zooms :
  let w := update (repoConfig Viewport) twoZoomFrame newWorld in
  maxNewLoadsPerTick newWorld = 32
  /\ length (fetchesIn (trace newWorld)) = 0%nat
  /\ length (fetchesIn (trace w)) = 50%nat.
Proof. repeat split; vm_compute; reflexivity. Qed.

(** ** Fetches in flight *)

(** C10 (the code at the failing input): the camera tile of zoom 12 is
    fetched (promise 1); the camera climbs, the zoom range moves to zoom 11
    and the state of zoom 12 is dropped; the camera comes down again, zoom
    12 gets a new state (render target 20) that fetches the tile again
    (promise 21); promise 1 is rejected and its [finally] handler removes
    the key from the loads map of the new state; the next frame fetches
    the tile once more (promise 30).  The state of zoom 12 now has two
    fetches of the same key in flight. *)
Lemma duplicate_fetch_after_stale_rejection :
  let w := run climbAndReturn newWorld in
  (rt <$> stateAt 12 w) = Some 20%nat
  /\ fetchesIn (drop 60 (trace w))
     = [EvFetch 12 (12, 2048, 2047) 21; EvFetch 12 (12, 2047, 2046) 22;
        EvFetch 12 (12, 2048, 2046) 23; EvFetch 12 (12, 2049, 2046) 24;
        EvFetch 12 (12, 2047, 2047) 25; EvFetch 12 (12, 2049, 2047) 26;
        EvFetch 12 (12, 2047, 2048) 27; EvFetch 12 (12, 2048, 2048) 28;
        EvFetch 12 (12, 2049, 2048) 29; EvFetch 12 (12, 2048, 2047) 30]
  /\ p_id <$> inflightFor 12 (12, 2048, 2047) w = [21%nat; 30%nat].
Proof. repeat split; vm_compute; reflexivity. Qed.

(** ** Pins and unpins *)

Lemma pinState_app (z : Z) (k : TileKey) (h : bool) (a b : list Event) :
  pinState z k h (a ++ b)
  = match pinState z k h a with
    | Some h1 => pinState z k h1 b
    | None => None
    end.
Proof.
  revert h. induction a as [| e a IH]; intros h; [reflexivity |].
  destruct e; cbn [app pinState]; try apply IH;
    case_bool_decide; try apply IH; destruct h; try apply IH; reflexivity.
Qed.

Lemma pinState_neutral (z : Z) (k : TileKey) (h : bool) (es : list Event) :
  Forall neutral es -> pinState z k h es = Some h.
Proof.
  induction 1 as [| e es He _ IH]; [reflexivity |].
  destruct e; cbn in He |- *; try contradiction; exact IH.
Qed.

Lemma pinState_unpins (z z0 : Z) (k : TileKey) (h : bool) (ks : list TileKey) :
  NoDup ks ->
  pinState z k h (EvUnpin z0 <$> ks)
  = if bool_decide (z0 = z /\ k ∈ ks)
    then (if h then Some false else None)
    else Some h.
Proof.
  intros Hnd. revert h. induction Hnd as [| k0 ks Hk0 Hnd IH]; intros h.
  - cbn. rewrite (bool_decide_eq_false_2 (z0 = z /\ k ∈ [])); [reflexivity |].
    intros [_ H]. inversion H.
  - cbn [fmap list_fmap pinState].
    change (list_fmap TileKey Event (EvUnpin z0) ks) with (EvUnpin z0 <$> ks).
    destruct (bool_decide_reflect (z0 = z /\ k0 = k)) as [[Hz Hk] | H0].
    + subst z0 k0.
      rewrite (bool_decide_eq_true_2 (z = z /\ k ∈ k :: ks))
        by (split; [reflexivity | apply elem_of_cons; left; reflexivity]).
      destruct h; [| reflexivity].
      rewrite IH.
      rewrite (bool_decide_eq_false_2 (z = z /\ k ∈ ks)); [reflexivity |].
      intros [_ H]. contradiction.
    + rewrite IH.
      destruct (bool_decide_reflect (z0 = z /\ k ∈ ks)) as [[Hz Hin] | H1].
      * rewrite (bool_decide_eq_true_2 (z0 = z /\ k ∈ k0 :: ks));
          [reflexivity |].
        split; [exact Hz | apply elem_of_cons; right; exact Hin].
      * rewrite (bool_decide_eq_false_2 (z0 = z /\ k ∈ k0 :: ks));
          [reflexivity |].
        intros [Hz Hin]. apply elem_of_cons in Hin as [Heq | Hin].
        -- apply H0. split; [exact Hz | symmetry; exact Heq].
        -- apply H1. split; assumption.
Qed.

Lemma pinState_pins (z z0 : Z) (k : TileKey) (h : bool) (ks : list TileKey) :
  NoDup ks ->
  pinState z k h (EvPin z0 <$> ks)
  = if bool_decide (z0 = z /\ k ∈ ks)
    then (if h then None else Some true)
    else Some h.
Proof.
  intros Hnd. revert h. induction Hnd as [| k0 ks Hk0 Hnd IH]; intros h.
  - cbn. rewrite (bool_decide_eq_false_2 (z0 = z /\ k ∈ [])); [reflexivity |].
    intros [_ H]. inversion H.
  - cbn [fmap list_fmap pinState].
    change (list_fmap TileKey Event (EvPin z0) ks) with (EvPin z0 <$> ks).
    destruct (bool_decide_reflect (z0 = z /\ k0 = k)) as [[Hz Hk] | H0].
    + subst z0 k0.
      rewrite (bool_decide_eq_true_2 (z = z /\ k ∈ k :: ks))
        by (split; [reflexivity | apply elem_of_cons; left; reflexivity]).
      destruct h; [reflexivity |].
      rewrite IH.
      rewrite (bool_decide_eq_false_2 (z = z /\ k ∈ ks)); [reflexivity |].
      intros [_ H]. contradiction.
    + rewrite IH.
      destruct (bool_decide_reflect (z0 = z /\ k ∈ ks)) as [[Hz Hin] | H1].
      * rewrite (bool_decide_eq_true_2 (z0 = z /\ k ∈ k0 :: ks));
          [reflexivity |].
        split; [exact Hz | apply elem_of_cons; right; exact Hin].
      * rewrite (bool_decide_eq_false_2 (z0 = z /\ k ∈ k0 :: ks));
          [reflexivity |].
        intros [Hz Hin]. apply elem_of_cons in Hin as [Heq | Hin].
        -- apply H0. split; [exact Hz | symmetry; exact Heq].
        -- apply H1. split; assumption.
Qed.

Lemma continues_refl (w : World) : continues w w.
Proof. exists []. split; [symmetry; apply app_nil_r | reflexivity]. Qed.

Lemma continues_trans (w1 w2 w3 : World) :
  continues w1 w2 -> continues w2 w3 -> continues w1 w3.
Proof.
  intros (e1 & Ht1 & H1) (e2 & Ht2 & H2). exists (e1 ++ e2). split.
  - rewrite Ht2, Ht1, app_assoc. reflexivity.
  - intros z k. rewrite pinState_app, H1. apply H2.
Qed.

(** A step that only makes neutral calls and leaves the active sets as
    they are. *)
Lemma continues_quiet (w w' : World) (es : list Event) :
  trace w' = trace w ++ es -> Forall neutral es ->
  (forall z k, holds z k w' = holds z k w) ->
  continues w w'.
Proof.
  intros Ht Hn Hh. exists es. split; [exact Ht |].
  intros z k. rewrite Hh. apply pinState_neutral, Hn.
Qed.

Lemma continues_fold {A : Type} (g : World -> A -> World) (l : list A)
    (w : World) :
  (forall w a, continues w (g w a)) -> continues w (fold_left g l w).
Proof.
  intros Hg. revert w. induction l as [| a l IH]; intros w; cbn.
  - apply continues_refl.
  - eapply continues_trans; [apply Hg | apply IH].
Qed.

Lemma holds_putState (z0 : Z) (st : ZoomState) (w : World) (z : Z)
    (k : TileKey) :
  holds z k (putState z0 st w)
  = if bool_decide (z0 = z) then bool_decide (k ∈ activeKeys st)
    else holds z k w.
Proof.
  unfold holds. rewrite stateAt_putState.
  destruct (bool_decide (z0 = z)); reflexivity.
Qed.

Lemma stateAt_disposeZoom (t : bool) (z0 : Z) (w : World) (z : Z) :
  stateAt z (disposeZoom t z0 w)
  = if bool_decide (z0 = z) then None else stateAt z w.
Proof.
  unfold disposeZoom.
  destruct (stateAt z0 w) as [st |] eqn:Est.
  - unfold stateAt. destruct t; cbn.
    + destruct (bool_decide_reflect (z0 = z)) as [-> | Hz];
        [apply lookup_delete_eq | apply lookup_delete_ne; exact Hz].
    + destruct (bool_decide_reflect (z0 = z)) as [-> | Hz];
        [apply lookup_delete_eq | apply lookup_delete_ne; exact Hz].
  - destruct (bool_decide_reflect (z0 = z)) as [-> | Hz];
      [exact Est | reflexivity].
Qed.

Lemma trace_disposeZoom (z0 : Z) (w : World) :
  trace (disposeZoom true z0 w)
  = trace w ++ match stateAt z0 w with
               | Some st => (EvUnpin z0 <$> elements (activeKeys st))
                              ++ [EvDisposeRT z0 (rt st)]
               | None => []
               end.
Proof.
  unfold disposeZoom. destruct (stateAt z0 w) as [st |].
  - cbn. rewrite <- app_assoc. reflexivity.
  - symmetry. apply app_nil_r.
Qed.

Lemma disposeZoom_continues (z0 : Z) (w : World) :
  continues w (disposeZoom true z0 w).
Proof.
  eexists. split; [apply trace_disposeZoom |].
  intros z k. unfold holds at 2. rewrite stateAt_disposeZoom.
  unfold holds.
  destruct (stateAt z0 w) as [st |] eqn:Est.
  - rewrite pinState_app, pinState_unpins by apply NoDup_elements.
    destruct (bool_decide_reflect (z0 = z /\ k ∈ elements (activeKeys st)))
      as [[Hz Hin] | Hn].
    + subst z0. rewrite Est. apply elem_of_elements in Hin.
      rewrite (bool_decide_eq_true_2 _ Hin).
      rewrite (bool_decide_eq_true_2 (z = z)) by reflexivity. reflexivity.
    + cbn. destruct (bool_decide_reflect (z0 = z)) as [Hz | Hz];
        [| reflexivity].
      subst z0. rewrite Est.
      rewrite bool_decide_eq_false_2; [reflexivity |].
      intros Hin. apply Hn. split; [reflexivity |].
      apply elem_of_elements, Hin.
  - cbn. destruct (bool_decide_reflect (z0 = z)) as [Hz | Hz];
      [| reflexivity].
    subst z0. rewrite Est. reflexivity.
Qed.

Lemma clear_fold (l : list (Z * ZoomState)) (w : World) :
  let w' := fold_left (clearEntry true) l w in
  trace w' = trace w ++ flat_map clearEvents l
  /\ atlas w' = atlas w /\ generation w' = generation w
  /\ opts w' = opts w /\ tileSize w' = tileSize w
  /\ nextId w' = nextId w /\ inflight w' = inflight w.
Proof.
  revert w. induction l as [| e l IH]; intros w; cbn.
  - rewrite app_nil_r. repeat split; reflexivity.
  - specialize (IH (clearEntry true w e)). cbn zeta in IH.
    destruct IH as (Ht & Ha & Hg & Ho & Hts & Hn & Hi).
    rewrite Ht, Ha, Hg, Ho, Hts, Hn, Hi. cbn.
    unfold clearEvents. rewrite <- !app_assoc. repeat split; reflexivity.
Qed.

Lemma pinState_clearEvents (l : list (Z * ZoomState)) (z : Z) (k : TileKey)
    (h : bool) :
  NoDup l.*1 ->
  (h = true -> exists st, (z, st) ∈ l /\ k ∈ activeKeys st) ->
  (forall st, (z, st) ∈ l -> k ∈ activeKeys st -> h = true) ->
  pinState z k h (flat_map clearEvents l) = Some false.
Proof.
  revert h. induction l as [| [z1 st1] l IH]; intros h Hnd Hsome Hall.
  - cbn. destruct h; [| reflexivity].
    destruct (Hsome eq_refl) as (st & Hin & _). inversion Hin.
  - cbn [flat_map]. unfold clearEvents at 1. cbn [fst snd].
    apply NoDup_cons in Hnd as [Hz1 Hnd]. cbn [fmap list_fmap] in Hz1.
    rewrite <- app_assoc, pinState_app, pinState_unpins
      by apply NoDup_elements.
    destruct (bool_decide_reflect (z1 = z /\ k ∈ elements (activeKeys st1)))
      as [[Hz Hin] | Hn].
    + subst z1. apply elem_of_elements in Hin.
      rewrite (Hall st1 ltac:(apply elem_of_cons; left; reflexivity) Hin).
      cbn [app pinState]. apply IH; [exact Hnd | discriminate |].
      intros st Hst _. exfalso. apply Hz1.
      apply list_elem_of_fmap. exists (z, st). split; [reflexivity | exact Hst].
    + cbn [app pinState]. apply IH; [exact Hnd | |].
      * intros Hh. destruct (Hsome Hh) as (st & Hst & Hk).
        apply elem_of_cons in Hst as [Heq | Hst].
        -- exfalso. apply Hn. injection Heq as -> ->.
           split; [reflexivity | apply elem_of_elements, Hk].
        -- exists st. split; assumption.
      * intros st Hst Hk. apply (Hall st); [| exact Hk].
        apply elem_of_cons; right; exact Hst.
Qed.

Lemma clear_continues (w : World) : continues w (clear true w).
Proof.
  unfold clear.
  pose proof (clear_fold (map_to_list (byZoom (atlas w))) w) as Hf.
  cbn zeta in Hf. destruct Hf as (Ht & _).
  eexists. split; [cbn; exact Ht |].
  intros z k. unfold holds at 2, stateAt. cbn. rewrite lookup_empty.
  apply pinState_clearEvents.
  - apply NoDup_fst_map_to_list.
  - unfold holds, stateAt. intros Hh.
    destruct (byZoom (atlas w) !! z) as [st |] eqn:Est; [| discriminate].
    exists st. split; [apply elem_of_map_to_list; exact Est |].
    apply bool_decide_eq_true in Hh. exact Hh.
  - intros st Hst Hk. apply elem_of_map_to_list in Hst.
    unfold holds, stateAt. rewrite Hst. apply bool_decide_eq_true_2, Hk.
Qed.

(** The unpins and pins of one reconciliation take the pin state of every
    key of the zoom from membership in the old active set to membership in
    the desired set. *)
Lemma pinState_reconcile (z z' : Z) (k : TileKey) (st : ZoomState)
    (D : gset TileKey) (h : bool) :
  (z' = z -> h = bool_decide (k ∈ activeKeys st)) ->
  pinState z' k h
    ((EvUnpin z <$> droppedKeys st D) ++ (EvPin z <$> addedKeys st D))
  = Some (if bool_decide (z' = z) then bool_decide (k ∈ D) else h).
Proof.
  unfold droppedKeys, addedKeys. generalize (activeKeys st). intros A.
  intros Hh.
  rewrite pinState_app, pinState_unpins
    by (apply NoDup_filter, NoDup_elements).
  destruct (bool_decide_reflect (z' = z)) as [Hz | Hz].
  - subst z'. rewrite (Hh eq_refl).
    destruct (bool_decide_reflect
                (z = z /\ k ∈ filter (fun k => k ∉ D) (elements A)))
      as [[_ Hin] | Hn].
    + apply list_elem_of_filter in Hin as [HkD HkA].
      apply elem_of_elements in HkA.
      rewrite (bool_decide_eq_true_2 _ HkA).
      rewrite pinState_pins by (apply NoDup_filter, NoDup_elements).
      rewrite (bool_decide_eq_false_2 (k ∈ D)) by exact HkD.
      rewrite bool_decide_eq_false_2; [reflexivity |].
      intros [_ Hin]. apply list_elem_of_filter in Hin as [_ Hin].
      apply elem_of_elements in Hin. contradiction.
    + rewrite pinState_pins by (apply NoDup_filter, NoDup_elements).
      destruct (bool_decide_reflect
                  (z = z /\ k ∈ filter (fun k => k ∉ A) (elements D)))
        as [[_ Hin] | Hn'].
      * apply list_elem_of_filter in Hin as [HkA HkD].
        apply elem_of_elements in HkD.
        rewrite (bool_decide_eq_false_2 (k ∈ A)) by exact HkA.
        rewrite (bool_decide_eq_true_2 _ HkD). reflexivity.
      * f_equal. apply bool_decide_ext. split.
        -- intros HkA. destruct (decide (k ∈ D)) as [HkD | HkD];
             [exact HkD |].
           exfalso. apply Hn. split; [reflexivity |].
           apply list_elem_of_filter. split; [exact HkD |].
           apply elem_of_elements, HkA.
        -- intros HkD. destruct (decide (k ∈ A)) as [HkA | HkA];
             [exact HkA |].
           exfalso. apply Hn'. split; [reflexivity |].
           apply list_elem_of_filter. split; [exact HkA |].
           apply elem_of_elements, HkD.
  - rewrite bool_decide_eq_false_2 by (intros [Heq _]; congruence).
    rewrite pinState_pins by (apply NoDup_filter, NoDup_elements).
    rewrite bool_decide_eq_false_2 by (intros [Heq _]; congruence).
    reflexivity.
Qed.

(** ** What the parts of a reconciliation leave alone *)

Lemma ensureZoomState_facts (z : Z) (g : Grid) (c : option Z) (w : World) :
  let r := _ensureZoomState z g c w in
  stateAt z r.2 = Some r.1
  /\ (forall z', z' <> z -> stateAt z' r.2 = stateAt z' w)
  /\ activeKeys r.1 = from_option activeKeys ∅ (stateAt z w)
  /\ exists es, trace r.2 = trace w ++ es /\ Forall neutral es.
Proof.
  unfold _ensureZoomState.
  destruct (stateAt z w) as [s |] eqn:Est.
  - match goal with |- context [if ?b then _ else _] => destruct b end.
    + cbn. rewrite stateAt_putState.
      rewrite bool_decide_eq_true_2 by reflexivity.
      split; [reflexivity |]. split.
      * intros z' Hz. rewrite stateAt_putState.
        rewrite bool_decide_eq_false_2 by congruence. reflexivity.
      * split; [reflexivity |].
        eexists. split; [rewrite <- app_assoc; reflexivity |].
        repeat constructor.
    + cbn. split; [exact Est |]. split; [reflexivity |].
      split; [reflexivity |].
      exists []. split; [symmetry; apply app_nil_r | constructor].
  - cbn. rewrite stateAt_putState.
    rewrite bool_decide_eq_true_2 by reflexivity.
    split; [reflexivity |]. split.
    + intros z' Hz. rewrite stateAt_putState.
      rewrite bool_decide_eq_false_2 by congruence. reflexivity.
    + split; [reflexivity |].
      eexists. split; [reflexivity |]. repeat constructor.
Qed.

Lemma quiet_refl (st : ZoomState) (w : World) : quiet st w st w.
Proof.
  split; [reflexivity |]. split; [reflexivity |].
  exists []. split; [symmetry; apply app_nil_r | constructor].
Qed.

Lemma quiet_trans (s1 s2 s3 : ZoomState) (w1 w2 w3 : World) :
  quiet s1 w1 s2 w2 -> quiet s2 w2 s3 w3 -> quiet s1 w1 s3 w3.
Proof.
  intros (Ha & Hb & e1 & Ht1 & Hn1) (Ha' & Hb' & e2 & Ht2 & Hn2).
  split; [congruence |]. split; [congruence |].
  exists (e1 ++ e2). split; [rewrite Ht2, Ht1, app_assoc; reflexivity |].
  apply Forall_app; split; assumption.
Qed.

Lemma bindExisting_activeKeys (idx : nat) (mat : Material) (tex : Texture)
    (st : ZoomState) :
  activeKeys (bindExisting idx mat tex st) = activeKeys st.
Proof. unfold bindExisting. destruct (isBoundTo tex mat); reflexivity. Qed.

Lemma issueFetch_quiet (t : bool) (z : Z) (c : Candidate) (st : ZoomState)
    (w : World) :
  quiet st w (issueFetch t z c st w).1 (issueFetch t z c st w).2.
Proof.
  unfold issueFetch. destruct t; [| apply quiet_refl].
  cbn. split; [reflexivity |]. split; [reflexivity |].
  eexists. split; [reflexivity |]. repeat constructor.
Qed.

Lemma issueStepTrapezoid_quiet (t : bool) (m z : Z) (D : gset TileKey)
    (acc : IssueAcc) (c : Candidate) :
  quiet acc.1.2 acc.2 (issueStepTrapezoid t m z D acc c).1.2
    (issueStepTrapezoid t m z D acc c).2.
Proof.
  destruct acc as [[issued st] w]. unfold issueStepTrapezoid. cbn [fst snd].
  repeat match goal with
         | |- context [if ?b then _ else _] => destruct b
         | |- context [match ?o with Some _ => _ | None => _ end] =>
             destruct o
         end;
    first
      [ apply quiet_refl
      | cbn; split; [apply bindExisting_activeKeys |];
        split; [reflexivity |];
        exists []; split; [symmetry; apply app_nil_r | constructor]
      | pose proof (issueFetch_quiet t z c st w) as H;
        destruct (issueFetch t z c st w) as [st' w']; exact H ].
Qed.

Lemma issueStepViewport_quiet (t : bool) (m z : Z) (acc : IssueAcc)
    (ci : nat * Candidate) :
  quiet acc.1.2 acc.2 (issueStepViewport t m z acc ci).1.2
    (issueStepViewport t m z acc ci).2.
Proof.
  destruct acc as [[issued st] w], ci as [idx c].
  unfold issueStepViewport. cbn [fst snd].
  repeat match goal with
         | |- context [if ?b then _ else _] => destruct b
         | |- context [match ?o with Some _ => _ | None => _ end] =>
             destruct o
         end;
    first
      [ apply quiet_refl
      | cbn; split; [apply bindExisting_activeKeys |];
        split; [reflexivity |];
        exists []; split; [symmetry; apply app_nil_r | constructor]
      | pose proof (issueFetch_quiet t z c st w) as H;
        destruct (issueFetch t z c st w) as [st' w']; exact H ].
Qed.

Lemma quiet_fold {A : Type} (g : IssueAcc -> A -> IssueAcc) (l : list A)
    (acc : IssueAcc) :
  (forall acc a, quiet acc.1.2 acc.2 (g acc a).1.2 (g acc a).2) ->
  quiet acc.1.2 acc.2 (fold_left g l acc).1.2 (fold_left g l acc).2.
Proof.
  intros Hg. revert acc. induction l as [| a l IH]; intros acc; cbn.
  - apply quiet_refl.
  - eapply quiet_trans; [apply Hg | apply IH].
Qed.

Lemma clearCell_activeKeys (st : ZoomState) (k : TileKey) :
  activeKeys (clearCell st k) = activeKeys st.
Proof.
  unfold clearCell.
  repeat match goal with
         | |- context [if ?b then _ else _] => destruct b
         | |- context [match ?o with Some _ => _ | None => _ end] =>
             destruct o
         end; reflexivity.
Qed.

Lemma clearCells_activeKeys (l : list TileKey) (s0 : ZoomState) :
  activeKeys (fold_left clearCell l s0) = activeKeys s0.
Proof.
  revert s0. induction l as [| k l IH]; intros s0; cbn; [reflexivity |].
  rewrite IH. apply clearCell_activeKeys.
Qed.

Lemma dropTextures_activeKeys (D : gset TileKey) (st : ZoomState) :
  activeKeys (dropTextures D st) = activeKeys st.
Proof. unfold dropTextures. rewrite clearCells_activeKeys. reflexivity. Qed.

Lemma renderIfDirty_quiet (z : Z) (st : ZoomState) (w : World) :
  quiet st w (renderIfDirty z st w).1 (renderIfDirty z st w).2.
Proof.
  unfold renderIfDirty. destruct (dirty st); [| apply quiet_refl].
  cbn. split; [reflexivity |]. split; [reflexivity |].
  eexists. split; [reflexivity |]. repeat constructor.
Qed.

Lemma settlePendingCell_keeps (z c : Z) (st : ZoomState) (w : World) :
  byZoom (atlas (settlePendingCell z c st w)) = byZoom (atlas w)
  /\ trace (settlePendingCell z c st w) = trace w.
Proof.
  unfold settlePendingCell.
  match goal with |- context [if ?b then _ else _] => destruct b end;
    split; reflexivity.
Qed.

(** The common shape of a reconciliation: the state that
    [_ensureZoomState] returned gets the desired keys as its active set,
    with the unpins and pins that go with it, and what follows is quiet. *)
Lemma reconcile_continues (z c : Z) (D : gset TileKey) (w w1 : World)
    (st st4 : ZoomState) (w5 : World) :
  stateAt z w1 = Some st ->
  (forall z', z' <> z -> stateAt z' w1 = stateAt z' w) ->
  activeKeys st = from_option activeKeys ∅ (stateAt z w) ->
  (exists es, trace w1 = trace w ++ es /\ Forall neutral es) ->
  quiet (reconcilePins true z D st (settlePendingCell z c st w1)).1
        (reconcilePins true z D st (settlePendingCell z c st w1)).2
        st4 w5 ->
  continues w (putState z st4 w5).
Proof.
  intros Hst Hother Hact (es1 & Ht1 & Hn1) (Ha & Hb & es2 & Ht2 & Hn2).
  destruct (settlePendingCell_keeps z c st w1) as (Hb2 & Ht0).
  cbn in Ha, Hb, Ht2. rewrite Hb2 in Hb. rewrite Ht0, Ht1 in Ht2.
  exists (es1 ++ ((EvUnpin z <$> droppedKeys st D)
                    ++ (EvPin z <$> addedKeys st D)) ++ es2).
  split.
  - cbn. rewrite Ht2. rewrite <- !app_assoc. reflexivity.
  - intros z' k.
    rewrite pinState_app, (pinState_neutral _ _ _ _ Hn1).
    rewrite pinState_app.
    rewrite (pinState_reconcile z z' k st D).
    2:{ intros ->. unfold holds. rewrite Hact.
        destruct (stateAt z w); [reflexivity |].
        cbn. symmetry. apply bool_decide_eq_false_2. set_solver. }
    rewrite (pinState_neutral _ _ _ _ Hn2).
    rewrite holds_putState. f_equal.
    destruct (bool_decide_reflect (z' = z)) as [-> | Hz].
    + rewrite (bool_decide_eq_true_2 (z = z)) by reflexivity.
      rewrite Ha. reflexivity.
    + rewrite (bool_decide_eq_false_2 (z = z')) by congruence.
      unfold holds, stateAt. rewrite Hb. fold (stateAt z' w1).
      rewrite (Hother z' Hz). reflexivity.
Qed.

Lemma reconcileTrapezoid_continues (cfg : Config) (f : Frame) (z : Z)
    (center : Z * Z) (c0 : Candidate) (rest : list Candidate) (w : World) :
  tiles f = true ->
  continues w (reconcileTrapezoid cfg f z center c0 rest w).
Proof.
  intros Ht. unfold reconcileTrapezoid. rewrite Ht.
  set (g := trapezoidGrid (wantsMipmaps w) z center (extentOf c0 rest)).
  set (c := desiredCellSizeAt cfg z w).
  pose proof (ensureZoomState_facts z g (Some c) w) as Hfacts.
  cbn zeta in Hfacts.
  destruct (_ensureZoomState z g (Some c) w) as [st w1].
  cbn [fst snd] in Hfacts. destruct Hfacts as (Hst & Hother & Hact & Hes).
  set (D := keySet (c0 :: rest)).
  destruct (reconcilePins true z D st (settlePendingCell z c st w1))
    as [st1 w3] eqn:Erec.
  assert (forall st4 w5, quiet st1 w3 st4 w5 ->
                         continues w (putState z st4 w5)) as Hfin.
  { intros st4 w5 Hq.
    apply (reconcile_continues z c D w w1 st st4 w5 Hst Hother Hact Hes).
    rewrite Erec. exact Hq. }
  destruct (mapDrapeSkipTileLoad cfg); [apply Hfin, quiet_refl |].
  pose proof (quiet_fold
                (issueStepTrapezoid true (maxNewLoadsPerTick w) z D)
                (c0 :: rest) (0, dropTextures D st1, w3)
                (issueStepTrapezoid_quiet true (maxNewLoadsPerTick w) z D))
    as Hq.
  destruct (fold_left (issueStepTrapezoid true (maxNewLoadsPerTick w) z D)
              (c0 :: rest) (0, dropTextures D st1, w3))
    as [[issued st3] w4].
  cbn [fst snd] in Hq.
  pose proof (renderIfDirty_quiet z st3 w4) as Hr.
  destruct (renderIfDirty z st3 w4) as [st4 w5]. cbn [fst snd] in Hr.
  apply Hfin.
  eapply quiet_trans; [| exact Hr].
  destruct Hq as (Ha & Hb & Hes'). split; [| split; assumption].
  rewrite Ha. apply dropTextures_activeKeys.
Qed.

Lemma reconcileViewport_continues (cfg : Config) (f : Frame) (z : Z)
    (center : Z * Z) (c0 : Candidate) (rest : list Candidate) (w : World) :
  tiles f = true ->
  continues w (reconcileViewport cfg f z center c0 rest w).
Proof.
  intros Ht. unfold reconcileViewport. rewrite Ht.
  match goal with |- context [_ensureZoomState z ?g0 _ w] => set (g := g0) end.
  set (c := desiredCellSizeAt cfg z w).
  pose proof (ensureZoomState_facts z g (Some c) w) as Hfacts.
  cbn zeta in Hfacts.
  destruct (_ensureZoomState z g (Some c) w) as [st w1].
  cbn [fst snd] in Hfacts. destruct Hfacts as (Hst & Hother & Hact & Hes).
  set (D := keySet (cellInfosOf g (c0 :: rest)).*2).
  destruct (reconcilePins true z D st (settlePendingCell z c st w1))
    as [st1 w3] eqn:Erec.
  assert (forall st4 w5, quiet st1 w3 st4 w5 ->
                         continues w (putState z st4 w5)) as Hfin.
  { intros st4 w5 Hq.
    apply (reconcile_continues z c D w w1 st st4 w5 Hst Hother Hact Hes).
    rewrite Erec. exact Hq. }
  destruct (mapDrapeSkipTileLoad cfg); [apply Hfin, quiet_refl |].
  match goal with |- context [fold_left ?step ?l (0, dropTextures D st1, w3)] =>
    pose proof (quiet_fold step l (0, dropTextures D st1, w3)
                  (issueStepViewport_quiet true (maxNewLoadsPerTick w) z))
      as Hq;
    destruct (fold_left step l (0, dropTextures D st1, w3))
      as [[issued st3] w4]
  end.
  cbn [fst snd] in Hq.
  pose proof (renderIfDirty_quiet z st3 w4) as Hr.
  destruct (renderIfDirty z st3 w4) as [st4 w5]. cbn [fst snd] in Hr.
  apply Hfin.
  eapply quiet_trans; [| exact Hr].
  destruct Hq as (Ha & Hb & Hes'). split; [| split; assumption].
  rewrite Ha. apply dropTextures_activeKeys.
Qed.

Lemma processZoomTrapezoid_continues (cfg : Config) (f : Frame) (cm : Q * Q)
    (byZ : gmap Z (list Candidate)) (w : World) (z : Z) :
  tiles f = true -> continues w (processZoomTrapezoid cfg f cm byZ w z).
Proof.
  intros Ht. unfold processZoomTrapezoid.
  destruct (default [] (byZ !! z)) as [| c cs].
  - rewrite Ht. apply disposeZoom_continues.
  - destruct (sortByDist (c :: cs)) as [| c0 rest];
      [apply continues_refl |].
    destruct (mercatorToTileXY f cm.1 cm.2 z) as [center |];
      [| apply continues_refl].
    apply reconcileTrapezoid_continues, Ht.
Qed.

Lemma processZoomViewport_continues (cfg : Config) (f : Frame) (cm : Q * Q)
    (w : World) (z : Z) :
  tiles f = true -> continues w (processZoomViewport cfg f cm w z).
Proof.
  intros Ht. unfold processZoomViewport.
  destruct (vp_rangePositive (plan f) z); cbn [negb];
    [| rewrite Ht; apply disposeZoom_continues].
  destruct (mercatorToTileXY f cm.1 cm.2 z) as [center |];
    [| apply continues_refl].
  destruct (vp_candidates (plan f) z) as [| c cs];
    [rewrite Ht; apply disposeZoom_continues |].
  destruct (sortByDist (c :: cs)) as [| c0 rest]; [apply continues_refl |].
  apply reconcileViewport_continues, Ht.
Qed.

Lemma updateTrapezoid_continues (cfg : Config) (f : Frame) (cm : Q * Q)
    (w : World) :
  tiles f = true -> continues w (updateTrapezoid cfg f cm w).
Proof.
  intros Ht. unfold updateTrapezoid.
  apply continues_trans
    with (dropStaleTrapezoid f
            (zoomLevels (minZoomOf cfg f) (topZoomOf cfg f)) w).
  - unfold dropStaleTrapezoid. apply continues_fold.
    intros w' z. destruct (bool_decide _); [apply continues_refl |].
    rewrite Ht. apply disposeZoom_continues.
  - apply continues_fold.
    intros w' z. apply processZoomTrapezoid_continues, Ht.
Qed.

Lemma updateViewport_continues (cfg : Config) (f : Frame) (cm : Q * Q)
    (w : World) :
  tiles f = true -> continues w (updateViewport cfg f cm w).
Proof.
  intros Ht. unfold updateViewport.
  apply continues_trans with (dropStaleViewport f w).
  - unfold dropStaleViewport. apply continues_fold.
    intros w' z.
    match goal with |- context [if ?b then _ else _] => destruct b end;
      [| apply continues_refl].
    rewrite Ht. apply disposeZoom_continues.
  - apply continues_fold.
    intros w' z. apply processZoomViewport_continues, Ht.
Qed.

Lemma continues_same_states (w w' : World) :
  byZoom (atlas w') = byZoom (atlas w) -> trace w' = trace w ->
  continues w w'.
Proof.
  intros Hb Ht. apply (continues_quiet w w' []);
    [rewrite Ht; symmetry; apply app_nil_r | constructor |].
  intros z k. unfold holds, stateAt. rewrite Hb. reflexivity.
Qed.

Lemma update_continues (cfg : Config) (f : Frame) (w : World) :
  tiles f = true -> continues w (update cfg f w).
Proof.
  intros Ht. unfold update, updateWith.
  assert (continues w (syncOpts cfg w)) as H0.
  { destruct (syncOpts_atlas cfg w) as (Ha & Htr & _).
    apply continues_same_states; [rewrite Ha; reflexivity | exact Htr]. }
  assert (forall w0, continues w0 (if negb (bool_decide (byZoom (atlas w0) = ∅))
                                   then clear (tiles f) w0 else w0)) as Hclear.
  { intros w0. destruct (negb _); [| apply continues_refl].
    rewrite Ht. apply clear_continues. }
  destruct (negb (mapDrapeShaderPatchEnabled cfg)).
  { cbn [fst]. eapply continues_trans; [exact H0 | apply Hclear]. }
  destruct (aboveEnableHeight cfg f).
  { cbn [fst]. eapply continues_trans; [exact H0 | apply Hclear]. }
  pose proof (debounceGate_keeps cfg f (syncOpts cfg w)) as Hd.
  cbn zeta in Hd.
  destruct (debounceGate cfg f (syncOpts cfg w)) as [w1 suppressed].
  cbn [fst] in Hd. destruct Hd as (Hb & _ & _ & Htr & _).
  assert (continues w w1) as H1.
  { eapply continues_trans; [exact H0 |].
    apply continues_same_states; assumption. }
  destruct suppressed; [exact H1 |].
  destruct (qlt (now f - lastUpdate (atlas w1)) (updateMs cfg)); [exact H1 |].
  set (w2 := setGate (lastView (atlas w1)) (lastMoveAt (atlas w1)) (now f) w1).
  assert (continues w w2) as H2.
  { eapply continues_trans; [exact H1 |].
    apply continues_same_states; reflexivity. }
  destruct (camMerc f) as [cm |]; [| exact H2].
  destruct (lodMode cfg); cbn [fst];
    (eapply continues_trans; [exact H2 |]);
    [apply updateTrapezoid_continues | apply updateViewport_continues
     | apply updateViewport_continues]; exact Ht.
Qed.

Lemma settle_continues (cfg : Config) (p : Pending) (s : Settlement)
    (w : World) : continues w (settle cfg p s w).
Proof.
  apply (continues_quiet _ _ []); [| constructor |].
  - unfold settle. case_bool_decide; [| symmetry; apply app_nil_r].
    assert (forall w0, trace (onFinally p w0) = trace w0) as Hfin.
    { intros w0. unfold onFinally. destruct (stateAt (p_z p) w0); reflexivity. }
    destruct s as [tex |]; rewrite Hfin; [| symmetry; apply app_nil_r].
    unfold onFulfilled.
    assert (forall w0, trace (bindFetched p tex w0) = trace w0) as Hbind.
    { intros w0. unfold bindFetched.
      repeat match goal with
             | |- context [if ?b then _ else _] => destruct b
             | |- context [match ?o with Some _ => _ | None => _ end] =>
                 destruct o
             end; reflexivity. }
    rewrite Hbind.
    destruct (recordCellSize_keeps cfg (p_z p) tex
                (setInflight (filter (fun q => q <> p) (inflight w)) w))
      as (_ & Htr & _).
    rewrite Htr. symmetry. apply app_nil_r.
  - intros z k. unfold settle. case_bool_decide; [| reflexivity].
    assert (forall w0, holds z k (onFinally p w0) = holds z k w0) as Hfin.
    { intros w0. unfold onFinally.
      destruct (stateAt (p_z p) w0) as [st |] eqn:Est; [| reflexivity].
      rewrite holds_putState.
      destruct (bool_decide_reflect (p_z p = z)) as [<- | Hz];
        [| reflexivity].
      unfold holds. rewrite Est. reflexivity. }
    assert (forall tex w0, holds z k (bindFetched p tex w0) = holds z k w0)
      as Hbind.
    { intros tex w0. unfold bindFetched.
      destruct (stateAt (p_z p) w0) as [st |] eqn:Est; [| reflexivity].
      destruct (bool_decide (p_key p ∈ activeKeys st)); [| reflexivity].
      assert (forall st', activeKeys st' = activeKeys st ->
                holds z k (putState (p_z p) st' w0) = holds z k w0) as Hput.
      { intros st' Hact. rewrite holds_putState.
        destruct (bool_decide_reflect (p_z p = z)) as [<- | Hz];
          [| reflexivity].
        unfold holds. rewrite Est, Hact. reflexivity. }
      repeat match goal with
             | |- context [match ?o with Some _ => _ | None => _ end] =>
                 destruct o
             end; apply Hput; reflexivity. }
    destruct s as [tex |]; rewrite Hfin; [| reflexivity].
    unfold onFulfilled. rewrite Hbind.
    unfold holds, stateAt.
    destruct (recordCellSize_keeps cfg (p_z p) tex
                (setInflight (filter (fun q => q <> p) (inflight w)) w))
      as (Hb & _).
    rewrite Hb. reflexivity.
Qed.

Lemma step_continues (w : World) (a : Action) :
  tilesPresent a = true -> continues w (step w a).
Proof.
  destruct a as [cfg f | cfg id s | t]; cbn; intros Ht.
  - apply update_continues, Ht.
  - destruct (findPending id w); [apply settle_continues | apply continues_refl].
  - subst t. apply clear_continues.
Qed.

Lemma run_continues (acts : list Action) (w : World) :
  Forall (fun a => tilesPresent a = true) acts -> continues w (run acts w).
Proof.
  intros H. revert w. induction H as [| a acts Ha _ IH]; intros w; cbn.
  - apply continues_refl.
  - eapply continues_trans; [apply step_continues, Ha | apply IH].
Qed.

(** C2 (amended): through any history of frames, settled fetches and
    clears in each of which [this._tiles()] gives a tile source, followed
    for any key of any zoom from the empty atlas, the trace never pins the
    key while it is pinned and never unpins it while it is not, and after
    the history the key is pinned exactly when the state registered for
    its zoom has it in its active set.  So a key that has dropped out of
    the desired set, or whose state has been disposed by a zoom drop or by
    [clear], has been unpinned exactly once for its pin, in the very
    action that dropped it. *)
Theorem pins_are_balanced (acts : list Action) :
  Forall (fun a => tilesPresent a = true) acts ->
  forall z k,
    pinState z k false (trace (run acts newWorld))
    = Some (holds z k (run acts newWorld)).
Proof.
  intros Hacts z k.
  destruct (run_continues acts newWorld Hacts) as (es & Ht & Hes).
  cbn in Ht. rewrite Ht. apply (Hes z k).
Qed.

Lemma pins_are_balanced_witness :
  pinState 12 (12, 2048, 2047) false (trace (run climb newWorld))
  = Some (holds 12 (12, 2048, 2047) (run climb newWorld)).
Proof.
  apply (pins_are_balanced climb).
  repeat constructor.
Defined.

(** C2, as stated, fails where the tile source is missing at one call and
    there at another: the active sets are kept in either case, the pins
    and unpins are made only with a tile source.  A frame pins the camera
    tile of zoom 12 and [clear()] without a tile source then disposes the
    state without unpinning: the pin is leaked.  And after a first frame
    without a tile source, which puts the key into the active set without
    pinning it, the frame that drops zoom 12 with a tile source unpins a
    key that was never pinned. *)
Lemma pins_unbalanced_without_tile_source :
  (tilesPresent <$> clearWithoutTiles = [true; false]
   /\ pinState 12 (12, 2048, 2047) false
        (trace (run clearWithoutTiles newWorld)) = Some true
   /\ stateAt 12 (run clearWithoutTiles newWorld) = None
   /\ holds 12 (12, 2048, 2047) (run clearWithoutTiles newWorld) = false)
  /\ (tilesPresent <$> climbAfterBlindStart = [false; true; true]
      /\ (EvPin 12 (12, 2048, 2047)
            ∉ trace (run climbAfterBlindStart newWorld))
      /\ (EvUnpin 12 (12, 2048, 2047)
            ∈ trace (run climbAfterBlindStart newWorld))
      /\ pinState 12 (12, 2048, 2047) false
           (trace (run climbAfterBlindStart newWorld)) = None).
Proof.
  split; [repeat split; vm_compute; reflexivity |].
  split; [vm_compute; reflexivity |].
  split; [| split; [| vm_compute; reflexivity]].
  - apply (bool_decide_unpack _). vm_compute. reflexivity.
  - apply (bool_decide_unpack _). vm_compute. reflexivity.
Qed.

(** * Further properties

    Properties of the parts of the engine around the ones above: tile
    keys, grid cells, zoom levels, shader slots, the gates and what a
    frame fetches and registers. *)

(** ** Tile keys *)

Lemma dashFree_app (a b : string) :
  dashFree (a +:+ b) = dashFree a && dashFree b.
Proof.
  induction a as [| c a IH]; simpl; [reflexivity |].
  rewrite IH. apply andb_assoc.
Qed.

Lemma splitOn_dashFree (a : string) :
  dashFree a = true -> splitOn dash a = [a].
Proof.
  induction a as [| c a IH]; simpl; [reflexivity |].
  intros H. apply andb_true_iff in H as [Hc Ha].
  apply negb_true_iff in Hc. rewrite Hc, (IH Ha). reflexivity.
Qed.

Lemma splitOn_app (a b : string) :
  dashFree a = true ->
  splitOn dash (a +:+ String dash b) = a :: splitOn dash b.
Proof.
  induction a as [| c a IH]; simpl.
  - intros _. reflexivity.
  - intros H. apply andb_true_iff in H as [Hc Ha].
    apply negb_true_iff in Hc. rewrite Hc, (IH Ha). reflexivity.
Qed.

Lemma uintString_dashFree (d : Decimal.uint) :
  dashFree (DecimalString.NilEmpty.string_of_uint d) = true.
Proof. induction d; cbn; auto. Qed.

Lemma uintStringZ_dashFree (d : Decimal.uint) :
  dashFree (DecimalString.NilZero.string_of_uint d) = true.
Proof.
  destruct d; try reflexivity;
    apply (uintString_dashFree (_ d)) || exact (uintString_dashFree _).
Qed.

Lemma splitOn_cons (s : string) : exists p ps, splitOn dash s = p :: ps.
Proof.
  destruct s as [| c s]; simpl; [eauto |].
  destruct (Ascii.eqb c dash); [eauto |].
  destruct (splitOn dash s); eauto.
Qed.

Lemma splitOn_prepend (a r : string) :
  dashFree a = true ->
  splitOn dash (a +:+ r)
  = match splitOn dash r with
    | p :: ps => (a +:+ p) :: ps
    | [] => [a]
    end.
Proof.
  destruct (splitOn_cons r) as (p & ps & E). rewrite E.
  induction a as [| c a IH]; simpl.
  - intros _. exact E.
  - intros H. apply andb_true_iff in H as [Hc Ha].
    apply negb_true_iff in Hc. rewrite Hc, (IH Ha). reflexivity.
Qed.

Lemma numberToString_nonneg (n : Z) :
  0 <= n -> dashFree (numberToString n) = true.
Proof.
  intros Hn. unfold numberToString.
  destruct n as [| p | p]; [reflexivity | | lia].
  apply uintStringZ_dashFree.
Qed.

Lemma numberToString_neg (n : Z) :
  n < 0 -> numberToString n = String dash (numberToString (- n)).
Proof.
  intros Hn. destruct n as [| p | p]; [lia | lia |]. reflexivity.
Qed.

Lemma numberOfString_numberToString (n : Z) :
  numberOfString (numberToString n) = Some n.
Proof.
  assert (DecimalString.NilZero.int_of_string (numberToString n)
          = Some (Z.to_int n)) as H.
  { apply DecimalString.NilZero.isi; destruct n as [| p | p]; cbn;
      try discriminate;
      intros E; injection E as E;
      exact (DecimalPos.Unsigned.to_uint_nonnil p E). }
  unfold numberOfString.
  destruct (numberToString n) as [| c s]; [discriminate |].
  rewrite H. cbn. f_equal. apply DecimalZ.of_to.
Qed.

Lemma numberToString_inj (a b : Z) :
  numberToString a = numberToString b -> a = b.
Proof.
  intros H. pose proof (numberOfString_numberToString a) as Ha.
  rewrite H, numberOfString_numberToString in Ha. congruence.
Qed.

Lemma string_app_cons (x : Ascii.ascii) (a b : string) :
  String x a +:+ b = String x (a +:+ b).
Proof. reflexivity. Qed.

Lemma string_app_assoc (a b c : string) :
  (a +:+ b) +:+ c = a +:+ b +:+ c.
Proof.
  induction a as [| x a IH]; [reflexivity |].
  rewrite !string_app_cons, IH. reflexivity.
Qed.

Lemma string_app_empty (a : string) : a +:+ "" = a.
Proof.
  induction a as [| x a IH]; [reflexivity |].
  rewrite string_app_cons, IH. reflexivity.
Qed.

Lemma tileKeyString_head (scheme : string) (z : Z) :
  dashFree scheme = true -> 0 <= z ->
  dashFree ("t:" +:+ scheme +:+ ":" +:+ numberToString z) = true.
Proof.
  intros Hs Hz. rewrite !dashFree_app.
  rewrite Hs, (numberToString_nonneg z Hz). reflexivity.
Qed.

Lemma tileKeyString_split (scheme : string) (z x y : Z) :
  tileKeyString scheme z x y
  = ("t:" +:+ scheme +:+ ":" +:+ numberToString z)
    +:+ String dash (numberToString x +:+ String dash (numberToString y)).
Proof.
  unfold tileKeyString. rewrite !string_app_assoc. reflexivity.
Qed.

(** X1: a key made by [_tileKey] for a tile with non-negative zoom, column
    and row, under a scheme without a dash, reads back as that column and
    row when the texture loop splits it at the dashes. *)
Theorem tileKey_parse_round_trip (scheme : string) (z x y : Z) :
  dashFree scheme = true -> 0 <= z -> 0 <= x -> 0 <= y ->
  parseTileXY (tileKeyString scheme z x y) = Some (x, y).
Proof.
  intros Hs Hz Hx Hy. unfold parseTileXY.
  rewrite tileKeyString_split, splitOn_app by (apply tileKeyString_head; auto).
  rewrite splitOn_app by (apply numberToString_nonneg; exact Hx).
  rewrite splitOn_dashFree by (apply numberToString_nonneg; exact Hy).
  cbn [lookup list_lookup].
  rewrite !numberOfString_numberToString. reflexivity.
Qed.

Lemma tileKey_parse_round_trip_witness :
  tileKeyString "xyz" 12 3371 1552 = "t:xyz:12-3371-1552"
  /\ parseTileXY (tileKeyString "xyz" 12 3371 1552) = Some (3371, 1552).
Proof.
  split; [reflexivity |].
  apply (tileKey_parse_round_trip "xyz" 12 3371 1552); [reflexivity | lia ..].
Defined.

(** X2: for a negative column the same loop reads column [0] and takes the
    digits of the column for the row. *)
Theorem tileKey_parse_negative_column (scheme : string) (z x y : Z) :
  dashFree scheme = true -> 0 <= z -> x < 0 ->
  parseTileXY (tileKeyString scheme z x y) = Some (0, - x).
Proof.
  intros Hs Hz Hx. unfold parseTileXY.
  rewrite tileKeyString_split, splitOn_app by (apply tileKeyString_head; auto).
  rewrite (numberToString_neg x Hx).
  change (String dash (numberToString (- x)) +:+ String dash (numberToString y))
    with (EmptyString +:+ String dash
            (numberToString (- x) +:+ String dash (numberToString y))).
  rewrite splitOn_app by reflexivity.
  rewrite splitOn_prepend by (apply numberToString_nonneg; lia).
  assert (exists p ps,
            splitOn dash (String dash (numberToString y)) = "" :: p :: ps)
    as (p & ps & E).
  { destruct (splitOn_cons (numberToString y)) as (p & ps & E).
    exists p, ps. simpl. rewrite E. reflexivity. }
  rewrite E. cbn [lookup list_lookup].
  rewrite string_app_empty.
  rewrite numberOfString_numberToString. reflexivity.
Qed.

Lemma tileKey_parse_negative_column_witness :
  tileKeyString "xyz" 12 (-3) 1552 = "t:xyz:12--3-1552"
  /\ parseTileXY (tileKeyString "xyz" 12 (-3) 1552) = Some (0, 3).
Proof.
  split; [reflexivity |].
  apply (tileKey_parse_negative_column "xyz" 12 (-3) 1552);
    [reflexivity | lia | lia].
Defined.

Lemma dashFree_sep (d d' r r' : string) :
  dashFree d = true -> dashFree d' = true ->
  d +:+ String dash r = d' +:+ String dash r' -> d = d' /\ r = r'.
Proof.
  revert d'. induction d as [| c d IH]; intros [| c' d'] Hd Hd' E.
  - injection E as E. auto.
  - rewrite string_app_cons in E. injection E as Ec E.
    simpl in Hd'. rewrite <- Ec in Hd'. discriminate.
  - rewrite string_app_cons in E. injection E as Ec E.
    simpl in Hd. rewrite Ec in Hd. discriminate.
  - rewrite !string_app_cons in E. injection E as Ec E.
    simpl in Hd, Hd'.
    apply andb_true_iff in Hd as [_ Hd]. apply andb_true_iff in Hd' as [_ Hd'].
    destruct (IH d' Hd Hd' E) as [-> ->]. subst c'. auto.
Qed.

Lemma numberToString_nonempty (n : Z) : numberToString n <> "".
Proof.
  intros E. unfold numberToString in E.
  destruct n as [| p | p]; try discriminate.
  cbn in E. destruct (Pos.to_uint p); discriminate.
Qed.

Lemma numeral_sep (a b : Z) (r r' : string) :
  numberToString a +:+ String dash r = numberToString b +:+ String dash r' ->
  a = b /\ r = r'.
Proof.
  intros E.
  destruct (Z.ltb_spec a 0) as [Ha | Ha], (Z.ltb_spec b 0) as [Hb | Hb].
  - rewrite (numberToString_neg a Ha), (numberToString_neg b Hb) in E.
    rewrite !string_app_cons in E. injection E as E.
    apply dashFree_sep in E as [E ->];
      [| apply numberToString_nonneg; lia ..].
    apply numberToString_inj in E. split; [lia | reflexivity].
  - exfalso. rewrite (numberToString_neg a Ha) in E.
    pose proof (numberToString_nonneg b Hb) as Hd.
    pose proof (numberToString_nonempty b) as Hn.
    destruct (numberToString b) as [| c d]; [congruence |].
    rewrite !string_app_cons in E. injection E as Ec E.
    simpl in Hd. rewrite <- Ec in Hd. discriminate.
  - exfalso. rewrite (numberToString_neg b Hb) in E.
    pose proof (numberToString_nonneg a Ha) as Hd.
    pose proof (numberToString_nonempty a) as Hn.
    destruct (numberToString a) as [| c d]; [congruence |].
    rewrite !string_app_cons in E. injection E as Ec E.
    simpl in Hd. rewrite Ec in Hd. discriminate.
  - apply dashFree_sep in E as [E ->];
      [| apply numberToString_nonneg; lia ..].
    apply numberToString_inj in E. auto.
Qed.

(** X3: under one scheme, two tiles have the same key only when they are
    the same tile. *)
Theorem tileKey_injective (scheme : string) (z x y z' x' y' : Z) :
  tileKeyString scheme z x y = tileKeyString scheme z' x' y' ->
  z = z' /\ x = x' /\ y = y'.
Proof.
  unfold tileKeyString. intros E.
  do 3 apply String.app_inj in E.
  apply numeral_sep in E as [-> E].
  apply numeral_sep in E as [-> E].
  apply numberToString_inj in E. auto.
Qed.

Lemma tileKey_injective_witness :
  tileKeyString "xyz" 12 3371 1552 = tileKeyString "xyz" (6 + 6) 3371 1552
  /\ 12 = 6 + 6 /\ 3371 = 3371 /\ 1552 = 1552.
Proof.
  split; [reflexivity |].
  apply (tileKey_injective "xyz" 12 3371 1552 (6 + 6) 3371 1552).
  reflexivity.
Defined.

(** ** Cells of the grid *)

Lemma cellIndex_Some (g : Grid) (tx ty : Z) (i : nat) :
  cellIndex g tx ty = Some i ->
  0 <= tx - originX g < gridSize g /\ 0 <= ty - originY g < gridSize g
  /\ Z.of_nat i = (ty - originY g) * gridSize g + (tx - originX g).
Proof.
  unfold cellIndex.
  destruct (Z.ltb_spec (tx - originX g) 0); [discriminate |].
  destruct (Z.ltb_spec (ty - originY g) 0); [discriminate |].
  destruct (Z.leb_spec (gridSize g) (tx - originX g)); [discriminate |].
  destruct (Z.leb_spec (gridSize g) (ty - originY g)); [discriminate |].
  cbn. intros [= <-]. rewrite Z2Nat.id by nia. lia.
Qed.

(** X4: two tiles that [cellIndex] sends to the same cell of a grid are the
    same tile. *)
Theorem cellIndex_distinct_tiles (g : Grid) (tx ty tx' ty' : Z) (i : nat) :
  cellIndex g tx ty = Some i -> cellIndex g tx' ty' = Some i ->
  tx = tx' /\ ty = ty'.
Proof.
  intros H H'. apply cellIndex_Some in H as (Hx & Hy & Hi).
  apply cellIndex_Some in H' as (Hx' & Hy' & Hi').
  assert (ty - originY g = ty' - originY g) by nia.
  split; nia.
Qed.

Lemma cellIndex_distinct_tiles_witness :
  cellIndex (mkGrid 3 4 2) 4 5 = Some 3%nat
  /\ 4 = 3 + 1 /\ 5 = 4 + 1.
Proof.
  split; [reflexivity |].
  apply (cellIndex_distinct_tiles (mkGrid 3 4 2) 4 5 (3 + 1) (4 + 1) 3);
    reflexivity.
Defined.

(** X5: in a state that [_ensureZoomState] has just built, a tile inside
    the grid has a cell of its own, blank and below [gridSize * gridSize];
    a tile outside the grid has no cell. *)
Theorem fresh_state_has_cell_per_tile (z : Z) (g : Grid) (cell : Z)
    (id : nat) (mip : bool) (old : option ZoomState) (tx ty : Z) :
  let st := recreatedState z g cell id mip old in
  if bool_decide (originX g <= tx < originX g + gridSize g
                  /\ originY g <= ty < originY g + gridSize g)
  then exists i, cellIndex (grid st) tx ty = Some i
                 /\ (Z.of_nat i < gridSize g * gridSize g)
                 /\ meshes st !! i = Some blankMaterial
  else cellIndex (grid st) tx ty = None.
Proof.
  cbn zeta. cbn [recreatedState grid meshes].
  destruct (bool_decide_reflect
              (originX g <= tx < originX g + gridSize g
               /\ originY g <= ty < originY g + gridSize g)) as [[Hx Hy] | Hn].
  - set (i := Z.to_nat ((ty - originY g) * gridSize g + (tx - originX g))).
    assert (Z.of_nat i < gridSize g * gridSize g) as Hi
      by (unfold i; rewrite Z2Nat.id by nia; nia).
    exists i. split; [| split; [exact Hi |]].
    + unfold cellIndex.
      destruct (Z.ltb_spec (tx - originX g) 0); [lia |].
      destruct (Z.ltb_spec (ty - originY g) 0); [lia |].
      destruct (Z.leb_spec (gridSize g) (tx - originX g)); [lia |].
      destruct (Z.leb_spec (gridSize g) (ty - originY g)); [lia |].
      reflexivity.
    + unfold blankMeshes. apply lookup_replicate_2. nia.
  - unfold cellIndex.
    destruct (Z.ltb_spec (tx - originX g) 0); [reflexivity |].
    destruct (Z.ltb_spec (ty - originY g) 0); [reflexivity |].
    destruct (Z.leb_spec (gridSize g) (tx - originX g)); [reflexivity |].
    destruct (Z.leb_spec (gridSize g) (ty - originY g)); [reflexivity |].
    exfalso. apply Hn. lia.
Qed.

(** ** The zoom levels of the trapezoid strategy *)

Lemma atlasZoom_range (cfg : Config) :
  2 <= atlasMinZoom cfg <= atlasMaxZoom cfg /\ atlasMaxZoom cfg <= 18.
Proof. unfold atlasMaxZoom, atlasMinZoom, MAX_ATLAS_ZOOM. lia. Qed.

Lemma topZoomOf_range (cfg : Config) (f : Frame) :
  atlasMinZoom cfg <= topZoomOf cfg f <= atlasMaxZoom cfg.
Proof.
  pose proof (atlasZoom_range cfg) as (H & _).
  unfold topZoomOf, topZoomByView, topZoomCfg.
  destruct (topZoomByViewRaw f) as [v |].
  - pose proof (clamp_range (Js.toInt32 v) _ _ (proj2 H)).
    match goal with |- context [Js.clamp (Js.toInt32 ?r) _ _ `min` _] =>
      pose proof (clamp_range (Js.toInt32 r) _ _ (proj2 H)) end.
    lia.
  - apply clamp_range. lia.
Qed.

Lemma minZoomOf_range (cfg : Config) (f : Frame) :
  atlasMinZoom cfg <= minZoomOf cfg f <= topZoomOf cfg f
  /\ topZoomOf cfg f - minZoomOf cfg f <= 3.
Proof.
  pose proof (atlasZoom_range cfg) as (H & H18).
  pose proof (topZoomOf_range cfg f) as Ht.
  unfold minZoomOf.
  match goal with |- context [Js.clamp ?b _ _] =>
    pose proof (clamp_range b _ _ (proj1 Ht)) end.
  destruct (Z.ltb_spec
              (Js.clamp
                 (int32Or (mapDrapeBaseZoom cfg)
                    (int32Or (tc_mapDrapeBaseZoom cfg) (atlasMinZoom cfg)))
                 (atlasMinZoom cfg) (topZoomOf cfg f))
              (Z.max (atlasMinZoom cfg) (topZoomOf cfg f - 3))); lia.
Qed.

Lemma trapezoid_zoom_levels_aux (cfg : Config) (f : Frame) :
  2 <= minZoomOf cfg f /\ minZoomOf cfg f <= topZoomOf cfg f
  /\ topZoomOf cfg f - minZoomOf cfg f <= 3 /\ topZoomOf cfg f <= 18.
Proof.
  pose proof (atlasZoom_range cfg) as (H & H18).
  pose proof (topZoomOf_range cfg f) as Ht.
  pose proof (minZoomOf_range cfg f) as (Hm & H3). lia.
Qed.

(** X6: the trapezoid strategy works on at least one and at most four zoom
    levels, all between 2 and 18: [2 <= atlasMinZoom <= minZoom <= topZoom
    <= atlasMaxZoom <= 18] and [topZoom - minZoom <= 3], whatever the
    configuration and the view. *)
Theorem trapezoid_zoom_levels (cfg : Config) (f : Frame) :
  2 <= atlasMinZoom cfg
  /\ atlasMinZoom cfg <= minZoomOf cfg f
  /\ minZoomOf cfg f <= topZoomOf cfg f
  /\ topZoomOf cfg f <= atlasMaxZoom cfg
  /\ atlasMaxZoom cfg <= 18
  /\ topZoomOf cfg f - minZoomOf cfg f <= 3
  /\ (1 <= length (zoomLevels (minZoomOf cfg f) (topZoomOf cfg f)) <= 4)%nat
  /\ (forall z, z ∈ zoomLevels (minZoomOf cfg f) (topZoomOf cfg f)
                <-> minZoomOf cfg f <= z <= topZoomOf cfg f).
Proof.
  pose proof (atlasZoom_range cfg) as (H & H18).
  pose proof (topZoomOf_range cfg f) as Ht.
  pose proof (minZoomOf_range cfg f) as (Hm & H3).
  assert (forall z, z ∈ zoomLevels (minZoomOf cfg f) (topZoomOf cfg f)
                    <-> minZoomOf cfg f <= z <= topZoomOf cfg f) as Hin.
  { intros z. unfold zoomLevels, zrange.
    rewrite list_elem_of_In, <- in_rev, <- list_elem_of_In, elem_of_seqZ.
    lia. }
  assert (length (zoomLevels (minZoomOf cfg f) (topZoomOf cfg f))
          = Z.to_nat (topZoomOf cfg f - minZoomOf cfg f + 1)) as Hlen.
  { unfold zoomLevels, zrange. rewrite length_rev, length_seqZ. reflexivity. }
  rewrite Hlen.
  split; [lia |]. split; [lia |]. split; [lia |]. split; [lia |].
  split; [lia |]. split; [lia |]. split; [lia | exact Hin].
Qed.

(** ** What the trapezoid strategy selects *)

Lemma rectEntries_elem (tb : TileBounds) (z : Z) (t : StackEntry) :
  t ∈ rectEntries tb z ->
  ez t = z /\ xMin tb <= tileX t <= xMax tb /\ yMin tb <= tileY t <= yMax tb.
Proof.
  unfold rectEntries, zrange. intros H.
  apply list_elem_of_bind in H as (ty & H & Hy).
  apply list_elem_of_bind in H as (tx & H & Hx).
  apply list_elem_of_singleton in H. subst t. cbn.
  apply elem_of_seqZ in Hx, Hy. lia.
Qed.

Lemma pushAll_elem (es st : list StackEntry) (t : StackEntry) :
  t ∈ pushAll es st <-> t ∈ es \/ t ∈ st.
Proof.
  unfold pushAll. rewrite elem_of_app.
  rewrite (list_elem_of_In (rev es) t), <- in_rev, <- list_elem_of_In.
  reflexivity.
Qed.

Lemma initialStack_within (cfg : Config) (f : Frame) (cm : Q * Q)
    (t : StackEntry) :
  t ∈ initialStack cfg f cm (minZoomOf cfg f) ->
  tileWithin (minZoomOf cfg f) (topZoomOf cfg f) (ez t) (tileX t) (tileY t).
Proof.
  pose proof (trapezoid_zoom_levels_aux cfg f) as (H2 & Hm & Ht & H18).
  assert (Js.shl1 (minZoomOf cfg f) = 2 ^ minZoomOf cfg f) as Hn
    by (apply shl1_pow2; lia).
  assert (0 < 2 ^ minZoomOf cfg f) as Hp by (apply Z.pow_pos_nonneg; lia).
  unfold initialStack, tileWithin.
  destruct (viewportTileBounds cfg f (minZoomOf cfg f)
              (viewportMercBounds f cm)) as [tb |] eqn:Etb.
  - intros H. apply pushAll_elem in H as [H | H]; [| inversion H].
    apply rectEntries_elem in H as (Hz & Hx & Hy). rewrite Hz.
    unfold viewportTileBounds in Etb.
    destruct (viewportMercBounds f cm) as [b |]; [| discriminate].
    repeat match type of Etb with
           | match ?o with Some _ => _ | None => _ end = _ =>
               destruct o; [| discriminate]
           end.
    match type of Etb with (if ?c then _ else _) = _ =>
      destruct c; [discriminate |] end.
    injection Etb as <-. cbn [xMin xMax yMin yMax] in Hx, Hy.
    rewrite Hn in Hx, Hy.
    repeat match goal with
           | H : context [Js.toInt32 ?v] |- _ =>
               let a := fresh "a" in
               set (a := Js.toInt32 v) in *; clearbody a
           end.
    lia.
  - destruct (mercatorToTileXY f cm.1 cm.2 (minZoomOf cfg f)) as [center |];
      [| intros H; inversion H].
    intros H. apply pushAll_elem in H as [H | H]; [| inversion H].
    apply rectEntries_elem in H as (Hz & Hx & Hy). rewrite Hz.
    cbn [xMin xMax yMin yMax] in Hx, Hy. rewrite Hn in Hx, Hy. lia.
Qed.

Lemma accept_valid (f : Frame) (lo hi : Z) (t : StackEntry) (r : Refine) :
  tileWithin lo hi (ez t) (tileX t) (tileY t) ->
  selectionValid f lo hi r -> selectionValid f lo hi (accept f t r).
Proof.
  intros Ht [Hs Ha]. split; [exact Hs |].
  intros z c Hc. rewrite accept_accepted in Hc.
  destruct (bool_decide_reflect (ez t = z)) as [<- | Hz];
    [| apply Ha; exact Hc].
  apply elem_of_app in Hc as [Hc | Hc]; [apply Ha; exact Hc |].
  apply list_elem_of_singleton in Hc. subst c. cbn.
  split; [reflexivity |]. split; [exact Ht | reflexivity].
Qed.

Lemma children_within (lo hi : Z) (t c : StackEntry) :
  tileWithin lo hi (ez t) (tileX t) (tileY t) -> ez t < hi -> 0 <= lo ->
  c ∈ children t -> tileWithin lo hi (ez c) (tileX c) (tileY c).
Proof.
  intros (Hz & Hx & Hy) Hhi Hlo Hc.
  assert (2 ^ (ez t + 1) = 2 * 2 ^ ez t) as Hp
    by (rewrite Z.pow_add_r by lia; lia).
  unfold children in Hc.
  repeat (apply elem_of_cons in Hc as [-> | Hc]);
    [.. | inversion Hc]; cbn; unfold tileWithin; rewrite Hp; lia.
Qed.

Lemma refineBody_valid (cfg : Config) (f : Frame) (lo : Z) (t : StackEntry)
    (r : Refine) :
  0 <= lo ->
  tileWithin lo (topZoomOf cfg f) (ez t) (tileX t) (tileY t) ->
  selectionValid f lo (topZoomOf cfg f) r ->
  selectionValid f lo (topZoomOf cfg f) (refineBody cfg f t r).
Proof.
  intros Hlo Ht Hr. unfold refineBody.
  destruct (negb _ && _); [exact Hr |].
  destruct (qlt _ _); [exact Hr |].
  destruct (Z.ltb_spec (ez t) (topZoomOf cfg f)) as [Hlt | Hge];
    cbn [andb]; [| apply accept_valid; assumption].
  destruct (_ && _); [| apply accept_valid; assumption].
  destruct Hr as [Hs Ha]. split; [| exact Ha].
  cbn [stack]. intros c Hc. apply pushAll_elem in Hc as [Hc | Hc].
  - apply (children_within lo _ t c Ht Hlt Hlo Hc).
  - apply Hs, Hc.
Qed.

Lemma refineLoop_valid (cfg : Config) (f : Frame) (lo : Z) (budget : nat)
    (r : Refine) :
  0 <= lo ->
  selectionValid f lo (topZoomOf cfg f) r ->
  selectionValid f lo (topZoomOf cfg f) (refineLoop cfg f budget r).
Proof.
  intros Hlo. revert r. induction budget as [| b IH]; intros r Hr; cbn;
    [exact Hr |].
  destruct (stack r) as [| t rest] eqn:Es; [exact Hr |].
  apply IH. destruct Hr as [Hs Ha].
  apply refineBody_valid; [exact Hlo | apply Hs; rewrite Es; left |].
  split; [| exact Ha].
  cbn [stack]. intros c Hc. apply Hs. rewrite Es. right. exact Hc.
Qed.

Lemma flush_fold_valid (f : Frame) (lo hi : Z) (ts : list StackEntry)
    (r : Refine) :
  (forall t, t ∈ ts -> tileWithin lo hi (ez t) (tileX t) (tileY t)) ->
  selectionValid f lo hi r ->
  selectionValid f lo hi (fold_left (fun acc t => accept f t acc) ts r).
Proof.
  revert r. induction ts as [| t ts IH]; intros r Hts Hr; cbn; [exact Hr |].
  apply IH; [intros t' Ht'; apply Hts; right; exact Ht' |].
  apply accept_valid; [apply Hts; left | exact Hr].
Qed.

Lemma selectTrapezoid_valid (cfg : Config) (f : Frame) (cm : Q * Q) :
  selectionValid f (minZoomOf cfg f) (topZoomOf cfg f)
    (selectTrapezoid cfg f cm).
Proof.
  pose proof (trapezoid_zoom_levels_aux cfg f) as (H2 & _).
  assert (selectionValid f (minZoomOf cfg f) (topZoomOf cfg f)
            (refineLoop cfg f (Z.to_nat (maxWork cfg))
               (refineStart cfg f cm))) as Hr.
  { apply refineLoop_valid; [lia |]. split.
    - cbn [refineStart stack]. apply initialStack_within.
    - intros z c Hc. unfold accepted in Hc. cbn in Hc.
      rewrite lookup_empty in Hc. inversion Hc. }
  unfold selectTrapezoid, flushStack.
  match goal with |- selectionValid _ _ _ (fold_left _ _ ?r0) =>
    assert (selectionValid f (minZoomOf cfg f) (topZoomOf cfg f) r0) as Hr0
  end.
  { destruct Hr as [Hs Ha]. split; [exact Hs | exact Ha]. }
  apply flush_fold_valid; [| exact Hr0].
  intros t Ht. destruct Hr as [Hs _]. apply Hs.
  apply list_elem_of_In, in_rev, list_elem_of_In in Ht. exact Ht.
Qed.

(** X7: every tile that the trapezoid strategy selects for a zoom is a
    tile of that zoom: the zoom lies between [minZoom] and [topZoom], column
    and row lie in [0 .. 2^z - 1], and the candidate carries the key and the
    distance of that very tile. *)
Theorem trapezoid_selects_existing_tiles (cfg : Config) (f : Frame)
    (cm : Q * Q) (z : Z) (c : Candidate) :
  c ∈ accepted (selectTrapezoid cfg f cm) z ->
  c_key c = _tileKey z (c_tileX c) (c_tileY c)
  /\ minZoomOf cfg f <= z <= topZoomOf cfg f
  /\ 0 <= c_tileX c < 2 ^ z /\ 0 <= c_tileY c < 2 ^ z
  /\ c_rectDist c = tileRectDist f (c_tileX c) (c_tileY c) z.
Proof.
  intros Hc.
  destruct (selectTrapezoid_valid cfg f cm) as [_ Ha].
  destruct (Ha z c Hc) as (Hk & (Hz & Hx & Hy) & Hd). auto.
Qed.

Lemma trapezoid_selects_existing_tiles_witness :
  let f := levelFrame 1000 0 0 in
  let c := cand 5 16 15 0 in
  c ∈ accepted (selectTrapezoid trapezoidConfig f (100%Q, 100%Q)) 5
  /\ c_key c = _tileKey 5 16 15
  /\ minZoomOf trapezoidConfig f <= 5 <= topZoomOf trapezoidConfig f
  /\ 0 <= 16 < 2 ^ 5 /\ 0 <= 15 < 2 ^ 5
  /\ c_rectDist c = tileRectDist f 16 15 5.
Proof.
  intros f c.
  assert (c ∈ accepted (selectTrapezoid trapezoidConfig f (100%Q, 100%Q)) 5)
    as Hc by (apply list_elem_of_In; vm_compute; tauto).
  split; [exact Hc |].
  exact (trapezoid_selects_existing_tiles trapezoidConfig f (100%Q, 100%Q)
           5 c Hc).
Defined.

(** ** What a frame leaves alone *)

Lemma steady_refl (w : World) : steady w w.
Proof. repeat split; reflexivity || lia. Qed.

Lemma steady_trans (w1 w2 w3 : World) :
  steady w1 w2 -> steady w2 w3 -> steady w1 w3.
Proof.
  intros (a1 & a2 & a3 & a4 & a5 & a6 & a7) (b1 & b2 & b3 & b4 & b5 & b6 & b7).
  repeat split; try congruence. lia.
Qed.

Lemma steady_fold {A : Type} (g : World -> A -> World) (l : list A)
    (w : World) :
  (forall w a, steady w (g w a)) -> steady w (fold_left g l w).
Proof.
  intros Hg. revert w. induction l as [| a l IH]; intros w; cbn.
  - apply steady_refl.
  - eapply steady_trans; [apply Hg | apply IH].
Qed.

Lemma disposeZoom_steady (t : bool) (z : Z) (w : World) :
  steady w (disposeZoom t z w).
Proof.
  unfold disposeZoom. destruct (stateAt z w); [| apply steady_refl].
  destruct t; repeat split; reflexivity || (cbn; lia).
Qed.

Lemma ensureZoomState_steady (z : Z) (g : Grid) (c : option Z) (w : World) :
  steady w (_ensureZoomState z g c w).2.
Proof.
  unfold _ensureZoomState. destruct (stateAt z w) as [s |].
  - match goal with |- context [if ?b then _ else _] => destruct b end;
      [| apply steady_refl].
    repeat split; reflexivity || (cbn; lia).
  - repeat split; reflexivity || (cbn; lia).
Qed.

Lemma settlePendingCell_steady (z c : Z) (st : ZoomState) (w : World) :
  steady w (settlePendingCell z c st w).
Proof.
  unfold settlePendingCell.
  match goal with |- context [if ?b then _ else _] => destruct b end;
    [| apply steady_refl].
  repeat split; reflexivity || (cbn; lia).
Qed.

Lemma reconcilePins_steady (t : bool) (z : Z) (D : gset TileKey)
    (st : ZoomState) (w : World) :
  steady w (reconcilePins t z D st w).2.
Proof.
  unfold reconcilePins. destruct t; [| apply steady_refl].
  repeat split; reflexivity || (cbn; lia).
Qed.

Lemma putState_steady (z : Z) (st : ZoomState) (w : World) :
  steady w (putState z st w).
Proof. repeat split; reflexivity || (cbn; lia). Qed.

Lemma renderIfDirty_steady (z : Z) (st : ZoomState) (w : World) :
  steady w (renderIfDirty z st w).2.
Proof.
  unfold renderIfDirty. destruct (dirty st); [| apply steady_refl].
  repeat split; reflexivity || (cbn; lia).
Qed.

Lemma issueFetch_steady (t : bool) (z : Z) (c : Candidate) (st : ZoomState)
    (w : World) :
  steady w (issueFetch t z c st w).2.
Proof.
  unfold issueFetch. destruct t; [| apply steady_refl].
  repeat split; reflexivity || (cbn; lia).
Qed.

Lemma issueStepTrapezoid_steady (t : bool) (m z : Z) (D : gset TileKey)
    (acc : IssueAcc) (c : Candidate) :
  steady acc.2 (issueStepTrapezoid t m z D acc c).2.
Proof.
  destruct acc as [[issued st] w]. unfold issueStepTrapezoid. cbn [fst snd].
  repeat match goal with
         | |- context [if ?b then _ else _] => destruct b
         | |- context [match ?o with Some _ => _ | None => _ end] =>
             destruct o
         end;
    first
      [ apply steady_refl
      | pose proof (issueFetch_steady t z c st w) as Hs;
        destruct (issueFetch t z c st w) as [st' w']; exact Hs ].
Qed.

Lemma issueStepViewport_steady (t : bool) (m z : Z) (acc : IssueAcc)
    (ci : nat * Candidate) :
  steady acc.2 (issueStepViewport t m z acc ci).2.
Proof.
  destruct acc as [[issued st] w], ci as [idx c].
  unfold issueStepViewport. cbn [fst snd].
  repeat match goal with
         | |- context [if ?b then _ else _] => destruct b
         | |- context [match ?o with Some _ => _ | None => _ end] =>
             destruct o
         end;
    first
      [ apply steady_refl
      | pose proof (issueFetch_steady t z c st w) as Hs;
        destruct (issueFetch t z c st w) as [st' w']; exact Hs ].
Qed.

Lemma issueLoop_steady {A : Type} (g : IssueAcc -> A -> IssueAcc)
    (l : list A) (acc : IssueAcc) :
  (forall acc a, steady acc.2 (g acc a).2) ->
  steady acc.2 (fold_left g l acc).2.
Proof.
  intros Hg. revert acc. induction l as [| a l IH]; intros acc; cbn.
  - apply steady_refl.
  - eapply steady_trans; [apply Hg | apply IH].
Qed.

Lemma reconcileTrapezoid_steady (cfg : Config) (f : Frame) (z : Z)
    (center : Z * Z) (c0 : Candidate) (rest : list Candidate) (w : World) :
  steady w (reconcileTrapezoid cfg f z center c0 rest w).
Proof.
  unfold reconcileTrapezoid.
  set (g := trapezoidGrid (wantsMipmaps w) z center (extentOf c0 rest)).
  set (c := desiredCellSizeAt cfg z w).
  pose proof (ensureZoomState_steady z g (Some c) w) as H1.
  destruct (_ensureZoomState z g (Some c) w) as [st w1]. cbn [snd] in H1.
  pose proof (settlePendingCell_steady z c st w1) as H2.
  set (D := keySet (c0 :: rest)).
  pose proof (reconcilePins_steady (tiles f) z D st
                (settlePendingCell z c st w1)) as H3.
  destruct (reconcilePins (tiles f) z D st (settlePendingCell z c st w1))
    as [st1 w3]. cbn [snd] in H3.
  assert (steady w w3) as H13
    by (eapply steady_trans; [exact H1 |];
        eapply steady_trans; [exact H2 | exact H3]).
  destruct (mapDrapeSkipTileLoad cfg).
  { eapply steady_trans; [exact H13 | apply putState_steady]. }
  match goal with |- context [fold_left ?step ?l (0, dropTextures D st1, w3)] =>
    pose proof (issueLoop_steady step l (0, dropTextures D st1, w3)
                  (issueStepTrapezoid_steady (tiles f) _ z D)) as H4;
    destruct (fold_left step l (0, dropTextures D st1, w3))
      as [[issued st3] w4]
  end.
  cbn [snd] in H4.
  pose proof (renderIfDirty_steady z st3 w4) as H5.
  destruct (renderIfDirty z st3 w4) as [st4 w5]. cbn [snd] in H5.
  eapply steady_trans; [exact H13 |].
  eapply steady_trans; [exact H4 |].
  eapply steady_trans; [exact H5 | apply putState_steady].
Qed.

Lemma reconcileViewport_steady (cfg : Config) (f : Frame) (z : Z)
    (center : Z * Z) (c0 : Candidate) (rest : list Candidate) (w : World) :
  steady w (reconcileViewport cfg f z center c0 rest w).
Proof.
  unfold reconcileViewport.
  match goal with |- context [_ensureZoomState z ?g0 _ w] => set (g := g0) end.
  set (c := desiredCellSizeAt cfg z w).
  pose proof (ensureZoomState_steady z g (Some c) w) as H1.
  destruct (_ensureZoomState z g (Some c) w) as [st w1]. cbn [snd] in H1.
  pose proof (settlePendingCell_steady z c st w1) as H2.
  set (D := keySet (cellInfosOf g (c0 :: rest)).*2).
  pose proof (reconcilePins_steady (tiles f) z D st
                (settlePendingCell z c st w1)) as H3.
  destruct (reconcilePins (tiles f) z D st (settlePendingCell z c st w1))
    as [st1 w3]. cbn [snd] in H3.
  assert (steady w w3) as H13
    by (eapply steady_trans; [exact H1 |];
        eapply steady_trans; [exact H2 | exact H3]).
  destruct (mapDrapeSkipTileLoad cfg).
  { eapply steady_trans; [exact H13 | apply putState_steady]. }
  match goal with |- context [fold_left ?step ?l (0, dropTextures D st1, w3)] =>
    pose proof (issueLoop_steady step l (0, dropTextures D st1, w3)
                  (issueStepViewport_steady (tiles f) _ z)) as H4;
    destruct (fold_left step l (0, dropTextures D st1, w3))
      as [[issued st3] w4]
  end.
  cbn [snd] in H4.
  pose proof (renderIfDirty_steady z st3 w4) as H5.
  destruct (renderIfDirty z st3 w4) as [st4 w5]. cbn [snd] in H5.
  eapply steady_trans; [exact H13 |].
  eapply steady_trans; [exact H4 |].
  eapply steady_trans; [exact H5 | apply putState_steady].
Qed.

Lemma processZoomTrapezoid_steady (cfg : Config) (f : Frame) (cm : Q * Q)
    (byZ : gmap Z (list Candidate)) (w : World) (z : Z) :
  steady w (processZoomTrapezoid cfg f cm byZ w z).
Proof.
  unfold processZoomTrapezoid.
  destruct (default [] (byZ !! z)) as [| c cs];
    [apply disposeZoom_steady |].
  destruct (sortByDist (c :: cs)) as [| c0 rest]; [apply steady_refl |].
  destruct (mercatorToTileXY f cm.1 cm.2 z) as [center |];
    [| apply steady_refl].
  apply reconcileTrapezoid_steady.
Qed.

Lemma processZoomViewport_steady (cfg : Config) (f : Frame) (cm : Q * Q)
    (w : World) (z : Z) :
  steady w (processZoomViewport cfg f cm w z).
Proof.
  unfold processZoomViewport.
  destruct (vp_rangePositive (plan f) z); cbn [negb];
    [| apply disposeZoom_steady].
  destruct (mercatorToTileXY f cm.1 cm.2 z) as [center |];
    [| apply steady_refl].
  destruct (vp_candidates (plan f) z) as [| c cs];
    [apply disposeZoom_steady |].
  destruct (sortByDist (c :: cs)) as [| c0 rest]; [apply steady_refl |].
  apply reconcileViewport_steady.
Qed.

Lemma updateTrapezoid_steady (cfg : Config) (f : Frame) (cm : Q * Q)
    (w : World) : steady w (updateTrapezoid cfg f cm w).
Proof.
  unfold updateTrapezoid.
  eapply steady_trans; [| apply steady_fold; intros w' z;
                          apply processZoomTrapezoid_steady].
  unfold dropStaleTrapezoid. apply steady_fold. intros w' z.
  destruct (bool_decide _); [apply steady_refl | apply disposeZoom_steady].
Qed.

Lemma updateViewport_steady (cfg : Config) (f : Frame) (cm : Q * Q)
    (w : World) : steady w (updateViewport cfg f cm w).
Proof.
  unfold updateViewport.
  eapply steady_trans; [| apply steady_fold; intros w' z;
                          apply processZoomViewport_steady].
  unfold dropStaleViewport. apply steady_fold. intros w' z.
  match goal with |- context [if ?b then _ else _] => destruct b end;
    [apply disposeZoom_steady | apply steady_refl].
Qed.

(** ** The gates of [update] *)

Lemma updateWith_passed (cfg : Config) (f : Frame) (w : World) :
  (updateWith cfg f w).2 = Recomputed \/ (updateWith cfg f w).2 = NoCamMerc ->
  lastUpdate (atlas (updateWith cfg f w).1) = now f.
Proof.
  unfold updateWith.
  destruct (negb (mapDrapeShaderPatchEnabled cfg));
    [cbn; intros [H | H]; discriminate |].
  destruct (aboveEnableHeight cfg f); [cbn; intros [H | H]; discriminate |].
  destruct (debounceGate cfg f (syncOpts cfg w)) as [w1 suppressed].
  destruct suppressed; [cbn; intros [H | H]; discriminate |].
  destruct (qlt (now f - lastUpdate (atlas w1)) (updateMs cfg));
    [cbn; intros [H | H]; discriminate |].
  destruct (camMerc f) as [cm |]; [| reflexivity].
  destruct (lodMode cfg); cbn [fst snd]; intros _.
  - destruct (updateTrapezoid_steady cfg f cm
                (setGate (lastView (atlas w1)) (lastMoveAt (atlas w1))
                   (now f) w1)) as (H & _).
    rewrite H. reflexivity.
  - destruct (updateViewport_steady cfg f cm
                (setGate (lastView (atlas w1)) (lastMoveAt (atlas w1))
                   (now f) w1)) as (H & _).
    rewrite H. reflexivity.
  - destruct (updateViewport_steady cfg f cm
                (setGate (lastView (atlas w1)) (lastMoveAt (atlas w1))
                   (now f) w1)) as (H & _).
    rewrite H. reflexivity.
Qed.

(** X8: with the drape enabled and the camera not above the enable
    height, a frame that comes less than [updateMs] after a frame that
    passed the throttle (it recomputed, or stopped for want of a camera
    position) ends at the debounce or at the throttle: it creates and
    drops no zoom state, makes no call and issues no fetch, and keeps
    [lastUpdate].  The second frame may have another configuration than
    the first. *)
Theorem throttle_skips_close_frames (cfg cfg' : Config) (f f' : Frame)
    (w : World) :
  (updateWith cfg f w).2 = Recomputed \/ (updateWith cfg f w).2 = NoCamMerc ->
  mapDrapeShaderPatchEnabled cfg' = true ->
  aboveEnableHeight cfg' f' = false ->
  (now f' - now f < updateMs cfg')%Q ->
  let w1 := update cfg f w in
  let r := updateWith cfg' f' w1 in
  (r.2 = Debounced \/ r.2 = Throttled)
  /\ byZoom (atlas r.1) = byZoom (atlas w1)
  /\ pendingCellSizeByZoom (atlas r.1) = pendingCellSizeByZoom (atlas w1)
  /\ lastUpdate (atlas r.1) = now f
  /\ trace r.1 = trace w1
  /\ inflight r.1 = inflight w1.
Proof.
  intros Hpass Hen Hh Hlt w1 r.
  pose proof (updateWith_passed cfg f w Hpass) as Hlu.
  fold (update cfg f w) in Hlu. fold w1 in Hlu.
  subst r. unfold updateWith. rewrite Hen, Hh. cbn [negb].
  destruct (syncOpts_atlas cfg' w1) as (Ha & Htr & Hin & _).
  pose proof (debounceGate_keeps cfg' f' (syncOpts cfg' w1)) as Hd.
  cbn zeta in Hd.
  destruct (debounceGate cfg' f' (syncOpts cfg' w1)) as [w2 suppressed].
  cbn [fst] in Hd.
  destruct Hd as (Hb & Hp & Hl & Ht & Hi & _).
  rewrite Ha in Hb, Hp, Hl. rewrite Htr in Ht. rewrite Hin in Hi.
  assert (qlt (now f' - lastUpdate (atlas w2)) (updateMs cfg') = true) as Hq
    by (apply qlt_true; rewrite Hl, Hlu; exact Hlt).
  destruct suppressed; cbn [fst snd].
  - split; [left; reflexivity |]. rewrite Hl, Hlu. auto.
  - rewrite Hq. cbn [fst snd].
    split; [right; reflexivity |]. rewrite Hl, Hlu. auto.
Qed.

Lemma throttle_skips_close_frames_witness :
  let r := updateWith trapezoidConfig (levelFrame 1100 0 0) afterFirstFrame in
  (r.2 = Debounced \/ r.2 = Throttled)
  /\ byZoom (atlas r.1) = byZoom (atlas afterFirstFrame)
  /\ pendingCellSizeByZoom (atlas r.1)
     = pendingCellSizeByZoom (atlas afterFirstFrame)
  /\ lastUpdate (atlas r.1) = 1000%Q
  /\ trace r.1 = trace afterFirstFrame
  /\ inflight r.1 = inflight afterFirstFrame.
Proof.
  apply (throttle_skips_close_frames trapezoidConfig trapezoidConfig
           (levelFrame 1000 0 0) (levelFrame 1100 0 0) newWorld);
    [left; vm_compute; reflexivity | reflexivity | vm_compute; reflexivity
    | vm_compute; reflexivity].
Defined.

Lemma clear_events (t : bool) (l : list (Z * ZoomState)) (w : World) :
  let w' := fold_left (clearEntry t) l w in
  exists es,
    trace w' = trace w ++ es
    /\ (forall z st, (z, st) ∈ l ->
          EvDisposeRT z (rt st) ∈ es
          /\ (t = true -> forall k, k ∈ activeKeys st -> EvUnpin z k ∈ es))
    /\ Forall (fun e => match e with
                        | EvUnpin _ _ | EvDisposeRT _ _ => True
                        | _ => False
                        end) es.
Proof.
  revert w. induction l as [| [z0 st0] l IH]; intros w; cbn zeta.
  - exists []. split; [symmetry; apply app_nil_r |].
    split; [intros z st H; inversion H | constructor].
  - cbn [fold_left]. destruct (IH (clearEntry t w (z0, st0)))
      as (es & Ht & Hin & Hall).
    exists ((if t then EvUnpin z0 <$> elements (activeKeys st0) else [])
            ++ [EvDisposeRT z0 (rt st0)] ++ es).
    split; [| split].
    + rewrite Ht. unfold clearEntry. destruct t; cbn;
        rewrite <- ?app_assoc; reflexivity.
    + intros z st Hzst. apply elem_of_cons in Hzst as [Heq | Hzst].
      * injection Heq as -> ->. split.
        -- apply elem_of_app. right. apply elem_of_cons. left. reflexivity.
        -- intros -> k Hk. apply elem_of_app. left.
           apply list_elem_of_fmap. exists k.
           split; [reflexivity | apply elem_of_elements, Hk].
      * destruct (Hin z st Hzst) as [Hd Hu]. split.
        -- apply elem_of_app. right. apply elem_of_cons. right. exact Hd.
        -- intros Htt k Hk. apply elem_of_app. right.
           apply elem_of_cons. right. apply Hu; assumption.
    + apply Forall_app. split.
      * destruct t; [| constructor].
        apply Forall_fmap, Forall_forall. intros k _. exact I.
      * constructor; [exact I | exact Hall].
Qed.

(** X13: when the drape is disabled, or the camera is above the enable
    height, [update] leaves no zoom state behind: the render target of
    every state is released and, with a tile source at hand, every active
    key is unpinned; nothing else is called, no fetch is issued. *)
Theorem disabled_frame_releases_everything (cfg : Config) (f : Frame)
    (w : World) :
  mapDrapeShaderPatchEnabled cfg = false \/ aboveEnableHeight cfg f = true ->
  let w' := update cfg f w in
  byZoom (atlas w') = ∅
  /\ exists es,
       trace w' = trace w ++ es
       /\ (forall z st, stateAt z w = Some st ->
             EvDisposeRT z (rt st) ∈ es
             /\ (tiles f = true ->
                 forall k, k ∈ activeKeys st -> EvUnpin z k ∈ es))
       /\ Forall (fun e => match e with
                           | EvUnpin _ _ | EvDisposeRT _ _ => True
                           | _ => False
                           end) es.
Proof.
  intros Hoff w'.
  destruct (syncOpts_atlas cfg w) as (Ha & Htr & _).
  assert (w' = if negb (bool_decide (byZoom (atlas (syncOpts cfg w)) = ∅))
               then clear (tiles f) (syncOpts cfg w) else syncOpts cfg w)
    as ->.
  { subst w'. unfold update, updateWith.
    destruct (mapDrapeShaderPatchEnabled cfg); cbn [negb]; [| reflexivity].
    destruct Hoff as [Hoff | Hoff]; [discriminate |].
    rewrite Hoff. reflexivity. }
  destruct (bool_decide_reflect (byZoom (atlas (syncOpts cfg w)) = ∅))
    as [He | Hne]; cbn [negb].
  - split; [exact He |]. exists [].
    split; [rewrite Htr; symmetry; apply app_nil_r |].
    split; [| constructor].
    intros z st Hst. unfold stateAt in Hst. rewrite <- Ha, He in Hst.
    rewrite lookup_empty in Hst. discriminate.
  - split; [reflexivity |].
    destruct (clear_events (tiles f)
                (map_to_list (byZoom (atlas (syncOpts cfg w))))
                (syncOpts cfg w)) as (es & Ht & Hin & Hall).
    exists es. split; [cbn; rewrite Ht, Htr; reflexivity |].
    split; [| exact Hall].
    intros z st Hst. apply Hin. apply elem_of_map_to_list.
    rewrite Ha. exact Hst.
Qed.

Lemma disabled_frame_releases_everything_witness :
  let f := blindFrame 1000 2000000 in
  let w' := update trapezoidConfig f afterFirstFrame in
  aboveEnableHeight trapezoidConfig f = true
  /\ byZoom (atlas w') = ∅
  /\ exists es,
       trace w' = trace afterFirstFrame ++ es
       /\ (forall z st, stateAt z afterFirstFrame = Some st ->
             EvDisposeRT z (rt st) ∈ es
             /\ (tiles f = true ->
                 forall k, k ∈ activeKeys st -> EvUnpin z k ∈ es))
       /\ Forall (fun e => match e with
                           | EvUnpin _ _ | EvDisposeRT _ _ => True
                           | _ => False
                           end) es.
Proof.
  intros f w'. split; [vm_compute; reflexivity |].
  apply (disabled_frame_releases_everything trapezoidConfig f afterFirstFrame).
  right. vm_compute. reflexivity.
Defined.

(** ** Sorting by distance *)

Lemma insertBy_perm {A : Type} (d : A -> Q) (c : A) (l : list A) :
  insertBy d c l ≡ₚ c :: l.
Proof.
  induction l as [| x l IH]; cbn; [reflexivity |].
  destruct (Qle_bool (d x) (d c)); [| reflexivity].
  rewrite IH. apply Permutation_swap.
Qed.

Lemma sortBy_fold_perm {A : Type} (d : A -> Q) (l acc : list A) :
  fold_left (fun acc c => insertBy d c acc) l acc ≡ₚ l ++ acc.
Proof.
  revert acc. induction l as [| c l IH]; intros acc; cbn; [reflexivity |].
  rewrite IH, insertBy_perm. symmetry. apply Permutation_middle.
Qed.

Lemma sortBy_perm {A : Type} (d : A -> Q) (l : list A) : sortBy d l ≡ₚ l.
Proof. unfold sortBy. rewrite sortBy_fold_perm, app_nil_r. reflexivity. Qed.

Lemma sortBy_elem {A : Type} (d : A -> Q) (l : list A) (x : A) :
  x ∈ sortBy d l <-> x ∈ l.
Proof. rewrite (sortBy_perm d l). reflexivity. Qed.

Lemma keySet_sortByDist (l : list Candidate) :
  keySet (sortByDist l) = keySet l.
Proof.
  unfold keySet, sortByDist. apply set_eq. intros k.
  rewrite !elem_of_list_to_set, !list_elem_of_fmap.
  split; intros (c & -> & Hc); exists c; (split; [reflexivity |]);
    apply (sortBy_elem c_rectDist l c); exact Hc.
Qed.

(** [l] is in ascending order of [d]. *)
Lemma insertBy_sorted {A : Type} (d : A -> Q) (c : A) (l : list A) :
  Sorted (fun a b => (d a <= d b)%Q) l ->
  Sorted (fun a b => (d a <= d b)%Q) (insertBy d c l).
Proof.
  induction 1 as [| x l Hs IH Hhd]; cbn; [repeat constructor |].
  destruct (Qle_bool (d x) (d c)) eqn:E.
  - constructor; [exact IH |].
    destruct l as [| y l]; cbn.
    + constructor. apply Qle_bool_iff, E.
    + destruct (Qle_bool (d y) (d c)); constructor;
        [inversion Hhd; assumption | apply Qle_bool_iff, E].
  - constructor; [constructor; assumption |].
    constructor. apply Qlt_le_weak, Qnot_le_lt. intros Hle.
    apply Qle_bool_iff in Hle. congruence.
Qed.

Lemma sortBy_sorted {A : Type} (d : A -> Q) (l : list A) :
  Sorted (fun a b => (d a <= d b)%Q) (sortBy d l).
Proof.
  unfold sortBy.
  assert (forall acc, Sorted (fun a b => (d a <= d b)%Q) acc ->
            Sorted (fun a b => (d a <= d b)%Q)
              (fold_left (fun acc c => insertBy d c acc) l acc)) as H.
  { induction l as [| c l IH]; intros acc Hacc; cbn; [exact Hacc |].
    apply IH, insertBy_sorted, Hacc. }
  apply H. constructor.
Qed.

(** ** What a reconciliation leaves behind *)

Lemma sameShape_refl (a : ZoomState) : sameShape a a.
Proof. repeat split; reflexivity. Qed.

Lemma sameShape_trans (a b c : ZoomState) :
  sameShape a b -> sameShape b c -> sameShape a c.
Proof.
  intros (a1 & a2 & a3 & a4 & a5 & a6) (b1 & b2 & b3 & b4 & b5 & b6).
  repeat split; congruence.
Qed.

Lemma calm_refl (st : ZoomState) (w : World) : calm st w st w.
Proof.
  split; [apply sameShape_refl |]. split; [reflexivity |].
  split; [reflexivity |]. split; [lia |].
  exists []. split; [symmetry; apply app_nil_r | constructor].
Qed.

Lemma calm_trans (s1 s2 s3 : ZoomState) (w1 w2 w3 : World) :
  calm s1 w1 s2 w2 -> calm s2 w2 s3 w3 -> calm s1 w1 s3 w3.
Proof.
  intros (Hs & Ha & Hb & Hi & e1 & Ht1 & Hn1)
         (Hs' & Ha' & Hb' & Hi' & e2 & Ht2 & Hn2).
  split; [eapply sameShape_trans; eassumption |].
  split; [congruence |]. split; [congruence |]. split; [lia |].
  exists (e1 ++ e2). split; [rewrite Ht2, Ht1, app_assoc; reflexivity |].
  apply Forall_app; split; assumption.
Qed.

Lemma withCell_shape (idx : nat) (m : Material) (st : ZoomState) :
  sameShape st (withCell idx m st).
Proof.
  repeat split; try reflexivity. cbn. apply length_insert.
Qed.

Lemma clearCell_shape (st : ZoomState) (k : TileKey) :
  sameShape st (clearCell st k).
Proof.
  unfold clearCell.
  repeat match goal with
         | |- context [if ?b then _ else _] => destruct b
         | |- context [match ?o with Some _ => _ | None => _ end] =>
             destruct o
         end; first [apply sameShape_refl | apply withCell_shape].
Qed.

Lemma clearCells_shape (l : list TileKey) (s0 : ZoomState) :
  sameShape s0 (fold_left clearCell l s0).
Proof.
  revert s0. induction l as [| k l IH]; intros s0; cbn;
    [apply sameShape_refl |].
  eapply sameShape_trans; [apply clearCell_shape | apply IH].
Qed.

Lemma dropTextures_shape (D : gset TileKey) (st : ZoomState) :
  sameShape st (dropTextures D st).
Proof.
  unfold dropTextures.
  eapply sameShape_trans; [| apply clearCells_shape].
  repeat split; reflexivity.
Qed.

Lemma bindExisting_shape (idx : nat) (mat : Material) (tex : Texture)
    (st : ZoomState) :
  sameShape st (bindExisting idx mat tex st).
Proof.
  unfold bindExisting. destruct (isBoundTo tex mat);
    [apply sameShape_refl | apply withCell_shape].
Qed.

Lemma issueFetch_calm (t : bool) (z : Z) (c : Candidate) (st : ZoomState)
    (w : World) :
  calm st w (issueFetch t z c st w).1 (issueFetch t z c st w).2.
Proof.
  unfold issueFetch. destruct t; [| apply calm_refl].
  cbn. split; [repeat split; reflexivity |]. split; [reflexivity |].
  split; [reflexivity |]. split; [cbn; lia |].
  eexists. split; [reflexivity |]. repeat constructor.
Qed.

Lemma issueStepTrapezoid_calm (t : bool) (m z : Z) (D : gset TileKey)
    (acc : IssueAcc) (c : Candidate) :
  calm acc.1.2 acc.2 (issueStepTrapezoid t m z D acc c).1.2
    (issueStepTrapezoid t m z D acc c).2.
Proof.
  destruct acc as [[issued st] w]. unfold issueStepTrapezoid. cbn [fst snd].
  repeat match goal with
         | |- context [if ?b then _ else _] => destruct b
         | |- context [match ?o with Some _ => _ | None => _ end] =>
             destruct o
         end;
    first
      [ apply calm_refl
      | cbn; split; [apply bindExisting_shape |];
        split; [apply bindExisting_activeKeys |];
        split; [reflexivity |]; split; [lia |];
        exists []; split; [symmetry; apply app_nil_r | constructor]
      | pose proof (issueFetch_calm t z c st w) as Hc;
        destruct (issueFetch t z c st w) as [st' w']; exact Hc ].
Qed.

Lemma issueStepViewport_calm (t : bool) (m z : Z) (acc : IssueAcc)
    (ci : nat * Candidate) :
  calm acc.1.2 acc.2 (issueStepViewport t m z acc ci).1.2
    (issueStepViewport t m z acc ci).2.
Proof.
  destruct acc as [[issued st] w], ci as [idx c].
  unfold issueStepViewport. cbn [fst snd].
  repeat match goal with
         | |- context [if ?b then _ else _] => destruct b
         | |- context [match ?o with Some _ => _ | None => _ end] =>
             destruct o
         end;
    first
      [ apply calm_refl
      | cbn; split; [apply bindExisting_shape |];
        split; [apply bindExisting_activeKeys |];
        split; [reflexivity |]; split; [lia |];
        exists []; split; [symmetry; apply app_nil_r | constructor]
      | pose proof (issueFetch_calm t z c st w) as Hc;
        destruct (issueFetch t z c st w) as [st' w']; exact Hc ].
Qed.

Lemma calm_fold {A : Type} (g : IssueAcc -> A -> IssueAcc) (l : list A)
    (acc : IssueAcc) :
  (forall acc a, calm acc.1.2 acc.2 (g acc a).1.2 (g acc a).2) ->
  calm acc.1.2 acc.2 (fold_left g l acc).1.2 (fold_left g l acc).2.
Proof.
  intros Hg. revert acc. induction l as [| a l IH]; intros acc; cbn.
  - apply calm_refl.
  - eapply calm_trans; [apply Hg | apply IH].
Qed.

Lemma renderIfDirty_calm (z : Z) (st : ZoomState) (w : World) :
  calm st w (renderIfDirty z st w).1 (renderIfDirty z st w).2.
Proof.
  unfold renderIfDirty. destruct (dirty st); [| apply calm_refl].
  cbn. split; [repeat split; reflexivity |]. split; [reflexivity |].
  split; [reflexivity |]. split; [cbn; lia |].
  eexists. split; [reflexivity |]. repeat constructor.
Qed.

Lemma harmless_rtFree (es : list Event) : Forall harmless es -> Forall rtFree es.
Proof.
  intros H. eapply Forall_impl; [exact H |].
  intros [] He; try exact I; destruct He.
Qed.

(** The common shape of a reconciliation, from the state [st] that
    [_ensureZoomState] returned in the world [w1]. *)
Lemma reconcile_post (t : bool) (z c : Z) (D : gset TileKey) (w1 : World)
    (st st4 : ZoomState) (w5 : World) :
  calm (reconcilePins t z D st (settlePendingCell z c st w1)).1
       (reconcilePins t z D st (settlePendingCell z c st w1)).2 st4 w5 ->
  stateAt z (putState z st4 w5) = Some st4
  /\ sameShape st st4
  /\ activeKeys st4 = D
  /\ onlyTouches z w1 (putState z st4 w5)
  /\ (nextId w1 <= nextId (putState z st4 w5))%nat
  /\ exists es, trace (putState z st4 w5) = trace w1 ++ es /\ Forall rtFree es.
Proof.
  intros (Hs & Ha & Hb & Hi & es & Ht & Hn).
  destruct (settlePendingCell_keeps z c st w1) as (Hb2 & Ht0).
  assert (nextId (reconcilePins t z D st (settlePendingCell z c st w1)).2
          = nextId w1) as Hi0.
  { unfold reconcilePins, settlePendingCell.
    destruct t; cbn;
      match goal with |- context [if ?b then _ else _] => destruct b end;
      reflexivity. }
  split; [rewrite stateAt_putState, bool_decide_eq_true_2 by reflexivity;
          reflexivity |].
  split; [eapply sameShape_trans; [| exact Hs]; repeat split; reflexivity |].
  split; [rewrite Ha; reflexivity |].
  split.
  - intros z' Hz. rewrite stateAt_putState.
    rewrite bool_decide_eq_false_2 by congruence.
    unfold stateAt. rewrite Hb.
    unfold reconcilePins. destruct t; cbn; rewrite Hb2; reflexivity.
  - split; [cbn [putState setByZoom setAtlas nextId]; lia |].
    cbn [putState setByZoom setAtlas trace]. rewrite Ht.
    unfold reconcilePins. destruct t; cbn [snd emitAll trace]; rewrite Ht0.
    + eexists. split; [rewrite <- app_assoc; reflexivity |].
      apply Forall_app. split; [| apply harmless_rtFree, Hn].
      apply Forall_app. split; apply Forall_fmap, Forall_forall;
        intros k _; exact I.
    + exists es. split; [reflexivity | apply harmless_rtFree, Hn].
Qed.

Lemma reconcileTrapezoid_post (cfg : Config) (f : Frame) (z : Z)
    (center : Z * Z) (c0 : Candidate) (rest : list Candidate) (w : World) :
  let g := trapezoidGrid (wantsMipmaps w) z center (extentOf c0 rest) in
  let r := _ensureZoomState z g (Some (desiredCellSizeAt cfg z w)) w in
  let w' := reconcileTrapezoid cfg f z center c0 rest w in
  exists st4,
    stateAt z w' = Some st4
    /\ sameShape r.1 st4
    /\ activeKeys st4 = keySet (c0 :: rest)
    /\ onlyTouches z r.2 w'
    /\ (nextId r.2 <= nextId w')%nat
    /\ exists es, trace w' = trace r.2 ++ es /\ Forall rtFree es.
Proof.
  intros g r w'. subst r w'. unfold reconcileTrapezoid. fold g.
  set (c := desiredCellSizeAt cfg z w).
  destruct (_ensureZoomState z g (Some c) w) as [st w1]. cbn [fst snd].
  set (D := keySet (c0 :: rest)).
  destruct (reconcilePins (tiles f) z D st (settlePendingCell z c st w1))
    as [st1 w3] eqn:Erec.
  assert (forall st4 w5, calm st1 w3 st4 w5 ->
            exists st4', stateAt z (putState z st4 w5) = Some st4'
              /\ sameShape st st4' /\ activeKeys st4' = D
              /\ onlyTouches z w1 (putState z st4 w5)
              /\ (nextId w1 <= nextId (putState z st4 w5))%nat
              /\ exists es, trace (putState z st4 w5) = trace w1 ++ es
                            /\ Forall rtFree es) as Hfin.
  { intros st4 w5 Hc. exists st4.
    apply (reconcile_post (tiles f) z c D w1 st st4 w5).
    rewrite Erec. exact Hc. }
  destruct (mapDrapeSkipTileLoad cfg); [apply Hfin, calm_refl |].
  pose proof (calm_fold
                (issueStepTrapezoid (tiles f) (maxNewLoadsPerTick w) z D)
                (c0 :: rest) (0, dropTextures D st1, w3)
                (issueStepTrapezoid_calm (tiles f) (maxNewLoadsPerTick w) z D))
    as Hq.
  destruct (fold_left (issueStepTrapezoid (tiles f) (maxNewLoadsPerTick w) z D)
              (c0 :: rest) (0, dropTextures D st1, w3))
    as [[issued st3] w4].
  cbn [fst snd] in Hq.
  pose proof (renderIfDirty_calm z st3 w4) as Hr.
  destruct (renderIfDirty z st3 w4) as [st4 w5]. cbn [fst snd] in Hr.
  apply Hfin.
  eapply calm_trans; [| exact Hr].
  eapply calm_trans; [| exact Hq].
  split; [apply dropTextures_shape |].
  split; [apply dropTextures_activeKeys |]. split; [reflexivity |].
  split; [lia |].
  exists []. split; [symmetry; apply app_nil_r | constructor].
Qed.

Lemma reconcileViewport_post (cfg : Config) (f : Frame) (z : Z)
    (center : Z * Z) (c0 : Candidate) (rest : list Candidate) (w : World) :
  let g := viewportGrid (wantsMipmaps w)
             (maxGridForCell (wantsMipmaps w)
                (maxRTSize (maxRenderTargetSize (plan f))
                   (maxTextureSize (plan f)))
                (desiredCellSizeAt cfg z w))
             z center (extentOf c0 rest) in
  let r := _ensureZoomState z g (Some (desiredCellSizeAt cfg z w)) w in
  let w' := reconcileViewport cfg f z center c0 rest w in
  exists st4,
    stateAt z w' = Some st4
    /\ sameShape r.1 st4
    /\ activeKeys st4 = keySet (cellInfosOf g (c0 :: rest)).*2
    /\ onlyTouches z r.2 w'
    /\ (nextId r.2 <= nextId w')%nat
    /\ exists es, trace w' = trace r.2 ++ es /\ Forall rtFree es.
Proof.
  intros g r w'. subst r w'. unfold reconcileViewport. fold g.
  set (c := desiredCellSizeAt cfg z w).
  destruct (_ensureZoomState z g (Some c) w) as [st w1]. cbn [fst snd].
  set (D := keySet (cellInfosOf g (c0 :: rest)).*2).
  destruct (reconcilePins (tiles f) z D st (settlePendingCell z c st w1))
    as [st1 w3] eqn:Erec.
  assert (forall st4 w5, calm st1 w3 st4 w5 ->
            exists st4', stateAt z (putState z st4 w5) = Some st4'
              /\ sameShape st st4' /\ activeKeys st4' = D
              /\ onlyTouches z w1 (putState z st4 w5)
              /\ (nextId w1 <= nextId (putState z st4 w5))%nat
              /\ exists es, trace (putState z st4 w5) = trace w1 ++ es
                            /\ Forall rtFree es) as Hfin.
  { intros st4 w5 Hc. exists st4.
    apply (reconcile_post (tiles f) z c D w1 st st4 w5).
    rewrite Erec. exact Hc. }
  destruct (mapDrapeSkipTileLoad cfg); [apply Hfin, calm_refl |].
  match goal with |- context [fold_left ?step ?l (0, dropTextures D st1, w3)] =>
    pose proof (calm_fold step l (0, dropTextures D st1, w3)
                  (issueStepViewport_calm (tiles f) (maxNewLoadsPerTick w) z))
      as Hq;
    destruct (fold_left step l (0, dropTextures D st1, w3))
      as [[issued st3] w4]
  end.
  cbn [fst snd] in Hq.
  pose proof (renderIfDirty_calm z st3 w4) as Hr.
  destruct (renderIfDirty z st3 w4) as [st4 w5]. cbn [fst snd] in Hr.
  apply Hfin.
  eapply calm_trans; [| exact Hr].
  eapply calm_trans; [| exact Hq].
  split; [apply dropTextures_shape |].
  split; [apply dropTextures_activeKeys |]. split; [reflexivity |].
  split; [lia |].
  exists []. split; [symmetry; apply app_nil_r | constructor].
Qed.

(** ** The zoom states after a frame *)

Lemma ensureZoomState_grid (z : Z) (g : Grid) (c : option Z) (w : World) :
  grid (_ensureZoomState z g c w).1 = g
  /\ cellSize (_ensureZoomState z g c w).1 = normCellSize w c.
Proof.
  unfold _ensureZoomState. destruct (stateAt z w) as [s |] eqn:Es;
    [| split; reflexivity].
  destruct (gridChanged (Some s) g || cellChanged (Some s) (normCellSize w c))
    eqn:E; [split; reflexivity |].
  apply orb_false_iff in E as [Eg Ec]. cbn [fst].
  unfold gridChanged in Eg. unfold cellChanged in Ec.
  apply orb_false_iff in Eg as [Eg E3]. apply orb_false_iff in Eg as [E1 E2].
  apply orb_false_iff in Ec as [_ Ec].
  apply negb_false_iff, Z.eqb_eq in E1, E2, E3, Ec.
  split; [| exact Ec].
  destruct (grid s), g; cbn in *. congruence.
Qed.

Lemma onlyTouches_refl (z : Z) (w : World) : onlyTouches z w w.
Proof. intros z' _. reflexivity. Qed.

Lemma onlyTouches_trans (z : Z) (w1 w2 w3 : World) :
  onlyTouches z w1 w2 -> onlyTouches z w2 w3 -> onlyTouches z w1 w3.
Proof. intros H1 H2 z' Hz. rewrite (H2 z' Hz). apply H1, Hz. Qed.

Lemma disposeZoom_onlyTouches (t : bool) (z : Z) (w : World) :
  onlyTouches z w (disposeZoom t z w).
Proof.
  intros z' Hz. rewrite stateAt_disposeZoom.
  rewrite bool_decide_eq_false_2 by congruence. reflexivity.
Qed.

Lemma processZoomTrapezoid_onlyTouches (cfg : Config) (f : Frame)
    (cm : Q * Q) (byZ : gmap Z (list Candidate)) (w : World) (z : Z) :
  onlyTouches z w (processZoomTrapezoid cfg f cm byZ w z).
Proof.
  unfold processZoomTrapezoid.
  destruct (default [] (byZ !! z)) as [| c cs];
    [apply disposeZoom_onlyTouches |].
  destruct (sortByDist (c :: cs)) as [| c0 rest]; [apply onlyTouches_refl |].
  destruct (mercatorToTileXY f cm.1 cm.2 z) as [center |];
    [| apply onlyTouches_refl].
  destruct (reconcileTrapezoid_post cfg f z center c0 rest w)
    as (st4 & _ & _ & _ & Ho & _).
  eapply onlyTouches_trans; [| exact Ho].
  intros z' Hz. apply ensureZoomState_facts. exact Hz.
Qed.

Lemma processZoomViewport_onlyTouches (cfg : Config) (f : Frame)
    (cm : Q * Q) (w : World) (z : Z) :
  onlyTouches z w (processZoomViewport cfg f cm w z).
Proof.
  unfold processZoomViewport.
  destruct (vp_rangePositive (plan f) z); cbn [negb];
    [| apply disposeZoom_onlyTouches].
  destruct (mercatorToTileXY f cm.1 cm.2 z) as [center |];
    [| apply onlyTouches_refl].
  destruct (vp_candidates (plan f) z) as [| c cs];
    [apply disposeZoom_onlyTouches |].
  destruct (sortByDist (c :: cs)) as [| c0 rest]; [apply onlyTouches_refl |].
  destruct (reconcileViewport_post cfg f z center c0 rest w)
    as (st4 & _ & _ & _ & Ho & _).
  eapply onlyTouches_trans; [| exact Ho].
  intros z' Hz. apply ensureZoomState_facts. exact Hz.
Qed.

Lemma fold_levels_other (step : World -> Z -> World) (l : list Z)
    (w : World) (z : Z) :
  (forall w z', onlyTouches z' w (step w z')) ->
  z ∉ l -> stateAt z (fold_left step l w) = stateAt z w.
Proof.
  intros Hstep. revert w. induction l as [| a l IH]; intros w Hz; cbn;
    [reflexivity |].
  apply not_elem_of_cons in Hz as [Hza Hzl].
  rewrite (IH _ Hzl). apply Hstep. exact Hza.
Qed.

Lemma fold_levels_at (step : World -> Z -> World) (l : list Z) (w : World)
    (z : Z) (Q : option ZoomState -> Prop) :
  (forall w z', onlyTouches z' w (step w z')) ->
  NoDup l -> z ∈ l ->
  (forall w, Q (stateAt z (step w z))) ->
  Q (stateAt z (fold_left step l w)).
Proof.
  intros Hstep Hnd. revert w.
  induction Hnd as [| a l Ha Hnd IH]; intros w Hz HQ; [inversion Hz |].
  cbn. apply elem_of_cons in Hz as [-> | Hz].
  - rewrite (fold_levels_other step l _ a Hstep Ha). apply HQ.
  - apply IH; assumption.
Qed.

Lemma dropStale_fold (t : bool) (keep : Z -> bool) (l : list Z) (w : World)
    (z : Z) :
  stateAt z (fold_left (fun acc z0 => if keep z0 then acc
                                      else disposeZoom t z0 acc) l w)
  = if bool_decide (z ∈ l) && negb (keep z) then None else stateAt z w.
Proof.
  revert w. induction l as [| a l IH]; intros w; cbn; [reflexivity |].
  rewrite IH.
  destruct (bool_decide_reflect (z ∈ l)) as [Hl | Hl]; cbn [andb].
  - rewrite (bool_decide_eq_true_2 (z ∈ a :: l))
      by (apply elem_of_cons; right; exact Hl).
    cbn [andb]. destruct (keep z) eqn:Ek; cbn [negb]; [| reflexivity].
    destruct (keep a) eqn:Eka; [reflexivity |].
    rewrite stateAt_disposeZoom.
    rewrite bool_decide_eq_false_2 by congruence. reflexivity.
  - destruct (decide (z = a)) as [-> | Hne].
    + rewrite (bool_decide_eq_true_2 (a ∈ a :: l))
        by (apply elem_of_cons; left; reflexivity).
      cbn [andb]. destruct (keep a); cbn [negb]; [reflexivity |].
      rewrite stateAt_disposeZoom.
      rewrite bool_decide_eq_true_2 by reflexivity. reflexivity.
    + rewrite (bool_decide_eq_false_2 (z ∈ a :: l)).
      2:{ intros H. apply elem_of_cons in H as [? | ?]; tauto. }
      cbn [andb]. destruct (keep a); [reflexivity |].
      rewrite stateAt_disposeZoom.
      rewrite bool_decide_eq_false_2 by congruence. reflexivity.
Qed.

Lemma dropStaleTrapezoid_state (f : Frame) (levels : list Z) (w : World)
    (z : Z) :
  stateAt z (dropStaleTrapezoid f levels w)
  = if bool_decide (z ∈ levels) then stateAt z w else None.
Proof.
  unfold dropStaleTrapezoid.
  rewrite (dropStale_fold (tiles f) (fun z0 => bool_decide (z0 ∈ levels))).
  destruct (bool_decide_reflect (z ∈ levels)) as [Hl | Hl]; cbn [negb].
  - rewrite andb_false_r. reflexivity.
  - rewrite andb_true_r.
    destruct (bool_decide_reflect
                (z ∈ (map_to_list (byZoom (atlas w))).*1)) as [Hk | Hk];
      [reflexivity |].
    unfold stateAt. destruct (byZoom (atlas w) !! z) as [st |] eqn:Est;
      [| reflexivity].
    exfalso. apply Hk. apply list_elem_of_fmap. exists (z, st).
    split; [reflexivity | apply elem_of_map_to_list; exact Est].
Qed.

Lemma trapezoidGrid_covers (mip : bool) (z : Z) (center : Z * Z)
    (c0 : Candidate) (rest : list Candidate) :
  0 <= z < 31 -> tilesInRange (2 ^ z) (c0 :: rest) ->
  coversAll (trapezoidGrid mip z center (extentOf c0 rest)) (c0 :: rest).
Proof.
  intros Hz Hr. unfold trapezoidGrid. rewrite shl1_pow2 by exact Hz.
  pose proof (extentOf_in_range c0 rest (2 ^ z) Hr) as He. cbn zeta in He.
  pose proof (baseGridSize_fits mip z (extentOf c0 rest)
                ltac:(lia) ltac:(lia) ltac:(lia) ltac:(lia) ltac:(lia)) as Hb.
  apply pickGrid_covers; [exact Hr | lia | lia].
Qed.

Lemma selected_in_levels (cfg : Config) (f : Frame) (cm : Q * Q) (z : Z)
    (c : Candidate) :
  c ∈ accepted (selectTrapezoid cfg f cm) z ->
  z ∈ zoomLevels (minZoomOf cfg f) (topZoomOf cfg f)
  /\ 0 <= z < 31.
Proof.
  intros Hc. destruct (selectTrapezoid_valid cfg f cm) as [_ Ha].
  destruct (Ha z c Hc) as (_ & (Hz & _) & _).
  pose proof (trapezoid_zoom_levels_aux cfg f) as (H2 & _ & _ & H18).
  split; [| lia].
  unfold zoomLevels, zrange.
  apply list_elem_of_In, in_rev. rewrite rev_involutive.
  apply list_elem_of_In, elem_of_seqZ. lia.
Qed.

(** X9: after the trapezoid strategy has run, the state of a zoom with
    selected tiles (and with a camera tile) holds exactly the selected
    tiles as its active keys, and its grid has a cell for every one of
    them. *)
Theorem trapezoid_frame_holds_selection (cfg : Config) (f : Frame)
    (cm : Q * Q) (w : World) (z : Z) (c : Candidate) (center : Z * Z) :
  c ∈ accepted (selectTrapezoid cfg f cm) z ->
  mercatorToTileXY f cm.1 cm.2 z = Some center ->
  exists st,
    stateAt z (updateTrapezoid cfg f cm w) = Some st
    /\ activeKeys st = keySet (accepted (selectTrapezoid cfg f cm) z)
    /\ coversAll (grid st) (accepted (selectTrapezoid cfg f cm) z)
    /\ c_key c ∈ activeKeys st
    /\ is_Some (cellIndex (grid st) (c_tileX c) (c_tileY c)).
Proof.
  intros Hc Hcenter.
  destruct (selected_in_levels cfg f cm z c Hc) as [Hlev Hz].
  set (sel := selectTrapezoid cfg f cm) in *.
  assert (exists st,
            stateAt z (updateTrapezoid cfg f cm w) = Some st
            /\ activeKeys st = keySet (accepted sel z)
            /\ coversAll (grid st) (accepted sel z)) as (st & Hst & Hk & Hcov).
  { unfold updateTrapezoid. fold sel.
    apply (fold_levels_at _ _ _ z
             (fun o => exists st, o = Some st
                         /\ activeKeys st = keySet (accepted sel z)
                         /\ coversAll (grid st) (accepted sel z)));
      [intros; apply processZoomTrapezoid_onlyTouches
      | apply zoomLevels_NoDup | exact Hlev |].
    intros w0. unfold processZoomTrapezoid.
    fold (accepted sel z).
    destruct (accepted sel z) as [| c1 cs] eqn:Eacc; [inversion Hc |].
    assert (forall x, x ∈ sortByDist (c1 :: cs) <-> x ∈ c1 :: cs) as Hperm
      by (intros x; apply sortBy_elem).
    destruct (sortByDist (c1 :: cs)) as [| c0 rest] eqn:Esort.
    { exfalso. pose proof (proj2 (Hperm c1)
                             ltac:(apply elem_of_cons; left; reflexivity)) as H.
      inversion H. }
    rewrite Hcenter.
    destruct (reconcileTrapezoid_post cfg f z center c0 rest w0)
      as (st4 & Hst4 & Hshape & Hkeys & _).
    exists st4. split; [exact Hst4 |].
    split.
    - rewrite Hkeys, <- Esort. apply keySet_sortByDist.
    - destruct Hshape as (_ & Hg & _). rewrite Hg.
      rewrite (proj1 (ensureZoomState_grid _ _ _ _)).
      intros x Hx. apply Hperm in Hx.
      apply (trapezoidGrid_covers _ z center c0 rest Hz); [| exact Hx].
      intros y Hy. apply Hperm in Hy. rewrite <- Eacc in Hy.
      destruct (selectTrapezoid_valid cfg f cm) as [_ Ha].
      destruct (Ha z y Hy) as (_ & (_ & Hxr & Hyr) & _). split; assumption. }
  exists st. split; [exact Hst |]. split; [exact Hk |].
  split; [exact Hcov |]. split; [| apply Hcov, Hc].
  rewrite Hk. unfold keySet. apply elem_of_list_to_set, list_elem_of_fmap.
  exists c. split; [reflexivity | exact Hc].
Qed.

Lemma trapezoid_frame_holds_selection_witness :
  let f := levelFrame 1000 0 0 in
  let sel := selectTrapezoid trapezoidConfig f (100%Q, 100%Q) in
  let c := cand 5 16 15 0 in
  exists st,
    stateAt 5 (updateTrapezoid trapezoidConfig f (100%Q, 100%Q) newWorld)
    = Some st
    /\ activeKeys st = keySet (accepted sel 5)
    /\ coversAll (grid st) (accepted sel 5)
    /\ c_key c ∈ activeKeys st
    /\ is_Some (cellIndex (grid st) 16 15).
Proof.
  intros f sel c.
  apply (trapezoid_frame_holds_selection trapezoidConfig f (100%Q, 100%Q)
           newWorld 5 c (16, 15));
    [apply list_elem_of_In; vm_compute; tauto | vm_compute; reflexivity].
Defined.

(** X10: after the trapezoid strategy has run, a zoom for which it selected
    no tile has no state: whatever was there has been released. *)
Theorem trapezoid_frame_drops_unselected_zooms (cfg : Config) (f : Frame)
    (cm : Q * Q) (w : World) (z : Z) :
  accepted (selectTrapezoid cfg f cm) z = [] ->
  stateAt z (updateTrapezoid cfg f cm w) = None.
Proof.
  intros Hacc. unfold updateTrapezoid.
  set (levels := zoomLevels (minZoomOf cfg f) (topZoomOf cfg f)).
  destruct (decide (z ∈ levels)) as [Hl | Hl].
  - apply (fold_levels_at _ _ _ z (fun o => o = None));
      [intros; apply processZoomTrapezoid_onlyTouches
      | apply zoomLevels_NoDup | exact Hl |].
    intros w0. unfold processZoomTrapezoid.
    fold (accepted (selectTrapezoid cfg f cm) z). rewrite Hacc.
    rewrite stateAt_disposeZoom, bool_decide_eq_true_2 by reflexivity.
    reflexivity.
  - rewrite fold_levels_other;
      [| intros; apply processZoomTrapezoid_onlyTouches | exact Hl].
    rewrite dropStaleTrapezoid_state.
    rewrite bool_decide_eq_false_2 by exact Hl. reflexivity.
Qed.

Lemma trapezoid_frame_drops_unselected_zooms_witness :
  is_Some (stateAt 5 worldZoom5)
  /\ stateAt 5 (updateTrapezoid trapezoidConfig (blindFrame 1000 5000)
                  (100%Q, 100%Q) worldZoom5) = None.
Proof.
  split; [vm_compute; eauto |].
  apply (trapezoid_frame_drops_unselected_zooms trapezoidConfig
           (blindFrame 1000 5000) (100%Q, 100%Q) worldZoom5 5).
  vm_compute. reflexivity.
Defined.

(** ** Shader slots *)

Lemma Sorted_weaken {A : Type} (R R' : A -> A -> Prop) (l : list A) :
  (forall a b, R a b -> R' a b) -> Sorted R l -> Sorted R' l.
Proof.
  intros HR. induction 1 as [| a l Hs IH Hhd]; constructor; [exact IH |].
  destruct Hhd; constructor. apply HR. assumption.
Qed.

Lemma descending_sorted (keys : list Z) :
  StronglySorted (fun a b => b <= a) (sortBy (fun z => inject_Z (- z)) keys).
Proof.
  apply Sorted_StronglySorted; [intros a b c ? ?; lia |].
  eapply Sorted_weaken; [| apply (sortBy_sorted (fun z => inject_Z (- z)))].
  intros a b H. cbn beta in H. rewrite <- Zle_Qle in H. lia.
Qed.

Lemma descending_unique (l1 l2 : list Z) :
  l1 ≡ₚ l2 ->
  sortBy (fun z => inject_Z (- z)) l1 = sortBy (fun z => inject_Z (- z)) l2.
Proof.
  intros Hp.
  assert (AntiSymm eq (fun a b : Z => b <= a)) as Hanti
    by (intros a b ? ?; lia).
  apply (StronglySorted_unique (fun a b : Z => b <= a));
    [apply descending_sorted .. | rewrite !sortBy_perm; exact Hp].
Qed.

(** X11: the shader slots are zooms that have a state, highest first and
    each once; there are as many as there are states, up to
    [max(1, maxSlots | 0)]; a zoom that is left out lies below every slot;
    and the order in which the states were created does not matter. *)
Theorem zoom_slots_are_the_highest_zooms (maxSlots : Z) (keys : list Z) :
  NoDup keys ->
  let s := zoomSlotsOf maxSlots keys in
  StronglySorted (fun a b => b < a) s
  /\ (forall z, z ∈ s -> z ∈ keys)
  /\ length s
     = Nat.min (Z.to_nat (Z.max 1 (Js.toInt32 maxSlots))) (length keys)
  /\ (forall z z', z ∈ keys -> z ∉ s -> z' ∈ s -> z < z')
  /\ (forall keys', keys' ≡ₚ keys -> zoomSlotsOf maxSlots keys' = s).
Proof.
  intros Hnd s. subst s. unfold zoomSlotsOf.
  set (n := Z.to_nat (Z.max 1 (Js.toInt32 maxSlots))).
  set (l := sortBy (fun z => inject_Z (- z)) keys).
  assert (l ≡ₚ keys) as Hp by apply sortBy_perm.
  assert (NoDup l) as Hndl by (rewrite Hp; exact Hnd).
  pose proof (descending_sorted keys) as Hs. fold l in Hs.
  assert (StronglySorted (fun a b => b < a) l) as Hstrict.
  { clear Hp. induction Hs as [| a l Hs IH Ha]; [constructor |].
    apply NoDup_cons in Hndl as [Hal Hndl].
    constructor; [apply IH, Hndl |].
    rewrite Forall_forall in Ha |- *. intros b Hb.
    specialize (Ha b Hb). assert (a <> b) by (intros ->; tauto). lia. }
  rewrite <- (take_drop n l) in Hstrict.
  apply StronglySorted_app in Hstrict as (Hcross & Htake & _).
  split; [exact Htake |].
  split.
  { intros z Hz. rewrite <- Hp, <- (take_drop n l).
    apply elem_of_app. left. exact Hz. }
  split.
  { rewrite length_take, Hp. reflexivity. }
  split.
  { intros z z' Hz Hnz Hz'. apply (Hcross z' z Hz').
    rewrite <- Hp, <- (take_drop n l) in Hz.
    apply elem_of_app in Hz as [Hz | Hz]; [tauto | exact Hz]. }
  intros keys' Hk. fold n. f_equal. apply descending_unique, Hk.
Qed.

Lemma zoom_slots_are_the_highest_zooms_witness :
  let s := zoomSlotsOf 4 [12; 16; 13; 15; 14] in
  s = [16; 15; 14; 13]
  /\ StronglySorted (fun a b => b < a) s
  /\ (forall z, z ∈ s -> z ∈ [12; 16; 13; 15; 14])
  /\ length s = Nat.min (Z.to_nat (Z.max 1 (Js.toInt32 4))) 5
  /\ (forall z z', z ∈ [12; 16; 13; 15; 14] -> z ∉ s -> z' ∈ s -> z < z')
  /\ (forall keys', keys' ≡ₚ [12; 16; 13; 15; 14] -> zoomSlotsOf 4 keys' = s).
Proof.
  split; [vm_compute; reflexivity |].
  apply (zoom_slots_are_the_highest_zooms 4 [12; 16; 13; 15; 14]).
  apply NoDup_ListNoDup. repeat constructor; cbn; intuition discriminate.
Defined.

Lemma updateTrapezoid_states_in_levels (cfg : Config) (f : Frame)
    (cm : Q * Q) (w : World) (z : Z) :
  is_Some (stateAt z (updateTrapezoid cfg f cm w)) ->
  z ∈ zoomLevels (minZoomOf cfg f) (topZoomOf cfg f).
Proof.
  intros Hs.
  destruct (decide (z ∈ zoomLevels (minZoomOf cfg f) (topZoomOf cfg f)))
    as [Hl | Hl]; [exact Hl | exfalso].
  unfold updateTrapezoid in Hs.
  rewrite fold_levels_other in Hs;
    [| intros; apply processZoomTrapezoid_onlyTouches | exact Hl].
  rewrite dropStaleTrapezoid_state, bool_decide_eq_false_2 in Hs by exact Hl.
  destruct Hs as [? Hs]. discriminate.
Qed.

Lemma slots_hold_all (w : World) (levels : list Z) :
  (forall z, is_Some (stateAt z w) -> z ∈ levels) ->
  NoDup levels -> (length levels <= 4)%nat ->
  (size (byZoom (atlas w)) <= 4)%nat
  /\ forall z, is_Some (stateAt z w) -> z ∈ _getAtlasZoomSlots 4 w.
Proof.
  intros Hin Hnd Hlen.
  assert (dom (byZoom (atlas w)) ⊆ list_to_set (C := gset Z) levels) as Hsub.
  { intros z Hz. apply elem_of_dom in Hz. apply elem_of_list_to_set, Hin, Hz. }
  assert (size (dom (byZoom (atlas w))) <= 4)%nat as Hsize.
  { etransitivity; [apply subseteq_size, Hsub |].
    rewrite size_list_to_set by exact Hnd. exact Hlen. }
  split; [rewrite <- size_dom; exact Hsize |].
  intros z Hz. unfold _getAtlasZoomSlots, zoomSlotsOf.
  change (Z.to_nat (Z.max 1 (Js.toInt32 4))) with 4%nat.
  rewrite take_ge.
  - apply sortBy_elem, elem_of_elements, elem_of_dom, Hz.
  - rewrite (Permutation_length (sortBy_perm _ _)). exact Hsize.
Qed.

(** X12: after the trapezoid strategy has run there are at most four zoom
    states, all of zooms between [minZoom] and [topZoom], and
    [_getAtlasZoomSlots(4)] lists every one of them: no state is left
    without a shader slot. *)
Theorem trapezoid_states_fit_the_slots (cfg : Config) (f : Frame)
    (cm : Q * Q) (w : World) :
  let w' := updateTrapezoid cfg f cm w in
  (size (byZoom (atlas w')) <= 4)%nat
  /\ forall z, is_Some (stateAt z w') ->
       minZoomOf cfg f <= z <= topZoomOf cfg f
       /\ z ∈ _getAtlasZoomSlots 4 w'.
Proof.
  intros w'.
  pose proof (trapezoid_zoom_levels_aux cfg f) as (H2 & Hm & H3 & H18).
  assert (length (zoomLevels (minZoomOf cfg f) (topZoomOf cfg f)) <= 4)%nat
    as Hlen.
  { unfold zoomLevels, zrange. rewrite length_rev, length_seqZ. lia. }
  destruct (slots_hold_all w' _
              (updateTrapezoid_states_in_levels cfg f cm w)
              (zoomLevels_NoDup _ _) Hlen)
    as [Hsize Hslots].
  split; [exact Hsize |].
  intros z Hz. split; [| apply Hslots, Hz].
  apply updateTrapezoid_states_in_levels in Hz.
  unfold zoomLevels, zrange in Hz.
  apply list_elem_of_In, in_rev, list_elem_of_In, elem_of_seqZ in Hz. lia.
Qed.

(** ** Which tiles are fetched *)

Lemma fetchPairs_app (a b : list Event) :
  fetchPairs (a ++ b) = fetchPairs a ++ fetchPairs b.
Proof. unfold fetchPairs. apply omap_app. Qed.

Lemma issueInv_refl (z : Z) (K : TileKey -> Prop) (acc : IssueAcc) :
  issueInv z K acc acc.
Proof.
  exists []. split; [symmetry; apply app_nil_r |].
  split; [constructor |]. split; [constructor |].
  split; [intros k H; inversion H |]. split; [reflexivity | auto].
Qed.

Lemma bindExisting_maps (idx : nat) (mat : Material) (tex : Texture)
    (st : ZoomState) :
  loads (bindExisting idx mat tex st) = loads st
  /\ textures (bindExisting idx mat tex st) = textures st.
Proof.
  unfold bindExisting. destruct (isBoundTo tex mat); split; reflexivity.
Qed.

Lemma issueInv_bind (z : Z) (K : TileKey -> Prop) (acc0 : IssueAcc)
    (issued : Z) (st : ZoomState) (w : World) (idx : nat) (mat : Material)
    (tex : Texture) :
  issueInv z K acc0 (issued, st, w) ->
  issueInv z K acc0 (issued, bindExisting idx mat tex st, w).
Proof.
  intros (es & Ht & Hf & Hnd & Hk & Htx & Hl).
  destruct (bindExisting_maps idx mat tex st) as [El Et].
  exists es. cbn [fst snd] in *. rewrite El, Et. auto 10.
Qed.

Lemma issueInv_fetch (t : bool) (z : Z) (K : TileKey -> Prop)
    (acc0 : IssueAcc) (issued : Z) (st : ZoomState) (w : World)
    (c : Candidate) :
  K (c_key c) ->
  loads st !! c_key c = None -> textures st !! c_key c = None ->
  issueInv z K acc0 (issued, st, w) ->
  issueInv z K acc0
    (issued + 1, (issueFetch t z c st w).1, (issueFetch t z c st w).2).
Proof.
  intros HK Hload Htex (es & Ht & Hf & Hnd & Hk & Htx & Hl).
  cbn [fst snd] in *. unfold issueFetch.
  destruct t; cbn [fst snd]; [| exists es; auto 10].
  exists (es ++ [EvFetch z (c_key c) (nextId w)]).
  split; [cbn; rewrite Ht, <- app_assoc; reflexivity |].
  split; [apply Forall_app; split; [exact Hf | repeat constructor; eauto] |].
  rewrite fetchPairs_app. cbn [fetchPairs omap list_omap app].
  split.
  { apply NoDup_app. split; [exact Hnd |].
    split; [| apply NoDup_singleton].
    intros p Hp Hp'. apply list_elem_of_singleton in Hp'. subst p.
    destruct (Hk _ Hp) as [_ [x Hx]]. congruence. }
  split.
  { intros k Hin. apply elem_of_app in Hin as [Hin | Hin].
    - destruct (Hk k Hin) as [Hm [x Hx]]. split; [exact Hm |].
      cbn. destruct (decide (c_key c = k)) as [-> | Hne];
        [rewrite lookup_insert_eq; eauto
        | rewrite lookup_insert_ne by exact Hne; eauto].
    - apply list_elem_of_singleton in Hin. injection Hin as ->.
      split; [| cbn; rewrite lookup_insert_eq; eauto].
      split; [| rewrite <- Htx; exact Htex].
      destruct (loads acc0.1.2 !! c_key c) eqn:E; [| reflexivity].
      destruct (Hl (c_key c) ltac:(eauto)) as [x Hx]. congruence. }
  split; [exact Htx |].
  intros k Hsome. cbn. destruct (decide (c_key c = k)) as [-> | Hne];
    [rewrite lookup_insert_eq; eauto
    | rewrite lookup_insert_ne by exact Hne; apply Hl, Hsome].
Qed.

Lemma issueStepTrapezoid_inv (t : bool) (q z : Z) (D : gset TileKey)
    (acc0 acc : IssueAcc) (c : Candidate) :
  issueInv z (fun k => k ∈ D) acc0 acc ->
  issueInv z (fun k => k ∈ D) acc0 (issueStepTrapezoid t q z D acc c).
Proof.
  destruct acc as [[issued st] w]. intros Hinv. unfold issueStepTrapezoid.
  destruct (bool_decide_reflect (c_key c ∈ D)) as [HD | HD]; cbn [negb];
    [| exact Hinv].
  destruct (bool_decide_reflect (is_Some (loads st !! c_key c)))
    as [Hl | Hl]; [exact Hinv |].
  destruct (cellIndex (grid st) (c_tileX c) (c_tileY c)) as [idx |];
    [| exact Hinv].
  destruct (meshes st !! idx) as [mat |]; [| exact Hinv].
  destruct (textures st !! c_key c) as [existing |] eqn:Etex;
    [apply issueInv_bind, Hinv |].
  destruct (q <=? issued); [exact Hinv |].
  pose proof (issueInv_fetch t z (fun k => k ∈ D) acc0 issued st w c HD)
    as Hf.
  destruct (issueFetch t z c st w) as [st' w'].
  apply Hf; [| exact Etex | exact Hinv].
  destruct (loads st !! c_key c) eqn:E; [| reflexivity].
  exfalso. apply Hl. eauto.
Qed.

Lemma issueStepViewport_inv (t : bool) (q z : Z) (K : TileKey -> Prop)
    (acc0 acc : IssueAcc) (ci : nat * Candidate) :
  K (c_key ci.2) ->
  issueInv z K acc0 acc -> issueInv z K acc0 (issueStepViewport t q z acc ci).
Proof.
  intros HK. revert HK.
  destruct acc as [[issued st] w], ci as [idx c]. cbn [snd]. intros HK Hinv.
  unfold issueStepViewport.
  destruct (meshes st !! idx) as [mat |]; [| exact Hinv].
  destruct (textures st !! c_key c) as [existing |] eqn:Etex;
    [apply issueInv_bind, Hinv |].
  destruct (bool_decide_reflect (is_Some (loads st !! c_key c)))
    as [Hl | Hl]; [exact Hinv |].
  destruct (q <=? issued); [exact Hinv |].
  pose proof (issueInv_fetch t z K acc0 issued st w c HK) as Hf.
  destruct (issueFetch t z c st w) as [st' w'].
  apply Hf; [| exact Etex | exact Hinv].
  destruct (loads st !! c_key c) eqn:E; [| reflexivity].
  exfalso. apply Hl. eauto.
Qed.

Lemma issueInv_fold {A : Type} (z : Z) (K : TileKey -> Prop)
    (g : IssueAcc -> A -> IssueAcc) (l : list A) (acc0 acc : IssueAcc) :
  (forall acc a, a ∈ l -> issueInv z K acc0 acc ->
                 issueInv z K acc0 (g acc a)) ->
  issueInv z K acc0 acc -> issueInv z K acc0 (fold_left g l acc).
Proof.
  revert acc. induction l as [| a l IH]; intros acc Hg Hacc; cbn;
    [exact Hacc |].
  apply IH; [intros acc' a' Ha'; apply Hg; right; exact Ha' |].
  apply Hg; [left | exact Hacc].
Qed.

Lemma fetchPairs_none (es : list Event) :
  Forall (fun e => isFetch e = false) es -> fetchPairs es = [].
Proof.
  induction 1 as [| e es He _ IH]; [reflexivity |].
  unfold fetchPairs in *. cbn. destruct e; try discriminate; exact IH.
Qed.

Lemma fetchesMissing_none (z : Z) (w w' : World) (es : list Event) :
  trace w' = trace w ++ es -> Forall (fun e => isFetch e = false) es ->
  fetchesMissing z w w'.
Proof.
  intros Ht Hn. exists es. split; [exact Ht |].
  rewrite (fetchPairs_none es Hn). split; [constructor |].
  intros p Hp. inversion Hp.
Qed.

Lemma fetchesMissing_refl (z : Z) (w : World) : fetchesMissing z w w.
Proof.
  apply (fetchesMissing_none z w w []);
    [symmetry; apply app_nil_r | constructor].
Qed.

Lemma ensureZoomState_carries (z : Z) (g : Grid) (c : option Z) (w : World) :
  loads (_ensureZoomState z g c w).1 = from_option loads ∅ (stateAt z w)
  /\ textures (_ensureZoomState z g c w).1
     = from_option textures ∅ (stateAt z w)
  /\ exists es, trace (_ensureZoomState z g c w).2 = trace w ++ es
                /\ Forall (fun e => isFetch e = false) es.
Proof.
  unfold _ensureZoomState. destruct (stateAt z w) as [s |].
  - match goal with |- context [if ?b then _ else _] => destruct b end.
    + unfold freshId. cbn.
      split; [reflexivity |]. split; [reflexivity |].
      eexists. split; [rewrite <- app_assoc; reflexivity |].
      repeat constructor.
    + split; [reflexivity |]. split; [reflexivity |].
      exists []. split; [symmetry; apply app_nil_r | constructor].
  - unfold freshId. cbn. split; [reflexivity |]. split; [reflexivity |].
    eexists. split; [reflexivity |]. repeat constructor.
Qed.

Lemma clearCell_maps (st : ZoomState) (k : TileKey) :
  loads (clearCell st k) = loads st
  /\ textures (clearCell st k) = textures st.
Proof.
  unfold clearCell.
  repeat match goal with
         | |- context [if ?b then _ else _] => destruct b
         | |- context [match ?o with Some _ => _ | None => _ end] =>
             destruct o
         end; split; reflexivity.
Qed.

Lemma clearCells_maps (l : list TileKey) (s0 : ZoomState) :
  loads (fold_left clearCell l s0) = loads s0
  /\ textures (fold_left clearCell l s0) = textures s0.
Proof.
  revert s0. induction l as [| k l IH]; intros s0; cbn;
    [split; reflexivity |].
  destruct (IH (clearCell s0 k)) as [-> ->]. apply clearCell_maps.
Qed.

Lemma dropTextures_maps (D : gset TileKey) (st : ZoomState) :
  loads (dropTextures D st) = loads st
  /\ textures (dropTextures D st)
     = filter (fun kv => kv.1 ∈ D) (textures st).
Proof.
  unfold dropTextures.
  match goal with |- context [fold_left clearCell ?l ?s] =>
    destruct (clearCells_maps l s) as [-> ->] end.
  split; reflexivity.
Qed.

(** The common shape of a reconciliation: [st] is what [_ensureZoomState]
    returned, [w3] the world after the pins, [acc] what the issue loop
    made of the swept state. *)
Lemma reconcile_fetches (z : Z) (D : gset TileKey) (w w3 : World)
    (st : ZoomState) (acc : IssueAcc) (es13 : list Event) :
  loads st = from_option loads ∅ (stateAt z w) ->
  textures st = from_option textures ∅ (stateAt z w) ->
  trace w3 = trace w ++ es13 -> Forall (fun e => isFetch e = false) es13 ->
  issueInv z (fun k => k ∈ D)
    (0, dropTextures D (withActiveKeys D st), w3) acc ->
  fetchesMissing z w
    (putState z (renderIfDirty z acc.1.2 acc.2).1
       (renderIfDirty z acc.1.2 acc.2).2).
Proof.
  intros Hl Ht Htr Hn (es & Hes & Hf & Hnd & Hk & _).
  cbn [fst snd] in Hes, Hk.
  destruct (dropTextures_maps D (withActiveKeys D st)) as [El Et].
  cbn [loads textures withActiveKeys] in El, Et.
  set (er := if dirty acc.1.2 then [EvRender z] else []).
  exists (es13 ++ es ++ er). split.
  { unfold renderIfDirty, er. destruct (dirty acc.1.2); cbn;
      rewrite Hes, Htr, <- ?app_assoc, ?app_nil_r; reflexivity. }
  assert (fetchPairs (es13 ++ es ++ er) = fetchPairs es) as ->.
  { rewrite !fetchPairs_app, (fetchPairs_none es13 Hn).
    unfold er. destruct (dirty acc.1.2); cbn; rewrite ?app_nil_r;
      reflexivity. }
  split; [exact Hnd |].
  intros [z' k] Hp. cbn [fst snd].
  assert (z' = z /\ k ∈ D) as [-> HD].
  { unfold fetchPairs in Hp. apply list_elem_of_omap in Hp as (e & He & Hek).
    rewrite Forall_forall in Hf.
    destruct (Hf e He) as (k0 & id & -> & HK). injection Hek as <- <-. auto. }
  split; [reflexivity |].
  intros st0 Hst0. destruct (Hk k Hp) as [[Hload Htex] _].
  rewrite El in Hload. rewrite Et in Htex.
  rewrite Hl, Hst0 in Hload. rewrite Ht, Hst0 in Htex. cbn in Hload, Htex.
  split; [exact Hload |].
  destruct (textures st0 !! k) as [tex |] eqn:E; [| reflexivity].
  exfalso. assert (filter (fun kv => kv.1 ∈ D) (textures st0) !! k = Some tex)
    as H by (apply map_lookup_filter_Some; split; assumption).
  congruence.
Qed.

Lemma reconcilePins_trace (t : bool) (z : Z) (D : gset TileKey)
    (st : ZoomState) (w : World) :
  (reconcilePins t z D st w).1 = withActiveKeys D st
  /\ exists es, trace (reconcilePins t z D st w).2 = trace w ++ es
                /\ Forall (fun e => isFetch e = false) es.
Proof.
  unfold reconcilePins. split; [reflexivity |].
  destruct t; cbn [snd].
  - eexists. split; [reflexivity |].
    apply Forall_app. split; apply Forall_fmap, Forall_forall;
      intros k _; reflexivity.
  - exists []. split; [symmetry; apply app_nil_r | constructor].
Qed.

Lemma reconcileTrapezoid_fetches (cfg : Config) (f : Frame) (z : Z)
    (center : Z * Z) (c0 : Candidate) (rest : list Candidate) (w : World) :
  fetchesMissing z w (reconcileTrapezoid cfg f z center c0 rest w).
Proof.
  unfold reconcileTrapezoid.
  set (g := trapezoidGrid (wantsMipmaps w) z center (extentOf c0 rest)).
  set (c := desiredCellSizeAt cfg z w).
  destruct (ensureZoomState_carries z g (Some c) w)
    as (Hl & Htx & e1 & Ht1 & Hn1).
  destruct (_ensureZoomState z g (Some c) w) as [st w1].
  cbn [fst snd] in Hl, Htx, Ht1.
  destruct (settlePendingCell_keeps z c st w1) as (_ & Ht2).
  set (D := keySet (c0 :: rest)).
  destruct (reconcilePins_trace (tiles f) z D st (settlePendingCell z c st w1))
    as (Est1 & e3 & Ht3 & Hn3).
  destruct (reconcilePins (tiles f) z D st (settlePendingCell z c st w1))
    as [st1 w3]. cbn [fst snd] in Est1, Ht3. subst st1.
  assert (trace w3 = trace w ++ (e1 ++ e3)) as Ht13
    by (rewrite Ht3, Ht2, Ht1, app_assoc; reflexivity).
  assert (Forall (fun e => isFetch e = false) (e1 ++ e3)) as Hn13
    by (apply Forall_app; split; assumption).
  destruct (mapDrapeSkipTileLoad cfg).
  { apply (fetchesMissing_none z w _ (e1 ++ e3)); assumption. }
  pose proof (issueInv_fold z (fun k => k ∈ D)
                (issueStepTrapezoid (tiles f) (maxNewLoadsPerTick w) z D)
                (c0 :: rest) (0, dropTextures D (withActiveKeys D st), w3)
                (0, dropTextures D (withActiveKeys D st), w3)
                ltac:(intros acc a _; apply issueStepTrapezoid_inv)
                (issueInv_refl _ _ _)) as Hinv.
  pose proof (reconcile_fetches z D w w3 st _ (e1 ++ e3) Hl Htx Ht13 Hn13 Hinv)
    as Hfin.
  destruct (fold_left (issueStepTrapezoid (tiles f) (maxNewLoadsPerTick w) z D)
              (c0 :: rest) (0, dropTextures D (withActiveKeys D st), w3))
    as [[issued st3] w4].
  cbn [fst snd] in Hfin.
  destruct (renderIfDirty z st3 w4) as [st4 w5]. exact Hfin.
Qed.

Lemma reconcileViewport_fetches (cfg : Config) (f : Frame) (z : Z)
    (center : Z * Z) (c0 : Candidate) (rest : list Candidate) (w : World) :
  fetchesMissing z w (reconcileViewport cfg f z center c0 rest w).
Proof.
  unfold reconcileViewport.
  match goal with |- context [_ensureZoomState z ?g0 _ w] => set (g := g0) end.
  set (c := desiredCellSizeAt cfg z w).
  destruct (ensureZoomState_carries z g (Some c) w)
    as (Hl & Htx & e1 & Ht1 & Hn1).
  destruct (_ensureZoomState z g (Some c) w) as [st w1].
  cbn [fst snd] in Hl, Htx, Ht1.
  destruct (settlePendingCell_keeps z c st w1) as (_ & Ht2).
  set (infos := cellInfosOf g (c0 :: rest)).
  set (D := keySet infos.*2).
  destruct (reconcilePins_trace (tiles f) z D st (settlePendingCell z c st w1))
    as (Est1 & e3 & Ht3 & Hn3).
  destruct (reconcilePins (tiles f) z D st (settlePendingCell z c st w1))
    as [st1 w3]. cbn [fst snd] in Est1, Ht3. subst st1.
  assert (trace w3 = trace w ++ (e1 ++ e3)) as Ht13
    by (rewrite Ht3, Ht2, Ht1, app_assoc; reflexivity).
  assert (Forall (fun e => isFetch e = false) (e1 ++ e3)) as Hn13
    by (apply Forall_app; split; assumption).
  destruct (mapDrapeSkipTileLoad cfg).
  { apply (fetchesMissing_none z w _ (e1 ++ e3)); assumption. }
  pose proof (issueInv_fold z (fun k => k ∈ D)
                (issueStepViewport (tiles f) (maxNewLoadsPerTick w) z)
                (sortBy (fun ci => c_rectDist ci.2) infos)
                (0, dropTextures D (withActiveKeys D st), w3)
                (0, dropTextures D (withActiveKeys D st), w3)) as Hinv.
  specialize (Hinv ltac:(
    intros acc ci Hci; apply issueStepViewport_inv;
    apply sortBy_elem in Hci; unfold D, keySet;
    apply elem_of_list_to_set, list_elem_of_fmap; exists ci.2;
    split; [reflexivity |]; apply list_elem_of_fmap; exists ci;
    split; [reflexivity | exact Hci]) (issueInv_refl _ _ _)).
  pose proof (reconcile_fetches z D w w3 st _ (e1 ++ e3) Hl Htx Ht13 Hn13 Hinv)
    as Hfin.
  destruct (fold_left (issueStepViewport (tiles f) (maxNewLoadsPerTick w) z)
              (sortBy (fun ci => c_rectDist ci.2) infos)
              (0, dropTextures D (withActiveKeys D st), w3))
    as [[issued st3] w4].
  cbn [fst snd] in Hfin.
  destruct (renderIfDirty z st3 w4) as [st4 w5]. exact Hfin.
Qed.

Lemma disposeZoom_fetches (t : bool) (z0 z : Z) (w : World) :
  fetchesMissing z w (disposeZoom t z0 w).
Proof.
  unfold disposeZoom. destruct (stateAt z0 w) as [st |];
    [| apply fetchesMissing_refl].
  destruct t.
  - eapply fetchesMissing_none; [cbn; rewrite <- app_assoc; reflexivity |].
    apply Forall_app. split; [| repeat constructor].
    apply Forall_fmap, Forall_forall. intros k _. reflexivity.
  - eapply fetchesMissing_none; [cbn; reflexivity | repeat constructor].
Qed.

Lemma processZoomTrapezoid_fetches (cfg : Config) (f : Frame) (cm : Q * Q)
    (byZ : gmap Z (list Candidate)) (w : World) (z : Z) :
  fetchesMissing z w (processZoomTrapezoid cfg f cm byZ w z).
Proof.
  unfold processZoomTrapezoid.
  destruct (default [] (byZ !! z)) as [| c cs];
    [apply disposeZoom_fetches |].
  destruct (sortByDist (c :: cs)) as [| c0 rest];
    [apply fetchesMissing_refl |].
  destruct (mercatorToTileXY f cm.1 cm.2 z) as [center |];
    [| apply fetchesMissing_refl].
  apply reconcileTrapezoid_fetches.
Qed.

(** X14 (viewport/bands part): while the viewport/bands strategy works on
    one zoom, it fetches no tile twice and no tile for which the state of
    that zoom has a texture or a fetch in flight. *)
Lemma processZoomViewport_fetches (cfg : Config) (f : Frame) (cm : Q * Q)
    (w : World) (z : Z) :
  fetchesMissing z w (processZoomViewport cfg f cm w z).
Proof.
  unfold processZoomViewport.
  destruct (vp_rangePositive (plan f) z); cbn [negb];
    [| apply disposeZoom_fetches].
  destruct (mercatorToTileXY f cm.1 cm.2 z) as [center |];
    [| apply fetchesMissing_refl].
  destruct (vp_candidates (plan f) z) as [| c cs];
    [apply disposeZoom_fetches |].
  destruct (sortByDist (c :: cs)) as [| c0 rest];
    [apply fetchesMissing_refl |].
  apply reconcileViewport_fetches.
Qed.

Lemma fetches_fold (step : World -> Z -> World) (l : list Z) (w : World) :
  (forall w z, onlyTouches z w (step w z)) ->
  (forall w z, fetchesMissing z w (step w z)) ->
  NoDup l ->
  exists es,
    trace (fold_left step l w) = trace w ++ es
    /\ NoDup (fetchPairs es)
    /\ forall p, p ∈ fetchPairs es ->
         p.1 ∈ l /\ forall st, stateAt p.1 w = Some st -> missingIn st p.2.
Proof.
  intros Hto Hfm Hnd. revert w.
  induction Hnd as [| a l Ha Hnd IH]; intros w; cbn [fold_left].
  - exists []. split; [symmetry; apply app_nil_r |].
    split; [constructor | intros p Hp; inversion Hp].
  - destruct (Hfm w a) as (e1 & Ht1 & Hn1 & Hp1).
    destruct (IH (step w a)) as (e2 & Ht2 & Hn2 & Hp2).
    exists (e1 ++ e2). split; [rewrite Ht2, Ht1, app_assoc; reflexivity |].
    rewrite fetchPairs_app. split.
    + apply NoDup_app. split; [exact Hn1 |]. split; [| exact Hn2].
      intros p H1 H2. destruct (Hp1 p H1) as [E1 _].
      destruct (Hp2 p H2) as [E2 _]. rewrite E1 in E2. contradiction.
    + intros p Hp. apply elem_of_app in Hp as [Hp | Hp].
      * destruct (Hp1 p Hp) as [E1 Hm].
        split; [rewrite E1; left |].
        intros st Hst. apply Hm. rewrite <- E1. exact Hst.
      * destruct (Hp2 p Hp) as [E2 Hm]. split; [right; exact E2 |].
        intros st Hst. apply Hm. rewrite (Hto w a); [exact Hst |].
        intros E. rewrite E in E2. contradiction.
Qed.

Lemma dropStaleTrapezoid_trace (f : Frame) (levels : list Z) (w : World) :
  exists es, trace (dropStaleTrapezoid f levels w) = trace w ++ es
             /\ Forall (fun e => isFetch e = false) es.
Proof.
  unfold dropStaleTrapezoid.
  generalize ((map_to_list (byZoom (atlas w))).*1). intros l. revert w.
  induction l as [| a l IH]; intros w; cbn [fold_left].
  - exists []. split; [symmetry; apply app_nil_r | constructor].
  - destruct (IH (if bool_decide (a ∈ levels) then w
                  else disposeZoom (tiles f) a w)) as (e2 & Ht2 & Hn2).
    destruct (bool_decide (a ∈ levels)); [exists e2; auto |].
    destruct (disposeZoom_fetches (tiles f) a a w) as (e1 & Ht1 & _ & Hp1).
    exists (e1 ++ e2). split; [rewrite Ht2, Ht1, app_assoc; reflexivity |].
    apply Forall_app. split; [| exact Hn2].
    clear - Ht1. unfold disposeZoom in Ht1.
    destruct (stateAt a w) as [st |].
    + destruct (tiles f); cbn in Ht1; rewrite <- ?app_assoc in Ht1;
        apply app_inv_head in Ht1; subst e1.
      * apply Forall_app. split; [| repeat constructor].
        apply Forall_fmap, Forall_forall. intros k _. reflexivity.
      * repeat constructor.
    + rewrite <- (app_nil_r (trace w)) in Ht1 at 1.
      apply app_inv_head in Ht1. subst e1. constructor.
Qed.

(** X14: in one run of the trapezoid strategy no tile is fetched twice,
    every fetch is for one of the zoom levels of the frame, and no tile is
    fetched for which the state of its zoom, as the frame found it, has a
    texture or a fetch in flight. *)
Theorem trapezoid_frame_fetches_only_missing_tiles (cfg : Config)
    (f : Frame) (cm : Q * Q) (w : World) :
  exists es,
    trace (updateTrapezoid cfg f cm w) = trace w ++ es
    /\ NoDup (fetchPairs es)
    /\ forall z k, (z, k) ∈ fetchPairs es ->
         minZoomOf cfg f <= z <= topZoomOf cfg f
         /\ forall st, stateAt z w = Some st ->
              loads st !! k = None /\ textures st !! k = None.
Proof.
  unfold updateTrapezoid.
  set (levels := zoomLevels (minZoomOf cfg f) (topZoomOf cfg f)).
  destruct (dropStaleTrapezoid_trace f levels w) as (e0 & Ht0 & Hn0).
  destruct (fetches_fold
              (processZoomTrapezoid cfg f cm
                 (tilesByZoom (selectTrapezoid cfg f cm)))
              levels (dropStaleTrapezoid f levels w)
              ltac:(intros; apply processZoomTrapezoid_onlyTouches)
              ltac:(intros; apply processZoomTrapezoid_fetches)
              (zoomLevels_NoDup _ _)) as (es & Ht & Hnd & Hp).
  exists (e0 ++ es). split; [rewrite Ht, Ht0, app_assoc; reflexivity |].
  rewrite fetchPairs_app, (fetchPairs_none e0 Hn0). cbn [app].
  split; [exact Hnd |].
  intros z k Hzk. destruct (Hp (z, k) Hzk) as [Hl Hm]. cbn [fst snd] in Hl, Hm.
  split.
  - unfold levels, zoomLevels, zrange in Hl.
    apply list_elem_of_In, in_rev, list_elem_of_In, elem_of_seqZ in Hl. lia.
  - intros st Hst. apply Hm.
    rewrite dropStaleTrapezoid_state, bool_decide_eq_true_2 by exact Hl.
    exact Hst.
Qed.

(** X15: while the viewport/bands strategy works on one zoom, every fetch
    is for that zoom, no tile is fetched twice, and no tile is fetched for
    which the state of the zoom has a texture or a fetch in flight. *)
Theorem viewport_zoom_fetches_only_missing_tiles (cfg : Config) (f : Frame)
    (cm : Q * Q) (w : World) (z : Z) :
  exists es,
    trace (processZoomViewport cfg f cm w z) = trace w ++ es
    /\ NoDup (fetchPairs es)
    /\ forall z' k, (z', k) ∈ fetchPairs es ->
         z' = z
         /\ forall st, stateAt z w = Some st ->
              loads st !! k = None /\ textures st !! k = None.
Proof.
  destruct (processZoomViewport_fetches cfg f cm w z) as (es & Ht & Hnd & Hp).
  exists es. split; [exact Ht |]. split; [exact Hnd |].
  intros z' k Hzk. destruct (Hp (z', k) Hzk) as [Hz Hm]. auto.
Qed.

(** ** Render targets are released exactly once *)

Lemma rtLife_app (id : nat) (h : bool) (a b : list Event) :
  rtLife id h (a ++ b)
  = match rtLife id h a with
    | Some h' => rtLife id h' b
    | None => None
    end.
Proof.
  revert h. induction a as [| e a IH]; intros h; [reflexivity |].
  destruct e; cbn [app rtLife]; try apply IH.
  - destruct (bool_decide _); [destruct h; [reflexivity | apply IH] | apply IH].
  - destruct (bool_decide _); [destruct h; [apply IH | reflexivity] | apply IH].
Qed.

Lemma rtLife_rtFree (id : nat) (h : bool) (es : list Event) :
  Forall rtFree es -> rtLife id h es = Some h.
Proof.
  induction 1 as [| e es He _ IH]; [reflexivity |].
  destruct e; cbn in He |- *; try exact IH; destruct He.
Qed.

Lemma rtStep_refl (w : World) : rtStep w w.
Proof.
  intros Hs. split; [exact Hs |]. split; [lia |].
  exists []. split; [symmetry; apply app_nil_r |].
  intros id h Hh. exists h. split; [reflexivity | exact Hh].
Qed.

Lemma rtStep_trans (w1 w2 w3 : World) :
  rtStep w1 w2 -> rtStep w2 w3 -> rtStep w1 w3.
Proof.
  intros H12 H23 Hs1.
  destruct (H12 Hs1) as (Hs2 & Hi12 & e1 & Ht1 & Hl1).
  destruct (H23 Hs2) as (Hs3 & Hi23 & e2 & Ht2 & Hl2).
  split; [exact Hs3 |]. split; [lia |].
  exists (e1 ++ e2). split; [rewrite Ht2, Ht1, app_assoc; reflexivity |].
  intros id h Hh. destruct (Hl1 id h Hh) as (h1 & E1 & Hh1).
  destruct (Hl2 id h1 Hh1) as (h2 & E2 & Hh2).
  exists h2. rewrite rtLife_app, E1. auto.
Qed.

Lemma rtStep_fold {A : Type} (g : World -> A -> World) (l : list A)
    (w : World) :
  (forall w a, rtStep w (g w a)) -> rtStep w (fold_left g l w).
Proof.
  intros Hg. revert w. induction l as [| a l IH]; intros w; cbn.
  - apply rtStep_refl.
  - eapply rtStep_trans; [apply Hg | apply IH].
Qed.

(** A step that keeps the render target of every zoom and makes no call
    about render targets. *)
Lemma rtStep_same (w w' : World) (es : list Event) :
  (forall z, rt <$> stateAt z w' = rt <$> stateAt z w) ->
  (nextId w <= nextId w')%nat ->
  trace w' = trace w ++ es -> Forall rtFree es ->
  rtStep w w'.
Proof.
  intros Hrt Hi Ht Hn [Hlt Hinj].
  assert (forall z st', stateAt z w' = Some st' ->
            exists st, stateAt z w = Some st /\ rt st = rt st') as Hback.
  { intros z st' Hst'. specialize (Hrt z). rewrite Hst' in Hrt.
    destruct (stateAt z w) as [st |]; [| discriminate].
    injection Hrt as Hrt. eauto. }
  assert (forall z st, stateAt z w = Some st ->
            exists st', stateAt z w' = Some st' /\ rt st' = rt st) as Hforth.
  { intros z st Hst. specialize (Hrt z). rewrite Hst in Hrt.
    destruct (stateAt z w') as [st' |]; [| discriminate].
    injection Hrt as Hrt. eauto. }
  split; [| split; [exact Hi |]].
  - split.
    + intros z st' Hst'. destruct (Hback z st' Hst') as (st & Hst & <-).
      specialize (Hlt z st Hst). lia.
    + intros z z' s s' Hs Hs' E.
      destruct (Hback z s Hs) as (t & Ht' & Et).
      destruct (Hback z' s' Hs') as (t' & Ht'' & Et').
      apply (Hinj z z' t t' Ht' Ht''). congruence.
  - exists es. split; [exact Ht |].
    intros id h Hh. exists h. split; [apply rtLife_rtFree, Hn |].
    rewrite Hh. split; intros (z & st & Hst & <-).
    + destruct (Hforth z st Hst) as (st' & Hst' & E). exists z, st'. auto.
    + destruct (Hback z st Hst) as (st' & Hst' & E). exists z, st'. auto.
Qed.

Lemma disposeZoom_rtStep (t : bool) (z0 : Z) (w : World) :
  rtStep w (disposeZoom t z0 w).
Proof.
  destruct (stateAt z0 w) as [st0 |] eqn:Est0.
  2:{ unfold disposeZoom. rewrite Est0. apply rtStep_refl. }
  intros [Hlt Hinj].
  assert (forall z, stateAt z (disposeZoom t z0 w)
                    = if bool_decide (z0 = z) then None else stateAt z w)
    as Hst by (intros z; apply stateAt_disposeZoom).
  assert (nextId (disposeZoom t z0 w) = nextId w) as Hid
    by (unfold disposeZoom; rewrite Est0; destruct t; reflexivity).
  split; [| split; [lia |]].
  - split.
    + intros z st. rewrite Hst, Hid. case_bool_decide; [discriminate |].
      apply Hlt.
    + intros z z' s s'. rewrite !Hst.
      repeat case_bool_decide; try discriminate. apply Hinj.
  - exists ((if t then EvUnpin z0 <$> elements (activeKeys st0) else [])
            ++ [EvDisposeRT z0 (rt st0)]).
    split.
    { unfold disposeZoom. rewrite Est0. destruct t; cbn;
        rewrite <- ?app_assoc; reflexivity. }
    intros id h Hh. rewrite rtLife_app, rtLife_rtFree.
    2:{ destruct t; [| constructor].
        apply Forall_fmap, Forall_forall. intros k _. exact I. }
    cbn [rtLife]. destruct (bool_decide_reflect (rt st0 = id)) as [E | E].
    + assert (h = true) as -> by (apply Hh; exists z0, st0; auto).
      exists false. split; [reflexivity |].
      split; [discriminate |]. intros (z & st & Hz & Hr). exfalso.
      rewrite Hst in Hz. case_bool_decide as Hz0; [discriminate |].
      apply Hz0. apply (Hinj z0 z st0 st Est0 Hz). congruence.
    + exists h. split; [reflexivity |]. rewrite Hh.
      split; intros (z & st & Hz & Hr).
      * exists z, st. split; [| exact Hr]. rewrite Hst.
        case_bool_decide as Hz0; [| exact Hz].
        subst z. rewrite Est0 in Hz. injection Hz as <-. contradiction.
      * rewrite Hst in Hz. case_bool_decide; [discriminate |].
        exists z, st. auto.
Qed.

Lemma ensureZoomState_registered (z : Z) (g : Grid) (c : option Z)
    (w : World) :
  stateAt z (_ensureZoomState z g c w).2 = Some (_ensureZoomState z g c w).1.
Proof.
  unfold _ensureZoomState. destruct (stateAt z w) as [s |] eqn:Es.
  - destruct (gridChanged (Some s) g || cellChanged (Some s) (normCellSize w c));
      [| exact Es].
    unfold freshId. cbn [fst snd].
    rewrite stateAt_putState, bool_decide_eq_true_2 by reflexivity.
    reflexivity.
  - unfold freshId. cbn [fst snd].
    rewrite stateAt_putState, bool_decide_eq_true_2 by reflexivity.
    reflexivity.
Qed.

(** Zoom [z] gets the fresh render target [nextId w], after the one it had
    (if any) is released. *)
Lemma recreate_rtStep (z : Z) (old : option ZoomState) (st' : ZoomState)
    (size : Z) (w w' : World) :
  stateAt z w = old ->
  rt st' = nextId w ->
  nextId w' = S (nextId w) ->
  (forall z', stateAt z' w'
              = if bool_decide (z = z') then Some st' else stateAt z' w) ->
  trace w' = trace w
             ++ (match old with
                 | Some s => [EvDisposeRT z (rt s)]
                 | None => []
                 end) ++ [EvAllocRT z (nextId w) size] ->
  rtStep w w'.
Proof.
  intros Hold Hrt Hid Hst Htr [Hlt Hinj].
  split; [| split; [lia |]].
  - split.
    + intros z' s. rewrite Hst, Hid. case_bool_decide.
      * intros [= <-]. lia.
      * intros Hs. specialize (Hlt z' s Hs). lia.
    + intros z1 z2 s1 s2. rewrite !Hst.
      repeat case_bool_decide; subst.
      * reflexivity.
      * intros [= <-] Hs2 E. specialize (Hlt z2 s2 Hs2). lia.
      * intros Hs1 [= <-] E. specialize (Hlt z1 s1 Hs1). lia.
      * apply Hinj.
  - eexists. split; [exact Htr |].
    intros id h Hh.
    assert (rtOwned id w' <-> id = nextId w
                              \/ exists z' s, z' <> z /\ stateAt z' w = Some s
                                              /\ rt s = id) as Hown.
    { split.
      - intros (z' & s & Hs & Hr). rewrite Hst in Hs.
        case_bool_decide as Hz.
        + injection Hs as <-. left. congruence.
        + right. exists z', s. auto.
      - intros [-> | (z' & s & Hz & Hs & Hr)].
        + exists z, st'. rewrite Hst, bool_decide_eq_true_2 by reflexivity.
          auto.
        + exists z', s. rewrite Hst, bool_decide_eq_false_2 by congruence.
          auto. }
    assert (forall P : bool -> Prop,
              (exists h', P h'
                 /\ (h' = true <-> id = nextId w
                                   \/ exists z' s, z' <> z
                                        /\ stateAt z' w = Some s /\ rt s = id))
              -> exists h', P h' /\ (h' = true <-> rtOwned id w')) as Hcut.
    { intros P (h' & E & Hh'). exists h'.
      split; [exact E | rewrite Hown; exact Hh']. }
    apply Hcut. clear Hcut Hown.
    destruct (decide (id = nextId w)) as [-> | Hne].
    + (* the fresh one *)
      assert (h = false) as ->.
      { destruct h; [| reflexivity]. exfalso.
        destruct (proj1 Hh eq_refl) as (z' & s & Hs & Hr).
        specialize (Hlt z' s Hs). lia. }
      exists true. split; [| split; auto].
      destruct old as [s |]; cbn [app rtLife].
      * specialize (Hlt z s Hold).
        rewrite bool_decide_eq_false_2 by lia.
        rewrite bool_decide_eq_true_2 by reflexivity. reflexivity.
      * rewrite bool_decide_eq_true_2 by reflexivity. reflexivity.
    + destruct old as [s |]; cbn [app rtLife].
      * destruct (bool_decide_reflect (rt s = id)) as [E | E].
        -- assert (h = true) as -> by (apply Hh; exists z, s; auto).
           rewrite bool_decide_eq_false_2 by congruence.
           exists false. split; [reflexivity |].
           split; [discriminate |].
           intros [? | (z' & s' & Hz & Hs' & Hr)]; [contradiction |].
           exfalso. apply Hz. apply (Hinj z' z s' s Hs' Hold). congruence.
        -- rewrite bool_decide_eq_false_2 by congruence.
           exists h. split; [reflexivity |]. rewrite Hh.
           split.
           ++ intros (z' & s' & Hs' & Hr). right. exists z', s'.
              split; [| auto]. intros ->. rewrite Hold in Hs'.
              injection Hs' as <-. contradiction.
           ++ intros [? | (z' & s' & _ & Hs' & Hr)]; [contradiction |].
              exists z', s'. auto.
      * rewrite bool_decide_eq_false_2 by congruence.
        exists h. split; [reflexivity |]. rewrite Hh.
        split.
        -- intros (z' & s' & Hs' & Hr). right. exists z', s'.
           split; [| auto]. intros ->. rewrite Hold in Hs'. discriminate.
        -- intros [? | (z' & s' & _ & Hs' & Hr)]; [contradiction |].
           exists z', s'. auto.
Qed.

Lemma ensureZoomState_rtStep (z : Z) (g : Grid) (c : option Z) (w : World) :
  rtStep w (_ensureZoomState z g c w).2.
Proof.
  unfold _ensureZoomState. destruct (stateAt z w) as [s |] eqn:Es.
  - destruct (gridChanged (Some s) g || cellChanged (Some s) (normCellSize w c));
      [| apply rtStep_refl].
    unfold freshId. cbn [fst snd].
    apply (recreate_rtStep z (Some s)
             (recreatedState z g (normCellSize w c) (nextId w)
                (mapDrapeAtlasMipmaps (opts w)) (Some s))
             (Z.max 1 (gridSize g) * normCellSize w c));
      [exact Es | reflexivity | reflexivity | |].
    + intros z'. rewrite stateAt_putState. reflexivity.
    + cbn. rewrite <- app_assoc. reflexivity.
  - unfold freshId. cbn [fst snd].
    apply (recreate_rtStep z (None)
             (recreatedState z g (normCellSize w c) (nextId w)
                (mapDrapeAtlasMipmaps (opts w)) (None))
             (Z.max 1 (gridSize g) * normCellSize w c));
      [exact Es | reflexivity | reflexivity | |].
    + intros z'. rewrite stateAt_putState. reflexivity.
    + cbn. reflexivity.
Qed.

(** After [_ensureZoomState], the rest of a reconciliation keeps every
    render target. *)
Lemma reconciled_rtStep (z : Z) (st st4 : ZoomState) (w1 w' : World) :
  stateAt z w1 = Some st ->
  stateAt z w' = Some st4 ->
  sameShape st st4 ->
  onlyTouches z w1 w' ->
  (nextId w1 <= nextId w')%nat ->
  (exists es, trace w' = trace w1 ++ es /\ Forall rtFree es) ->
  rtStep w1 w'.
Proof.
  intros H1 H4 Hs Ho Hi (es & Ht & Hn).
  apply (rtStep_same w1 w' es); [| exact Hi | exact Ht | exact Hn].
  intros z'. destruct (decide (z' = z)) as [-> | Hz].
  - rewrite H1, H4. cbn. f_equal. apply Hs.
  - rewrite (Ho z' Hz). reflexivity.
Qed.

Lemma reconcileTrapezoid_rtStep (cfg : Config) (f : Frame) (z : Z)
    (center : Z * Z) (c0 : Candidate) (rest : list Candidate) (w : World) :
  rtStep w (reconcileTrapezoid cfg f z center c0 rest w).
Proof.
  destruct (reconcileTrapezoid_post cfg f z center c0 rest w)
    as (st4 & H4 & Hs & _ & Ho & Hi & He).
  eapply rtStep_trans; [apply ensureZoomState_rtStep |].
  eapply reconciled_rtStep; eauto using ensureZoomState_registered.
Qed.

Lemma reconcileViewport_rtStep (cfg : Config) (f : Frame) (z : Z)
    (center : Z * Z) (c0 : Candidate) (rest : list Candidate) (w : World) :
  rtStep w (reconcileViewport cfg f z center c0 rest w).
Proof.
  destruct (reconcileViewport_post cfg f z center c0 rest w)
    as (st4 & H4 & Hs & _ & Ho & Hi & He).
  eapply rtStep_trans; [apply ensureZoomState_rtStep |].
  eapply reconciled_rtStep; eauto using ensureZoomState_registered.
Qed.

Lemma updateTrapezoid_rtStep (cfg : Config) (f : Frame) (cm : Q * Q)
    (w : World) : rtStep w (updateTrapezoid cfg f cm w).
Proof.
  unfold updateTrapezoid.
  apply (rtStep_trans _ (dropStaleTrapezoid f
                           (zoomLevels (minZoomOf cfg f) (topZoomOf cfg f)) w)).
  - unfold dropStaleTrapezoid. apply rtStep_fold. intros w0 z.
    case_bool_decide; [apply rtStep_refl | apply disposeZoom_rtStep].
  - apply rtStep_fold. intros w0 z. unfold processZoomTrapezoid.
    destruct (default [] (tilesByZoom (selectTrapezoid cfg f cm) !! z))
      as [| c cs]; [apply disposeZoom_rtStep |].
    destruct (sortByDist (c :: cs)) as [| c0 rest]; [apply rtStep_refl |].
    destruct (mercatorToTileXY f cm.1 cm.2 z) as [center |];
      [apply reconcileTrapezoid_rtStep | apply rtStep_refl].
Qed.

Lemma updateViewport_rtStep (cfg : Config) (f : Frame) (cm : Q * Q)
    (w : World) : rtStep w (updateViewport cfg f cm w).
Proof.
  unfold updateViewport. apply (rtStep_trans _ (dropStaleViewport f w)).
  - unfold dropStaleViewport. apply rtStep_fold. intros w0 z.
    match goal with |- context [if ?b then _ else _] => destruct b end;
      [apply disposeZoom_rtStep | apply rtStep_refl].
  - apply rtStep_fold. intros w0 z. unfold processZoomViewport.
    destruct (negb (vp_rangePositive (plan f) z));
      [apply disposeZoom_rtStep |].
    destruct (mercatorToTileXY f cm.1 cm.2 z) as [center |];
      [| apply rtStep_refl].
    destruct (vp_candidates (plan f) z) as [| c cs];
      [apply disposeZoom_rtStep |].
    destruct (sortByDist (c :: cs)) as [| c0 rest];
      [apply rtStep_refl | apply reconcileViewport_rtStep].
Qed.

(** The calls of [clear] over the entries [l], whose render targets are
    pairwise distinct: each of them goes from allocated to released. *)
Lemma rtLife_clear (id : nat) (t : bool) (l : list (Z * ZoomState))
    (w : World) (h : bool) :
  NoDup ((fun e => rt e.2) <$> l) ->
  (h = true <-> exists e, e ∈ l /\ rt e.2 = id) ->
  exists es,
    trace (fold_left (clearEntry t) l w) = trace w ++ es
    /\ rtLife id h es = Some false.
Proof.
  revert w h. induction l as [| [z0 st0] l IH]; intros w h Hnd Hh.
  - exists []. split; [symmetry; apply app_nil_r |].
    destruct h; [| reflexivity]. destruct (proj1 Hh eq_refl) as (e & He & _).
    inversion He.
  - cbn [fmap list_fmap] in Hnd. apply NoDup_cons in Hnd as [Hnotin Hnd].
    cbn [fold_left].
    set (w1 := clearEntry t w (z0, st0)).
    assert (trace w1 = trace w
                       ++ (if t then EvUnpin z0 <$> elements (activeKeys st0)
                           else []) ++ [EvDisposeRT z0 (rt st0)]) as Ht1.
    { unfold w1, clearEntry. destruct t; cbn; rewrite <- ?app_assoc;
        reflexivity. }
    assert (Forall rtFree (if t then EvUnpin z0 <$> elements (activeKeys st0)
                           else [])) as Hfree.
    { destruct t; [| constructor].
      apply Forall_fmap, Forall_forall. intros k _. exact I. }
    destruct (decide (rt st0 = id)) as [E | E].
    + assert (h = true) as ->.
      { apply Hh. exists (z0, st0). split; [left | exact E]. }
      destruct (IH w1 false Hnd) as (es & Ht & Hl).
      { split; [discriminate |]. intros (e & He & Hr). exfalso.
        apply Hnotin. apply list_elem_of_fmap. exists e.
        split; [cbn in *; congruence | exact He]. }
      eexists. split; [rewrite Ht, Ht1, <- app_assoc; reflexivity |].
      rewrite !rtLife_app, (rtLife_rtFree _ _ _ Hfree). cbn [rtLife].
      rewrite bool_decide_eq_true_2 by exact E. exact Hl.
    + destruct (IH w1 h Hnd) as (es & Ht & Hl).
      { rewrite Hh. split; intros (e & He & Hr).
        - apply elem_of_cons in He as [-> | He]; [contradiction |].
          exists e. auto.
        - exists e. split; [right; exact He | exact Hr]. }
      eexists. split; [rewrite Ht, Ht1, <- app_assoc; reflexivity |].
      rewrite !rtLife_app, (rtLife_rtFree _ _ _ Hfree). cbn [rtLife].
      rewrite bool_decide_eq_false_2 by exact E. exact Hl.
Qed.

Lemma clearEntries_nextId (t : bool) (l : list (Z * ZoomState)) (w : World) :
  nextId (fold_left (clearEntry t) l w) = nextId w.
Proof.
  revert w. induction l as [| e l IH]; intros w; [reflexivity |].
  cbn [fold_left]. rewrite IH. unfold clearEntry. destruct t; reflexivity.
Qed.

Lemma clear_rtStep (t : bool) (w : World) : rtStep w (clear t w).
Proof.
  intros [Hlt Hinj].
  assert (NoDup ((fun e => rt e.2) <$> map_to_list (byZoom (atlas w)))) as Hnd.
  { apply NoDup_fmap_2_strong; [| apply NoDup_map_to_list].
    intros [z1 s1] [z2 s2] H1 H2 E. cbn in E.
    apply elem_of_map_to_list in H1, H2.
    assert (z1 = z2) as -> by (apply (Hinj z1 z2 s1 s2 H1 H2 E)).
    rewrite H1 in H2. congruence. }
  assert (forall z, stateAt z (clear t w) = None) as Hnone
    by (intros z; apply lookup_empty).
  split; [| split].
  - split.
    + intros z st. rewrite Hnone. discriminate.
    + intros z z' st st'. rewrite Hnone. discriminate.
  - cbn [clear nextId]. rewrite clearEntries_nextId. lia.
  - assert (exists es, trace (clear t w) = trace w ++ es
              /\ forall id h, (h = true <-> rtOwned id w) ->
                   rtLife id h es = Some false) as (es & Ht & Hl).
    { destruct (clear_events t (map_to_list (byZoom (atlas w))) w)
        as (es & Ht & _).
      exists es. split; [exact Ht |].
      intros id h Hh.
      destruct (rtLife_clear id t (map_to_list (byZoom (atlas w))) w h Hnd)
        as (es' & Ht' & Hl).
      - rewrite Hh. split.
        + intros (z & s & Hs & Hr). exists (z, s).
          split; [apply elem_of_map_to_list, Hs | exact Hr].
        + intros ([z s] & He & Hr). exists z, s.
          split; [apply elem_of_map_to_list, He | exact Hr].
      - rewrite Ht in Ht'. apply app_inv_head in Ht'. subst es'. exact Hl. }
    exists es. split; [exact Ht |].
    intros id h Hh. exists false. split; [apply Hl, Hh |].
    split; [discriminate |]. intros (z & s & Hs & _).
    rewrite Hnone in Hs. discriminate.
Qed.

Lemma quiet_rtStep (w w' : World) :
  (forall z, rt <$> stateAt z w' = rt <$> stateAt z w) ->
  nextId w' = nextId w -> trace w' = trace w -> rtStep w w'.
Proof.
  intros Hrt Hi Ht. apply (rtStep_same w w' []); [exact Hrt | lia | | constructor].
  rewrite Ht. symmetry. apply app_nil_r.
Qed.

Lemma settle_rtStep (cfg : Config) (p : Pending) (s : Settlement) (w : World) :
  rtStep w (settle cfg p s w).
Proof.
  assert (forall w0, rtStep w0 (onFinally p w0)) as Hfin.
  { intros w0. unfold onFinally.
    destruct (stateAt (p_z p) w0) as [st |] eqn:Est; [| apply rtStep_refl].
    apply quiet_rtStep; try reflexivity.
    intros z. rewrite stateAt_putState. case_bool_decide; [| reflexivity].
    subst z. rewrite Est. reflexivity. }
  assert (forall tex w0, rtStep w0 (bindFetched p tex w0)) as Hbind.
  { intros tex w0. unfold bindFetched.
    destruct (stateAt (p_z p) w0) as [st |] eqn:Est; [| apply rtStep_refl].
    destruct (bool_decide (p_key p ∈ activeKeys st)); [| apply rtStep_refl].
    assert (forall st', rt st' = rt st ->
              rtStep w0 (putState (p_z p) st' w0)) as Hput.
    { intros st' Hr. apply quiet_rtStep; try reflexivity.
      intros z. rewrite stateAt_putState. case_bool_decide; [| reflexivity].
      subst z. rewrite Est. cbn. f_equal. exact Hr. }
    repeat match goal with
           | |- context [match ?o with Some _ => _ | None => _ end] =>
               destruct o
           end; apply Hput; reflexivity. }
  assert (forall tex w0, rtStep w0 (recordCellSize cfg (p_z p) tex w0)) as Hrec.
  { intros tex w0.
    destruct (recordCellSize_keeps cfg (p_z p) tex w0) as (Hb & Htr & _).
    apply quiet_rtStep; [| | exact Htr].
    - intros z. unfold stateAt. rewrite Hb. reflexivity.
    - unfold recordCellSize.
      repeat match goal with
             | |- context [match ?o with Some _ => _ | None => _ end] =>
                 destruct o
             | |- context [if ?b then _ else _] => destruct b
             end; reflexivity. }
  unfold settle.
  set (w0 := setInflight (filter (fun q => q <> p) (inflight w)) w).
  assert (rtStep w w0) as H0 by (apply quiet_rtStep; reflexivity).
  case_bool_decide; [| exact H0].
  destruct s as [tex |].
  - unfold onFulfilled.
    eapply rtStep_trans; [exact H0 |].
    eapply rtStep_trans; [apply Hrec |].
    eapply rtStep_trans; [apply Hbind | apply Hfin].
  - eapply rtStep_trans; [exact H0 | apply Hfin].
Qed.

Lemma update_rtStep (cfg : Config) (f : Frame) (w : World) :
  rtStep w (update cfg f w).
Proof.
  unfold update, updateWith.
  assert (rtStep w (syncOpts cfg w)) as H0.
  { destruct (syncOpts_atlas cfg w) as (Ha & Htr & _).
    apply quiet_rtStep; [| | exact Htr].
    - intros z. unfold stateAt. rewrite Ha. reflexivity.
    - unfold syncOpts. destruct (cfgAtlasMipmaps cfg); reflexivity. }
  assert (forall w0, rtStep w0 (if negb (bool_decide (byZoom (atlas w0) = ∅))
                                then clear (tiles f) w0 else w0)) as Hclear.
  { intros w0. destruct (negb _); [apply clear_rtStep | apply rtStep_refl]. }
  destruct (negb (mapDrapeShaderPatchEnabled cfg)).
  { cbn [fst]. eapply rtStep_trans; [exact H0 | apply Hclear]. }
  destruct (aboveEnableHeight cfg f).
  { cbn [fst]. eapply rtStep_trans; [exact H0 | apply Hclear]. }
  pose proof (debounceGate_keeps cfg f (syncOpts cfg w)) as Hd.
  cbn zeta in Hd.
  destruct (debounceGate cfg f (syncOpts cfg w)) as [w1 suppressed].
  cbn [fst] in Hd. destruct Hd as (Hb & _ & _ & Htr & _ & _ & _ & Hi & _).
  assert (rtStep w w1) as H1.
  { eapply rtStep_trans; [exact H0 |].
    apply quiet_rtStep; [| exact Hi | exact Htr].
    intros z. unfold stateAt. rewrite Hb. reflexivity. }
  destruct suppressed; [exact H1 |].
  destruct (qlt (now f - lastUpdate (atlas w1)) (updateMs cfg)); [exact H1 |].
  set (w2 := setGate (lastView (atlas w1)) (lastMoveAt (atlas w1)) (now f) w1).
  assert (rtStep w w2) as H2.
  { eapply rtStep_trans; [exact H1 |]. apply quiet_rtStep; reflexivity. }
  destruct (camMerc f) as [cm |]; [| exact H2].
  destruct (lodMode cfg); cbn [fst];
    (eapply rtStep_trans; [exact H2 |]);
    [apply updateTrapezoid_rtStep | apply updateViewport_rtStep
     | apply updateViewport_rtStep].
Qed.

Lemma step_rtStep (w : World) (a : Action) : rtStep w (step w a).
Proof.
  destruct a as [cfg f | cfg id s | t]; cbn.
  - apply update_rtStep.
  - destruct (findPending id w); [apply settle_rtStep | apply rtStep_refl].
  - apply clear_rtStep.
Qed.

(** X16: through any history of frames, settled fetches and calls of
    [clear] on a new atlas, no render target is allocated while it is
    allocated nor released while it is not, and the render targets that
    are allocated and not released at the end are exactly those of the
    registered zoom states: none leaks, none is released twice, no state
    keeps a released one. *)
Theorem render_targets_never_leak (acts : list Action) (id : nat) :
  exists b,
    rtLife id false (trace (run acts newWorld)) = Some b
    /\ (b = true <-> rtOwned id (run acts newWorld)).
Proof.
  assert (rtStep newWorld (run acts newWorld)) as H
    by (apply rtStep_fold, step_rtStep).
  destruct H as (_ & _ & es & Ht & Hl).
  { split; intros z; intros; discriminate. }
  cbn [newWorld trace app] in Ht. rewrite Ht. apply Hl.
  split; [discriminate |]. intros (z & st & Hs & _). discriminate.
Qed.

(** ** The quota goes to the nearest missing tiles *)

Lemma issueLoop_post {A : Type} (z q : Z) (g : IssueAcc -> A -> IssueAcc)
    (cnd : A -> Candidate) (cell : ZoomState -> A -> Prop)
    (cellOf : ZoomState -> Candidate -> Prop) (l : list A) (acc0 : IssueAcc) :
  (forall acc a, a ∈ l -> roundSpec z q (fun st => cell st a) (cnd a) acc
                            (g acc a)) ->
  (forall st st' a, a ∈ l -> sameShape st st' ->
                    cellOf st' (cnd a) -> cell st a) ->
  StronglySorted (fun a b => nearerEq (cnd a) (cnd b)) l ->
  exists fetched,
    loopPost z q cellOf (cnd <$> l) acc0 (fold_left g l acc0) fetched.
Proof.
  revert acc0. induction l as [| a l IH]; intros acc0 Hstep Hcell Hsort.
  - exists []. cbn.
    split; [apply sameShape_refl |]. split; [reflexivity |].
    split; [auto |]. split; [simpl; lia |]. split; [lia |].
    split; [exists []; split; [symmetry; apply app_nil_r |];
            split; [constructor | reflexivity] |].
    split; [intros c Hc; exact Hc |]. split; [constructor |].
    intros c Hc. inversion Hc.
  - apply StronglySorted_inv in Hsort as [Hsort Hhd].
    cbn [fold_left].
    destruct (IH (g acc0 a)) as (fetched1 & Hs1 & Ht1 & Hl1 & Hi1 & Hb1
                                   & (es1 & Htr1 & Hh1 & Hf1) & Hsub1
                                   & Hsorted1 & Hj1).
    { intros acc a' Ha'. apply Hstep. right. exact Ha'. }
    { intros st st' a' Ha'. apply Hcell. right. exact Ha'. }
    { exact Hsort. }
    set (acc := fold_left g l (g acc0 a)) in *.
    assert (Forall (nearerEq (cnd a)) (cnd <$> l)) as Hnear
      by (apply Forall_fmap; exact Hhd).
    assert (Forall (nearerEq (cnd a)) fetched1) as Hnear1.
    { apply Forall_forall. intros c Hc.
      apply (proj1 (Forall_forall _ _) Hnear). apply Hsub1, Hc. }
    destruct (Hstep acc0 a ltac:(left)) as (Hs0 & Ht0 & [Hq | Hf]).
    + (* nothing fetched for [a] *)
      destruct Hq as (Hi0 & Htr0 & Hl0 & Hwhy).
      exists fetched1.
      split; [eapply sameShape_trans; eassumption |].
      split; [congruence |].
      split; [intros k Hk; apply Hl1; rewrite Hl0; exact Hk |].
      split; [lia |]. split; [lia |].
      split; [exists es1; rewrite Htr1, Htr0; auto |].
      split; [intros c Hc; right; apply Hsub1, Hc |].
      split; [exact Hsorted1 |].
      intros c Hc. cbn [fmap list_fmap] in Hc.
      apply elem_of_cons in Hc as [-> | Hc]; [| apply Hj1, Hc].
      destruct Hwhy as [Hfull | [Hload | [Htex | Hno]]].
      * left. split; [lia |].
        assert (fetched1 = []) as ->
          by (destruct fetched1; [reflexivity | cbn in Hi1; lia]).
        constructor.
      * right. left. apply Hl1. rewrite Hl0. exact Hload.
      * right. right. left. rewrite Ht1, Ht0. exact Htex.
      * right. right. right. intros Hc. apply Hno.
        apply (Hcell _ acc.1.2 a); [left | | exact Hc].
        eapply sameShape_trans; eassumption.
    + (* [a] is fetched *)
      destruct Hf as (Hi0 & Hlt & id & Htr0 & Hl0).
      exists (cnd a :: fetched1).
      split; [eapply sameShape_trans; eassumption |].
      split; [congruence |].
      split.
      { intros k Hk. apply Hl1. rewrite Hl0.
        destruct (decide (c_key (cnd a) = k)) as [-> | Hne];
          [rewrite lookup_insert_eq; eauto
          | rewrite lookup_insert_ne by exact Hne; exact Hk]. }
      split; [cbn [length]; lia |]. split; [lia |].
      split.
      { exists (EvFetch z (c_key (cnd a)) id :: es1).
        split; [rewrite Htr1, Htr0, <- app_assoc; reflexivity |].
        split; [constructor; [exact I | exact Hh1] |].
        cbn. rewrite <- Hf1. reflexivity. }
      split.
      { intros c Hc. cbn [fmap list_fmap].
        apply elem_of_cons in Hc as [-> | Hc];
          [left | right; apply Hsub1, Hc]. }
      split; [constructor; assumption |].
      intros c Hc. cbn [fmap list_fmap] in Hc.
      apply elem_of_cons in Hc as [-> | Hc].
      * right. left. apply Hl1. rewrite Hl0, lookup_insert_eq. eauto.
      * destruct (Hj1 c Hc) as [[Hfull Hall] | Hrest]; [| right; exact Hrest].
        left. split; [exact Hfull |].
        constructor; [| exact Hall].
        apply (proj1 (Forall_forall _ _) Hnear). exact Hc.
Qed.

Lemma hasCell_shape (st st' : ZoomState) (c : Candidate) :
  sameShape st st' -> hasCell st' c -> hasCell st c.
Proof.
  intros (_ & Hg & _ & _ & _ & Hlen) (idx & Hi & Hm).
  exists idx. rewrite <- Hg. split; [exact Hi |].
  apply lookup_lt_is_Some. apply lookup_lt_is_Some in Hm. lia.
Qed.

Lemma issueFetch_round (z q : Z) (cell : ZoomState -> Prop) (c : Candidate)
    (issued : Z) (st : ZoomState) (w : World) :
  issued < q ->
  roundSpec z q cell c (issued, st, w)
    (issued + 1, (issueFetch true z c st w).1, (issueFetch true z c st w).2).
Proof.
  intros Hlt. unfold roundSpec, issueFetch, freshId. cbn [fst snd].
  split; [repeat split; reflexivity |]. split; [reflexivity |].
  right. split; [reflexivity |]. split; [exact Hlt |].
  exists (nextId w). split; reflexivity.
Qed.

Lemma quiet_round (z q : Z) (cell : ZoomState -> Prop) (c : Candidate)
    (issued : Z) (st st' : ZoomState) (w : World) :
  sameShape st st' -> textures st' = textures st -> loads st' = loads st ->
  (q <= issued \/ is_Some (loads st !! c_key c)
   \/ is_Some (textures st !! c_key c) \/ ~ cell st) ->
  roundSpec z q cell c (issued, st, w) (issued, st', w).
Proof.
  intros Hs Ht Hl Hwhy. split; [exact Hs |]. split; [exact Ht |].
  left. cbn [fst snd]. auto.
Qed.

Lemma issueStepTrapezoid_round (q z : Z) (D : gset TileKey) (acc : IssueAcc)
    (c : Candidate) :
  c_key c ∈ D ->
  roundSpec z q (fun st => hasCell st c) c acc
    (issueStepTrapezoid true q z D acc c).
Proof.
  intros HD. destruct acc as [[issued st] w]. unfold issueStepTrapezoid.
  rewrite (bool_decide_eq_true_2 _ HD). cbn [negb].
  destruct (bool_decide_reflect (is_Some (loads st !! c_key c))) as [Hl | Hl].
  { apply quiet_round; auto using sameShape_refl. }
  destruct (cellIndex (grid st) (c_tileX c) (c_tileY c)) as [idx |] eqn:Eidx.
  2:{ apply quiet_round; auto using sameShape_refl.
      right. right. right. intros (i & Hi & _). congruence. }
  destruct (meshes st !! idx) as [mat |] eqn:Emat.
  2:{ apply quiet_round; auto using sameShape_refl.
      right. right. right. intros (i & Hi & [m Hm]).
      rewrite Eidx in Hi. injection Hi as <-. congruence. }
  destruct (textures st !! c_key c) as [existing |] eqn:Etex.
  { destruct (bindExisting_maps idx mat existing st) as [El Et].
    apply quiet_round; [apply bindExisting_shape | exact Et | exact El |].
    right. right. left. rewrite Etex. eauto. }
  destruct (Z.leb_spec q issued) as [Hfull | Hlt].
  { apply quiet_round; auto using sameShape_refl. }
  pose proof (issueFetch_round z q (fun st => hasCell st c) c issued st w Hlt)
    as Hf.
  destruct (issueFetch true z c st w) as [st' w']. exact Hf.
Qed.

Lemma issueStepViewport_round (q z : Z) (acc : IssueAcc)
    (ci : nat * Candidate) :
  roundSpec z q (fun st => is_Some (meshes st !! ci.1)) ci.2 acc
    (issueStepViewport true q z acc ci).
Proof.
  destruct acc as [[issued st] w], ci as [idx c]. unfold issueStepViewport.
  cbn [fst snd].
  destruct (meshes st !! idx) as [mat |] eqn:Emat.
  2:{ apply quiet_round; auto using sameShape_refl.
      right. right. right. intros [m Hm]. congruence. }
  destruct (textures st !! c_key c) as [existing |] eqn:Etex.
  { destruct (bindExisting_maps idx mat existing st) as [El Et].
    apply quiet_round; [apply bindExisting_shape | exact Et | exact El |].
    right. right. left. rewrite Etex. eauto. }
  destruct (bool_decide_reflect (is_Some (loads st !! c_key c))) as [Hl | Hl].
  { apply quiet_round; auto using sameShape_refl. }
  destruct (Z.leb_spec q issued) as [Hfull | Hlt].
  { apply quiet_round; auto using sameShape_refl. }
  pose proof (issueFetch_round z q (fun st => is_Some (meshes st !! idx)) c
                issued st w Hlt) as Hf.
  destruct (issueFetch true z c st w) as [st' w']. exact Hf.
Qed.

Lemma sortBy_nearest {A : Type} (cnd : A -> Candidate) (l : list A) :
  StronglySorted (fun a b => nearerEq (cnd a) (cnd b))
    (sortBy (fun a => c_rectDist (cnd a)) l).
Proof.
  apply Sorted_StronglySorted.
  - intros a b c Hab Hbc. unfold nearerEq in *. eapply Qle_trans; eassumption.
  - apply (sortBy_sorted (fun a => c_rectDist (cnd a))).
Qed.

(** The common end of a reconciliation: [w3] is the world after the pins,
    [acc] what the issue loop made of the swept state [st2]. *)
Lemma reconcile_priority (z q : Z) (cell : ZoomState -> Candidate -> Prop)
    (cs : list Candidate) (w w3 : World) (st2 : ZoomState) (acc : IssueAcc)
    (es13 : list Event) (fetched : list Candidate) :
  trace w3 = trace w ++ es13 -> Forall (fun e => isFetch e = false) es13 ->
  0 <= q ->
  (forall st st' c, sameShape st st' -> cell st' c -> cell st c) ->
  loopPost z q cell cs (0, st2, w3) acc fetched ->
  let r := renderIfDirty z acc.1.2 acc.2 in
  exists es,
    stateAt z (putState z r.1 r.2) = Some r.1
    /\ sameShape st2 r.1
    /\ trace (putState z r.1 r.2) = trace w ++ es
    /\ fetchPairs es = (fun c => (z, c_key c)) <$> fetched
    /\ fetched ⊆ cs
    /\ StronglySorted nearerEq fetched
    /\ forall c, c ∈ cs -> cell r.1 c -> missingIn r.1 (c_key c) ->
         Z.of_nat (length fetched) = q
         /\ Forall (fun a => nearerEq a c) fetched.
Proof.
  intros Ht13 Hn13 Hq Hcell
    (Hs & Htx & Hl & Hi & Hb & (es & Hes & Hh & Hf) & Hsub & Hsorted & Hj) r.
  cbn [fst snd] in *.
  assert (sameShape acc.1.2 r.1 /\ loads r.1 = loads acc.1.2
          /\ textures r.1 = textures acc.1.2
          /\ exists er, trace r.2 = trace acc.2 ++ er
                        /\ Forall (fun e => isFetch e = false) er)
    as (Hsr & Hlr & Htr & er & Her & Hner).
  { unfold r, renderIfDirty. destruct (dirty acc.1.2); cbn [fst snd].
    - split; [repeat split; reflexivity |]. split; [reflexivity |].
      split; [reflexivity |]. exists [EvRender z].
      split; [reflexivity | repeat constructor].
    - split; [apply sameShape_refl |]. split; [reflexivity |].
      split; [reflexivity |]. exists [].
      split; [symmetry; apply app_nil_r | constructor]. }
  exists (es13 ++ es ++ er).
  split; [rewrite stateAt_putState, bool_decide_eq_true_2 by reflexivity;
          reflexivity |].
  split; [eapply sameShape_trans; eassumption |].
  split.
  { cbn [putState setByZoom setAtlas trace].
    rewrite Her, Hes, Ht13, <- !app_assoc. reflexivity. }
  split.
  { rewrite !fetchPairs_app, (fetchPairs_none es13 Hn13),
      (fetchPairs_none er Hner), app_nil_r. exact Hf. }
  split; [exact Hsub |]. split; [exact Hsorted |].
  intros c Hc Hcl [Hml Hmt]. rewrite Hlr in Hml. rewrite Htr in Hmt.
  destruct (Hj c Hc) as [[Hfull Hall] | [[x Hx] | [[x Hx] | Hno]]];
    [| congruence | congruence |].
  - split; [lia | exact Hall].
  - exfalso. apply Hno. apply (Hcell _ r.1 c Hsr Hcl).
Qed.

(** X17: when the trapezoid strategy processes a zoom that has selected
    tiles and a camera tile, with a tile source at hand and tile loading
    not skipped ([mapDrapeSkipTileLoad] is not set), it fetches in
    ascending order of distance from the camera, and a selected tile is
    left with a cell but without texture and without a load in flight only
    when the quota [maxNewLoadsPerTick] has been spent in full on tiles
    that are at least as near. *)
Theorem trapezoid_zoom_fetches_nearest_first (cfg : Config) (f : Frame)
    (cm : Q * Q) (byZ : gmap Z (list Candidate)) (w : World) (z : Z)
    (c : Candidate) (cs : list Candidate) (center : Z * Z) :
  tiles f = true ->
  mapDrapeSkipTileLoad cfg = false ->
  byZ !! z = Some (c :: cs) ->
  mercatorToTileXY f cm.1 cm.2 z = Some center ->
  let w' := processZoomTrapezoid cfg f cm byZ w z in
  exists st' es fetched,
    stateAt z w' = Some st'
    /\ trace w' = trace w ++ es
    /\ fetchPairs es = (fun a => (z, c_key a)) <$> fetched
    /\ fetched ⊆ c :: cs
    /\ StronglySorted nearerEq fetched
    /\ forall c', c' ∈ c :: cs -> waiting st' c' ->
         Z.of_nat (length fetched) = maxNewLoadsPerTick w
         /\ Forall (fun a => nearerEq a c') fetched.
Proof.
  intros Htiles Hskip Hby Hcenter w'. subst w'.
  unfold processZoomTrapezoid. rewrite Hby. cbn [from_option id].
  rewrite Hcenter.
  assert (StronglySorted nearerEq (sortByDist (c :: cs))) as Hsorted
    by apply (sortBy_nearest (fun a => a)).
  assert (forall a, a ∈ sortByDist (c :: cs) <-> a ∈ c :: cs) as Helem
    by apply (sortBy_elem c_rectDist).
  destruct (sortByDist (c :: cs)) as [| c0 rest] eqn:Esort.
  { exfalso. specialize (Helem c). rewrite elem_of_nil in Helem.
    apply Helem. left. }
  unfold reconcileTrapezoid. rewrite Htiles, Hskip.
  set (g := trapezoidGrid (wantsMipmaps w) z center (extentOf c0 rest)).
  set (dc := desiredCellSizeAt cfg z w).
  destruct (ensureZoomState_carries z g (Some dc) w)
    as (_ & _ & e1 & Ht1 & Hn1).
  destruct (_ensureZoomState z g (Some dc) w) as [st w1].
  cbn [fst snd] in Ht1.
  destruct (settlePendingCell_keeps z dc st w1) as (_ & Ht2).
  set (D := keySet (c0 :: rest)).
  destruct (reconcilePins_trace true z D st (settlePendingCell z dc st w1))
    as (Est1 & e3 & Ht3 & Hn3).
  destruct (reconcilePins true z D st (settlePendingCell z dc st w1))
    as [st1 w3]. cbn [fst snd] in Est1, Ht3. subst st1.
  assert (trace w3 = trace w ++ (e1 ++ e3)) as Ht13
    by (rewrite Ht3, Ht2, Ht1, app_assoc; reflexivity).
  assert (Forall (fun e => isFetch e = false) (e1 ++ e3)) as Hn13
    by (apply Forall_app; split; assumption).
  set (q := maxNewLoadsPerTick w).
  set (st2 := dropTextures D (withActiveKeys D st)).
  destruct (issueLoop_post z q (issueStepTrapezoid true q z D) (fun a => a)
              hasCell hasCell (c0 :: rest) (0, st2, w3)) as (fetched & Hpost).
  { intros acc a Ha. apply issueStepTrapezoid_round.
    unfold D, keySet. apply elem_of_list_to_set, list_elem_of_fmap.
    exists a. auto. }
  { intros s s' a _. apply hasCell_shape. }
  { exact Hsorted. }
  rewrite list_fmap_id in Hpost.
  pose proof (reconcile_priority z q hasCell (c0 :: rest) w w3 st2 _
                (e1 ++ e3) fetched Ht13 Hn13
                ltac:(unfold q, maxNewLoadsPerTick; lia) hasCell_shape Hpost)
    as Hfin.
  destruct (fold_left (issueStepTrapezoid true q z D) (c0 :: rest)
              (0, st2, w3)) as [[issued st3] w4].
  cbn [fst snd] in Hfin.
  destruct (renderIfDirty z st3 w4) as [st4 w5]. cbn [fst snd] in Hfin.
  destruct Hfin as (es & Hst & _ & Htr & Hf & Hsub & Hso & Hw).
  exists st4, es, fetched.
  split; [exact Hst |]. split; [exact Htr |]. split; [exact Hf |].
  split; [intros a Ha; apply Helem, Hsub, Ha |]. split; [exact Hso |].
  intros c' Hc' [Hcell Hmiss]. apply Hw; [apply Helem, Hc' | | ]; assumption.
Qed.

Lemma trapezoid_zoom_fetches_nearest_first_witness :
  let f := levelFrame 1000 0 0 in
  let w' := processZoomTrapezoid trapezoidConfig f (100%Q, 100%Q)
              {[ 5 := wideCandidates ]} newWorld 5 in
  exists st' es fetched,
    stateAt 5 w' = Some st'
    /\ trace w' = trace newWorld ++ es
    /\ fetchPairs es = (fun a => (5, c_key a)) <$> fetched
    /\ fetched ⊆ wideCandidates
    /\ StronglySorted nearerEq fetched
    /\ forall c', c' ∈ wideCandidates -> waiting st' c' ->
         Z.of_nat (length fetched) = maxNewLoadsPerTick newWorld
         /\ Forall (fun a => nearerEq a c') fetched.
Proof.
  intros f.
  apply (trapezoid_zoom_fetches_nearest_first trapezoidConfig f
           (100%Q, 100%Q) {[ 5 := wideCandidates ]} newWorld 5
           (cand 5 0 0 0) [cand 5 16 0 0] (16, 15));
    vm_compute; reflexivity.
Defined.

Lemma cellInfosOf_elem (g : Grid) (l : list Candidate) (idx : nat)
    (c : Candidate) :
  (idx, c) ∈ cellInfosOf g l
  <-> c ∈ l /\ cellIndex g (c_tileX c) (c_tileY c) = Some idx.
Proof.
  unfold cellInfosOf. rewrite list_elem_of_omap. split.
  - intros (c' & Hc' & E).
    destruct (cellIndex g (c_tileX c') (c_tileY c')) as [i |] eqn:Ei;
      [| discriminate].
    injection E as <- <-. auto.
  - intros [Hc E]. exists c. rewrite E. auto.
Qed.

(** X18: when the viewport or bands strategy processes a zoom that has a
    positive range, candidates and a camera tile, with a tile source at
    hand and tile loading not skipped ([mapDrapeSkipTileLoad] is not set),
    it fetches in ascending order of distance from the camera, and a
    candidate is left with a cell but without texture and without a load
    in flight only when the quota [maxNewLoadsPerTick] has been spent in
    full on candidates that are at least as near. *)
Theorem viewport_zoom_fetches_nearest_first (cfg : Config) (f : Frame)
    (cm : Q * Q) (w : World) (z : Z) (c : Candidate) (cs : list Candidate)
    (center : Z * Z) :
  tiles f = true ->
  mapDrapeSkipTileLoad cfg = false ->
  vp_rangePositive (plan f) z = true ->
  vp_candidates (plan f) z = c :: cs ->
  mercatorToTileXY f cm.1 cm.2 z = Some center ->
  let w' := processZoomViewport cfg f cm w z in
  exists st' es fetched,
    stateAt z w' = Some st'
    /\ trace w' = trace w ++ es
    /\ fetchPairs es = (fun a => (z, c_key a)) <$> fetched
    /\ fetched ⊆ c :: cs
    /\ StronglySorted nearerEq fetched
    /\ forall c', c' ∈ c :: cs -> waiting st' c' ->
         Z.of_nat (length fetched) = maxNewLoadsPerTick w
         /\ Forall (fun a => nearerEq a c') fetched.
Proof.
  intros Htiles Hskip Hrange Hcands Hcenter w'. subst w'.
  unfold processZoomViewport. rewrite Hrange, Hcenter, Hcands. cbn [negb].
  assert (forall a, a ∈ sortByDist (c :: cs) <-> a ∈ c :: cs) as Helem
    by apply (sortBy_elem c_rectDist).
  destruct (sortByDist (c :: cs)) as [| c0 rest] eqn:Esort.
  { exfalso. specialize (Helem c). rewrite elem_of_nil in Helem.
    apply Helem. left. }
  unfold reconcileViewport. rewrite Htiles, Hskip.
  set (dc := desiredCellSizeAt cfg z w).
  set (g := viewportGrid (wantsMipmaps w)
              (maxGridForCell (wantsMipmaps w)
                 (maxRTSize (maxRenderTargetSize (plan f))
                    (maxTextureSize (plan f))) dc)
              z center (extentOf c0 rest)).
  destruct (ensureZoomState_carries z g (Some dc) w)
    as (_ & _ & e1 & Ht1 & Hn1).
  pose proof (ensureZoomState_grid z g (Some dc) w) as [Hgrid _].
  destruct (_ensureZoomState z g (Some dc) w) as [st w1].
  cbn [fst snd] in Ht1, Hgrid.
  destruct (settlePendingCell_keeps z dc st w1) as (_ & Ht2).
  set (infos := cellInfosOf g (c0 :: rest)).
  set (D := keySet infos.*2).
  destruct (reconcilePins_trace true z D st (settlePendingCell z dc st w1))
    as (Est1 & e3 & Ht3 & Hn3).
  destruct (reconcilePins true z D st (settlePendingCell z dc st w1))
    as [st1 w3]. cbn [fst snd] in Est1, Ht3. subst st1.
  assert (trace w3 = trace w ++ (e1 ++ e3)) as Ht13
    by (rewrite Ht3, Ht2, Ht1, app_assoc; reflexivity).
  assert (Forall (fun e => isFetch e = false) (e1 ++ e3)) as Hn13
    by (apply Forall_app; split; assumption).
  set (q := maxNewLoadsPerTick w).
  set (st2 := dropTextures D (withActiveKeys D st)).
  set (l := sortBy (fun ci : nat * Candidate => c_rectDist ci.2) infos).
  assert (forall ci, ci ∈ l <-> ci ∈ infos) as Hl
    by (intros ci; apply sortBy_elem).
  set (cell := fun (s : ZoomState) (a : Candidate) => grid s = g /\ hasCell s a).
  assert (forall s s' a, sameShape s s' -> cell s' a -> cell s a) as Hcellshape.
  { intros s s' a Hs [Hg Hc]. split; [| eapply hasCell_shape; eassumption].
    destruct Hs as (_ & Hg' & _). congruence. }
  destruct (issueLoop_post z q (issueStepViewport true q z) snd
              (fun s ci => is_Some (meshes s !! ci.1)) cell l (0, st2, w3))
    as (fetched & Hpost).
  { intros acc a _. apply issueStepViewport_round. }
  { intros s s' [idx a] Ha Hs Hc. cbn [fst snd] in *.
    apply Hl, cellInfosOf_elem in Ha as [_ Hidx].
    destruct (Hcellshape s s' a Hs Hc) as [Hg (i & Hi & Hm)].
    rewrite Hg, Hidx in Hi. injection Hi as <-. exact Hm. }
  { apply (sortBy_nearest snd). }
  pose proof (reconcile_priority z q cell l.*2 w w3 st2 _
                (e1 ++ e3) fetched Ht13 Hn13
                ltac:(unfold q, maxNewLoadsPerTick; lia) Hcellshape Hpost)
    as Hfin.
  destruct (fold_left (issueStepViewport true q z) l (0, st2, w3))
    as [[issued st3] w4].
  cbn [fst snd] in Hfin.
  destruct (renderIfDirty z st3 w4) as [st4 w5]. cbn [fst snd] in Hfin.
  destruct Hfin as (es & Hst & Hshape & Htr & Hf & Hsub & Hso & Hw).
  assert (grid st4 = g) as Hg4.
  { destruct Hshape as (_ & Hg' & _). rewrite Hg'.
    destruct (dropTextures_shape D (withActiveKeys D st)) as (_ & Hg'' & _).
    unfold st2. rewrite Hg''. exact Hgrid. }
  assert (forall a, a ∈ l.*2 -> a ∈ c :: cs) as Hback.
  { intros a Ha. apply list_elem_of_fmap in Ha as ([idx a'] & -> & Ha).
    apply Hl, cellInfosOf_elem in Ha as [Ha _]. apply Helem, Ha. }
  exists st4, es, fetched.
  split; [exact Hst |]. split; [exact Htr |]. split; [exact Hf |].
  split; [intros a Ha; apply Hback, Hsub, Ha |]. split; [exact Hso |].
  intros c' Hc' [Hcell Hmiss]. apply Hw; [| split; assumption | exact Hmiss].
  destruct Hcell as (idx & Hidx & _). rewrite Hg4 in Hidx.
  apply list_elem_of_fmap. exists (idx, c'). split; [reflexivity |].
  apply Hl, cellInfosOf_elem. split; [apply Helem, Hc' | exact Hidx].
Qed.

Lemma viewport_zoom_fetches_nearest_first_witness :
  let f := zoom12Frame 1000 in
  let cands := ringCandidates 12 2048 2047 1 9784 in
  let w' := processZoomViewport (repoConfig Viewport) f (100%Q, 100%Q)
              newWorld 12 in
  exists st' es fetched,
    stateAt 12 w' = Some st'
    /\ trace w' = trace newWorld ++ es
    /\ fetchPairs es = (fun a => (12, c_key a)) <$> fetched
    /\ fetched ⊆ cand 12 2047 2046 9784 :: tail cands
    /\ StronglySorted nearerEq fetched
    /\ forall c', c' ∈ cand 12 2047 2046 9784 :: tail cands ->
         waiting st' c' ->
         Z.of_nat (length fetched) = maxNewLoadsPerTick newWorld
         /\ Forall (fun a => nearerEq a c') fetched.
Proof.
  intros f cands.
  apply (viewport_zoom_fetches_nearest_first (repoConfig Viewport) f
           (100%Q, 100%Q) newWorld 12 (cand 12 2047 2046 9784) (tail cands)
           (2048, 2047));
    vm_compute; reflexivity.
Defined.

(** ** No load outlives its fetch *)

Lemma backs_mono (w w' : World) (z : Z) (k : TileKey) (id : nat)
    (p : Pending) :
  (forall q, q ∈ inflight w -> q ∈ inflight w') ->
  generation w' = generation w ->
  backs w z k id p -> backs w' z k id p.
Proof.
  intros Hin Hg (Hp & Hid & Hz & Hk & Hgen).
  repeat split; try assumption; [apply Hin, Hp | congruence].
Qed.

(** A step that keeps the fetches in flight and the identity of [_state],
    and whose loads were all there before. *)
Lemma fetchInv_shrink (w w' : World) :
  inflight w' = inflight w -> generation w' = generation w ->
  (nextId w <= nextId w')%nat ->
  (forall z st' k id, stateAt z w' = Some st' -> loads st' !! k = Some id ->
     exists st, stateAt z w = Some st /\ loads st !! k = Some id) ->
  fetchInv w -> fetchInv w'.
Proof.
  intros Hi Hg Hn Hst [[Hnd Hlt] Hb]. split.
  - split; [rewrite Hi; exact Hnd |].
    intros p Hp. rewrite Hi in Hp. specialize (Hlt p Hp). lia.
  - intros z st' Hst' k id Hk.
    destruct (Hst z st' k id Hst' Hk) as (st & Hs & Hl).
    destruct (Hb z st Hs k id Hl) as (p & Hp).
    exists p. apply (backs_mono w w'); [| exact Hg | exact Hp].
    intros q. rewrite Hi. auto.
Qed.

Lemma fetchInv_same (w w' : World) :
  inflight w' = inflight w -> generation w' = generation w ->
  (nextId w <= nextId w')%nat -> byZoom (atlas w') = byZoom (atlas w) ->
  fetchInv w -> fetchInv w'.
Proof.
  intros Hi Hg Hn Hb. apply fetchInv_shrink; try assumption.
  intros z st' k id Hs Hl. exists st'. unfold stateAt in *.
  rewrite <- Hb. auto.
Qed.

Lemma fetchInv_fold {A : Type} (g : World -> A -> World) (l : list A)
    (w : World) :
  (forall w a, fetchInv w -> fetchInv (g w a)) ->
  fetchInv w -> fetchInv (fold_left g l w).
Proof.
  intros Hg. revert w. induction l as [| a l IH]; intros w Hw; cbn;
    [exact Hw | apply IH, Hg, Hw].
Qed.

Lemma disposeZoom_fetchInv (t : bool) (z0 : Z) (w : World) :
  fetchInv w -> fetchInv (disposeZoom t z0 w).
Proof.
  apply fetchInv_shrink.
  - unfold disposeZoom. destruct (stateAt z0 w); [destruct t |]; reflexivity.
  - unfold disposeZoom. destruct (stateAt z0 w); [destruct t |]; reflexivity.
  - unfold disposeZoom. destruct (stateAt z0 w); [destruct t |]; cbn; lia.
  - intros z st' k id. rewrite stateAt_disposeZoom.
    case_bool_decide; [discriminate |]. eauto.
Qed.

Lemma ensureZoomState_fetchInv (z : Z) (g : Grid) (c : option Z) (w : World) :
  fetchInv w -> fetchInv (_ensureZoomState z g c w).2.
Proof.
  apply fetchInv_shrink.
  - unfold _ensureZoomState.
    destruct (stateAt z w); [destruct (_ || _) |]; reflexivity.
  - unfold _ensureZoomState.
    destruct (stateAt z w); [destruct (_ || _) |]; reflexivity.
  - unfold _ensureZoomState.
    destruct (stateAt z w); [destruct (_ || _) |]; cbn; lia.
  - intros z' st' k id. unfold _ensureZoomState.
    destruct (stateAt z w) as [s |] eqn:Es.
    + destruct (_ || _); [| eauto].
      unfold freshId. cbn [fst snd]. rewrite stateAt_putState.
      case_bool_decide as Hz; [| intros Hs Hl; exists st'; auto].
      subst z'. intros [= <-]. cbn. eauto.
    + unfold freshId. cbn [fst snd]. rewrite stateAt_putState.
      case_bool_decide as Hz; [| intros Hs Hl; exists st'; auto].
      intros [= <-]. cbn. rewrite lookup_empty. discriminate.
Qed.

(** The invariant of the issue loops of zoom [z]: the world is sound, and
    the loads of the state object in hand are backed, too. *)
Lemma issueFetch_fetchInv (t : bool) (z : Z) (c : Candidate) (st : ZoomState)
    (w : World) :
  fetchInv w /\ loadsBackedIn w z st ->
  fetchInv (issueFetch t z c st w).2
  /\ loadsBackedIn (issueFetch t z c st w).2 z (issueFetch t z c st w).1.
Proof.
  intros [[[Hnd Hlt] Hb] Hst]. unfold issueFetch.
  destruct t; [| repeat split; assumption].
  unfold freshId. cbn [fst snd].
  set (p := {| p_id := nextId w; p_gen := generation w; p_z := z;
               p_key := c_key c; p_tileX := c_tileX c;
               p_tileY := c_tileY c |}).
  match goal with |- fetchInv ?w2 /\ _ => set (w' := w2) end.
  assert (forall q, q ∈ inflight w -> q ∈ inflight w') as Hin
    by (intros q Hq; cbn; apply elem_of_app; left; exact Hq).
  assert (forall z' k id q, backs w z' k id q -> backs w' z' k id q) as Hmono
    by (intros z' k id q; apply backs_mono; [exact Hin | reflexivity]).
  split; [split; [split |] |].
  - cbn. rewrite fmap_app. apply NoDup_app. split; [exact Hnd |].
    split; [| apply NoDup_singleton].
    intros id Hid Hid'. apply list_elem_of_singleton in Hid'. subst id.
    apply list_elem_of_fmap in Hid as (q & Eq & Hq).
    specialize (Hlt q Hq). cbn in Eq. lia.
  - intros q Hq. cbn in Hq |- *. apply elem_of_app in Hq as [Hq | Hq].
    + specialize (Hlt q Hq). lia.
    + apply list_elem_of_singleton in Hq. subst q. cbn. lia.
  - intros z' st' Hs k id Hl.
    destruct (Hb z' st' Hs k id Hl) as (q & Hq). exists q. apply Hmono, Hq.
  - intros k id. cbn [loads withLoads].
    destruct (decide (c_key c = k)) as [<- | Hne].
    + rewrite lookup_insert_eq. intros [= <-]. exists p.
      repeat split. cbn. apply elem_of_app. right. left.
    + rewrite lookup_insert_ne by exact Hne. intros Hl.
      destruct (Hst k id Hl) as (q & Hq). exists q. apply Hmono, Hq.
Qed.

Lemma issueStepTrapezoid_fetchInv (t : bool) (q z : Z) (D : gset TileKey)
    (acc : IssueAcc) (c : Candidate) :
  fetchInv acc.2 /\ loadsBackedIn acc.2 z acc.1.2 ->
  fetchInv (issueStepTrapezoid t q z D acc c).2
  /\ loadsBackedIn (issueStepTrapezoid t q z D acc c).2 z
       (issueStepTrapezoid t q z D acc c).1.2.
Proof.
  destruct acc as [[issued st] w]. cbn [fst snd]. intros H.
  unfold issueStepTrapezoid.
  destruct (negb _); [exact H |].
  destruct (bool_decide _); [exact H |].
  destruct (cellIndex _ _ _) as [idx |]; [| exact H].
  destruct (meshes st !! idx) as [mat |]; [| exact H].
  destruct (textures st !! c_key c) as [existing |].
  { cbn [fst snd]. split; [apply H |]. unfold loadsBackedIn.
    rewrite (proj1 (bindExisting_maps idx mat existing st)). apply H. }
  destruct (q <=? issued); [exact H |].
  pose proof (issueFetch_fetchInv t z c st w H) as Hf.
  destruct (issueFetch t z c st w) as [st' w']. exact Hf.
Qed.

Lemma issueStepViewport_fetchInv (t : bool) (q z : Z) (acc : IssueAcc)
    (ci : nat * Candidate) :
  fetchInv acc.2 /\ loadsBackedIn acc.2 z acc.1.2 ->
  fetchInv (issueStepViewport t q z acc ci).2
  /\ loadsBackedIn (issueStepViewport t q z acc ci).2 z
       (issueStepViewport t q z acc ci).1.2.
Proof.
  destruct acc as [[issued st] w], ci as [idx c]. cbn [fst snd]. intros H.
  unfold issueStepViewport.
  destruct (meshes st !! idx) as [mat |]; [| exact H].
  destruct (textures st !! c_key c) as [existing |].
  { cbn [fst snd]. split; [apply H |]. unfold loadsBackedIn.
    rewrite (proj1 (bindExisting_maps idx mat existing st)). apply H. }
  destruct (bool_decide _); [exact H |].
  destruct (q <=? issued); [exact H |].
  pose proof (issueFetch_fetchInv t z c st w H) as Hf.
  destruct (issueFetch t z c st w) as [st' w']. exact Hf.
Qed.

Lemma issueLoop_fetchInv {A : Type} (z : Z) (g : IssueAcc -> A -> IssueAcc)
    (l : list A) (acc : IssueAcc) :
  (forall acc a, fetchInv acc.2 /\ loadsBackedIn acc.2 z acc.1.2 ->
                 fetchInv (g acc a).2
                 /\ loadsBackedIn (g acc a).2 z (g acc a).1.2) ->
  fetchInv acc.2 /\ loadsBackedIn acc.2 z acc.1.2 ->
  fetchInv (fold_left g l acc).2
  /\ loadsBackedIn (fold_left g l acc).2 z (fold_left g l acc).1.2.
Proof.
  intros Hg. revert acc. induction l as [| a l IH]; intros acc Hacc; cbn;
    [exact Hacc | apply IH, Hg, Hacc].
Qed.

(** A state object in hand goes back into the map. *)
Lemma putState_fetchInv (z : Z) (st : ZoomState) (w : World) :
  fetchInv w /\ loadsBackedIn w z st -> fetchInv (putState z st w).
Proof.
  intros [[Hids Hb] Hst]. split; [exact Hids |].
  intros z' st' Hs. rewrite stateAt_putState in Hs.
  case_bool_decide as Hz.
  - injection Hs as <-. subst z'. exact Hst.
  - exact (Hb z' st' Hs).
Qed.

(** The common shape of a reconciliation, from the state that
    [_ensureZoomState] returned to the issue loop. *)
Lemma reconcile_start (t : bool) (z c : Z) (D : gset TileKey) (st : ZoomState)
    (w1 : World) :
  fetchInv w1 -> stateAt z w1 = Some st ->
  let r := reconcilePins t z D st (settlePendingCell z c st w1) in
  (fetchInv r.2 /\ loadsBackedIn r.2 z r.1)
  /\ (fetchInv r.2 /\ loadsBackedIn r.2 z (dropTextures D r.1)).
Proof.
  intros Hinv Hst r.
  assert (inflight r.2 = inflight w1 /\ generation r.2 = generation w1
          /\ nextId r.2 = nextId w1
          /\ byZoom (atlas r.2) = byZoom (atlas w1)
          /\ loads r.1 = loads st) as (Hi & Hg & Hn & Hb & Hl).
  { unfold r, reconcilePins, settlePendingCell.
    destruct t; cbn;
      match goal with |- context [if ?b then _ else _] => destruct b end;
      repeat split; reflexivity. }
  assert (fetchInv r.2) as Hr
    by (apply (fetchInv_same w1); [| | lia | |]; assumption).
  assert (loadsBackedIn r.2 z r.1) as Hback.
  { intros k id Hk. rewrite Hl in Hk.
    destruct (proj2 Hinv z st Hst k id Hk) as (p & Hp). exists p.
    apply (backs_mono w1); [intros q; rewrite Hi; auto | exact Hg | exact Hp]. }
  split; [split; assumption |]. split; [exact Hr |].
  unfold loadsBackedIn. rewrite (proj1 (dropTextures_maps D r.1)). exact Hback.
Qed.

Lemma renderIfDirty_fetchInv (z : Z) (st : ZoomState) (w : World) :
  fetchInv w /\ loadsBackedIn w z st ->
  fetchInv (renderIfDirty z st w).2
  /\ loadsBackedIn (renderIfDirty z st w).2 z (renderIfDirty z st w).1.
Proof.
  intros [Hw Hst]. unfold renderIfDirty. destruct (dirty st); [| auto].
  cbn [fst snd]. split.
  - apply (fetchInv_same w); first [exact Hw | reflexivity | cbn; lia].
  - intros k id Hk. destruct (Hst k id Hk) as (p & Hp). exists p. exact Hp.
Qed.

Lemma reconcileTrapezoid_fetchInv (cfg : Config) (f : Frame) (z : Z)
    (center : Z * Z) (c0 : Candidate) (rest : list Candidate) (w : World) :
  fetchInv w -> fetchInv (reconcileTrapezoid cfg f z center c0 rest w).
Proof.
  intros Hw. unfold reconcileTrapezoid.
  set (g := trapezoidGrid (wantsMipmaps w) z center (extentOf c0 rest)).
  set (c := desiredCellSizeAt cfg z w).
  pose proof (ensureZoomState_fetchInv z g (Some c) w Hw) as H1.
  pose proof (ensureZoomState_registered z g (Some c) w) as Hreg.
  destruct (_ensureZoomState z g (Some c) w) as [st w1].
  cbn [fst snd] in H1, Hreg.
  set (D := keySet (c0 :: rest)).
  pose proof (reconcile_start (tiles f) z c D st w1 H1 Hreg) as [Ha Hb].
  cbn zeta in Ha, Hb.
  destruct (reconcilePins (tiles f) z D st (settlePendingCell z c st w1))
    as [st1 w3]. cbn [fst snd] in Ha, Hb.
  destruct (mapDrapeSkipTileLoad cfg); [apply putState_fetchInv, Ha |].
  pose proof (issueLoop_fetchInv z
                (issueStepTrapezoid (tiles f) (maxNewLoadsPerTick w) z D)
                (c0 :: rest) (0, dropTextures D st1, w3)
                (issueStepTrapezoid_fetchInv _ _ z D) Hb) as Hloop.
  destruct (fold_left (issueStepTrapezoid (tiles f) (maxNewLoadsPerTick w) z D)
              (c0 :: rest) (0, dropTextures D st1, w3))
    as [[issued st3] w4].
  cbn [fst snd] in Hloop.
  pose proof (renderIfDirty_fetchInv z st3 w4 Hloop) as Hr.
  destruct (renderIfDirty z st3 w4) as [st4 w5].
  apply putState_fetchInv, Hr.
Qed.

Lemma reconcileViewport_fetchInv (cfg : Config) (f : Frame) (z : Z)
    (center : Z * Z) (c0 : Candidate) (rest : list Candidate) (w : World) :
  fetchInv w -> fetchInv (reconcileViewport cfg f z center c0 rest w).
Proof.
  intros Hw. unfold reconcileViewport.
  set (c := desiredCellSizeAt cfg z w).
  match goal with |- context [_ensureZoomState z ?g0 (Some c) w] =>
    set (g := g0) end.
  pose proof (ensureZoomState_fetchInv z g (Some c) w Hw) as H1.
  pose proof (ensureZoomState_registered z g (Some c) w) as Hreg.
  destruct (_ensureZoomState z g (Some c) w) as [st w1].
  cbn [fst snd] in H1, Hreg.
  set (D := keySet (cellInfosOf g (c0 :: rest)).*2).
  pose proof (reconcile_start (tiles f) z c D st w1 H1 Hreg) as [Ha Hb].
  cbn zeta in Ha, Hb.
  destruct (reconcilePins (tiles f) z D st (settlePendingCell z c st w1))
    as [st1 w3]. cbn [fst snd] in Ha, Hb.
  destruct (mapDrapeSkipTileLoad cfg); [apply putState_fetchInv, Ha |].
  match goal with |- context [fold_left ?step ?l (0, dropTextures D st1, w3)] =>
    pose proof (issueLoop_fetchInv z step l (0, dropTextures D st1, w3)
                  (issueStepViewport_fetchInv _ _ z) Hb) as Hloop;
    destruct (fold_left step l (0, dropTextures D st1, w3))
      as [[issued st3] w4]
  end.
  cbn [fst snd] in Hloop.
  pose proof (renderIfDirty_fetchInv z st3 w4 Hloop) as Hr.
  destruct (renderIfDirty z st3 w4) as [st4 w5].
  apply putState_fetchInv, Hr.
Qed.

Lemma updateTrapezoid_fetchInv (cfg : Config) (f : Frame) (cm : Q * Q)
    (w : World) : fetchInv w -> fetchInv (updateTrapezoid cfg f cm w).
Proof.
  intros Hw. unfold updateTrapezoid. apply fetchInv_fold.
  - intros w0 z Hw0. unfold processZoomTrapezoid.
    destruct (default [] (tilesByZoom (selectTrapezoid cfg f cm) !! z))
      as [| c cs]; [apply disposeZoom_fetchInv, Hw0 |].
    destruct (sortByDist (c :: cs)) as [| c0 rest]; [exact Hw0 |].
    destruct (mercatorToTileXY f cm.1 cm.2 z) as [center |];
      [apply reconcileTrapezoid_fetchInv, Hw0 | exact Hw0].
  - unfold dropStaleTrapezoid. apply fetchInv_fold; [| exact Hw].
    intros w0 z Hw0.
    case_bool_decide; [exact Hw0 | apply disposeZoom_fetchInv, Hw0].
Qed.

Lemma updateViewport_fetchInv (cfg : Config) (f : Frame) (cm : Q * Q)
    (w : World) : fetchInv w -> fetchInv (updateViewport cfg f cm w).
Proof.
  intros Hw. unfold updateViewport. apply fetchInv_fold.
  - intros w0 z Hw0. unfold processZoomViewport.
    destruct (negb (vp_rangePositive (plan f) z));
      [apply disposeZoom_fetchInv, Hw0 |].
    destruct (mercatorToTileXY f cm.1 cm.2 z) as [center |]; [| exact Hw0].
    destruct (vp_candidates (plan f) z) as [| c cs];
      [apply disposeZoom_fetchInv, Hw0 |].
    destruct (sortByDist (c :: cs)) as [| c0 rest];
      [exact Hw0 | apply reconcileViewport_fetchInv, Hw0].
  - unfold dropStaleViewport. apply fetchInv_fold; [| exact Hw].
    intros w0 z Hw0.
    match goal with |- context [if ?b then _ else _] => destruct b end;
      [apply disposeZoom_fetchInv, Hw0 | exact Hw0].
Qed.

Lemma clearEntries_inflight (t : bool) (l : list (Z * ZoomState)) (w : World) :
  inflight (fold_left (clearEntry t) l w) = inflight w.
Proof.
  revert w. induction l as [| e l IH]; intros w; [reflexivity |].
  cbn [fold_left]. rewrite IH. unfold clearEntry. destruct t; reflexivity.
Qed.

Lemma clear_fetchInv (t : bool) (w : World) : fetchInv w -> fetchInv (clear t w).
Proof.
  intros [[Hnd Hlt] _]. split.
  - unfold idsSound. cbn [clear inflight nextId].
    rewrite clearEntries_inflight, clearEntries_nextId. split; assumption.
  - intros z st Hs. unfold stateAt in Hs. cbn in Hs.
    rewrite lookup_empty in Hs. discriminate.
Qed.

Lemma update_fetchInv (cfg : Config) (f : Frame) (w : World) :
  fetchInv w -> fetchInv (update cfg f w).
Proof.
  intros Hw. unfold update, updateWith.
  assert (fetchInv (syncOpts cfg w)) as H0.
  { destruct (syncOpts_atlas cfg w) as (Ha & _ & Hi & Hg).
    apply (fetchInv_same w); [exact Hi | exact Hg | | rewrite Ha; reflexivity
                              | exact Hw].
    unfold syncOpts. destruct (cfgAtlasMipmaps cfg); cbn; lia. }
  assert (forall w0, fetchInv w0 ->
            fetchInv (if negb (bool_decide (byZoom (atlas w0) = ∅))
                      then clear (tiles f) w0 else w0)) as Hclear.
  { intros w0 Hw0. destruct (negb _); [apply clear_fetchInv, Hw0 | exact Hw0]. }
  destruct (negb (mapDrapeShaderPatchEnabled cfg)); [apply Hclear, H0 |].
  destruct (aboveEnableHeight cfg f); [apply Hclear, H0 |].
  pose proof (debounceGate_keeps cfg f (syncOpts cfg w)) as Hd.
  cbn zeta in Hd.
  destruct (debounceGate cfg f (syncOpts cfg w)) as [w1 suppressed].
  cbn [fst] in Hd. destruct Hd as (Hb & _ & _ & _ & Hi & Hg & _ & Hn & _).
  assert (fetchInv w1) as H1
    by (apply (fetchInv_same (syncOpts cfg w)); try assumption; lia).
  destruct suppressed; [exact H1 |].
  destruct (qlt (now f - lastUpdate (atlas w1)) (updateMs cfg)); [exact H1 |].
  set (w2 := setGate (lastView (atlas w1)) (lastMoveAt (atlas w1)) (now f) w1).
  assert (fetchInv w2) as H2
    by (apply (fetchInv_same w1); first [exact H1 | reflexivity | cbn; lia]).
  destruct (camMerc f) as [cm |]; [| exact H2].
  destruct (lodMode cfg); cbn [fst];
    [apply updateTrapezoid_fetchInv | apply updateViewport_fetchInv
     | apply updateViewport_fetchInv]; exact H2.
Qed.

(** What the completion handlers do to the loads: [.then] keeps them,
    [.finally] deletes the key of the fetch from the state of its zoom. *)
Lemma recordCellSize_view (cfg : Config) (z : Z) (tex : Texture) (w : World) :
  let w' := recordCellSize cfg z tex w in
  byZoom (atlas w') = byZoom (atlas w) /\ inflight w' = inflight w
  /\ generation w' = generation w /\ nextId w' = nextId w.
Proof.
  destruct (recordCellSize_keeps cfg z tex w) as (Hb & _ & Hi & Hg & _).
  cbn zeta. split; [exact Hb |]. split; [exact Hi |]. split; [exact Hg |].
  unfold recordCellSize.
  repeat match goal with
         | |- context [match ?o with Some _ => _ | None => _ end] =>
             destruct o
         | |- context [if ?b then _ else _] => destruct b
         end; reflexivity.
Qed.

Lemma bindFetched_view (p : Pending) (tex : Texture) (w : World) :
  let w' := bindFetched p tex w in
  inflight w' = inflight w /\ generation w' = generation w
  /\ nextId w' = nextId w
  /\ forall z, loads <$> stateAt z w' = loads <$> stateAt z w.
Proof.
  cbn zeta. unfold bindFetched.
  destruct (stateAt (p_z p) w) as [st |] eqn:Est; [| auto].
  destruct (bool_decide (p_key p ∈ activeKeys st)); [| auto].
  assert (forall st', loads st' = loads st ->
            let w' := putState (p_z p) st' w in
            inflight w' = inflight w /\ generation w' = generation w
            /\ nextId w' = nextId w
            /\ forall z, loads <$> stateAt z w' = loads <$> stateAt z w)
    as Hput.
  { intros st' Hl. cbn zeta. repeat split.
    intros z. rewrite stateAt_putState. case_bool_decide; [| reflexivity].
    subst z. rewrite Est. cbn. f_equal. exact Hl. }
  repeat match goal with
         | |- context [match ?o with Some _ => _ | None => _ end] =>
             destruct o
         end; apply Hput; reflexivity.
Qed.

Lemma onFinally_view (p : Pending) (w : World) :
  let w' := onFinally p w in
  inflight w' = inflight w /\ generation w' = generation w
  /\ nextId w' = nextId w
  /\ forall z, loads <$> stateAt z w'
               = (fun st => if bool_decide (p_z p = z)
                            then delete (p_key p) (loads st)
                            else loads st) <$> stateAt z w.
Proof.
  cbn zeta. unfold onFinally.
  destruct (stateAt (p_z p) w) as [st |] eqn:Est.
  - repeat split. intros z. rewrite stateAt_putState.
    case_bool_decide as Hz; [| reflexivity].
    subst z. rewrite Est. reflexivity.
  - repeat split. intros z. case_bool_decide as Hz; [| reflexivity].
    subst z. rewrite Est. reflexivity.
Qed.

Lemma settle_view (cfg : Config) (p : Pending) (s : Settlement) (w : World) :
  let w' := settle cfg p s w in
  inflight w' = filter (fun q => q <> p) (inflight w)
  /\ generation w' = generation w /\ nextId w' = nextId w
  /\ forall z, loads <$> stateAt z w'
               = (fun st => if bool_decide (p_gen p = generation w
                                            /\ p_z p = z)
                            then delete (p_key p) (loads st)
                            else loads st) <$> stateAt z w.
Proof.
  cbn zeta. unfold settle.
  set (w0 := setInflight (filter (fun q => q <> p) (inflight w)) w).
  change (generation w0) with (generation w).
  destruct (bool_decide_reflect (p_gen p = generation w)) as [Hg | Hg].
  2:{ repeat split. intros z.
      rewrite bool_decide_eq_false_2 by tauto.
      change (stateAt z w0) with (stateAt z w).
      destruct (stateAt z w); reflexivity. }
  assert (forall w1,
            inflight w1 = inflight w0 -> generation w1 = generation w ->
            nextId w1 = nextId w ->
            (forall z, loads <$> stateAt z w1 = loads <$> stateAt z w) ->
            let w' := onFinally p w1 in
            inflight w' = filter (fun q => q <> p) (inflight w)
            /\ generation w' = generation w /\ nextId w' = nextId w
            /\ forall z, loads <$> stateAt z w'
                 = (fun st => if bool_decide (p_gen p = generation w
                                              /\ p_z p = z)
                              then delete (p_key p) (loads st)
                              else loads st) <$> stateAt z w) as Hfin.
  { intros w1 Hi1 Hg1 Hn1 Hl1. cbn zeta.
    destruct (onFinally_view p w1) as (Hi & Hg' & Hn & Hl).
    split; [rewrite Hi, Hi1; reflexivity |].
    split; [congruence |]. split; [congruence |].
    intros z. rewrite Hl. specialize (Hl1 z).
    destruct (stateAt z w1) as [s1 |], (stateAt z w) as [s0 |];
      try discriminate; [| reflexivity].
    injection Hl1 as Hl1. cbn. f_equal. rewrite Hl1.
    destruct (bool_decide_reflect (p_z p = z)) as [Hz | Hz].
    - rewrite bool_decide_eq_true_2 by auto. reflexivity.
    - rewrite bool_decide_eq_false_2 by tauto. reflexivity. }
  destruct s as [tex |].
  - unfold onFulfilled.
    destruct (recordCellSize_view cfg (p_z p) tex w0) as (Hb1 & Hi1 & Hg1 & Hn1).
    destruct (bindFetched_view p tex (recordCellSize cfg (p_z p) tex w0))
      as (Hi2 & Hg2 & Hn2 & Hl2).
    apply Hfin; [rewrite Hi2, Hi1; reflexivity | rewrite Hg2, Hg1; reflexivity
                | rewrite Hn2, Hn1; reflexivity |].
    intros z. rewrite Hl2. unfold stateAt. rewrite Hb1. reflexivity.
  - apply Hfin; reflexivity.
Qed.

Lemma settle_fetchInv (cfg : Config) (p : Pending) (s : Settlement)
    (w : World) : fetchInv w -> fetchInv (settle cfg p s w).
Proof.
  intros [[Hnd Hlt] Hb].
  destruct (settle_view cfg p s w) as (Hi & Hg & Hn & Hl).
  split; [split |].
  - rewrite Hi. apply (sublist_NoDup _ (p_id <$> inflight w));
      [exact Hnd | apply fmap_sublist, sublist_filter].
  - intros q. rewrite Hi, Hn. intros Hq.
    apply list_elem_of_filter in Hq as [_ Hq]. apply Hlt, Hq.
  - intros z st' Hs' k id Hk. specialize (Hl z). rewrite Hs' in Hl.
    destruct (stateAt z w) as [st |] eqn:Es; [| discriminate].
    injection Hl as Hl. rewrite Hl in Hk.
    assert (loads st !! k = Some id
            /\ ~ (p_gen p = generation w /\ p_z p = z /\ p_key p = k))
      as [Hk0 Hne].
    { case_bool_decide as Hc.
      - destruct (decide (p_key p = k)) as [<- | Hkk].
        + rewrite lookup_delete_eq in Hk. discriminate.
        + rewrite lookup_delete_ne in Hk by exact Hkk. split; [exact Hk |].
          tauto.
      - split; [exact Hk | tauto]. }
    destruct (Hb z st Es k id Hk0) as (q & Hq & Hid & Hz & Hkq & Hgq).
    exists q. split; [| repeat split; congruence].
    rewrite Hi. apply list_elem_of_filter. split; [| exact Hq].
    intros ->. apply Hne. auto.
Qed.

Lemma step_fetchInv (w : World) (a : Action) :
  fetchInv w -> fetchInv (step w a).
Proof.
  intros Hw. destruct a as [cfg f | cfg id s | t]; cbn.
  - apply update_fetchInv, Hw.
  - destruct (findPending id w); [apply settle_fetchInv, Hw | exact Hw].
  - apply clear_fetchInv, Hw.
Qed.

Lemma findPending_unique (w : World) (z : Z) (k : TileKey) (id : nat)
    (p : Pending) :
  idsSound w -> backs w z k id p -> findPending id w = Some p.
Proof.
  intros [Hnd _] (Hp & Hid & _). unfold findPending.
  destruct (List.find (fun q => Nat.eqb (p_id q) id) (inflight w))
    as [q |] eqn:E.
  - apply find_some in E as [Hq Hqid]. apply Nat.eqb_eq in Hqid.
    f_equal. apply list_elem_of_In in Hq.
    apply list_elem_of_lookup in Hq as [i Hi].
    apply list_elem_of_lookup in Hp as [j Hj].
    assert (i = j) as ->.
    { apply (NoDup_lookup _ i j id Hnd); rewrite list_lookup_fmap.
      - rewrite Hi. cbn. congruence.
      - rewrite Hj. cbn. congruence. }
    congruence.
  - exfalso. pose proof (find_none _ _ E p) as Hno. cbn beta in Hno.
    rewrite Hid, Nat.eqb_refl in Hno.
    specialize (Hno (proj1 (list_elem_of_In _ _) Hp)). discriminate.
Qed.

(** X19: through any history of frames, settled fetches and calls of
    [clear] on a new atlas, every entry of a loads map has its fetch in
    flight, for the same zoom and key; when that fetch settles, fulfilled
    or rejected, the entry is gone.  No key stays marked as loading for
    ever once its fetch has settled. *)
Theorem loads_are_backed_by_fetches (acts : list Action) (z : Z)
    (st : ZoomState) (k : TileKey) (id : nat) :
  stateAt z (run acts newWorld) = Some st ->
  loads st !! k = Some id ->
  exists p,
    findPending id (run acts newWorld) = Some p
    /\ p_z p = z /\ p_key p = k
    /\ forall cfg s st',
         stateAt z (step (run acts newWorld) (Settle cfg id s)) = Some st' ->
         loads st' !! k = None.
Proof.
  assert (fetchInv (run acts newWorld)) as [Hids Hb].
  { unfold run. apply fetchInv_fold; [intros; apply step_fetchInv; assumption |].
    split; [split; [constructor | intros p Hp; inversion Hp] |].
    intros z' st' Hs. unfold stateAt in Hs. cbn in Hs.
    rewrite lookup_empty in Hs. discriminate. }
  intros Hs Hk. destruct (Hb z st Hs k id Hk) as (p & Hp).
  pose proof (findPending_unique _ z k id p Hids Hp) as Hfind.
  exists p. split; [exact Hfind |].
  destruct Hp as (_ & _ & Hz & Hkp & Hg).
  split; [exact Hz |]. split; [exact Hkp |].
  intros cfg s st' Hs'. cbn [step] in Hs'. rewrite Hfind in Hs'.
  destruct (settle_view cfg p s (run acts newWorld)) as (_ & _ & _ & Hl).
  specialize (Hl z). rewrite Hs', Hs in Hl. injection Hl as Hl.
  rewrite Hl, bool_decide_eq_true_2 by auto.
  rewrite <- Hkp. apply lookup_delete_eq.
Qed.

Lemma loads_are_backed_by_fetches_witness :
  let w := run [Update trapezoidConfig (levelFrame 1000 0 0)] newWorld in
  exists p,
    findPending 1 w = Some p
    /\ p_z p = 5 /\ p_key p = _tileKey 5 16 15
    /\ forall cfg s st',
         stateAt 5 (step w (Settle cfg 1%nat s)) = Some st' ->
         loads st' !! _tileKey 5 16 15 = None.
Proof.
  intros w.
  apply (loads_are_backed_by_fetches
           [Update trapezoidConfig (levelFrame 1000 0 0)] 5
           (default stateZoom5 (stateAt 5 w)) (_tileKey 5 16 15) 1);
    vm_compute; reflexivity.
Defined.

(** ** The viewport bounds of the trapezoid strategy *)

Lemma qmin_upper (a b : Q) : (qmin a b <= b)%Q.
Proof.
  unfold qmin. destruct (qlt b a) eqn:E; [apply Qle_refl |].
  apply qlt_false in E. exact E.
Qed.

Lemma qmax_upper (a b : Q) : (b <= qmax a b)%Q.
Proof.
  unfold qmax. destruct (qlt a b) eqn:E; [apply Qle_refl |].
  apply qlt_false in E. exact E.
Qed.

Lemma rangeSquare_within (cm : Q * Q) (r : Q) :
  (0 <= r)%Q -> boxWithin (rangeSquare cm r) (rangeSquare cm r).
Proof.
  intros Hr. unfold boxWithin, rangeSquare. cbn.
  assert (forall a, a - r <= a + r)%Q as H.
  { intros a. apply Qplus_le_compat; [apply Qle_refl |].
    apply (Qle_trans _ 0); [exact (Qopp_le_compat 0 r Hr) | exact Hr]. }
  repeat split; try apply Qle_refl; apply H.
Qed.

(** X20: the viewport bounds of the trapezoid strategy exist exactly when
    the projection has a centre, and with a range that is not negative
    they are a box that is not empty and lies within the square of half
    side [maxRangeMeters] around the camera, however far away the rays
    through the viewport corners meet the ground. *)
Theorem viewport_bounds_within_range (f : Frame) (cm : Q * Q) :
  (0 <= maxRangeMeters f)%Q ->
  (viewportMercBounds f cm = None <-> hasCenterMercator f = false)
  /\ forall b, viewportMercBounds f cm = Some b ->
       boxWithin b (rangeSquare cm (maxRangeMeters f)).
Proof.
  intros Hr. pose proof (rangeSquare_within cm _ Hr) as Hsq.
  unfold viewportMercBounds.
  destruct (hasCenterMercator f); cbn [negb].
  2:{ split; [tauto | discriminate]. }
  set (sq := rangeSquare cm (maxRangeMeters f)) in *.
  destruct (omap id (cornerHits f)) as [| p0 [| p1 rest]].
  - split; [split; intros Hd; discriminate Hd |]. intros b [= <-]. exact Hsq.
  - split; [split; intros Hd; discriminate Hd |]. intros b [= <-]. exact Hsq.
  - match goal with |- context [fold_left growBounds ?l ?b0] =>
      set (bb := fold_left growBounds l b0) end.
    cbn [mbMaxX mbMinX mbMaxY mbMinY].
    destruct (qlt (qmin (mbMaxX bb) (mbMaxX sq)) (qmax (mbMinX bb) (mbMinX sq)))
      eqn:Ex; cbn [orb].
    { split; [split; intros Hd; discriminate Hd |]. intros b [= <-]. exact Hsq. }
    destruct (qlt (qmin (mbMaxY bb) (mbMaxY sq)) (qmax (mbMinY bb) (mbMinY sq)))
      eqn:Ey.
    { split; [split; intros Hd; discriminate Hd |]. intros b [= <-]. exact Hsq. }
    split; [split; intros Hd; discriminate Hd |]. intros b [= <-].
    apply qlt_false in Ex, Ey. unfold boxWithin. cbn.
    split; [apply qmax_upper |]. split; [exact Ex |].
    split; [apply qmin_upper |].
    split; [apply qmax_upper |]. split; [exact Ey | apply qmin_upper].
Qed.

Lemma viewport_bounds_within_range_witness :
  let f := levelFrame 1000 0 0 in
  (viewportMercBounds f (100%Q, 100%Q) = None
   <-> hasCenterMercator f = false)
  /\ forall b, viewportMercBounds f (100%Q, 100%Q) = Some b ->
       boxWithin b (rangeSquare (100%Q, 100%Q) (maxRangeMeters f)).
Proof.
  intros f. apply (viewport_bounds_within_range f (100%Q, 100%Q)).
  vm_compute. discriminate.
Defined.

(** ** The zoom states after a frame of the viewport strategy *)

Lemma zoomLevels_elem (lo hi z : Z) : z ∈ zoomLevels lo hi <-> lo <= z <= hi.
Proof.
  unfold zoomLevels, zrange. rewrite list_elem_of_In, <- in_rev.
  rewrite <- list_elem_of_In, elem_of_seqZ. lia.
Qed.

Lemma keySet_cellInfos (g : Grid) (l : list Candidate) (k : TileKey) :
  k ∈ keySet (cellInfosOf g l).*2
  <-> exists a, a ∈ l /\ c_key a = k
                /\ is_Some (cellIndex g (c_tileX a) (c_tileY a)).
Proof.
  unfold keySet. rewrite elem_of_list_to_set, list_elem_of_fmap. split.
  - intros (a & -> & Ha). apply list_elem_of_fmap in Ha as ([idx a'] & -> & Ha).
    apply cellInfosOf_elem in Ha as [Ha Hidx]. exists a'. cbn. eauto.
  - intros (a & Ha & <- & [idx Hidx]). exists a. split; [reflexivity |].
    apply list_elem_of_fmap. exists (idx, a). split; [reflexivity |].
    apply cellInfosOf_elem. auto.
Qed.

(** X21: after the viewport or bands strategy has run, the state of a zoom
    of the range that has candidates (and a camera tile) holds as active
    keys exactly the keys of the candidates that have a cell in its grid;
    a candidate that does not fit into the grid is neither pinned nor
    kept. *)
Theorem viewport_frame_holds_tiles_with_cells (cfg : Config) (f : Frame)
    (cm : Q * Q) (w : World) (z : Z) (c : Candidate) (cs : list Candidate)
    (center : Z * Z) :
  minTileZoom (plan f) <= z <= maxTileZoom (plan f) ->
  vp_rangePositive (plan f) z = true ->
  vp_candidates (plan f) z = c :: cs ->
  mercatorToTileXY f cm.1 cm.2 z = Some center ->
  exists st,
    stateAt z (updateViewport cfg f cm w) = Some st
    /\ forall k,
         k ∈ activeKeys st
         <-> exists a, a ∈ c :: cs /\ c_key a = k
                       /\ is_Some (cellIndex (grid st) (c_tileX a)
                                     (c_tileY a)).
Proof.
  intros Hz Hrange Hcands Hcenter. unfold updateViewport.
  apply (fold_levels_at _ _ _ z
           (fun o => exists st, o = Some st
              /\ forall k, k ∈ activeKeys st
                   <-> exists a, a ∈ c :: cs /\ c_key a = k
                         /\ is_Some (cellIndex (grid st) (c_tileX a)
                                       (c_tileY a))));
    [intros; apply processZoomViewport_onlyTouches
    | apply zoomLevels_NoDup | apply zoomLevels_elem, Hz |].
  intros w0. unfold processZoomViewport.
  rewrite Hrange, Hcenter, Hcands. cbn [negb].
  assert (forall a, a ∈ sortByDist (c :: cs) <-> a ∈ c :: cs) as Helem
    by apply (sortBy_elem c_rectDist).
  destruct (sortByDist (c :: cs)) as [| c0 rest] eqn:Esort.
  { exfalso. specialize (Helem c). rewrite elem_of_nil in Helem.
    apply Helem. left. }
  destruct (reconcileViewport_post cfg f z center c0 rest w0)
    as (st4 & Hst & Hshape & Hkeys & _).
  exists st4. split; [exact Hst |].
  intros k. rewrite Hkeys, keySet_cellInfos.
  destruct Hshape as (_ & Hg & _). rewrite Hg.
  rewrite (proj1 (ensureZoomState_grid _ _ _ _)).
  split; intros (a & Ha & Hk & Hc); exists a;
    (split; [apply Helem, Ha | auto]).
Qed.

Lemma viewport_frame_holds_tiles_with_cells_witness :
  let f := zoom12Frame 1000 in
  let cands := ringCandidates 12 2048 2047 1 9784 in
  exists st,
    stateAt 12 (updateViewport (repoConfig Viewport) f (100%Q, 100%Q)
                  newWorld) = Some st
    /\ forall k,
         k ∈ activeKeys st
         <-> exists a, a ∈ cand 12 2047 2046 9784 :: tail cands
                       /\ c_key a = k
                       /\ is_Some (cellIndex (grid st) (c_tileX a)
                                     (c_tileY a)).
Proof.
  intros f cands.
  apply (viewport_frame_holds_tiles_with_cells (repoConfig Viewport) f
           (100%Q, 100%Q) newWorld 12 (cand 12 2047 2046 9784) (tail cands)
           (2048, 2047));
    [vm_compute; split; discriminate | vm_compute; reflexivity ..].
Defined.

Lemma dropIf_fold (t : bool) (drop : Z -> bool) (l : list Z) (w : World)
    (z : Z) :
  stateAt z (fold_left (fun acc z0 => if drop z0 then disposeZoom t z0 acc
                                      else acc) l w)
  = if bool_decide (z ∈ l) && drop z then None else stateAt z w.
Proof.
  assert (fold_left (fun acc z0 => if drop z0 then disposeZoom t z0 acc
                                   else acc) l w
          = fold_left (fun acc z0 => if negb (drop z0) then acc
                                     else disposeZoom t z0 acc) l w) as ->.
  { revert w. induction l as [| a l IH]; intros w; cbn; [reflexivity |].
    rewrite IH. destruct (drop a); reflexivity. }
  rewrite (dropStale_fold t (fun z0 => negb (drop z0))), negb_involutive.
  reflexivity.
Qed.

Lemma updateViewport_states_in_range (cfg : Config) (f : Frame) (cm : Q * Q)
    (w : World) (z : Z) :
  is_Some (stateAt z (updateViewport cfg f cm w)) ->
  z ∈ zoomLevels (minTileZoom (plan f)) (maxTileZoom (plan f)).
Proof.
  intros Hs.
  destruct (decide (z ∈ zoomLevels (minTileZoom (plan f))
                         (maxTileZoom (plan f)))) as [Hl | Hl];
    [exact Hl | exfalso].
  unfold updateViewport in Hs.
  rewrite fold_levels_other in Hs;
    [| intros; apply processZoomViewport_onlyTouches | exact Hl].
  unfold dropStaleViewport in Hs.
  rewrite (dropIf_fold (tiles f)
             (fun z0 => (z0 <? minTileZoom (plan f))
                        || (maxTileZoom (plan f) <? z0)
                        || vp_noCoverage (plan f) z0)) in Hs.
  rewrite zoomLevels_elem in Hl.
  assert ((z <? minTileZoom (plan f)) || (maxTileZoom (plan f) <? z) = true)
    as Hout.
  { destruct (Z.ltb_spec z (minTileZoom (plan f))); [reflexivity |].
    destruct (Z.ltb_spec (maxTileZoom (plan f)) z); [reflexivity | lia]. }
  rewrite Hout in Hs. cbn [orb] in Hs. rewrite andb_true_r in Hs.
  destruct (bool_decide_reflect
              (z ∈ (map_to_list (byZoom (atlas w))).*1)) as [Hk | Hk];
    [destruct Hs; discriminate |].
  destruct Hs as [st Hs]. apply Hk. apply list_elem_of_fmap. exists (z, st).
  split; [reflexivity | apply elem_of_map_to_list; exact Hs].
Qed.

(** X24: after the viewport or bands strategy has run, a zoom has a state
    only if it lies in the range of the frame, has a positive range and,
    where the camera has a tile, candidates; and when the range spans at
    most four zooms there are at most four states, every one of them in
    [_getAtlasZoomSlots(4)]. *)
Theorem viewport_frame_keeps_only_covered_zooms (cfg : Config) (f : Frame)
    (cm : Q * Q) (w : World) (z : Z) :
  let w' := updateViewport cfg f cm w in
  is_Some (stateAt z w') ->
  minTileZoom (plan f) <= z <= maxTileZoom (plan f)
  /\ vp_rangePositive (plan f) z = true
  /\ (mercatorToTileXY f cm.1 cm.2 z = None
      \/ vp_candidates (plan f) z <> [])
  /\ (maxTileZoom (plan f) - minTileZoom (plan f) < 4 ->
      (size (byZoom (atlas w')) <= 4)%nat
      /\ z ∈ _getAtlasZoomSlots 4 w').
Proof.
  intros w' Hs.
  pose proof (updateViewport_states_in_range cfg f cm w z Hs) as Hl.
  split; [apply zoomLevels_elem, Hl |].
  assert (vp_rangePositive (plan f) z = true
          /\ (mercatorToTileXY f cm.1 cm.2 z = None
              \/ vp_candidates (plan f) z <> [])) as [Hr Hc].
  { revert Hs. unfold w', updateViewport.
    apply (fold_levels_at _ _ _ z
             (fun o => is_Some o ->
                vp_rangePositive (plan f) z = true
                /\ (mercatorToTileXY f cm.1 cm.2 z = None
                    \/ vp_candidates (plan f) z <> [])));
      [intros; apply processZoomViewport_onlyTouches
      | apply zoomLevels_NoDup | exact Hl |].
    intros w0. unfold processZoomViewport.
    destruct (vp_rangePositive (plan f) z); cbn [negb].
    2:{ rewrite stateAt_disposeZoom, bool_decide_eq_true_2 by reflexivity.
        intros [? H]. discriminate. }
    destruct (mercatorToTileXY f cm.1 cm.2 z) as [center |]; [| auto].
    destruct (vp_candidates (plan f) z) as [| c cs].
    { rewrite stateAt_disposeZoom, bool_decide_eq_true_2 by reflexivity.
      intros [? H]. discriminate. }
    intros _. split; [reflexivity |]. right. discriminate. }
  split; [exact Hr |]. split; [exact Hc |].
  intros Hspan.
  assert (length (zoomLevels (minTileZoom (plan f)) (maxTileZoom (plan f)))
          <= 4)%nat as Hlen.
  { unfold zoomLevels, zrange. rewrite length_rev, length_seqZ. lia. }
  destruct (slots_hold_all w' _
              (updateViewport_states_in_range cfg f cm w)
              (zoomLevels_NoDup _ _) Hlen) as [Hsize Hslots].
  split; [exact Hsize | apply Hslots, Hs].
Qed.

Lemma viewport_frame_keeps_only_covered_zooms_witness :
  let f := zoom12Frame 1000 in
  let w' := updateViewport (repoConfig Viewport) f (100%Q, 100%Q) newWorld in
  minTileZoom (plan f) <= 12 <= maxTileZoom (plan f)
  /\ vp_rangePositive (plan f) 12 = true
  /\ (mercatorToTileXY f 100 100 12 = None
      \/ vp_candidates (plan f) 12 <> [])
  /\ (maxTileZoom (plan f) - minTileZoom (plan f) < 4 ->
      (size (byZoom (atlas w')) <= 4)%nat
      /\ 12 ∈ _getAtlasZoomSlots 4 w').
Proof.
  intros f w'.
  apply (viewport_frame_keeps_only_covered_zooms (repoConfig Viewport) f
           (100%Q, 100%Q) newWorld 12).
  vm_compute. eauto.
Defined.

(** ** Every state has a cell per tile of its grid *)

Lemma stateOk_shape (z : Z) (st st' : ZoomState) :
  sameShape st st' -> stateOk z st -> stateOk z st'.
Proof.
  intros (Hz & Hg & Hc & _ & _ & Hl) (Hz0 & Hc0 & Hl0).
  unfold stateOk. rewrite Hz, Hg, Hc, Hl. auto.
Qed.

Lemma statesOk_shapes (w w' : World) :
  (forall z st', stateAt z w' = Some st' ->
     exists st, stateAt z w = Some st /\ sameShape st st') ->
  statesOk w -> statesOk w'.
Proof.
  intros H Hw z st' Hs. destruct (H z st' Hs) as (st & Hst & Hsh).
  apply (stateOk_shape z st st' Hsh). apply Hw, Hst.
Qed.

Lemma statesOk_same (w w' : World) :
  byZoom (atlas w') = byZoom (atlas w) -> statesOk w -> statesOk w'.
Proof.
  intros Hb. apply statesOk_shapes. intros z st' Hs. exists st'.
  unfold stateAt in *. rewrite <- Hb. split; [exact Hs | apply sameShape_refl].
Qed.

Lemma statesOk_fold {A : Type} (g : World -> A -> World) (l : list A)
    (w : World) :
  (forall w a, statesOk w -> statesOk (g w a)) ->
  statesOk w -> statesOk (fold_left g l w).
Proof.
  intros Hg. revert w. induction l as [| a l IH]; intros w Hw; cbn;
    [exact Hw | apply IH, Hg, Hw].
Qed.

Lemma disposeZoom_statesOk (t : bool) (z0 : Z) (w : World) :
  statesOk w -> statesOk (disposeZoom t z0 w).
Proof.
  apply statesOk_shapes. intros z st'. rewrite stateAt_disposeZoom.
  case_bool_decide; [discriminate |]. intros Hs. exists st'.
  split; [exact Hs | apply sameShape_refl].
Qed.

Lemma clampCell_range (v : Z) : 32 <= clampCell v <= 2048.
Proof. unfold clampCell. lia. Qed.

Lemma desiredCellSizeAt_range (cfg : Config) (z : Z) (w : World) :
  32 <= desiredCellSizeAt cfg z w <= 2048.
Proof.
  unfold desiredCellSizeAt, resolveCellSize.
  destruct (getCellSizeOverride cfg z); apply clampCell_range.
Qed.

(** The state that [_ensureZoomState] returns for a cell size between 32
    and 2048 is well formed, once the states it found were. *)
Lemma ensureZoomState_statesOk (z : Z) (g : Grid) (c : Z) (w : World) :
  32 <= c <= 2048 ->
  statesOk w ->
  statesOk (_ensureZoomState z g (Some c) w).2
  /\ stateOk z (_ensureZoomState z g (Some c) w).1.
Proof.
  intros Hc Hw.
  assert (stateOk z (_ensureZoomState z g (Some c) w).1) as Hst.
  { unfold _ensureZoomState.
    rewrite (normCellSize_valid w c) by lia.
    assert (forall id mip old,
              stateOk z (recreatedState z g c id mip old)) as Hnew.
    { intros id mip old. split; [reflexivity |]. split; [exact Hc |].
      cbn. unfold blankMeshes. apply length_replicate. }
    destruct (stateAt z w) as [s |] eqn:Es.
    - destruct (_ || _); [unfold freshId; cbn [fst]; apply Hnew |].
      apply Hw, Es.
    - unfold freshId. cbn [fst]. apply Hnew. }
  split; [| exact Hst].
  destruct (ensureZoomState_facts z g (Some c) w) as (Hreg & Hother & _).
  intros z' st' Hs. destruct (decide (z' = z)) as [-> | Hz].
  - rewrite Hreg in Hs. injection Hs as <-. exact Hst.
  - rewrite (Hother z' Hz) in Hs. apply Hw, Hs.
Qed.

Lemma reconciled_statesOk (z : Z) (st st4 : ZoomState) (w1 w' : World) :
  statesOk w1 -> stateOk z st ->
  stateAt z w' = Some st4 -> sameShape st st4 -> onlyTouches z w1 w' ->
  statesOk w'.
Proof.
  intros H1 Hst H4 Hsh Ho z' st' Hs. destruct (decide (z' = z)) as [-> | Hz].
  - rewrite H4 in Hs. injection Hs as <-. apply (stateOk_shape z st); assumption.
  - rewrite (Ho z' Hz) in Hs. apply H1, Hs.
Qed.

Lemma updateTrapezoid_statesOk (cfg : Config) (f : Frame) (cm : Q * Q)
    (w : World) : statesOk w -> statesOk (updateTrapezoid cfg f cm w).
Proof.
  intros Hw. unfold updateTrapezoid. apply statesOk_fold.
  - intros w0 z Hw0. unfold processZoomTrapezoid.
    destruct (default [] (tilesByZoom (selectTrapezoid cfg f cm) !! z))
      as [| c cs]; [apply disposeZoom_statesOk, Hw0 |].
    destruct (sortByDist (c :: cs)) as [| c0 rest]; [exact Hw0 |].
    destruct (mercatorToTileXY f cm.1 cm.2 z) as [center |]; [| exact Hw0].
    destruct (reconcileTrapezoid_post cfg f z center c0 rest w0)
      as (st4 & H4 & Hsh & _ & Ho & _).
    destruct (ensureZoomState_statesOk z
                (trapezoidGrid (wantsMipmaps w0) z center (extentOf c0 rest))
                _ w0 (desiredCellSizeAt_range cfg z w0) Hw0) as [H1 Hst].
    eapply reconciled_statesOk; eassumption.
  - unfold dropStaleTrapezoid. apply statesOk_fold; [| exact Hw].
    intros w0 z Hw0.
    case_bool_decide; [exact Hw0 | apply disposeZoom_statesOk, Hw0].
Qed.

Lemma updateViewport_statesOk (cfg : Config) (f : Frame) (cm : Q * Q)
    (w : World) : statesOk w -> statesOk (updateViewport cfg f cm w).
Proof.
  intros Hw. unfold updateViewport. apply statesOk_fold.
  - intros w0 z Hw0. unfold processZoomViewport.
    destruct (negb (vp_rangePositive (plan f) z));
      [apply disposeZoom_statesOk, Hw0 |].
    destruct (mercatorToTileXY f cm.1 cm.2 z) as [center |]; [| exact Hw0].
    destruct (vp_candidates (plan f) z) as [| c cs];
      [apply disposeZoom_statesOk, Hw0 |].
    destruct (sortByDist (c :: cs)) as [| c0 rest]; [exact Hw0 |].
    destruct (reconcileViewport_post cfg f z center c0 rest w0)
      as (st4 & H4 & Hsh & _ & Ho & _).
    match type of Hsh with
    | sameShape (_ensureZoomState z ?g _ w0).1 _ =>
        destruct (ensureZoomState_statesOk z g _ w0
                    (desiredCellSizeAt_range cfg z w0) Hw0) as [H1 Hst]
    end.
    eapply reconciled_statesOk; eassumption.
  - unfold dropStaleViewport. apply statesOk_fold; [| exact Hw].
    intros w0 z Hw0.
    match goal with |- context [if ?b then _ else _] => destruct b end;
      [apply disposeZoom_statesOk, Hw0 | exact Hw0].
Qed.

Lemma clear_statesOk (t : bool) (w : World) : statesOk (clear t w).
Proof.
  intros z st Hs. unfold stateAt in Hs. cbn in Hs.
  rewrite lookup_empty in Hs. discriminate.
Qed.

Lemma update_statesOk (cfg : Config) (f : Frame) (w : World) :
  statesOk w -> statesOk (update cfg f w).
Proof.
  intros Hw. unfold update, updateWith.
  assert (statesOk (syncOpts cfg w)) as H0.
  { destruct (syncOpts_atlas cfg w) as (Ha & _).
    apply (statesOk_same w); [rewrite Ha; reflexivity | exact Hw]. }
  assert (forall w0, statesOk w0 ->
            statesOk (if negb (bool_decide (byZoom (atlas w0) = ∅))
                      then clear (tiles f) w0 else w0)) as Hclear.
  { intros w0 Hw0. destruct (negb _); [apply clear_statesOk | exact Hw0]. }
  destruct (negb (mapDrapeShaderPatchEnabled cfg)); [apply Hclear, H0 |].
  destruct (aboveEnableHeight cfg f); [apply Hclear, H0 |].
  pose proof (debounceGate_keeps cfg f (syncOpts cfg w)) as Hd.
  cbn zeta in Hd.
  destruct (debounceGate cfg f (syncOpts cfg w)) as [w1 suppressed].
  cbn [fst] in Hd. destruct Hd as (Hb & _).
  assert (statesOk w1) as H1 by (apply (statesOk_same _ _ Hb), H0).
  destruct suppressed; [exact H1 |].
  destruct (qlt (now f - lastUpdate (atlas w1)) (updateMs cfg)); [exact H1 |].
  set (w2 := setGate (lastView (atlas w1)) (lastMoveAt (atlas w1)) (now f) w1).
  assert (statesOk w2) as H2 by (apply (statesOk_same w1); [reflexivity | exact H1]).
  destruct (camMerc f) as [cm |]; [| exact H2].
  destruct (lodMode cfg); cbn [fst];
    [apply updateTrapezoid_statesOk | apply updateViewport_statesOk
     | apply updateViewport_statesOk]; exact H2.
Qed.

Lemma settle_statesOk (cfg : Config) (p : Pending) (s : Settlement)
    (w : World) : statesOk w -> statesOk (settle cfg p s w).
Proof.
  assert (forall w0, statesOk w0 -> statesOk (onFinally p w0)) as Hfin.
  { intros w0. apply statesOk_shapes. intros z st'. unfold onFinally.
    destruct (stateAt (p_z p) w0) as [st |] eqn:Est.
    - rewrite stateAt_putState. case_bool_decide as Hz.
      + subst z. intros [= <-]. exists st.
        split; [exact Est | repeat split; reflexivity].
      + intros Hs. exists st'. split; [exact Hs | apply sameShape_refl].
    - intros Hs. exists st'. split; [exact Hs | apply sameShape_refl]. }
  assert (forall tex w0, statesOk w0 -> statesOk (bindFetched p tex w0))
    as Hbind.
  { intros tex w0. apply statesOk_shapes. intros z st'. unfold bindFetched.
    destruct (stateAt (p_z p) w0) as [st |] eqn:Est;
      [| intros Hs; exists st'; split; [exact Hs | apply sameShape_refl]].
    destruct (bool_decide (p_key p ∈ activeKeys st));
      [| intros Hs; exists st'; split; [exact Hs | apply sameShape_refl]].
    assert (forall st1, sameShape st st1 ->
              stateAt z (putState (p_z p) st1 w0) = Some st' ->
              exists st0, stateAt z w0 = Some st0 /\ sameShape st0 st')
      as Hput.
    { intros st1 Hsh. rewrite stateAt_putState. case_bool_decide as Hz.
      - subst z. intros [= <-]. exists st. auto.
      - intros Hs. exists st'. split; [exact Hs | apply sameShape_refl]. }
    repeat match goal with
           | |- context [match ?o with Some _ => _ | None => _ end] =>
               destruct o
           end; apply Hput;
      try (repeat split; reflexivity).
    eapply sameShape_trans; [| apply withCell_shape].
    repeat split; reflexivity. }
  assert (forall tex w0, statesOk w0 ->
            statesOk (recordCellSize cfg (p_z p) tex w0)) as Hrec.
  { intros tex w0.
    destruct (recordCellSize_keeps cfg (p_z p) tex w0) as (Hb & _).
    apply statesOk_same, Hb. }
  intros Hw. unfold settle.
  set (w0 := setInflight (filter (fun q => q <> p) (inflight w)) w).
  assert (statesOk w0) as H0 by (apply (statesOk_same w); [reflexivity | exact Hw]).
  case_bool_decide; [| exact H0].
  destruct s as [tex |]; [| apply Hfin, H0].
  unfold onFulfilled. apply Hfin, Hbind, Hrec, H0.
Qed.

(** X22: through any history of frames, settled fetches and calls of
    [clear] on a new atlas, every registered state knows the zoom it is
    registered under, has a cell size between 32 and 2048 pixels, and has
    exactly [gridSize * gridSize] cells, so every tile inside its grid has
    a cell with a material. *)
Theorem reachable_states_have_a_cell_per_tile (acts : list Action) (z : Z)
    (st : ZoomState) :
  stateAt z (run acts newWorld) = Some st ->
  zs_z st = z
  /\ 32 <= cellSize st <= 2048
  /\ length (meshes st)
     = (Z.to_nat (gridSize (grid st)) * Z.to_nat (gridSize (grid st)))%nat
  /\ forall tx ty idx,
       cellIndex (grid st) tx ty = Some idx -> is_Some (meshes st !! idx).
Proof.
  assert (statesOk (run acts newWorld)) as Hok.
  { unfold run. apply statesOk_fold.
    - intros w a Hw. destruct a as [cfg f | cfg id s | t]; cbn.
      + apply update_statesOk, Hw.
      + destruct (findPending id w); [apply settle_statesOk, Hw | exact Hw].
      + apply clear_statesOk.
    - intros z' st' Hs. unfold stateAt in Hs. cbn in Hs.
      rewrite lookup_empty in Hs. discriminate. }
  intros Hs. destruct (Hok z st Hs) as (Hz & Hc & Hl).
  split; [exact Hz |]. split; [exact Hc |]. split; [exact Hl |].
  intros tx ty idx Hidx. apply lookup_lt_is_Some. rewrite Hl.
  apply cellIndex_Some in Hidx as (Hx & Hy & Hi). nia.
Qed.

Lemma reachable_states_have_a_cell_per_tile_witness :
  let w := run [Update trapezoidConfig (levelFrame 1000 0 0)] newWorld in
  let st := default stateZoom5 (stateAt 5 w) in
  zs_z st = 5
  /\ 32 <= cellSize st <= 2048
  /\ length (meshes st)
     = (Z.to_nat (gridSize (grid st)) * Z.to_nat (gridSize (grid st)))%nat
  /\ forall tx ty idx,
       cellIndex (grid st) tx ty = Some idx -> is_Some (meshes st !! idx).
Proof.
  intros w st.
  apply (reachable_states_have_a_cell_per_tile
           [Update trapezoidConfig (levelFrame 1000 0 0)] 5 st).
  vm_compute. reflexivity.
Defined.

(** ** Cell sizes reported by textures *)

Lemma ensureZoomState_pending (z : Z) (g : Grid) (c : option Z) (w : World) :
  pendingCellSizeByZoom (atlas (_ensureZoomState z g c w).2)
  = pendingCellSizeByZoom (atlas w).
Proof.
  unfold _ensureZoomState.
  destruct (stateAt z w); [destruct (_ || _) |]; reflexivity.
Qed.

Lemma issueFetch_pending (t : bool) (z : Z) (c : Candidate) (st : ZoomState)
    (w : World) :
  pendingCellSizeByZoom (atlas (issueFetch t z c st w).2)
  = pendingCellSizeByZoom (atlas w).
Proof. unfold issueFetch. destruct t; reflexivity. Qed.

Lemma issueStepTrapezoid_pending (t : bool) (q z : Z) (D : gset TileKey)
    (acc : IssueAcc) (c : Candidate) :
  pendingCellSizeByZoom (atlas (issueStepTrapezoid t q z D acc c).2)
  = pendingCellSizeByZoom (atlas acc.2).
Proof.
  destruct acc as [[issued st] w]. unfold issueStepTrapezoid.
  repeat match goal with
         | |- context [match ?o with Some _ => _ | None => _ end] =>
             destruct o
         | |- context [if ?b then _ else _] => destruct b
         end; try reflexivity.
  pose proof (issueFetch_pending t z c st w) as H.
  destruct (issueFetch t z c st w). exact H.
Qed.

Lemma issueStepViewport_pending (t : bool) (q z : Z) (acc : IssueAcc)
    (ci : nat * Candidate) :
  pendingCellSizeByZoom (atlas (issueStepViewport t q z acc ci).2)
  = pendingCellSizeByZoom (atlas acc.2).
Proof.
  destruct acc as [[issued st] w], ci as [idx c]. unfold issueStepViewport.
  repeat match goal with
         | |- context [match ?o with Some _ => _ | None => _ end] =>
             destruct o
         | |- context [if ?b then _ else _] => destruct b
         end; try reflexivity.
  pose proof (issueFetch_pending t z c st w) as H.
  destruct (issueFetch t z c st w). exact H.
Qed.

Lemma issueLoop_pending {A : Type} (g : IssueAcc -> A -> IssueAcc)
    (l : list A) (acc : IssueAcc) :
  (forall acc a, pendingCellSizeByZoom (atlas (g acc a).2)
                 = pendingCellSizeByZoom (atlas acc.2)) ->
  pendingCellSizeByZoom (atlas (fold_left g l acc).2)
  = pendingCellSizeByZoom (atlas acc.2).
Proof.
  intros Hg. revert acc. induction l as [| a l IH]; intros acc; cbn;
    [reflexivity | rewrite IH; apply Hg].
Qed.

(** The pending cell size of zoom [z] is consumed by the reconciliation
    that follows [_ensureZoomState] with the desired cell size [c]. *)
Lemma settlePendingCell_consumes (z c : Z) (st : ZoomState) (w : World) :
  cellSize st = c ->
  pendingCellSizeByZoom (atlas (settlePendingCell z c st w))
  = delete z (pendingCellSizeByZoom (atlas w)).
Proof.
  intros Hc. unfold settlePendingCell.
  destruct (bool_decide_reflect
              (is_Some (pendingCellSizeByZoom (atlas w) !! z))) as [Hp | Hp].
  - rewrite Hc, Z.eqb_refl. reflexivity.
  - cbn [andb]. symmetry. apply delete_id.
    destruct (pendingCellSizeByZoom (atlas w) !! z) eqn:E; [| reflexivity].
    exfalso. apply Hp. eauto.
Qed.

Lemma reconcile_pending (t : bool) (z c : Z) (D : gset TileKey) (w1 : World)
    (st st4 : ZoomState) (w5 : World) :
  cellSize st = c ->
  pendingCellSizeByZoom (atlas w5)
  = pendingCellSizeByZoom
      (atlas (reconcilePins t z D st (settlePendingCell z c st w1)).2) ->
  pendingCellSizeByZoom (atlas (putState z st4 w5))
  = delete z (pendingCellSizeByZoom (atlas w1)).
Proof.
  intros Hc H5. cbn [putState setByZoom setAtlas atlas pendingCellSizeByZoom].
  rewrite H5. unfold reconcilePins. destruct t; cbn [snd emitAll atlas];
    apply settlePendingCell_consumes, Hc.
Qed.

Lemma ensureZoomState_desired (cfg : Config) (z : Z) (g : Grid) (w : World) :
  cellSize (_ensureZoomState z g (Some (desiredCellSizeAt cfg z w)) w).1
  = desiredCellSizeAt cfg z w.
Proof.
  rewrite (proj2 (ensureZoomState_grid _ _ _ _)).
  apply normCellSize_valid. pose proof (desiredCellSizeAt_range cfg z w). lia.
Qed.

Lemma reconcileTrapezoid_pending (cfg : Config) (f : Frame) (z : Z)
    (center : Z * Z) (c0 : Candidate) (rest : list Candidate) (w : World) :
  pendingCellSizeByZoom
    (atlas (reconcileTrapezoid cfg f z center c0 rest w))
  = delete z (pendingCellSizeByZoom (atlas w)).
Proof.
  unfold reconcileTrapezoid.
  set (g := trapezoidGrid (wantsMipmaps w) z center (extentOf c0 rest)).
  set (c := desiredCellSizeAt cfg z w).
  pose proof (ensureZoomState_desired cfg z g w) as Hc.
  pose proof (ensureZoomState_pending z g (Some c) w) as Hp. fold c in Hc.
  destruct (_ensureZoomState z g (Some c) w) as [st w1].
  cbn [fst snd] in Hc, Hp. rewrite <- Hp.
  set (D := keySet (c0 :: rest)).
  pose proof (reconcile_pending (tiles f) z c D w1 st) as Hfin.
  destruct (reconcilePins (tiles f) z D st (settlePendingCell z c st w1))
    as [st1 w3]. cbn [snd] in Hfin.
  destruct (mapDrapeSkipTileLoad cfg); [apply Hfin; auto |].
  pose proof (issueLoop_pending
                (issueStepTrapezoid (tiles f) (maxNewLoadsPerTick w) z D)
                (c0 :: rest) (0, dropTextures D st1, w3)
                (issueStepTrapezoid_pending _ _ z D)) as Hloop.
  destruct (fold_left (issueStepTrapezoid (tiles f) (maxNewLoadsPerTick w) z D)
              (c0 :: rest) (0, dropTextures D st1, w3))
    as [[issued st3] w4].
  cbn [fst snd] in Hloop.
  assert (pendingCellSizeByZoom (atlas (renderIfDirty z st3 w4).2)
          = pendingCellSizeByZoom (atlas w3)) as Hr
    by (unfold renderIfDirty; destruct (dirty st3); exact Hloop).
  destruct (renderIfDirty z st3 w4) as [st4 w5]. apply Hfin; auto.
Qed.

Lemma reconcileViewport_pending (cfg : Config) (f : Frame) (z : Z)
    (center : Z * Z) (c0 : Candidate) (rest : list Candidate) (w : World) :
  pendingCellSizeByZoom
    (atlas (reconcileViewport cfg f z center c0 rest w))
  = delete z (pendingCellSizeByZoom (atlas w)).
Proof.
  unfold reconcileViewport.
  set (c := desiredCellSizeAt cfg z w).
  match goal with |- context [_ensureZoomState z ?g0 (Some c) w] =>
    set (g := g0) end.
  pose proof (ensureZoomState_desired cfg z g w) as Hc.
  pose proof (ensureZoomState_pending z g (Some c) w) as Hp. fold c in Hc.
  destruct (_ensureZoomState z g (Some c) w) as [st w1].
  cbn [fst snd] in Hc, Hp. rewrite <- Hp.
  set (D := keySet (cellInfosOf g (c0 :: rest)).*2).
  pose proof (reconcile_pending (tiles f) z c D w1 st) as Hfin.
  destruct (reconcilePins (tiles f) z D st (settlePendingCell z c st w1))
    as [st1 w3]. cbn [snd] in Hfin.
  destruct (mapDrapeSkipTileLoad cfg); [apply Hfin; auto |].
  match goal with |- context [fold_left ?step ?l (0, dropTextures D st1, w3)] =>
    pose proof (issueLoop_pending step l (0, dropTextures D st1, w3)
                  (issueStepViewport_pending _ _ z)) as Hloop;
    destruct (fold_left step l (0, dropTextures D st1, w3))
      as [[issued st3] w4]
  end.
  cbn [fst snd] in Hloop.
  assert (pendingCellSizeByZoom (atlas (renderIfDirty z st3 w4).2)
          = pendingCellSizeByZoom (atlas w3)) as Hr
    by (unfold renderIfDirty; destruct (dirty st3); exact Hloop).
  destruct (renderIfDirty z st3 w4) as [st4 w5]. apply Hfin; auto.
Qed.

(** X23: a reconciliation of zoom [z], by either strategy, consumes the
    cell size that a texture has reported for [z]: afterwards
    [pendingCellSizeByZoom] has no entry for [z] (the entries of the other
    zooms stay), and the state has the resolved cell size, which without
    an override in the configuration is the reported size clamped to
    32 .. 2048. *)
Theorem reconciliation_consumes_pending_cell_size (cfg : Config) (f : Frame)
    (z : Z) (center : Z * Z) (c0 : Candidate) (rest : list Candidate)
    (w : World) :
  let consumed (w' : World) :=
    pendingCellSizeByZoom (atlas w')
    = delete z (pendingCellSizeByZoom (atlas w))
    /\ exists st, stateAt z w' = Some st
                  /\ cellSize st = desiredCellSizeAt cfg z w in
  consumed (reconcileTrapezoid cfg f z center c0 rest w)
  /\ consumed (reconcileViewport cfg f z center c0 rest w)
  /\ forall a, pendingCellSizeByZoom (atlas w) !! z = Some a -> a <> 0 ->
       getCellSizeOverride cfg z = None ->
       desiredCellSizeAt cfg z w = clampCell a.
Proof.
  cbn zeta. split; [| split].
  - split; [apply reconcileTrapezoid_pending |].
    destruct (reconcileTrapezoid_post cfg f z center c0 rest w)
      as (st4 & H4 & (_ & _ & Hc & _) & _).
    exists st4. split; [exact H4 |]. rewrite Hc.
    apply ensureZoomState_desired.
  - split; [apply reconcileViewport_pending |].
    destruct (reconcileViewport_post cfg f z center c0 rest w)
      as (st4 & H4 & (_ & _ & Hc & _) & _).
    exists st4. split; [exact H4 |]. rewrite Hc.
    apply ensureZoomState_desired.
  - intros a Ha Hne Hov. unfold desiredCellSizeAt, resolveCellSize.
    rewrite Hov. unfold cellSizeFallback. rewrite Ha. cbn [orElse].
    destruct (Z.eqb_spec a 0); [contradiction | reflexivity].
Qed.

(** ** The bands found by bisection *)

Lemma bisectBand_spec (n : nat) (zoomAt : Q -> Z) (z : Z) (lo hi : Q) :
  z <= zoomAt lo -> zoomAt hi < z -> (lo < hi)%Q ->
  let r := bisectBand n zoomAt z lo hi in
  z <= zoomAt r.1 /\ zoomAt r.2 < z
  /\ (lo <= r.1)%Q /\ (r.1 < r.2)%Q /\ (r.2 <= hi)%Q
  /\ (r.2 - r.1 == (hi - lo) / inject_Z (2 ^ Z.of_nat n))%Q.
Proof.
  revert lo hi. induction n as [| n IH]; intros lo hi Hlo Hhi Hlt.
  - cbn zeta. cbn [bisectBand fst snd].
    split; [exact Hlo |]. split; [exact Hhi |].
    split; [lra |]. split; [exact Hlt |]. split; [lra |].
    change (inject_Z (2 ^ Z.of_nat 0)) with 1%Q. field.
  - cbn zeta. cbn [bisectBand].
    set (mid := ((lo + hi) * (1 # 2))%Q).
    assert (lo < mid /\ mid < hi)%Q as [Hl Hh] by (unfold mid; split; lra).
    assert (inject_Z (2 ^ Z.of_nat (S n))
            == 2 * inject_Z (2 ^ Z.of_nat n))%Q as Hpow.
    { rewrite Nat2Z.inj_succ, Z.pow_succ_r by lia.
      rewrite inject_Z_mult. reflexivity. }
    assert (0 < inject_Z (2 ^ Z.of_nat n))%Q as Hpos.
    { change 0%Q with (inject_Z 0). rewrite <- Zlt_Qlt.
      apply Z.pow_pos_nonneg; lia. }
    destruct (Z.leb_spec z (zoomAt mid)) as [Hm | Hm].
    + destruct (IH mid hi Hm Hhi Hh) as (H1 & H2 & H3 & H4 & H5 & H6).
      split; [exact H1 |]. split; [exact H2 |].
      split; [lra |]. split; [exact H4 |]. split; [exact H5 |].
      rewrite H6, Hpow. unfold mid. field. lra.
    + destruct (IH lo mid Hlo Hm Hl) as (H1 & H2 & H3 & H4 & H5 & H6).
      split; [exact H1 |]. split; [exact H2 |].
      split; [exact H3 |]. split; [exact H4 |]. split; [lra |].
      rewrite H6, Hpow. unfold mid. field. lra.
Qed.

Lemma bandOfZoom_spec (zoomAt : Q -> Z) (maxRange : Q) (z : Z) (b : Band) :
  bandOfZoom zoomAt maxRange z = Some b ->
  bandZoom b = z /\ (0 < maxDist b)%Q /\ (maxDist b <= maxRange)%Q
  /\ bandTight zoomAt maxRange b.
Proof.
  unfold bandOfZoom.
  destruct (Z.ltb_spec (zoomAt 0%Q) z) as [| H0]; [discriminate |].
  destruct (Qle_bool maxRange 0) eqn:Er; [discriminate |].
  assert (0 < maxRange)%Q as Hr.
  { apply Qnot_le_lt. intros Hle. apply Qle_bool_iff in Hle. congruence. }
  destruct (Z.leb_spec z (zoomAt maxRange)) as [Hfull | Hfar].
  - intros [= <-]. cbn. split; [reflexivity |]. split; [exact Hr |].
    split; [lra |]. split; [exact Hfull | left; reflexivity].
  - pose proof (bisectBand_spec 24 zoomAt z 0%Q maxRange H0 Hfar Hr)
      as (H1 & H2 & H3 & H4 & H5 & H6).
    cbv zeta in H1, H2, H3, H4, H5, H6 |- *.
    change (Z.of_nat 24) with 24 in H6.
    generalize dependent (bisectBand 24 zoomAt z 0%Q maxRange).
    intros [lo hi]. cbn [fst snd]. intros H1 H2 H3 H4 H5 H6.
    destruct (qlt 0 lo) eqn:Epos; [| intros Hd; discriminate Hd].
    apply qlt_true in Epos. intros Hb.
    assert (b = mkBand lo z) as -> by congruence.
    unfold bandTight. cbn [bandZoom maxDist].
    split; [reflexivity |]. split; [exact Epos |]. split; [lra |].
    split; [exact H1 |]. right.
    exists hi.
    split; [exact H4 |]. split; [exact H5 |]. split; [exact H2 |].
    rewrite H6. unfold Qminus.
    apply Qdiv_comp; [| reflexivity]. ring.
Qed.

Lemma bandsLoop_zooms (zoomAt : Q -> Z) (maxRange : Q) (minZ maxZ : Z) :
  sublist (bandZoom <$> bandsLoop zoomAt maxRange minZ maxZ)
    (zrange minZ maxZ).
Proof.
  unfold bandsLoop. induction (zrange minZ maxZ) as [| z l IH]; cbn;
    [constructor |].
  destruct (bandOfZoom zoomAt maxRange z) as [b |] eqn:E; cbn.
  - apply bandOfZoom_spec in E as (-> & _). apply sublist_skip, IH.
  - apply sublist_cons, IH.
Qed.

Lemma StronglySorted_sublist {A : Type} (R : A -> A -> Prop) (l k : list A) :
  sublist l k -> StronglySorted R k -> StronglySorted R l.
Proof.
  induction 1 as [| x l k Hs IH | x l k Hs IH]; intros Hk.
  - constructor.
  - apply StronglySorted_inv in Hk as [Hk Hx].
    constructor; [apply IH, Hk |].
    apply Forall_forall. intros y Hy.
    apply (proj1 (Forall_forall _ _) Hx), (elem_of_sublist l k y Hy Hs).
  - apply StronglySorted_inv in Hk as [Hk _]. apply IH, Hk.
Qed.

Lemma zrange_ascending (lo hi : Z) :
  StronglySorted Z.lt (zrange lo hi).
Proof.
  unfold zrange, seqZ.
  generalize (Z.to_nat (hi - lo + 1)) 0%nat. intros n.
  induction n as [| n IH]; intros s; cbn; constructor; [apply IH |].
  apply Forall_fmap, Forall_forall. intros i Hi.
  apply elem_of_seq in Hi. cbn. lia.
Qed.

(** X25: every band that the bisection of the viewport and bands
    strategies produces is for a zoom between [minZ] and [maxZ], ends at a
    positive distance within the range, and at that distance the wanted
    zoom is still at least the zoom of the band; unless the band spans the
    whole range, the wanted zoom is lower within [maxRange / 2^24] beyond
    it.  The bands come in strictly ascending order of zoom, and the band
    list handed on is never empty. *)
Theorem bands_end_where_the_zoom_is_wanted (zoomAt : Q -> Z) (maxRange : Q)
    (minZ maxZ : Z) :
  Forall (fun b => minZ <= bandZoom b <= maxZ
                   /\ (0 < maxDist b)%Q /\ (maxDist b <= maxRange)%Q
                   /\ bandTight zoomAt maxRange b)
    (bandsLoop zoomAt maxRange minZ maxZ)
  /\ StronglySorted Z.lt (bandZoom <$> bandsLoop zoomAt maxRange minZ maxZ)
  /\ viewportBands zoomAt maxRange minZ maxZ <> []
  /\ forall radius, autoBands zoomAt maxRange radius minZ maxZ <> [].
Proof.
  split; [| split; [| split]].
  - apply Forall_forall. intros b Hb. unfold bandsLoop in Hb.
    apply list_elem_of_omap in Hb as (z & Hz & Hb).
    apply bandOfZoom_spec in Hb as (Hbz & Hpos & Hle & Htight).
    unfold zrange in Hz. apply elem_of_seqZ in Hz.
    split; [lia | auto].
  - eapply StronglySorted_sublist;
      [apply bandsLoop_zooms | apply zrange_ascending].
  - unfold viewportBands.
    destruct (bandsLoop zoomAt maxRange minZ maxZ); discriminate.
  - intros radius. unfold autoBands.
    destruct (bandsLoop zoomAt maxRange minZ maxZ); discriminate.
Qed.

(** ** The range of every zoom *)

Lemma rangeAt_insert (m : gmap Z Q) (z z' : Z) (d : Q) :
  rangeAt (<[z := d]> m) z' = if bool_decide (z = z') then d else rangeAt m z'.
Proof.
  unfold rangeAt. case_bool_decide as Hz.
  - subst. rewrite lookup_insert_eq. reflexivity.
  - rewrite lookup_insert_ne by exact Hz. reflexivity.
Qed.

Lemma rangeAt_zeroed (keep : Z -> bool) (l : list Z) (m : gmap Z Q) (z : Z) :
  rangeAt (fold_left (fun m z0 => if keep z0 then m else <[z0 := 0%Q]> m) l m)
    z
  = if bool_decide (z ∈ l) && negb (keep z) then 0%Q else rangeAt m z.
Proof.
  revert m. induction l as [| a l IH]; intros m; cbn; [reflexivity |].
  rewrite IH.
  destruct (bool_decide_reflect (z ∈ l)) as [Hl | Hl]; cbn [andb].
  - rewrite (bool_decide_eq_true_2 (z ∈ a :: l))
      by (apply elem_of_cons; right; exact Hl).
    cbn [andb]. destruct (keep z) eqn:Ek; cbn [negb]; [| reflexivity].
    destruct (keep a) eqn:Eka; [reflexivity |].
    rewrite rangeAt_insert, bool_decide_eq_false_2 by congruence. reflexivity.
  - destruct (decide (z = a)) as [-> | Hne].
    + rewrite (bool_decide_eq_true_2 (a ∈ a :: l))
        by (apply elem_of_cons; left; reflexivity).
      cbn [andb]. destruct (keep a); cbn [negb]; [reflexivity |].
      rewrite rangeAt_insert, bool_decide_eq_true_2 by reflexivity.
      reflexivity.
    + rewrite (bool_decide_eq_false_2 (z ∈ a :: l)).
      2:{ intros H. apply elem_of_cons in H as [? | ?]; tauto. }
      cbn [andb]. destruct (keep a); [reflexivity |].
      rewrite rangeAt_insert, bool_decide_eq_false_2 by congruence.
      reflexivity.
Qed.

Lemma rangeAt_zeroIf (drop : Z -> bool) (l : list Z) (m : gmap Z Q) (z : Z) :
  rangeAt (fold_left (fun m z0 => if drop z0 then <[z0 := 0%Q]> m else m) l m)
    z
  = if bool_decide (z ∈ l) && drop z then 0%Q else rangeAt m z.
Proof.
  assert (fold_left (fun m z0 => if drop z0 then <[z0 := 0%Q]> m else m) l m
          = fold_left (fun m z0 => if negb (drop z0) then m
                                   else <[z0 := 0%Q]> m) l m) as ->.
  { revert m. induction l as [| a l IH]; intros m; cbn; [reflexivity |].
    rewrite IH. destruct (drop a); reflexivity. }
  rewrite (rangeAt_zeroed (fun z0 => negb (drop z0))), negb_involutive.
  reflexivity.
Qed.

Lemma qmax_cases (a b : Q) :
  (qmax a b = a /\ (b <= a)%Q) \/ (qmax a b = b /\ (a < b)%Q).
Proof.
  unfold qmax. destruct (qlt a b) eqn:E.
  - right. split; [reflexivity | apply qlt_true, E].
  - left. split; [reflexivity | apply qlt_false, E].
Qed.

(** The ranges after the loop over the bands: each is zero or the
    distance of a band recorded under that zoom, and none is less than
    such a distance. *)
Lemma rangeSteps_spec (activeMin top : Z) (bands : list Band)
    (m : gmap Z Q) :
  (forall z, rangeAt m z = 0%Q) ->
  let m1 := fold_left (rangeStep activeMin top) bands m in
  forall z,
    (0 <= rangeAt m1 z)%Q
    /\ (rangeAt m1 z = 0%Q
        \/ exists b, b ∈ bands /\ bandSlot activeMin top b = z
                     /\ rangeAt m1 z = maxDist b)
    /\ forall b, b ∈ bands -> bandSlot activeMin top b = z ->
         (maxDist b <= rangeAt m1 z)%Q.
Proof.
  intros H0. cbn zeta.
  assert (forall m0 : gmap Z Q,
            (forall z,
               (0 <= rangeAt m0 z)%Q
               /\ (rangeAt m0 z = 0%Q
                   \/ exists b, b ∈ bands /\ bandSlot activeMin top b = z
                                /\ rangeAt m0 z = maxDist b)) ->
            forall l, l ⊆ bands ->
            forall z,
              let m1 := fold_left (rangeStep activeMin top) l m0 in
              (0 <= rangeAt m1 z)%Q
              /\ (rangeAt m1 z = 0%Q
                  \/ exists b, b ∈ bands /\ bandSlot activeMin top b = z
                               /\ rangeAt m1 z = maxDist b)
              /\ (rangeAt m0 z <= rangeAt m1 z)%Q
              /\ forall b, b ∈ l -> bandSlot activeMin top b = z ->
                   (maxDist b <= rangeAt m1 z)%Q) as Hgen.
  { intros m0 Hm0 l. revert m0 Hm0.
    induction l as [| a l IH]; intros m0 Hm0 Hsub z; cbn zeta.
    - cbn [fold_left]. destruct (Hm0 z) as [Hge Hor].
      split; [exact Hge |]. split; [exact Hor |]. split; [lra |].
      intros b Hb. inversion Hb.
    - cbn [fold_left].
      set (ma := rangeStep activeMin top m0 a).
      assert (forall z', rangeAt ma z'
                = if bool_decide (bandSlot activeMin top a = z')
                  then qmax (rangeAt m0 (bandSlot activeMin top a))
                         (qmax 0 (maxDist a))
                  else rangeAt m0 z') as Hma
        by (intros z'; unfold ma, rangeStep; apply rangeAt_insert).
      assert (a ∈ bands) as Ha by (apply Hsub; left).
      assert (forall z',
                (0 <= rangeAt ma z')%Q
                /\ (rangeAt ma z' = 0%Q
                    \/ exists b, b ∈ bands /\ bandSlot activeMin top b = z'
                                 /\ rangeAt ma z' = maxDist b)) as Hma_ok.
      { intros z'. rewrite Hma. case_bool_decide as Hz; [| apply Hm0].
        subst z'. destruct (Hm0 (bandSlot activeMin top a)) as [Hge Hor].
        destruct (qmax_cases 0 (maxDist a)) as [[E1 H1] | [E1 H1]];
          destruct (qmax_cases (rangeAt m0 (bandSlot activeMin top a))
                      (qmax 0 (maxDist a))) as [[E2 H2] | [E2 H2]];
          rewrite E2; rewrite ?E1 in *.
        - split; [exact Hge | exact Hor].
        - split; [lra | left; reflexivity].
        - split; [exact Hge | exact Hor].
        - split; [lra |]. right. exists a. auto. }
      assert (l ⊆ bands) as Hsub'
        by (intros b Hb; apply Hsub; right; exact Hb).
      destruct (IH ma Hma_ok Hsub' z) as (Hge & Hor & Hmono & Hcov).
      split; [exact Hge |]. split; [exact Hor |].
      assert (rangeAt m0 z <= rangeAt ma z
              /\ (bandSlot activeMin top a = z -> maxDist a <= rangeAt ma z))%Q
        as [Hstep Hcova].
      { rewrite Hma. case_bool_decide as Hz.
        - subst z.
          destruct (qmax_cases 0 (maxDist a)) as [[E1 H1] | [E1 H1]];
            destruct (qmax_cases (rangeAt m0 (bandSlot activeMin top a))
                        (qmax 0 (maxDist a))) as [[E2 H2] | [E2 H2]];
            rewrite E2; rewrite ?E1 in *; split; intros; lra.
        - split; [lra | intros; contradiction]. }
      split; [lra |].
      intros b Hb Hbz. apply elem_of_cons in Hb as [-> | Hb].
      + specialize (Hcova Hbz). lra.
      + apply Hcov; assumption. }
  intros z.
  destruct (Hgen m ltac:(intros z'; rewrite H0; split; [lra | left; reflexivity])
              bands ltac:(intros b Hb; exact Hb) z)
    as (Hge & Hor & _ & Hcov).
  auto.
Qed.

(** X26: with the active zooms inside the zooms of the atlas, the range
    recorded for a zoom is never negative, is zero outside the active
    zooms, and inside them is the largest distance of the bands whose zoom
    is clamped to it: no band is lost, and a positive range is the
    distance of one of the bands. *)
Theorem range_by_zoom_covers_the_bands (atlasMin atlasMax activeMin top : Z)
    (bands : list Band) :
  atlasMin <= activeMin -> activeMin <= top -> top <= atlasMax ->
  let m := rangeByZoomOf atlasMin atlasMax activeMin top bands in
  (forall z, (0 <= rangeAt m z)%Q)
  /\ (forall z, ~ activeMin <= z <= top -> rangeAt m z = 0%Q)
  /\ (forall b, b ∈ bands ->
        activeMin <= bandSlot activeMin top b <= top
        /\ (maxDist b <= rangeAt m (bandSlot activeMin top b))%Q)
  /\ (forall z, (0 < rangeAt m z)%Q ->
        exists b, b ∈ bands /\ bandSlot activeMin top b = z
                  /\ rangeAt m z = maxDist b).
Proof.
  intros H1 H2 H3 m.
  set (m0 := fold_left (fun m z => <[z := 0%Q]> m) (zrange atlasMin atlasMax)
               (∅ : gmap Z Q)).
  assert (forall z, rangeAt m0 z = 0%Q) as H0.
  { intros z. unfold m0.
    rewrite (rangeAt_zeroIf (fun _ => true)).
    destruct (_ && _); reflexivity. }
  pose proof (rangeSteps_spec activeMin top bands m0 H0) as Hb.
  cbn zeta in Hb.
  set (m1 := fold_left (rangeStep activeMin top) bands m0) in *.
  assert (forall z, rangeAt m z
            = if bool_decide (z ∈ zrange atlasMin atlasMax)
                 && ((z <? activeMin) || (top <? z))
              then 0%Q else rangeAt m1 z) as Hm.
  { intros z. unfold m, rangeByZoomOf. fold m0. fold m1.
    apply (rangeAt_zeroIf (fun z0 => (z0 <? activeMin) || (top <? z0))). }
  assert (forall b, activeMin <= bandSlot activeMin top b <= top) as Hslot
    by (intros b; unfold bandSlot; lia).
  assert (forall z, activeMin <= z <= top ->
                    rangeAt m z = rangeAt m1 z) as Hin.
  { intros z Hz. rewrite Hm.
    destruct (Z.ltb_spec z activeMin); [lia |].
    destruct (Z.ltb_spec top z); [lia |].
    rewrite andb_false_r. reflexivity. }
  assert (forall z, ~ activeMin <= z <= top -> rangeAt m z = 0%Q) as Hout.
  { intros z Hz. rewrite Hm.
    destruct (bool_decide _ && _); [reflexivity |].
    destruct (Hb z) as (_ & [E | (b & _ & Hbz & _)] & _); [exact E |].
    exfalso. apply Hz. rewrite <- Hbz. apply Hslot. }
  split; [| split; [exact Hout | split]].
  - intros z. destruct (decide (activeMin <= z <= top)) as [Hz | Hz].
    + rewrite (Hin z Hz). apply Hb.
    + rewrite (Hout z Hz). lra.
  - intros b Hbin. split; [apply Hslot |].
    rewrite (Hin _ (Hslot b)). apply (Hb (bandSlot activeMin top b)).
    + exact Hbin.
    + reflexivity.
  - intros z Hpos. destruct (decide (activeMin <= z <= top)) as [Hz | Hz].
    + rewrite (Hin z Hz) in Hpos |- *.
      destruct (Hb z) as (_ & [E | Hex] & _); [rewrite E in Hpos; lra |].
      exact Hex.
    + rewrite (Hout z Hz) in Hpos. lra.
Qed.

Lemma range_by_zoom_covers_the_bands_witness :
  let bands := [mkBand 300 18; mkBand 1200 14; mkBand 5000 9] in
  let m := rangeByZoomOf 5 18 12 15 bands in
  (forall z, (0 <= rangeAt m z)%Q)
  /\ (forall z, ~ 12 <= z <= 15 -> rangeAt m z = 0%Q)
  /\ (forall b, b ∈ bands ->
        12 <= bandSlot 12 15 b <= 15
        /\ (maxDist b <= rangeAt m (bandSlot 12 15 b))%Q)
  /\ (forall z, (0 < rangeAt m z)%Q ->
        exists b, b ∈ bands /\ bandSlot 12 15 b = z
                  /\ rangeAt m z = maxDist b).
Proof.
  intros bands.
  apply (range_by_zoom_covers_the_bands 5 18 12 15 bands); lia.
Defined.

(** ** Capping the tiles of a zoom *)

Lemma Qceiling_half (k : Z) : Qceiling (inject_Z k / 2) = (k + 1) / 2.
Proof.
  unfold Qceiling, Qfloor, Qdiv, Qmult, Qinv, Qopp, inject_Z. cbn.
  change (Z.pos (1 * 2)) with 2. rewrite Z.mul_1_r.
  pose proof (Z.div_mod (- k) 2 ltac:(lia)).
  pose proof (Z.mod_pos_bound (- k) 2 ltac:(lia)).
  pose proof (Z.div_mod (k + 1) 2 ltac:(lia)).
  pose proof (Z.mod_pos_bound (k + 1) 2 ltac:(lia)).
  lia.
Qed.

(** One axis: the window lies within the tiles of the zoom, holds the
    camera tile and is at most [2 * half + 1] wide. *)
Lemma recentreAxis_spec (n size c : Z) :
  1 <= n <= 1073741824 -> 1 <= size <= 46340 -> 0 <= c < n ->
  let r := recentreAxis n size (size / 2) c in
  0 <= r.1 /\ r.1 <= c /\ c <= r.2 /\ r.2 <= n - 1
  /\ r.2 - r.1 + 1 <= 2 * (size / 2) + 1.
Proof.
  intros Hn Hs Hc. cbn zeta. unfold recentreAxis.
  set (half := size / 2).
  assert (0 <= half /\ 2 * half <= size /\ size <= 2 * half + 1)
    as (Hh0 & Hh1 & Hh2).
  { unfold half. pose proof (Z.div_mod size 2 ltac:(lia)).
    pose proof (Z.mod_pos_bound size 2 ltac:(lia)). lia. }
  clearbody half.
  rewrite (toInt32_small (c - half)), (toInt32_small (c + half)) by lia.
  set (lo := Z.max 0 (Z.min (n - 1) (c - half))).
  set (hi := Z.max 0 (Z.min (n - 1) (c + half))).
  assert (lo = Z.max 0 (c - half)) as Hlo by (unfold lo; lia).
  assert (hi = Z.min (n - 1) (c + half)) as Hhi by (unfold hi; lia).
  clearbody lo hi.
  destruct (Z.ltb_spec (hi - lo + 1) size) as [Hneed | Hfit];
    cbn [fst snd]; [| lia].
  rewrite Qceiling_half.
  set (ce := (size - (hi - lo + 1) + 1) / 2).
  assert (2 * ce <= size - (hi - lo + 1) + 1
          /\ size - (hi - lo + 1) <= 2 * ce) as [Hce1 Hce2].
  { unfold ce. pose proof (Z.div_mod (size - (hi - lo + 1) + 1) 2 ltac:(lia)).
    pose proof (Z.mod_pos_bound (size - (hi - lo + 1) + 1) 2 ltac:(lia)).
    lia. }
  clearbody ce.
  rewrite (toInt32_small (lo - ce)) by lia.
  set (lo' := Z.max 0 (Z.min (n - 1) (lo - ce))).
  assert (lo' = Z.max 0 (lo - ce)) as Hlo' by (unfold lo'; lia).
  clearbody lo'.
  rewrite (toInt32_small (lo' + size - 1)) by lia.
  lia.
Qed.

(** X27: the cap on the tiles of a zoom in viewport mode leaves bounds of
    at most [maxTiles] tiles alone; the others it replaces, where the
    camera has a tile, by a window around that tile, inside the tiles of
    the zoom and at most [2 * floor(size / 2) + 1] tiles wide and high with
    [size = floor(sqrt(maxTiles))].  For odd [size] the window has at most
    [maxTiles] tiles; for even [size] it can have more: with
    [maxTiles = 4] it has nine. *)
Theorem tile_cap_window (maxTiles z : Z) (c : Z * Z) (b0 : TileBounds) :
  0 <= z <= 30 -> 1 <= maxTiles < 2147483648 ->
  0 <= c.1 < 2 ^ z -> 0 <= c.2 < 2 ^ z ->
  let b := capTiles maxTiles z (Some c) b0 in
  let size := Z.max 1 (Z.sqrt maxTiles) in
  (tileCount b0 <= maxTiles -> b = b0)
  /\ (maxTiles < tileCount b0 ->
      0 <= xMin b <= c.1 /\ c.1 <= xMax b < 2 ^ z
      /\ 0 <= yMin b <= c.2 /\ c.2 <= yMax b < 2 ^ z
      /\ tileCount b <= (2 * (size / 2) + 1) * (2 * (size / 2) + 1)
      /\ (size mod 2 = 1 -> tileCount b <= maxTiles))
  /\ tileCount (capTiles 4 5 (Some (16, 16)) (mkTileBounds 0 0 31 31)) = 9.
Proof.
  intros Hz Hm Hx Hy b size.
  split; [| split; [| vm_compute; reflexivity]].
  - intros Hle. unfold b, capTiles.
    destruct (Z.leb_spec (tileCount b0) maxTiles); [reflexivity | lia].
  - intros Hgt. unfold b, capTiles.
    destruct (Z.leb_spec (tileCount b0) maxTiles); [lia |].
    fold size. rewrite shl1_pow2 by lia.
    assert (1 <= 2 ^ z <= 1073741824) as Hn.
    { split; [pose proof (Z.pow_pos_nonneg 2 z); lia |].
      change 1073741824 with (2 ^ 30). apply Z.pow_le_mono_r; lia. }
    assert (1 <= size <= 46340 /\ (size = 1 \/ size * size <= maxTiles))
      as [Hs Hsq].
    { unfold size. pose proof (Z.sqrt_spec maxTiles ltac:(lia)) as Hsp.
      cbv zeta in Hsp.
      assert (Z.sqrt maxTiles <= 46340).
      { destruct (Z.le_gt_cases (Z.sqrt maxTiles) 46340); [assumption |].
        assert (46341 * 46341 <= Z.sqrt maxTiles * Z.sqrt maxTiles)
          by (apply Z.mul_le_mono_nonneg; lia).
        lia. }
      split; [lia |].
      destruct (Z.le_gt_cases 1 (Z.sqrt maxTiles));
        [right; replace (Z.max 1 (Z.sqrt maxTiles)) with (Z.sqrt maxTiles)
           by lia; lia
        | left; lia]. }
    generalize dependent (2 ^ z). intros n Hx Hy Hn.
    pose proof (recentreAxis_spec n size c.1 Hn Hs Hx) as Hax.
    pose proof (recentreAxis_spec n size c.2 Hn Hs Hy) as Hay.
    cbn zeta in Hax, Hay.
    destruct (recentreAxis n size (size / 2) c.1) as [x0 x1].
    destruct (recentreAxis n size (size / 2) c.2) as [y0 y1].
    cbn [fst snd] in Hax, Hay. unfold tileCount.
    cbn [xMin xMax yMin yMax fst snd].
    set (wd := 2 * (size / 2) + 1) in *.
    assert (1 <= x1 - x0 + 1 <= wd) by lia.
    assert (1 <= y1 - y0 + 1 <= wd) by lia.
    assert ((x1 - x0 + 1) * (y1 - y0 + 1) <= wd * wd) as Hcount
      by (apply Z.mul_le_mono_nonneg; lia).
    split; [lia |]. split; [lia |]. split; [lia |]. split; [lia |].
    split; [exact Hcount |].
    intros Hodd.
    assert (wd = size) as Hwd.
    { unfold wd. pose proof (Z.div_mod size 2 ltac:(lia)). lia. }
    rewrite Hwd in Hcount. destruct Hsq as [-> | Hsq]; lia.
Qed.

Lemma tile_cap_window_witness :
  let b0 := mkTileBounds 0 0 31 31 in
  let b := capTiles 9 5 (Some (16, 16)) b0 in
  let size := Z.max 1 (Z.sqrt 9) in
  (tileCount b0 <= 9 -> b = b0)
  /\ (9 < tileCount b0 ->
      0 <= xMin b <= 16 /\ 16 <= xMax b < 2 ^ 5
      /\ 0 <= yMin b <= 16 /\ 16 <= yMax b < 2 ^ 5
      /\ tileCount b <= (2 * (size / 2) + 1) * (2 * (size / 2) + 1)
      /\ (size mod 2 = 1 -> tileCount b <= 9))
  /\ tileCount (capTiles 4 5 (Some (16, 16)) (mkTileBounds 0 0 31 31)) = 9.
Proof.
  intros b0.
  apply (tile_cap_window 9 5 (16, 16) b0); cbn; lia.
Defined.

(** ** The uniforms of the shader *)

Lemma history_rtLife (acts : list Action) (id : nat) :
  exists b,
    rtLife id false (trace (run acts newWorld)) = Some b
    /\ (b = true <-> rtOwned id (run acts newWorld)).
Proof.
  assert (rtStep newWorld (run acts newWorld)) as H
    by (apply rtStep_fold, step_rtStep).
  destruct H as (_ & _ & es & Ht & Hl).
  { split; intros z; intros; discriminate. }
  cbn [newWorld trace app] in Ht. rewrite Ht. apply Hl.
  split; [discriminate |]. intros (z & st & Hs & _). discriminate.
Qed.

Lemma history_statesOk (acts : list Action) : statesOk (run acts newWorld).
Proof.
  unfold run. apply statesOk_fold.
  - intros w a Hw. destruct a as [cfg f | cfg id s | t]; cbn.
    + apply update_statesOk, Hw.
    + destruct (findPending id w); [apply settle_statesOk, Hw | exact Hw].
    + apply clear_statesOk.
  - intros z' st' Hs. unfold stateAt in Hs. cbn in Hs.
    rewrite lookup_empty in Hs. discriminate.
Qed.

Lemma zoomSlots_registered (n : Z) (w : World) (i : nat) (z : Z) :
  _getAtlasZoomSlots n w !! i = Some z -> is_Some (stateAt z w).
Proof.
  unfold _getAtlasZoomSlots, zoomSlotsOf. intros Hi.
  apply lookup_take_Some in Hi as [Hi _].
  apply list_elem_of_lookup_2 in Hi.
  apply sortBy_elem, elem_of_elements, elem_of_dom in Hi. exact Hi.
Qed.

(** X28: after any history of frames, settled fetches and calls of [clear]
    on a new atlas, what [_setUniforms(true)] writes for a slot that has a
    zoom is the render target of the state of that zoom, which is
    allocated and not released, together with that zoom and a positive
    inverse cell size; for a slot without a zoom, and for every slot of
    [_setUniforms(false)], it writes no texture and zeros. *)
Theorem uniforms_show_live_render_targets (acts : list Action) (i : nat) :
  let w := run acts newWorld in
  let u := slotUniforms true w i in
  match _getAtlasZoomSlots 4 w !! i with
  | Some z =>
      exists st,
        stateAt z w = Some st
        /\ uTex u = Some (rt st)
        /\ rtLife (rt st) false (trace w) = Some true
        /\ uZoom u = z
        /\ uInvCell u = (1 / inject_Z (cellSize st))%Q
        /\ (0 < uInvCell u)%Q
  | None =>
      u = mkSlotUniforms None (0, 0, 0, 0%Q) 0%Q 0
  end
  /\ slotUniforms false w i = mkSlotUniforms None (0, 0, 0, 0%Q) 0%Q 0.
Proof.
  intros w u. split; [| reflexivity].
  unfold u, slotUniforms.
  destruct (_getAtlasZoomSlots 4 w !! i) as [z |] eqn:Ez; [| reflexivity].
  destruct (zoomSlots_registered 4 w i z Ez) as [st Hst].
  exists st. cbn [mbind option_bind uTex uZoom uInvCell default from_option id].
  rewrite Hst. cbn [fmap option_fmap option_map invCell].
  destruct (history_statesOk acts z st Hst) as (_ & Hc & _).
  destruct (Z.leb_spec (cellSize st) 0) as [| Hpos]; [lia |].
  split; [reflexivity |]. split; [reflexivity |].
  split.
  { destruct (history_rtLife acts (rt st)) as (b & Hb & Hown).
    fold w in Hb, Hown. rewrite Hb. f_equal. apply Hown.
    exists z, st. auto. }
  split; [reflexivity |]. split; [reflexivity |].
  apply Qlt_shift_div_l.
  - change 0%Q with (inject_Z 0). rewrite <- Zlt_Qlt. lia.
  - rewrite Qmult_0_l. reflexivity.
Qed.

(** ** Patching a material and taking the patch off again *)

(** X29: [installOnMaterial] on an unpatched material with a map wraps
    both hooks of the material once, and a second call changes nothing;
    [disableOnAllMaterials] then puts back the hooks the material had
    (a hook that was [undefined] keeps the patch), forgets the saved
    hooks and leaves a material that is unpatched again; it does not
    touch a material that is not patched, nor does [installOnMaterial]
    patch anything while the drape is disabled; a patch of another version
    over a patch wraps the saved hook, not the patch, when that hook is a
    function. *)
Theorem patch_round_trip (v : Z) (m : ShaderMaterial) :
  unpatched m ->
  let m1 := installOnMaterial true v m in
  let m2 := disableOnMaterial m1 in
  sm_onBeforeCompile m1 = HPatched (sm_onBeforeCompile m) (Js.toInt32 v)
  /\ sm_customProgramCacheKey m1
     = HPatched (sm_customProgramCacheKey m) (Js.toInt32 v)
  /\ installOnMaterial true v m1 = m1
  /\ sm_onBeforeCompile m2 = afterRoundTrip v (sm_onBeforeCompile m)
  /\ sm_customProgramCacheKey m2
     = afterRoundTrip v (sm_customProgramCacheKey m)
  /\ unpatched m2
  /\ disableOnMaterial m2 = m2
  /\ disableOnAllMaterials [[m1; m]; [m2]] = [[m2; m]; [m2]]
  /\ installOnMaterial false v m = m
  /\ forall v' id, sm_onBeforeCompile m = HFunction id ->
       sm_onBeforeCompile (installOnMaterial true v' m1)
       = HPatched (HFunction id) (Js.toInt32 v').
Proof.
  intros (Hmat & Hmap & Hinst & Hp1 & Hp2).
  destruct m as [im hm obc key nu inst ver p1 p2 un]. cbn in *. subst.
  cbn zeta. unfold installOnMaterial, disableOnMaterial. cbn.
  rewrite bool_decide_eq_true_2 by reflexivity. cbn.
  split; [reflexivity |]. split; [reflexivity |]. split; [reflexivity |].
  split; [destruct obc; reflexivity |].
  split; [destruct key; reflexivity |].
  split; [repeat split; reflexivity |].
  split; [reflexivity |]. split; [reflexivity |]. split; [reflexivity |].
  intros v' id ->. case_bool_decide as Hv; [| reflexivity].
  injection Hv as Hv. cbn. rewrite Hv. reflexivity.
Qed.

Lemma patch_round_trip_witness :
  let m := mkShaderMaterial true true (HFunction 1) (HFunction 2) false
             false None HUndefined HUndefined false in
  let m1 := installOnMaterial true 8 m in
  let m2 := disableOnMaterial m1 in
  sm_onBeforeCompile m1 = HPatched (sm_onBeforeCompile m) (Js.toInt32 8)
  /\ sm_customProgramCacheKey m1
     = HPatched (sm_customProgramCacheKey m) (Js.toInt32 8)
  /\ installOnMaterial true 8 m1 = m1
  /\ sm_onBeforeCompile m2 = afterRoundTrip 8 (sm_onBeforeCompile m)
  /\ sm_customProgramCacheKey m2
     = afterRoundTrip 8 (sm_customProgramCacheKey m)
  /\ unpatched m2
  /\ disableOnMaterial m2 = m2
  /\ disableOnAllMaterials [[m1; m]; [m2]] = [[m2; m]; [m2]]
  /\ installOnMaterial false 8 m = m
  /\ forall v' id, sm_onBeforeCompile m = HFunction id ->
       sm_onBeforeCompile (installOnMaterial true v' m1)
       = HPatched (HFunction id) (Js.toInt32 v').
Proof.
  intros m. apply (patch_round_trip 8 m). repeat split; reflexivity.
Defined.

(** ** The zooms of the viewport mode *)

(** X30: in viewport mode the zooms that a frame works on lie between the
    zooms of the atlas and are at most [maxViewportLevels] in number;
    with the four levels of the default, or fewer, a frame of the
    viewport strategy over these zooms leaves at most four states and
    [_getAtlasZoomSlots(4)] lists every one of them.  In bands mode the
    frame works on every zoom of the atlas. *)
Theorem viewport_mode_states_fit_the_slots (cfg : Config) (f : Frame)
    (cm : Q * Q) (w : World) (atlasMin atlasMax : Z) (bands : list Band)
    (heightZoom maxLevels : option Z) :
  atlasMin <= atlasMax ->
  let top := bandsTopZoom atlasMin atlasMax bands heightZoom in
  let levels := maxViewportLevels maxLevels in
  let r := tileZoomRange true atlasMin atlasMax top levels in
  atlasMin <= r.1 /\ r.1 <= r.2 /\ r.2 <= atlasMax
  /\ r.2 - r.1 < levels
  /\ tileZoomRange false atlasMin atlasMax top levels = (atlasMin, atlasMax)
  /\ (levels <= 4 ->
      minTileZoom (plan f) = r.1 -> maxTileZoom (plan f) = r.2 ->
      let w' := updateViewport cfg f cm w in
      (size (byZoom (atlas w')) <= 4)%nat
      /\ forall z, is_Some (stateAt z w') ->
           r.1 <= z <= r.2 /\ z ∈ _getAtlasZoomSlots 4 w').
Proof.
  intros Hatlas top levels r.
  assert (atlasMin <= top <= atlasMax) as Htop.
  { unfold top, bandsTopZoom.
    set (t1 := Z.max atlasMin (Z.min atlasMax (Js.toInt32 _))).
    assert (atlasMin <= t1 <= atlasMax) by (unfold t1; lia).
    clearbody t1. destruct heightZoom as [z |]; [| lia].
    set (h := Js.toInt32 z). clearbody h. lia. }
  assert (1 <= levels) as Hlev.
  { unfold levels, maxViewportLevels. destruct maxLevels; lia. }
  unfold r, tileZoomRange, activeMinZoom. cbn [fst snd].
  split; [lia |]. split; [lia |]. split; [lia |]. split; [lia |].
  split; [reflexivity |].
  intros H4 Hlo Hhi. set (w' := updateViewport cfg f cm w).
  assert (length (zoomLevels (minTileZoom (plan f)) (maxTileZoom (plan f)))
          <= 4)%nat as Hlen.
  { unfold zoomLevels, zrange. rewrite length_rev, length_seqZ, Hlo, Hhi.
    lia. }
  destruct (slots_hold_all w' _
              (updateViewport_states_in_range cfg f cm w)
              (zoomLevels_NoDup _ _) Hlen) as [Hsize Hslots].
  split; [exact Hsize |].
  intros z Hz. split; [| apply Hslots, Hz].
  apply updateViewport_states_in_range, zoomLevels_elem in Hz.
  rewrite Hlo, Hhi in Hz. exact Hz.
Qed.

Lemma viewport_mode_states_fit_the_slots_witness :
  let f := zoom12Frame 1000 in
  let top := bandsTopZoom 5 18 [mkBand 5000 12] None in
  let levels := maxViewportLevels (Some 1) in
  let r := tileZoomRange true 5 18 top levels in
  5 <= r.1 /\ r.1 <= r.2 /\ r.2 <= 18
  /\ r.2 - r.1 < levels
  /\ tileZoomRange false 5 18 top levels = (5, 18)
  /\ (levels <= 4 ->
      minTileZoom (plan f) = r.1 -> maxTileZoom (plan f) = r.2 ->
      let w' := updateViewport (repoConfig Viewport) f (100%Q, 100%Q)
                  newWorld in
      (size (byZoom (atlas w')) <= 4)%nat
      /\ forall z, is_Some (stateAt z w') ->
           r.1 <= z <= r.2 /\ z ∈ _getAtlasZoomSlots 4 w').
Proof.
  intros f.
  apply (viewport_mode_states_fit_the_slots (repoConfig Viewport) f
           (100%Q, 100%Q) newWorld 5 18 [mkBand 5000 12] None (Some 1)).
  lia.
Defined.
